(** * NOVA write path: the DAX read and write engine of [dax.c]

    A shallow embedding of the read path ([do_dax_mapping_read]), the
    partial-block merger ([nova_handle_head_tail_blocks]), the two writers
    ([nova_cow_file_write], [nova_inplace_file_write]) and the rollback
    routine ([nova_cleanup_incomplete_write]), together with the properties
    the specification states about them.

    Conventions.
    - Kernel integers are [Z].  Sums of file offsets stay far below the
      word size for every file the kernel accepts ([s_maxbytes]); the
      differences of unsigned values, where the C code can wrap around,
      are written with [ulong].
    - Pointers into persistent memory are byte offsets from the start of
      the device ([nova_get_block] adds the base address); [0] is [NULL].
    - Every call into a collaborator that matters for ordering appends an
      [event] to the ghost [trace] of the state. *)

From Stdlib Require Import ZArith List Lia Bool.
From Stdlib.Strings Require Import Byte.
From stdpp Require Import base option list gmap sets.

Local Open Scope Z_scope.

(** ** Constants of the kernel and of [nova.h] *)

Definition PAGE_SHIFT : Z := 12.
Definition PAGE_SIZE : Z := 4096.
Definition PAGE_MASK : Z := Z.lnot (PAGE_SIZE - 1).

Definition EIO : Z := 5.
Definition ENOMEM : Z := 12.
Definition EACCES : Z := 13.
Definition EFAULT : Z := 14.
Definition EINVAL : Z := 22.
Definition ENOSPC : Z := 28.

(** [unsigned long] / [size_t] / [u64] wrap-around. *)
Definition ulong (z : Z) : Z := z mod 2 ^ 64.

(** The super block of a mounted NOVA: 4 KiB blocks. *)
Definition s_blocksize : Z := 4096.
Definition s_blocksize_bits : Z := 12.

(** Modelled from the spec: the entry-type tag of a write-entry
    ("for each FILE_WRITE entry found"); [nova.h] numbers the log entry
    kinds from 1 and a zeroed slot carries none of them. *)
Definition FILE_WRITE : Z := 1.

(** Modelled from the spec: the geometry of a log page.  The sources walk
    the log with [is_last_entry] and [next_log_page]; a log page holds
    fixed-size entries up to [LOG_BLOCK_TAIL] and ends with the link to the
    next page. *)
Definition LOG_BLOCK_TAIL : Z := 4064.
Definition INVALID_MASK : Z := 4095.
Definition entry_size : Z := 64.

(** ** Persistent memory *)

Definition mem := Z -> byte.

(** [memcpy] inside persistent memory. *)
Definition mem_copy (m : mem) (dst src len : Z) : mem :=
  fun a => if (dst <=? a) && (a <? dst + len) then m (src + (a - dst)) else m a.

(** [memcpy] from a buffer [src] (indexed from [soff]) into memory. *)
Definition mem_store (m : mem) (dst : Z) (src : Z -> byte) (soff len : Z) : mem :=
  fun a => if (dst <=? a) && (a <? dst + len) then src (soff + (a - dst)) else m a.

Definition mem_zero (m : mem) (dst len : Z) : mem :=
  fun a => if (dst <=? a) && (a <? dst + len) then x00 else m a.

Definition mem_load (m : mem) (a len : Z) : list byte :=
  map (fun i => m (a + Z.of_nat i)) (seq 0 (Z.to_nat len)).

(** ** User buffers

    [ub_valid] is the number of leading bytes that can be accessed without
    a fault; [access_ok] only checks the address range. *)
Record ubuf := {
  ub_bytes : list byte;
  ub_valid : Z;
  ub_access_ok : bool
}.

Definition ub_byte (u : ubuf) (i : Z) : byte := nth (Z.to_nat i) (ub_bytes u) x00.

(** Bytes that a user copy of [n] bytes starting at buffer offset [boff]
    transfers before it faults. *)
Definition user_copy_ok (u : ubuf) (boff n : Z) : Z :=
  Z.max 0 (Z.min n (ub_valid u - boff)).

(** ** The extent log *)

Record nova_file_write_entry := {
  entry_type : Z;
  reassigned : Z;
  updating : Z;
  epoch_id : Z;
  pgoff : Z;
  num_pages : Z;
  invalid_pages : Z;
  block : Z;
  mtime : Z;
  size : Z
}.

Definition zero_entry : nova_file_write_entry :=
  {| entry_type := 0; reassigned := 0; updating := 0; epoch_id := 0; pgoff := 0;
     num_pages := 0; invalid_pages := 0; block := 0; mtime := 0; size := 0 |}.

Record nova_inode_update := {
  tail : Z;
  alter_tail : Z;
  curr_entry : Z
}.

(** A writable shared mapping tracked in the inode's vma set. *)
Record vma_item := {
  vm_pgoff : Z;
  vm_pages : Z;
  vm_write : bool
}.

(** ** Ghost trace of collaborator calls *)

Inductive event :=
  | EvLock
  | EvUnlock
  | EvAlloc (blocknr n : Z)
  | EvAllocFail (ret : Z)
  | EvFree (blocknr n : Z)
  | EvAppend (curr_p : Z)
  | EvAppendFail
  | EvInplaceUpdate (entry : Z)
  | EvUpdateInode (new_tail : Z)
  | EvReassign (begin_tail : Z).

(** ** The state: one inode, its log, and the device *)

Record nova_state := {
  (* persistent memory, data area *)
  pmem : mem;
  (* the inode log: entries by log position, page links by page offset *)
  log : gmap Z nova_file_write_entry;
  log_pages : gmap Z Z;
  (* struct nova_inode_info_header *)
  sih_log_tail : Z;
  sih_alter_log_tail : Z;
  sih_i_size : Z;
  sih_i_blocks : Z;
  sih_i_blk_type : Z;
  sih_tree : gmap Z Z;
  (* struct inode *)
  i_size : Z;
  i_blocks : Z;
  i_mtime : Z;
  (* address_space / vma set *)
  i_mmap : list vma_item;
  (* block allocator: the free blocks *)
  free_blocks : gset Z;
  (* checksum store: one code per block *)
  csums : gmap Z Z;
  (* module parameters and the environment *)
  data_csum : Z;
  data_parity : Z;
  epoch : Z;
  now : Z;
  kzalloc_ok : bool;
  trace : list event
}.

Definition set_pmem (m : mem) (s : nova_state) : nova_state :=
  {| pmem := m; log := log s; log_pages := log_pages s;
     sih_log_tail := sih_log_tail s; sih_alter_log_tail := sih_alter_log_tail s;
     sih_i_size := sih_i_size s; sih_i_blocks := sih_i_blocks s;
     sih_i_blk_type := sih_i_blk_type s; sih_tree := sih_tree s;
     i_size := i_size s; i_blocks := i_blocks s; i_mtime := i_mtime s;
     i_mmap := i_mmap s; free_blocks := free_blocks s; csums := csums s;
     data_csum := data_csum s; data_parity := data_parity s; epoch := epoch s;
     now := now s; kzalloc_ok := kzalloc_ok s; trace := trace s |}.

Definition set_log (l : gmap Z nova_file_write_entry) (s : nova_state) : nova_state :=
  {| pmem := pmem s; log := l; log_pages := log_pages s;
     sih_log_tail := sih_log_tail s; sih_alter_log_tail := sih_alter_log_tail s;
     sih_i_size := sih_i_size s; sih_i_blocks := sih_i_blocks s;
     sih_i_blk_type := sih_i_blk_type s; sih_tree := sih_tree s;
     i_size := i_size s; i_blocks := i_blocks s; i_mtime := i_mtime s;
     i_mmap := i_mmap s; free_blocks := free_blocks s; csums := csums s;
     data_csum := data_csum s; data_parity := data_parity s; epoch := epoch s;
     now := now s; kzalloc_ok := kzalloc_ok s; trace := trace s |}.

Definition set_tails (t at' : Z) (s : nova_state) : nova_state :=
  {| pmem := pmem s; log := log s; log_pages := log_pages s;
     sih_log_tail := t; sih_alter_log_tail := at';
     sih_i_size := sih_i_size s; sih_i_blocks := sih_i_blocks s;
     sih_i_blk_type := sih_i_blk_type s; sih_tree := sih_tree s;
     i_size := i_size s; i_blocks := i_blocks s; i_mtime := i_mtime s;
     i_mmap := i_mmap s; free_blocks := free_blocks s; csums := csums s;
     data_csum := data_csum s; data_parity := data_parity s; epoch := epoch s;
     now := now s; kzalloc_ok := kzalloc_ok s; trace := trace s |}.

Definition set_sih_i_blocks (b : Z) (s : nova_state) : nova_state :=
  {| pmem := pmem s; log := log s; log_pages := log_pages s;
     sih_log_tail := sih_log_tail s; sih_alter_log_tail := sih_alter_log_tail s;
     sih_i_size := sih_i_size s; sih_i_blocks := b;
     sih_i_blk_type := sih_i_blk_type s; sih_tree := sih_tree s;
     i_size := i_size s; i_blocks := i_blocks s; i_mtime := i_mtime s;
     i_mmap := i_mmap s; free_blocks := free_blocks s; csums := csums s;
     data_csum := data_csum s; data_parity := data_parity s; epoch := epoch s;
     now := now s; kzalloc_ok := kzalloc_ok s; trace := trace s |}.

Definition set_tree (t : gmap Z Z) (s : nova_state) : nova_state :=
  {| pmem := pmem s; log := log s; log_pages := log_pages s;
     sih_log_tail := sih_log_tail s; sih_alter_log_tail := sih_alter_log_tail s;
     sih_i_size := sih_i_size s; sih_i_blocks := sih_i_blocks s;
     sih_i_blk_type := sih_i_blk_type s; sih_tree := t;
     i_size := i_size s; i_blocks := i_blocks s; i_mtime := i_mtime s;
     i_mmap := i_mmap s; free_blocks := free_blocks s; csums := csums s;
     data_csum := data_csum s; data_parity := data_parity s; epoch := epoch s;
     now := now s; kzalloc_ok := kzalloc_ok s; trace := trace s |}.

(** [i_size_write(inode, pos); sih->i_size = pos]. *)
Definition set_sizes (sz : Z) (s : nova_state) : nova_state :=
  {| pmem := pmem s; log := log s; log_pages := log_pages s;
     sih_log_tail := sih_log_tail s; sih_alter_log_tail := sih_alter_log_tail s;
     sih_i_size := sz; sih_i_blocks := sih_i_blocks s;
     sih_i_blk_type := sih_i_blk_type s; sih_tree := sih_tree s;
     i_size := sz; i_blocks := i_blocks s; i_mtime := i_mtime s;
     i_mmap := i_mmap s; free_blocks := free_blocks s; csums := csums s;
     data_csum := data_csum s; data_parity := data_parity s; epoch := epoch s;
     now := now s; kzalloc_ok := kzalloc_ok s; trace := trace s |}.

Definition set_i_blocks (b : Z) (s : nova_state) : nova_state :=
  {| pmem := pmem s; log := log s; log_pages := log_pages s;
     sih_log_tail := sih_log_tail s; sih_alter_log_tail := sih_alter_log_tail s;
     sih_i_size := sih_i_size s; sih_i_blocks := sih_i_blocks s;
     sih_i_blk_type := sih_i_blk_type s; sih_tree := sih_tree s;
     i_size := i_size s; i_blocks := b; i_mtime := i_mtime s;
     i_mmap := i_mmap s; free_blocks := free_blocks s; csums := csums s;
     data_csum := data_csum s; data_parity := data_parity s; epoch := epoch s;
     now := now s; kzalloc_ok := kzalloc_ok s; trace := trace s |}.

Definition set_i_mtime (t : Z) (s : nova_state) : nova_state :=
  {| pmem := pmem s; log := log s; log_pages := log_pages s;
     sih_log_tail := sih_log_tail s; sih_alter_log_tail := sih_alter_log_tail s;
     sih_i_size := sih_i_size s; sih_i_blocks := sih_i_blocks s;
     sih_i_blk_type := sih_i_blk_type s; sih_tree := sih_tree s;
     i_size := i_size s; i_blocks := i_blocks s; i_mtime := t;
     i_mmap := i_mmap s; free_blocks := free_blocks s; csums := csums s;
     data_csum := data_csum s; data_parity := data_parity s; epoch := epoch s;
     now := now s; kzalloc_ok := kzalloc_ok s; trace := trace s |}.

Definition set_free (f : gset Z) (s : nova_state) : nova_state :=
  {| pmem := pmem s; log := log s; log_pages := log_pages s;
     sih_log_tail := sih_log_tail s; sih_alter_log_tail := sih_alter_log_tail s;
     sih_i_size := sih_i_size s; sih_i_blocks := sih_i_blocks s;
     sih_i_blk_type := sih_i_blk_type s; sih_tree := sih_tree s;
     i_size := i_size s; i_blocks := i_blocks s; i_mtime := i_mtime s;
     i_mmap := i_mmap s; free_blocks := f; csums := csums s;
     data_csum := data_csum s; data_parity := data_parity s; epoch := epoch s;
     now := now s; kzalloc_ok := kzalloc_ok s; trace := trace s |}.

Definition set_csums (c : gmap Z Z) (s : nova_state) : nova_state :=
  {| pmem := pmem s; log := log s; log_pages := log_pages s;
     sih_log_tail := sih_log_tail s; sih_alter_log_tail := sih_alter_log_tail s;
     sih_i_size := sih_i_size s; sih_i_blocks := sih_i_blocks s;
     sih_i_blk_type := sih_i_blk_type s; sih_tree := sih_tree s;
     i_size := i_size s; i_blocks := i_blocks s; i_mtime := i_mtime s;
     i_mmap := i_mmap s; free_blocks := free_blocks s; csums := c;
     data_csum := data_csum s; data_parity := data_parity s; epoch := epoch s;
     now := now s; kzalloc_ok := kzalloc_ok s; trace := trace s |}.

Definition emit (e : event) (s : nova_state) : nova_state :=
  {| pmem := pmem s; log := log s; log_pages := log_pages s;
     sih_log_tail := sih_log_tail s; sih_alter_log_tail := sih_alter_log_tail s;
     sih_i_size := sih_i_size s; sih_i_blocks := sih_i_blocks s;
     sih_i_blk_type := sih_i_blk_type s; sih_tree := sih_tree s;
     i_size := i_size s; i_blocks := i_blocks s; i_mtime := i_mtime s;
     i_mmap := i_mmap s; free_blocks := free_blocks s; csums := csums s;
     data_csum := data_csum s; data_parity := data_parity s; epoch := epoch s;
     now := now s; kzalloc_ok := kzalloc_ok s; trace := trace s ++ [e] |}.

(** ** Collaborators

    The block allocator and the checksum function are outside this core;
    the model takes them as parameters.  [alloc free hint num] answers
    [(ret, blocknr)]: [ret > 0] blocks starting at [blocknr], or a
    non-positive [ret] on failure. *)
Definition allocator := gset Z -> Z -> Z -> Z * Z.

Definition blocks (b n : Z) : gset Z := list_to_set (seqZ b n).

(** A first-fit allocator over a window of the device, used by the
    examples: it hands out the free run that starts at the lowest free
    block of [[lo, lo + span)], at most [cap] blocks per call. *)
Fixpoint first_free (free : gset Z) (lo : Z) (span : nat) : Z :=
  match span with
  | O => 0
  | S k => if decide (lo ∈ free) then lo else first_free free (lo + 1) k
  end.

Fixpoint run_length (free : gset Z) (b : Z) (n : nat) : Z :=
  match n with
  | O => 0
  | S k => if decide (b ∈ free) then 1 + run_length free (b + 1) k else 0
  end.

Definition first_fit (lo : Z) (span : nat) (cap : Z) : allocator :=
  fun free _ num =>
    let b := first_free free lo span in
    if b =? 0 then (- ENOSPC, 0)
    else (run_length free b (Z.to_nat (Z.min cap num)), b).

(** A byte-sum integrity code, used by the examples. *)
Definition byte_sum (l : list byte) : Z :=
  fold_right (fun b acc => (Z.of_N (Byte.to_N b) + 31 * acc) mod 4294967296) 0 l.

Section Model.

Variable alloc : allocator.
Variable csum_of : list byte -> Z.

(** Modelled from the spec: block address translation
    ([block_to_address(block_number)], pure) and the block-number to
    device-offset shift of [nova.h]. *)
Definition nova_get_block (off : Z) : Z := off.
Definition nova_get_block_off (blocknr : Z) : Z := Z.shiftl blocknr PAGE_SHIFT.

(** Modelled from the spec: the block size of the inode's block type; this
    core handles the 4 KiB type, the only one the spec's blocks have. *)
Definition nova_inode_blk_size (s : nova_state) : Z :=
  if sih_i_blk_type s =? 0 then 4096
  else if sih_i_blk_type s =? 1 then 2097152 else 1073741824.
Definition blk_type_to_shift (t : Z) : Z :=
  if t =? 0 then 12 else if t =? 1 then 21 else 30.

(** Modelled from the spec: [find_entry_covering(sih, logical_page)], the
    lookup in the logical-to-physical index ([sih->tree]); the result is a
    pointer to the entry in the log, [0] for a hole. *)
Definition nova_get_write_entry (s : nova_state) (index : Z) : Z :=
  default 0 (sih_tree s !! index).

(** Dereference of an entry pointer. *)
Definition entry_at (s : nova_state) (p : Z) : nova_file_write_entry :=
  default zero_entry (log s !! p).

(** Modelled from the spec: a write-entry maps the logical page range
    starting at [pgoff] to the physical block range starting at [block];
    [get_nvmm] is the block of one page of the entry. *)
Definition get_nvmm (e : nova_file_write_entry) (pg : Z) : Z :=
  Z.shiftr (block e) PAGE_SHIFT + pg - pgoff e.

(** Modelled from the spec: [find_mapping_for_page(inode, page)], is this
    page currently mapped for direct write access. *)
Definition nova_find_pgoff_in_vma (s : nova_state) (index : Z) : bool :=
  existsb (fun v => vm_write v && (vm_pgoff v <=? index) && (index <? vm_pgoff v + vm_pages v))
          (i_mmap s).

Definition mapping_mapped (s : nova_state) : bool :=
  match i_mmap s with [] => false | _ => true end.

(** Modelled from the spec: the checksum engine keeps one integrity code
    per block, computed over the whole block when a write completes and
    recomputed over the block contents on verification. *)
Definition block_bytes (m : mem) (blocknr : Z) : list byte :=
  mem_load m (Z.shiftl blocknr PAGE_SHIFT) PAGE_SIZE.

Definition block_csum_ok (s : nova_state) (blocknr : Z) : bool :=
  bool_decide (csums s !! blocknr = Some (csum_of (block_bytes (pmem s) blocknr))).

Definition nova_verify_data_csum (s : nova_state) (nvmm offset nr : Z) : bool :=
  let first := Z.shiftr offset PAGE_SHIFT in
  let last := Z.shiftr (offset + nr - 1) PAGE_SHIFT in
  forallb (block_csum_ok s) (seqZ (nvmm + first) (last - first + 1)).

Definition nova_update_block_csum_parity (s : nova_state) (blockbuf : Z -> byte)
    (blocknr : Z) : nova_state :=
  if data_csum s >? 0
  then set_csums (<[blocknr := csum_of (mem_load blockbuf 0 PAGE_SIZE)]> (csums s)) s
  else s.

(** ** Read path: [do_dax_mapping_read] *)

Record rd_locals := {
  r_index : Z;
  r_offset : Z;
  r_copied : Z;
  r_out : list byte
}.

Inductive rd_res :=
  | RdNext (l : rd_locals)
  | RdOut (l : rd_locals) (error : Z)
  | RdReturn (ret : Z).

(** From the label [memcpy:] to the end of the loop body. *)
Definition read_copy (s : nova_state) (dst : ubuf) (len : Z) (l : rd_locals)
    (nr : Z) (zero : bool) (nvmm : Z) : rd_res :=
  let index := r_index l in
  let offset := r_offset l in
  let copied := r_copied l in
  let dax_mem := nova_get_block (Z.shiftl nvmm PAGE_SHIFT) in
  let nr := ulong (nr - offset) in
  let nr := if nr >? ulong (len - copied) then ulong (len - copied) else nr in
  if negb zero && (data_csum s >? 0)
     && negb (nova_find_pgoff_in_vma s index)
     && negb (nova_verify_data_csum s nvmm offset nr)
  then RdOut l (- EIO)
  else
    let ok := user_copy_ok dst copied nr in
    let left := nr - ok in
    let bytes := if zero then repeat x00 (Z.to_nat ok)
                 else mem_load (pmem s) (dax_mem + offset) ok in
    let out := r_out l ++ bytes in
    if negb (left =? 0)
    then RdOut {| r_index := index; r_offset := offset; r_copied := copied; r_out := out |}
               (- EFAULT)
    else
      let copied := copied + (nr - left) in
      let offset := offset + (nr - left) in
      RdNext {| r_index := index + Z.shiftr offset PAGE_SHIFT;
                r_offset := Z.land offset (Z.lnot PAGE_MASK);
                r_copied := copied; r_out := out |}.

Definition read_body (s : nova_state) (dst : ubuf) (isize len end_index : Z)
    (l : rd_locals) : rd_res :=
  let index := r_index l in
  let offset := r_offset l in
  if (index >=? end_index)
     && ((index >? end_index)
         || (Z.land (isize - 1) (Z.lnot PAGE_MASK) + 1 <=? offset))
  then RdOut l 0
  else
    let entry := nova_get_write_entry s index in
    if entry =? 0 then read_copy s dst len l PAGE_SIZE true 0
    else
      let e := entry_at s entry in
      if (index <? pgoff e) || (ulong (index - pgoff e) >=? num_pages e)
      then RdReturn (- EINVAL)
      else
        let nr := if reassigned e =? 0
                  then ulong ((num_pages e - ulong (index - pgoff e)) * PAGE_SIZE)
                  else PAGE_SIZE in
        read_copy s dst len l nr false (get_nvmm e index).

(** The label [out:]: the result is the return value, the bytes stored in
    the user buffer, and the updated file position. *)
Definition read_out (pos : Z) (l : rd_locals) (error : Z) : Z * list byte * Z :=
  (if negb (r_copied l =? 0) then r_copied l else error, r_out l, pos + r_copied l).

Fixpoint read_loop (fuel : nat) (s : nova_state) (dst : ubuf)
    (pos isize len end_index : Z) (l : rd_locals) : option (Z * list byte * Z) :=
  match fuel with
  | O => None
  | S fuel =>
      match read_body s dst isize len end_index l with
      | RdNext l' =>
          if r_copied l' <? len
          then read_loop fuel s dst pos isize len end_index l'
          else Some (read_out pos l' 0)
      | RdOut l' error => Some (read_out pos l' error)
      | RdReturn ret => Some (ret, r_out l, pos)
      end
  end.

Definition do_dax_mapping_read (fuel : nat) (s : nova_state) (dst : ubuf)
    (len ppos : Z) : option (Z * list byte * Z) :=
  let pos := ppos in
  let l := {| r_index := Z.shiftr pos PAGE_SHIFT;
              r_offset := Z.land pos (Z.lnot PAGE_MASK);
              r_copied := 0; r_out := [] |} in
  if negb (ub_access_ok dst) then Some (read_out pos l (- EFAULT))
  else
    let isize := i_size s in
    if isize =? 0 then Some (read_out pos l 0)
    else
      let len := if len >? ulong (isize - pos) then ulong (isize - pos) else len in
      if len <=? 0 then Some (read_out pos l 0)
      else
        let end_index := Z.shiftr (isize - 1) PAGE_SHIFT in
        read_loop fuel s dst pos isize len end_index l.

(** ** Log positions

    Modelled from the spec: the extent log is an append-only sequence of
    fixed-size slots; the sources step through it with [is_last_entry],
    [next_log_page] and [curr_p += entry_size]. *)
Definition ENTRY_LOC (p : Z) : Z := Z.land p INVALID_MASK.
Definition BLOCK_OFF (p : Z) : Z := Z.land p (Z.lnot INVALID_MASK).

Definition is_last_entry (curr_p size : Z) : bool :=
  ENTRY_LOC curr_p + size >? LOG_BLOCK_TAIL.

Definition next_log_page (s : nova_state) (curr : Z) : Z :=
  default 0 (log_pages s !! BLOCK_OFF curr).

Definition nova_get_entry_type (s : nova_state) (p : Z) : Z :=
  entry_type (entry_at s p).

(** Modelled from the spec: [append_entry(inode, entry, txn) -> position]
    appends after the transaction's tail without making the entry visible
    and fails with OutOfSpace when the log cannot be extended.  The log
    pages are the ones already linked in [log_pages]; running off the last
    of them is the extension failure. *)
Definition nova_append_file_write_entry (s : nova_state)
    (data : nova_file_write_entry) (update : nova_inode_update)
    : nova_state * nova_inode_update * Z :=
  let curr_p := tail update in
  let curr_p := if curr_p =? 0 then 0
                else if is_last_entry curr_p entry_size
                     then next_log_page s curr_p else curr_p in
  if curr_p =? 0 then (emit EvAppendFail s, update, - ENOSPC)
  else (emit (EvAppend curr_p) (set_log (<[curr_p := data]> (log s)) s),
        {| tail := curr_p + entry_size; alter_tail := alter_tail update;
           curr_entry := curr_p |},
        0).

(** Modelled from the spec: [commit(inode, txn)], the store of the new
    tail (and mirror tail) into the inode. *)
Definition nova_update_inode (s : nova_state) (update : nova_inode_update) : nova_state :=
  emit (EvUpdateInode (tail update)) (set_tails (tail update) (alter_tail update) s).

(** Modelled from the spec: the allocator interface,
    [alloc_blocks(hint, count) -> (start_block, allocated_count)] and
    [free_blocks(start_block, count)].  A failed allocation leaves
    [blocknr] as it was. *)
Definition nova_new_data_blocks (s : nova_state) (blocknr start_blk num : Z)
    : nova_state * Z * Z :=
  let '(ret, b) := alloc (free_blocks s) start_blk num in
  if ret >? 0
  then (emit (EvAlloc b ret) (set_free (free_blocks s ∖ blocks b ret) s), b, ret)
  else (emit (EvAllocFail ret) s, blocknr, ret).

Definition nova_free_data_blocks (s : nova_state) (blocknr num : Z) : nova_state :=
  emit (EvFree blocknr num) (set_free (free_blocks s ∪ blocks blocknr num) s).

(** Modelled from the spec: the in-place mutable fields of a write-entry,
    [update_entry_inplace(entry, new_size, new_epoch)] and the "updating"
    flag. *)
Definition nova_set_write_entry_updating (s : nova_state) (entry : Z) (val : Z) : nova_state :=
  match log s !! entry with
  | Some e =>
      set_log (<[entry := {| entry_type := entry_type e; reassigned := reassigned e;
                             updating := val; epoch_id := epoch_id e; pgoff := pgoff e;
                             num_pages := num_pages e; invalid_pages := invalid_pages e;
                             block := block e; mtime := mtime e; size := size e |}]> (log s)) s
  | None => s
  end.

Definition nova_inplace_update_write_entry (s : nova_state) (entry : Z)
    (new_epoch new_size : Z) : nova_state :=
  emit (EvInplaceUpdate entry)
    match log s !! entry with
    | Some e =>
        set_log (<[entry := {| entry_type := entry_type e; reassigned := reassigned e;
                               updating := 0; epoch_id := new_epoch; pgoff := pgoff e;
                               num_pages := num_pages e; invalid_pages := invalid_pages e;
                               block := block e; mtime := mtime e; size := new_size |}]> (log s)) s
    | None => s
    end.

(** Modelled from the spec: [reassign_overlap] re-links the index so the
    newest entry wins for every page it covers, invalidating the pages
    stolen from older entries; the blocks of a fully invalidated entry go
    back to the allocator. *)
Definition nova_invalidate_page (s : nova_state) (old : Z) : nova_state :=
  match log s !! old with
  | Some e =>
      let e' := {| entry_type := entry_type e; reassigned := 1;
                   updating := updating e; epoch_id := epoch_id e; pgoff := pgoff e;
                   num_pages := num_pages e; invalid_pages := invalid_pages e + 1;
                   block := block e; mtime := mtime e; size := size e |} in
      let s := set_log (<[old := e']> (log s)) s in
      if invalid_pages e' =? num_pages e'
      then nova_free_data_blocks s (Z.shiftr (block e') PAGE_SHIFT) (num_pages e')
      else s
  | None => s
  end.

Definition nova_assign_page (entry : Z) (s : nova_state) (pg : Z) : nova_state :=
  let old := nova_get_write_entry s pg in
  let s := if old =? 0 then s else nova_invalidate_page s old in
  set_tree (<[pg := entry]> (sih_tree s)) s.

Definition nova_assign_write_entry (s : nova_state) (entry : Z) : nova_state :=
  let e := entry_at s entry in
  fold_left (nova_assign_page entry) (seqZ (pgoff e) (num_pages e)) s.

(** Modelled from the spec: [find_next_entry(sih, logical_page)], the
    entry with smallest [pgoff] at or after the page, [0] when none. *)
Definition nova_find_next_entry (s : nova_state) (start_blk : Z) : Z :=
  let better (best cand : Z) : Z :=
    if cand =? 0 then best
    else if pgoff (entry_at s cand) <? start_blk then best
    else if best =? 0 then cand
    else if pgoff (entry_at s cand) <? pgoff (entry_at s best) then cand else best in
  fold_left better (map snd (map_to_list (sih_tree s))) 0.

(** ** Partial-block merger *)

Definition nova_copy_partial_block (s : nova_state) (entry index offset length kmem : Z)
    : nova_state :=
  let nvmm := get_nvmm (entry_at s entry) index in
  let ptr := nova_get_block (Z.shiftl nvmm PAGE_SHIFT) in
  if negb (ptr =? 0)
  then set_pmem (mem_copy (pmem s) (kmem + offset) (ptr + offset) length) s
  else s.

Definition nova_handle_partial_block (s : nova_state) (entry index offset length kmem : Z)
    : nova_state :=
  if entry =? 0
  then set_pmem (mem_zero (pmem s) (kmem + offset) length) s
  else nova_copy_partial_block s entry index offset length kmem.

Definition nova_handle_head_tail_blocks (s : nova_state) (pos count kmem : Z) : nova_state :=
  let offset := Z.land pos (s_blocksize - 1) in
  let num_blocks := Z.shiftr (ulong (count + offset - 1)) s_blocksize_bits + 1 in
  let offset := Z.land pos (nova_inode_blk_size s - 1) in
  let start_blk := Z.shiftr pos s_blocksize_bits in
  let end_blk := start_blk + num_blocks - 1 in
  let s :=
    if negb (offset =? 0)
    then nova_handle_partial_block s (nova_get_write_entry s start_blk) start_blk
                                   0 offset kmem
    else s in
  let kmem := kmem + Z.shiftl (num_blocks - 1) s_blocksize_bits in
  let eblk_offset := Z.land (pos + count) (nova_inode_blk_size s - 1) in
  if negb (eblk_offset =? 0)
  then nova_handle_partial_block s (nova_get_write_entry s end_blk) end_blk
                                 eblk_offset (s_blocksize - eblk_offset) kmem
  else s.

(** ** Log walkers *)

Fixpoint reassign_loop (fuel : nat) (s : nova_state) (curr_p : Z)
    : option (nova_state * Z) :=
  match fuel with
  | O => None
  | S fuel =>
      if negb (curr_p =? 0) && negb (curr_p =? sih_log_tail s)
      then
        let curr_p := if is_last_entry curr_p entry_size
                      then next_log_page s curr_p else curr_p in
        if curr_p =? 0 then Some (s, - EINVAL)
        else if negb (nova_get_entry_type s curr_p =? FILE_WRITE)
        then reassign_loop fuel s (curr_p + entry_size)
        else reassign_loop fuel (nova_assign_write_entry s curr_p) (curr_p + entry_size)
      else Some (s, 0)
  end.

Definition nova_reassign_file_tree (fuel : nat) (s : nova_state) (begin_tail : Z)
    : option (nova_state * Z) :=
  reassign_loop fuel (emit (EvReassign begin_tail) s) begin_tail.

Fixpoint cleanup_loop (fuel : nat) (s : nova_state) (curr_p end_tail : Z)
    : option (nova_state * Z) :=
  match fuel with
  | O => None
  | S fuel =>
      if negb (curr_p =? end_tail)
      then
        let curr_p := if is_last_entry curr_p entry_size
                      then next_log_page s curr_p else curr_p in
        if curr_p =? 0 then Some (s, - EINVAL)
        else if negb (nova_get_entry_type s curr_p =? FILE_WRITE)
        then cleanup_loop fuel s (curr_p + entry_size) end_tail
        else
          let entry := entry_at s curr_p in
          let blocknr := Z.shiftr (block entry) PAGE_SHIFT in
          cleanup_loop fuel (nova_free_data_blocks s blocknr (num_pages entry))
                       (curr_p + entry_size) end_tail
      else Some (s, 0)
  end.

Definition nova_cleanup_incomplete_write (fuel : nat) (s : nova_state)
    (blocknr allocated begin_tail end_tail : Z) : option (nova_state * Z) :=
  let s := if (blocknr >? 0) && (allocated >? 0)
           then nova_free_data_blocks s blocknr allocated else s in
  if (begin_tail =? 0) || (end_tail =? 0) then Some (s, 0)
  else cleanup_loop fuel s begin_tail end_tail.

Definition nova_init_file_write_entry (epoch_id pgoff num_pages blocknr time file_size : Z)
    : nova_file_write_entry :=
  {| entry_type := FILE_WRITE; reassigned := 0; updating := 0; epoch_id := epoch_id;
     pgoff := pgoff; num_pages := num_pages; invalid_pages := 0;
     block := nova_get_block_off blocknr; mtime := time; size := file_size |}.

(** ** Integrity protection of freshly written blocks:
       [nova_protect_file_data] *)

Record pr_locals := {
  p_buf : Z -> byte;
  p_blocknr : Z;
  p_pos : Z;
  p_boff : Z;
  p_count : Z;
  p_bytes : Z
}.

(** The old bytes of a partial block are verified (unless the page is
    mapped for writing or the write is in place) and copied into the block
    buffer; [inl] is the error exit. *)
Definition protect_old_bytes (s : nova_state) (blockbuf : Z -> byte)
    (blk from len : Z) (inplace : bool) : Z + (Z -> byte) :=
  let entry := nova_get_write_entry s blk in
  if entry =? 0 then inr blockbuf
  else
    let nvmm := get_nvmm (entry_at s entry) blk in
    let nvmmoff := nova_get_block_off nvmm in
    let blockptr := nova_get_block nvmmoff in
    let mapped := nova_find_pgoff_in_vma s blk in
    if (data_csum s >? 0) && negb mapped && negb inplace
       && negb (nova_verify_data_csum s nvmm from len)
    then inl (- EIO)
    else inr (mem_store blockbuf from (pmem s) (blockptr + from) len).

Fixpoint protect_loop (fuel : nat) (s : nova_state) (u : ubuf) (l : pr_locals)
    : option (nova_state * pr_locals * Z) :=
  match fuel with
  | O => None
  | S fuel =>
      let s := nova_update_block_csum_parity s (p_buf l) (p_blocknr l) in
      let count := ulong (p_count l - p_bytes l) in
      let bytes := if count <? s_blocksize then count else s_blocksize in
      let boff := p_boff l + p_bytes l in
      let ok := user_copy_ok u boff bytes in
      let l' := {| p_buf := mem_store (p_buf l) 0 (ub_byte u) boff ok;
                   p_blocknr := p_blocknr l + 1;
                   p_pos := p_pos l + p_bytes l;
                   p_boff := boff;
                   p_count := count;
                   p_bytes := bytes |} in
      if negb (bytes - ok =? 0) then Some (s, l', - EFAULT)
      else if count >? s_blocksize then protect_loop fuel s u l'
      else Some (s, l', 0)
  end.

Definition nova_protect_file_data (fuel : nat) (s : nova_state) (u : ubuf)
    (boff pos count blocknr : Z) (inplace : bool) : option (nova_state * Z) :=
  let blocksize := s_blocksize in
  let offset := Z.land pos (blocksize - 1) in
  let num_blocks := Z.shiftr (ulong (offset + count - 1)) s_blocksize_bits + 1 in
  let start_blk := Z.shiftr pos s_blocksize_bits in
  let end_blk := start_blk + num_blocks - 1 in
  if negb (kzalloc_ok s) then Some (s, - ENOMEM)
  else
    let bytes := ulong (blocksize - offset) in
    let bytes := if bytes >? count then count else bytes in
    let ok := user_copy_ok u boff bytes in
    let blockbuf := mem_store (fun _ => x00) offset (ub_byte u) boff ok in
    if negb (bytes - ok =? 0) then Some (s, - EFAULT)
    else
      match (if negb (offset =? 0)
             then protect_old_bytes s blockbuf start_blk 0 offset inplace
             else inr blockbuf) with
      | inl ret => Some (s, ret)
      | inr blockbuf =>
          let l := {| p_buf := blockbuf; p_blocknr := blocknr; p_pos := pos;
                      p_boff := boff; p_count := count; p_bytes := bytes |} in
          match (if num_blocks =? 1 then Some (s, l, 0) else protect_loop fuel s u l) with
          | None => None
          | Some (s, l, ret) =>
              if negb (ret =? 0) then Some (s, ret)
              else
                let eblk_offset := Z.land (p_pos l + p_count l) (blocksize - 1) in
                match (if negb (eblk_offset =? 0)
                       then
                         match protect_old_bytes s (p_buf l) end_blk eblk_offset
                                 (blocksize - eblk_offset) inplace with
                         | inl ret => inl ret
                         | inr buf =>
                             if (nova_get_write_entry s end_blk =? 0) && (num_blocks >? 1)
                             then inr (mem_zero buf eblk_offset (blocksize - eblk_offset))
                             else inr buf
                         end
                       else inr (p_buf l)) with
                | inl ret => Some (s, ret)
                | inr buf => Some (nova_update_block_csum_parity s buf (p_blocknr l), 0)
                end
          end
      end.

(** ** The writers *)

Record file := {
  f_append : bool;        (* O_APPEND *)
  f_remove_privs : Z      (* result of file_remove_privs *)
}.

Record wr_locals := {
  l_pos : Z;
  l_count : Z;
  l_num_blocks : Z;
  l_written : Z;
  l_buf : Z;
  l_blocknr : Z;
  l_allocated : Z;
  l_status : Z;
  l_begin_tail : Z;
  l_update : nova_inode_update;
  l_update_log : bool
}.

Inductive wr_res :=
  | WrNext (s : nova_state) (l : wr_locals)
  | WrBreak (s : nova_state) (l : wr_locals)
  | WrOut (s : nova_state) (l : wr_locals) (ret : Z).

Definition set_l_alloc (blocknr allocated : Z) (l : wr_locals) : wr_locals :=
  {| l_pos := l_pos l; l_count := l_count l; l_num_blocks := l_num_blocks l;
     l_written := l_written l; l_buf := l_buf l; l_blocknr := blocknr;
     l_allocated := allocated; l_status := l_status l; l_begin_tail := l_begin_tail l;
     l_update := l_update l; l_update_log := l_update_log l |}.

Definition set_l_update (u : nova_inode_update) (l : wr_locals) : wr_locals :=
  {| l_pos := l_pos l; l_count := l_count l; l_num_blocks := l_num_blocks l;
     l_written := l_written l; l_buf := l_buf l; l_blocknr := l_blocknr l;
     l_allocated := l_allocated l; l_status := l_status l; l_begin_tail := l_begin_tail l;
     l_update := u; l_update_log := l_update_log l |}.

Definition set_l_status (st : Z) (l : wr_locals) : wr_locals :=
  {| l_pos := l_pos l; l_count := l_count l; l_num_blocks := l_num_blocks l;
     l_written := l_written l; l_buf := l_buf l; l_blocknr := l_blocknr l;
     l_allocated := l_allocated l; l_status := st; l_begin_tail := l_begin_tail l;
     l_update := l_update l; l_update_log := l_update_log l |}.

Definition set_l_begin_tail (b : Z) (l : wr_locals) : wr_locals :=
  {| l_pos := l_pos l; l_count := l_count l; l_num_blocks := l_num_blocks l;
     l_written := l_written l; l_buf := l_buf l; l_blocknr := l_blocknr l;
     l_allocated := l_allocated l; l_status := l_status l; l_begin_tail := b;
     l_update := l_update l; l_update_log := l_update_log l |}.

Definition set_l_update_log (b : bool) (l : wr_locals) : wr_locals :=
  {| l_pos := l_pos l; l_count := l_count l; l_num_blocks := l_num_blocks l;
     l_written := l_written l; l_buf := l_buf l; l_blocknr := l_blocknr l;
     l_allocated := l_allocated l; l_status := l_status l; l_begin_tail := l_begin_tail l;
     l_update := l_update l; l_update_log := b |}.

(** [status = copied; written += copied; pos += copied; buf += copied;
    count -= copied; num_blocks -= allocated]. *)
Definition l_advance (copied : Z) (l : wr_locals) : wr_locals :=
  {| l_pos := l_pos l + copied; l_count := ulong (l_count l - copied);
     l_num_blocks := ulong (l_num_blocks l - l_allocated l);
     l_written := l_written l + copied; l_buf := l_buf l + copied;
     l_blocknr := l_blocknr l; l_allocated := l_allocated l; l_status := copied;
     l_begin_tail := l_begin_tail l; l_update := l_update l;
     l_update_log := l_update_log l |}.

(** The user copy [memcpy_to_pmem_nocache(kmem + offset, buf, bytes)];
    the result is the number of bytes left uncopied. *)
Definition memcpy_to_pmem_nocache (s : nova_state) (dst : Z) (u : ubuf) (boff bytes : Z)
    : nova_state * Z :=
  let ok := user_copy_ok u boff bytes in
  (set_pmem (mem_store (pmem s) dst (ub_byte u) boff ok) s, bytes - ok).

(** The tail of a loop iteration that both writers share: account for the
    copied bytes, turn a short copy into [-EFAULT], leave on error. *)
Definition wr_account (copied bytes : Z) (l : wr_locals) : wr_locals :=
  let l := if copied >? 0 then l_advance copied l else l in
  if negb (copied =? bytes)
  then (if l_status l >=? 0 then set_l_status (- EFAULT) l else l)
  else l.

(** The pieces of a loop iteration that the two writers have verbatim. *)

(** [bytes = sb->s_blocksize * allocated - offset;
     if (bytes > count) bytes = count;] *)
Definition wr_bytes (allocated offset count : Z) : Z :=
  let bytes := ulong (s_blocksize * allocated - offset) in
  if bytes >? count then count else bytes.

(** The partial-block merge (for a freshly allocated run, [merge]) and
    then the copy from the user buffer; the result is the state and
    [copied]. *)
Definition wr_copy_in (merge : bool) (s : nova_state) (u : ubuf) (l : wr_locals)
    (offset bytes kmem : Z) : nova_state * Z :=
  let s := if merge
              && (negb (offset =? 0)
                  || negb (Z.land (offset + bytes) (PAGE_SIZE - 1) =? 0))
           then nova_handle_head_tail_blocks s (l_pos l) bytes kmem else s in
  let '(s, uncopied) := memcpy_to_pmem_nocache s (kmem + offset) u (l_buf l) bytes in
  (s, bytes - uncopied).

(** [if (data_csum > 0 || data_parity > 0) ret = nova_protect_file_data(...)]. *)
Definition wr_protect (fuel : nat) (s : nova_state) (u : ubuf) (l : wr_locals)
    (bytes : Z) (inplace : bool) : option (nova_state * Z) :=
  if (data_csum s >? 0) || (data_parity s >? 0)
  then nova_protect_file_data fuel s u (l_buf l) (l_pos l) bytes (l_blocknr l) inplace
  else Some (s, 0).

Definition wr_file_size (s : nova_state) (pos copied : Z) : Z :=
  if pos + copied >? i_size s then pos + copied else i_size s.

(** [nova_init_file_write_entry] and [nova_append_file_write_entry] for
    the run just allocated. *)
Definition wr_append (s : nova_state) (l : wr_locals) (epoch_id time start_blk copied : Z)
    : nova_state * wr_locals * Z :=
  let entry_data := nova_init_file_write_entry epoch_id start_blk (l_allocated l)
                      (l_blocknr l) time (wr_file_size s (l_pos l) copied) in
  let '(s, update, ret) := nova_append_file_write_entry s entry_data (l_update l) in
  (s, set_l_update update l, ret).

Definition cow_body (fuel : nat) (s : nova_state) (u : ubuf) (epoch_id time : Z)
    (l : wr_locals) : option wr_res :=
  let offset := Z.land (l_pos l) (nova_inode_blk_size s - 1) in
  let start_blk := Z.shiftr (l_pos l) s_blocksize_bits in
  let '(s, blocknr, allocated) :=
    nova_new_data_blocks s (l_blocknr l) start_blk (l_num_blocks l) in
  let l := set_l_alloc blocknr allocated l in
  if allocated <=? 0 then Some (WrOut s l allocated)
  else
    let bytes := wr_bytes allocated offset (l_count l) in
    let kmem := nova_get_block (nova_get_block_off blocknr) in
    let '(s, copied) := wr_copy_in true s u l offset bytes kmem in
    match wr_protect fuel s u l bytes false with
    | None => None
    | Some (s, ret) =>
        if negb (ret =? 0) then Some (WrOut s l ret)
        else
          let '(s, l, ret) := wr_append s l epoch_id time start_blk copied in
          if negb (ret =? 0) then Some (WrOut s l (- ENOSPC))
          else
            let l := wr_account copied bytes l in
            if l_status l <? 0 then Some (WrBreak s l)
            else
              Some (WrNext s (if l_begin_tail l =? 0
                              then set_l_begin_tail (curr_entry (l_update l)) l
                              else l))
    end.

Fixpoint cow_loop (fuel : nat) (s : nova_state) (u : ubuf) (epoch_id time : Z)
    (l : wr_locals) : option wr_res :=
  match fuel with
  | O => None
  | S fuel =>
      if l_num_blocks l >? 0
      then match cow_body fuel s u epoch_id time l with
           | Some (WrNext s l) => cow_loop fuel s u epoch_id time l
           | r => r
           end
      else Some (WrBreak s l)
  end.

(** The label [out:] of both writers. *)
Definition write_out (fuel : nat) (s : nova_state) (l : wr_locals) (ret ppos : Z)
    (need_lock : bool) : option (nova_state * Z * Z) :=
  match (if ret <? 0
         then nova_cleanup_incomplete_write fuel s (l_blocknr l) (l_allocated l)
                (l_begin_tail l) (tail (l_update l))
         else Some (s, 0)) with
  | None => None
  | Some (s, _) =>
      let s := if need_lock then emit EvUnlock s else s in
      Some (s, ret, ppos)
  end.

Definition wr_init (s : nova_state) (pos len num_blocks : Z) : wr_locals :=
  {| l_pos := pos; l_count := len; l_num_blocks := num_blocks; l_written := 0;
     l_buf := 0; l_blocknr := 0; l_allocated := 0; l_status := 0; l_begin_tail := 0;
     l_update := {| tail := sih_log_tail s; alter_tail := sih_alter_log_tail s;
                    curr_entry := 0 |};
     l_update_log := false |}.

Definition wr_none : wr_locals :=
  {| l_pos := 0; l_count := 0; l_num_blocks := 0; l_written := 0;
     l_buf := 0; l_blocknr := 0; l_allocated := 0; l_status := 0; l_begin_tail := 0;
     l_update := {| tail := 0; alter_tail := 0; curr_entry := 0 |};
     l_update_log := false |}.

(** The code between the end of the loop and the label [out:] of the
    copy-on-write writer. *)
Definition cow_commit (fuel : nat) (s : nova_state) (l : wr_locals)
    (total_blocks ppos : Z) (need_lock : bool) : option (nova_state * Z * Z) :=
  let data_bits := blk_type_to_shift (sih_i_blk_type s) in
  let s := set_sih_i_blocks
             (sih_i_blocks s + Z.shiftl total_blocks (data_bits - s_blocksize_bits)) s in
  let s := nova_update_inode s (l_update l) in
  match nova_reassign_file_tree fuel s (l_begin_tail l) with
  | None => None
  | Some (s, ret) =>
      if negb (ret =? 0) then write_out fuel s l ret ppos need_lock
      else
        let s := set_i_blocks (sih_i_blocks s) s in
        let ret := l_written l in
        let s := if l_pos l >? i_size s then set_sizes (l_pos l) s else s in
        write_out fuel s l ret (l_pos l) need_lock
  end.

(** The result is the new state, the return value and the file position. *)
Definition nova_cow_file_write (fuel : nat) (s : nova_state) (filp : file) (u : ubuf)
    (len ppos : Z) (need_lock : bool) : option (nova_state * Z * Z) :=
  if len =? 0 then Some (s, 0, ppos)
  else if mapping_mapped s then Some (s, - EACCES, ppos)
  else
    let s := if need_lock then emit EvLock s else s in
    if negb (ub_access_ok u) then write_out fuel s wr_none (- EFAULT) ppos need_lock
    else
      let pos := if f_append filp then i_size s else ppos in
      let count := len in
      let offset := Z.land pos (s_blocksize - 1) in
      let num_blocks := Z.shiftr (ulong (count + offset - 1)) s_blocksize_bits + 1 in
      let total_blocks := num_blocks in
      if negb (f_remove_privs filp =? 0)
      then write_out fuel s wr_none (f_remove_privs filp) ppos need_lock
      else
        let s := set_i_mtime (now s) s in
        let time := now s in
        let epoch_id := epoch s in
        match cow_loop fuel s u epoch_id time (wr_init s pos count num_blocks) with
        | None => None
        | Some (WrOut s l ret) => write_out fuel s l ret ppos need_lock
        | Some (WrNext s l) => cow_commit fuel s l total_blocks ppos need_lock
        | Some (WrBreak s l) => cow_commit fuel s l total_blocks ppos need_lock
        end.

(** [nova_check_existing_entry]: the result is [(ent_blks, *ret_entry,
    *inplace)].  The branch after [BUG()] is kept as the code has it. *)
Definition nova_check_existing_entry (s : nova_state) (num_blocks start_blk : Z)
    (check_next : bool) (epoch_id' : Z) : Z * Z * bool :=
  let entry := nova_get_write_entry s start_blk in
  if negb (entry =? 0) then
    let e := entry_at s entry in
    let ent_blks := if reassigned e =? 0
                    then ulong (num_pages e - ulong (start_blk - pgoff e))
                    else 1 in
    let ent_blks := if ent_blks >? num_blocks then num_blocks else ent_blks in
    (ent_blks, entry, epoch_id e =? epoch_id')
  else if check_next then
    let entry := nova_find_next_entry s start_blk in
    if negb (entry =? 0) then
      let next_pgoff := pgoff (entry_at s entry) in
      if next_pgoff <=? start_blk then (num_blocks, 0, false)
      else
        let ent_blks := ulong (next_pgoff - start_blk) in
        let ent_blks := if ent_blks >? num_blocks then num_blocks else ent_blks in
        (ent_blks, 0, false)
    else (num_blocks, 0, false)
  else (0, 0, false).

(** The two arms of [if (entry && inplace)]: the state, the locals with
    [blocknr] and [allocated] set, [hole_fill] and [blk_off]; or the error
    exit of the allocation. *)
Definition inplace_arm (s : nova_state) (l : wr_locals) (start_blk ent_blks entry : Z)
    (inplace : bool) : nova_state * wr_locals * bool * Z + wr_res :=
  if negb (entry =? 0) && inplace then
    let blocknr := get_nvmm (entry_at s entry) start_blk in
    let blk_off := Z.shiftl blocknr PAGE_SHIFT in
    let s := if negb (data_csum s =? 0) || negb (data_parity s =? 0)
             then nova_set_write_entry_updating s entry 1 else s in
    inl (s, set_l_alloc blocknr ent_blks l, false, blk_off)
  else
    let '(s, blocknr, allocated) :=
      nova_new_data_blocks s (l_blocknr l) start_blk ent_blks in
    let l := set_l_alloc blocknr allocated l in
    if allocated <=? 0 then inr (WrOut s l allocated)
    else inl (s, l, true, nova_get_block_off blocknr).

Definition inplace_body (fuel : nat) (s : nova_state) (u : ubuf) (epoch_id time : Z)
    (l : wr_locals) : option wr_res :=
  let offset := Z.land (l_pos l) (nova_inode_blk_size s - 1) in
  let start_blk := Z.shiftr (l_pos l) s_blocksize_bits in
  let '(ent_blks, entry, inplace) :=
    nova_check_existing_entry s (l_num_blocks l) start_blk true epoch_id in
  match inplace_arm s l start_blk ent_blks entry inplace with
  | inr r => Some r
  | inl (s, l, hole_fill, blk_off) =>
      let bytes := wr_bytes (l_allocated l) offset (l_count l) in
      let kmem := nova_get_block blk_off in
      let '(s, copied) := wr_copy_in hole_fill s u l offset bytes kmem in
      match wr_protect fuel s u l bytes (negb hole_fill) with
      | None => None
      | Some (s, ret) =>
          if negb (ret =? 0) then Some (WrOut s l ret)
          else
            let '(s, l, ret) :=
              if hole_fill then wr_append s l epoch_id time start_blk copied
              else (nova_inplace_update_write_entry s entry epoch_id
                      (wr_file_size s (l_pos l) copied), l, 0) in
            if negb (ret =? 0) then Some (WrOut s l (- ENOSPC))
            else
              let l := wr_account copied bytes l in
              if l_status l <? 0 then Some (WrBreak s l)
              else
                Some (WrNext s
                        (if hole_fill
                         then
                           let l := set_l_update_log true l in
                           if l_begin_tail l =? 0
                           then set_l_begin_tail (curr_entry (l_update l)) l else l
                         else l))
      end
  end.

Fixpoint inplace_loop (fuel : nat) (s : nova_state) (u : ubuf) (epoch_id time : Z)
    (l : wr_locals) : option wr_res :=
  match fuel with
  | O => None
  | S fuel =>
      if l_num_blocks l >? 0
      then match inplace_body fuel s u epoch_id time l with
           | Some (WrNext s l) => inplace_loop fuel s u epoch_id time l
           | r => r
           end
      else Some (WrBreak s l)
  end.

(** The code between the end of the loop and the label [out:] of the
    in-place writer. *)
Definition inplace_commit (fuel : nat) (s : nova_state) (l : wr_locals)
    (total_blocks ppos : Z) (need_mutex : bool) : option (nova_state * Z * Z) :=
  let data_bits := blk_type_to_shift (sih_i_blk_type s) in
  let s := set_sih_i_blocks
             (sih_i_blocks s + Z.shiftl total_blocks (data_bits - s_blocksize_bits)) s in
  let s := set_i_blocks (sih_i_blocks s) s in
  match (if l_update_log l
         then nova_reassign_file_tree fuel (nova_update_inode s (l_update l))
                (l_begin_tail l)
         else Some (s, 0)) with
  | None => None
  | Some (s, ret) =>
      if negb (ret =? 0) then write_out fuel s l ret ppos need_mutex
      else
        let ret := l_written l in
        let s := if l_pos l >? i_size s then set_sizes (l_pos l) s else s in
        write_out fuel s l ret (l_pos l) need_mutex
  end.

Definition nova_inplace_file_write (fuel : nat) (s : nova_state) (filp : file) (u : ubuf)
    (len ppos : Z) (need_mutex : bool) : option (nova_state * Z * Z) :=
  if len =? 0 then Some (s, 0, ppos)
  else
    let s := if need_mutex then emit EvLock s else s in
    if negb (ub_access_ok u) then write_out fuel s wr_none (- EFAULT) ppos need_mutex
    else
      let pos := if f_append filp then i_size s else ppos in
      let count := len in
      let offset := Z.land pos (s_blocksize - 1) in
      let num_blocks := Z.shiftr (ulong (count + offset - 1)) s_blocksize_bits + 1 in
      let total_blocks := num_blocks in
      if negb (f_remove_privs filp =? 0)
      then write_out fuel s wr_none (f_remove_privs filp) ppos need_mutex
      else
        let s := set_i_mtime (now s) s in
        let time := now s in
        let epoch_id := epoch s in
        match inplace_loop fuel s u epoch_id time (wr_init s pos count num_blocks) with
        | None => None
        | Some (WrOut s l ret) => write_out fuel s l ret ppos need_mutex
        | Some (WrNext s l) => inplace_commit fuel s l total_blocks ppos need_mutex
        | Some (WrBreak s l) => inplace_commit fuel s l total_blocks ppos need_mutex
        end.

(** The write policy is the module parameter [inplace_data_updates]. *)
Definition nova_dax_file_write (inplace_data_updates : Z) (fuel : nat) (s : nova_state)
    (filp : file) (u : ubuf) (len ppos : Z) : option (nova_state * Z * Z) :=
  if negb (inplace_data_updates =? 0)
  then nova_inplace_file_write fuel s filp u len ppos true
  else nova_cow_file_write fuel s filp u len ppos true.

Definition nova_dax_file_read (fuel : nat) (s : nova_state) (dst : ubuf) (len ppos : Z)
    : option (Z * list byte * Z) :=
  do_dax_mapping_read fuel s dst len ppos.

End Model.

(** The return value and file position of a write, without the state. *)
Definition wr_ret (r : option (nova_state * Z * Z)) : option (Z * Z) :=
  match r with
  | Some (_, ret, ppos) => Some (ret, ppos)
  | None => None
  end.

(** * Example states

    A device whose blocks 16..47 are free, an inode with an empty file and
    one log page at offset 8192 linked to a second one at 12288. *)

Definition ex_fresh : nova_state :=
  {| pmem := fun _ => xff; log := ∅; log_pages := {[ 8192 := 12288 ]};
     sih_log_tail := 8192; sih_alter_log_tail := 0; sih_i_size := 0; sih_i_blocks := 0;
     sih_i_blk_type := 0; sih_tree := ∅; i_size := 0; i_blocks := 0; i_mtime := 0;
     i_mmap := []; free_blocks := blocks 16 32; csums := ∅; data_csum := 0;
     data_parity := 0; epoch := 7; now := 1000; kzalloc_ok := true; trace := [] |}.

(** A user buffer of [n] copies of [b], all of it accessible. *)
Definition ex_user (b : byte) (n : Z) : ubuf :=
  {| ub_bytes := repeat b (Z.to_nat n); ub_valid := n; ub_access_ok := true |}.

Definition ex_file : file := {| f_append := false; f_remove_privs := 0 |}.

(** At most two blocks per allocation, so that longer writes take
    several runs. *)
Definition ex_alloc : allocator := first_fit 16 32 2.

(** The empty file, mapped shared and writable over its first page. *)
Definition ex_mapped : nova_state :=
  {| pmem := pmem ex_fresh; log := log ex_fresh; log_pages := log_pages ex_fresh;
     sih_log_tail := 8192; sih_alter_log_tail := 0; sih_i_size := 0; sih_i_blocks := 0;
     sih_i_blk_type := 0; sih_tree := ∅; i_size := 0; i_blocks := 0; i_mtime := 0;
     i_mmap := [ {| vm_pgoff := 0; vm_pages := 1; vm_write := true |} ];
     free_blocks := blocks 16 32; csums := ∅; data_csum := 0;
     data_parity := 0; epoch := 7; now := 1000; kzalloc_ok := true; trace := [] |}.

(** A file whose block 0 holds 4096 bytes 'A': one committed write-entry
    of epoch 7 at log position 8192, mapping page 0 to block 16. *)
Definition ex_entry_A : nova_file_write_entry :=
  {| entry_type := FILE_WRITE; reassigned := 0; updating := 0; epoch_id := 7;
     pgoff := 0; num_pages := 1; invalid_pages := 0; block := 65536; mtime := 1000;
     size := 4096 |}.

Definition ex_block_A : nova_state :=
  {| pmem := mem_store (fun _ => xff) 65536 (fun _ => x41) 0 4096;
     log := {[ 8192 := ex_entry_A ]}; log_pages := {[ 8192 := 12288 ]};
     sih_log_tail := 8256; sih_alter_log_tail := 0; sih_i_size := 4096; sih_i_blocks := 1;
     sih_i_blk_type := 0; sih_tree := {[ 0 := 8192 ]}; i_size := 4096; i_blocks := 1;
     i_mtime := 1000;
     i_mmap := []; free_blocks := blocks 17 31; csums := ∅; data_csum := 0;
     data_parity := 0; epoch := 7; now := 1001; kzalloc_ok := true; trace := [] |}.

(** Checksums on; pages 0 and 1 are committed by two entries (blocks 16
    and 17) whose integrity codes were computed over 4096 bytes 'A'; the
    first byte of block 17 was then overwritten behind the file system's
    back. *)
Definition ex_entry_B : nova_file_write_entry :=
  {| entry_type := FILE_WRITE; reassigned := 0; updating := 0; epoch_id := 7;
     pgoff := 1; num_pages := 1; invalid_pages := 0; block := 69632; mtime := 1000;
     size := 8192 |}.

Definition ex_corrupt : nova_state :=
  {| pmem := mem_store (mem_store (fun _ => xff) 65536 (fun _ => x41) 0 8192)
               69632 (fun _ => x58) 0 1;
     log := {[ 8192 := ex_entry_A; 8256 := ex_entry_B ]};
     log_pages := {[ 8192 := 12288 ]};
     sih_log_tail := 8320; sih_alter_log_tail := 0; sih_i_size := 8192; sih_i_blocks := 2;
     sih_i_blk_type := 0; sih_tree := {[ 0 := 8192; 1 := 8256 ]}; i_size := 8192;
     i_blocks := 2; i_mtime := 1000;
     i_mmap := []; free_blocks := blocks 18 30;
     csums := {[ 16 := byte_sum (repeat x41 4096); 17 := byte_sum (repeat x41 4096) ]};
     data_csum := 1; data_parity := 0; epoch := 7; now := 1001; kzalloc_ok := true;
     trace := [] |}.

(** A destination buffer of [n] writable bytes. *)
Definition ex_dest (n : Z) : ubuf :=
  {| ub_bytes := []; ub_valid := n; ub_access_ok := true |}.


(** A user buffer of 4096 bytes 'A' of which only the first [n] can be
    read without a fault ([access_ok] still passes). *)
Definition ex_faulty (n : Z) : ubuf :=
  {| ub_bytes := repeat x41 4096; ub_valid := n; ub_access_ok := true |}.

(** The file of ['A'] bytes one epoch later: the writer's epoch is 8, the
    entry's is still 7. *)
Definition ex_block_A_later : nova_state :=
  {| pmem := pmem ex_block_A; log := log ex_block_A; log_pages := log_pages ex_block_A;
     sih_log_tail := sih_log_tail ex_block_A;
     sih_alter_log_tail := sih_alter_log_tail ex_block_A;
     sih_i_size := sih_i_size ex_block_A; sih_i_blocks := sih_i_blocks ex_block_A;
     sih_i_blk_type := sih_i_blk_type ex_block_A; sih_tree := sih_tree ex_block_A;
     i_size := i_size ex_block_A; i_blocks := i_blocks ex_block_A;
     i_mtime := i_mtime ex_block_A; i_mmap := i_mmap ex_block_A;
     free_blocks := free_blocks ex_block_A; csums := csums ex_block_A;
     data_csum := data_csum ex_block_A; data_parity := data_parity ex_block_A;
     epoch := 8; now := now ex_block_A; kzalloc_ok := kzalloc_ok ex_block_A;
     trace := trace ex_block_A |}.

(** The empty file on a device with four free blocks only: a write of ten
    pages runs out of blocks after two runs. *)
Definition ex_tight : nova_state := set_free (blocks 16 4) ex_fresh.

(** What a test observes of a finished write: return value, file position,
    committed log tail, inode size, index, and the events of the call. *)
Definition wr_view (r : option (nova_state * Z * Z))
    : option (Z * Z * Z * Z * list (Z * Z) * list event) :=
  match r with
  | Some (s, ret, ppos) =>
      Some (ret, ppos, sih_log_tail s, i_size s, map_to_list (sih_tree s), trace s)
  | None => None
  end.

(** A read of [len] bytes at [pos] in the state a write left. *)
Definition read_back (csum_of : list byte -> Z) (fuel : nat)
    (r : option (nova_state * Z * Z)) (len pos : Z) : option (Z * list byte * Z) :=
  match r with
  | Some (s, _, _) => do_dax_mapping_read csum_of fuel s (ex_dest len) len pos
  | None => None
  end.

(** * Properties *)

(** ** Events added by the collaborators *)

Definition run_event (e : event) : Prop :=
  match e with
  | EvAlloc _ _ | EvAllocFail _ | EvAppend _ | EvAppendFail | EvInplaceUpdate _ => True
  | _ => False
  end.

Definition free_event (e : event) : Prop :=
  match e with EvFree _ _ => True | _ => False end.

(** [grows P s s']: [s'] extends the trace of [s] by events that satisfy [P]. *)
Definition grows (P : event -> Prop) (s s' : nova_state) : Prop :=
  exists evs, trace s' = trace s ++ evs /\ Forall P evs.

Lemma grows_refl P s : grows P s s.
Proof. exists []. split; [by rewrite app_nil_r | constructor]. Qed.

Lemma grows_trans P s1 s2 s3 : grows P s1 s2 -> grows P s2 s3 -> grows P s1 s3.
Proof.
  intros (e1 & H1 & F1) (e2 & H2 & F2). exists (e1 ++ e2). split.
  - by rewrite H2, H1, app_assoc.
  - by apply Forall_app.
Qed.

Lemma grows_same P s s' : trace s' = trace s -> grows P s s'.
Proof. intros H. exists []. split; [by rewrite app_nil_r | constructor]. Qed.

Lemma grows_emit (P : event -> Prop) e s s' :
  P e -> trace s' = trace s ++ [e] -> grows P s s'.
Proof. intros HP H. exists [e]. split; [done | by constructor]. Qed.

Section Traces.

Variable alloc : allocator.
Variable csum_of : list byte -> Z.

Lemma trace_update_csum s buf b :
  trace (nova_update_block_csum_parity csum_of s buf b) = trace s.
Proof. unfold nova_update_block_csum_parity. by destruct (data_csum s >? 0). Qed.

Lemma trace_handle_partial s entry index offset length kmem :
  trace (nova_handle_partial_block s entry index offset length kmem) = trace s.
Proof.
  unfold nova_handle_partial_block, nova_copy_partial_block.
  destruct (entry =? 0); [done |].
  by destruct (negb _).
Qed.

Lemma trace_handle_head_tail s pos count kmem :
  trace (nova_handle_head_tail_blocks s pos count kmem) = trace s.
Proof.
  unfold nova_handle_head_tail_blocks.
  repeat match goal with |- context [if ?c then _ else _] => destruct c end;
    rewrite ?trace_handle_partial; try done.
Qed.

Lemma grows_new_data_blocks s blocknr start_blk num s' b a :
  nova_new_data_blocks alloc s blocknr start_blk num = (s', b, a) ->
  grows run_event s s'.
Proof.
  unfold nova_new_data_blocks. destruct (alloc _ _ _) as [ret b0].
  destruct (ret >? 0); intros [= <- <- <-]; eapply grows_emit; simpl; eauto; done.
Qed.

Lemma grows_append s data upd s' upd' ret :
  nova_append_file_write_entry s data upd = (s', upd', ret) ->
  grows run_event s s'.
Proof.
  unfold nova_append_file_write_entry.
  destruct (_ =? 0) in |- *; intros [= <- <- <-]; eapply grows_emit; simpl; eauto; done.
Qed.

Lemma trace_protect_loop fuel s u l s' l' ret :
  protect_loop csum_of fuel s u l = Some (s', l', ret) -> trace s' = trace s.
Proof.
  revert s l. induction fuel as [| fuel IH]; intros s l; simpl; [done |].
  destruct (negb _).
  - intros [= <- <- <-]. apply trace_update_csum.
  - destruct (_ >? _).
    + intros H. apply IH in H. by rewrite H, trace_update_csum.
    + intros [= <- <- <-]. apply trace_update_csum.
Qed.

Lemma trace_protect fuel s u boff pos count blocknr inplace s' ret :
  nova_protect_file_data csum_of fuel s u boff pos count blocknr inplace = Some (s', ret) ->
  trace s' = trace s.
Proof.
  unfold nova_protect_file_data.
  destruct (negb (kzalloc_ok s)); [by intros [= <- <-] |].
  destruct (negb (_ - _ =? 0)); [by intros [= <- <-] |].
  destruct (if negb (_ =? 0) then _ else _) as [r | buf]; [by intros [= <- <-] |].
  destruct (if _ =? 1 then _ else _) as [[[s1 l1] r1] |] eqn:E; [| done].
  assert (trace s1 = trace s) as Hs1.
  { destruct (_ =? 1) in E; [by inversion E |]. by apply trace_protect_loop in E. }
  destruct (negb (r1 =? 0)); [by intros [= <- <-] |].
  destruct (if negb (_ =? 0) then _ else _) as [r | buf'];
    intros [= <- <-]; [done |]. by rewrite trace_update_csum.
Qed.

End Traces.


Definition wr_state (r : wr_res) : nova_state :=
  match r with WrNext s _ | WrBreak s _ | WrOut s _ _ => s end.

Definition wr_locals_of (r : wr_res) : wr_locals :=
  match r with WrNext _ l | WrBreak _ l | WrOut _ l _ => l end.

(** What follows the copy in a loop iteration of either writer extends the
    trace by run events only. *)
Ltac wr_tail :=
  repeat match goal with
  | |- context [if ?c then _ else _] => destruct c
  | |- Some _ = Some _ -> _ => intros [= <-]
  | |- None = Some _ -> _ => done
  end; simpl; eauto.

Section TraceWriters.

Variable alloc : allocator.
Variable csum_of : list byte -> Z.

Lemma trace_set_updating s entry v :
  trace (nova_set_write_entry_updating s entry v) = trace s.
Proof. unfold nova_set_write_entry_updating. by destruct (log s !! entry). Qed.

Lemma grows_inplace_update s entry ep sz :
  grows run_event s (nova_inplace_update_write_entry s entry ep sz).
Proof.
  eapply (grows_emit _ (EvInplaceUpdate entry)); [done |].
  unfold nova_inplace_update_write_entry. by destruct (log s !! entry).
Qed.

Lemma trace_wr_copy_in merge s u l offset bytes kmem s' copied :
  wr_copy_in merge s u l offset bytes kmem = (s', copied) -> trace s' = trace s.
Proof.
  unfold wr_copy_in, memcpy_to_pmem_nocache. intros [= <- <-]. simpl.
  destruct (_ && _); [apply trace_handle_head_tail | done].
Qed.

Lemma trace_wr_protect fuel s u l bytes inplace s' ret :
  wr_protect csum_of fuel s u l bytes inplace = Some (s', ret) -> trace s' = trace s.
Proof.
  unfold wr_protect. destruct (_ || _); [apply trace_protect | by intros [= <- <-]].
Qed.

Lemma grows_wr_append s l ep time start_blk copied s' l' ret :
  wr_append s l ep time start_blk copied = (s', l', ret) -> grows run_event s s'.
Proof.
  unfold wr_append.
  destruct (nova_append_file_write_entry _ _ _) as [[s1 upd] r1] eqn:E.
  intros [= <- <- <-]. by eapply grows_append.
Qed.

Lemma grows_cow_body fuel s u ep time l r :
  cow_body alloc csum_of fuel s u ep time l = Some r ->
  grows run_event s (wr_state r).
Proof.
  unfold cow_body. cbv zeta.
  destruct (nova_new_data_blocks _ _ _ _ _) as [[s1 b] a] eqn:Ea.
  apply grows_new_data_blocks in Ea.
  destruct (a <=? 0); [by intros [= <-] |].
  destruct (wr_copy_in _ _ _ _ _ _ _) as [s2 copied] eqn:Ec.
  apply trace_wr_copy_in in Ec.
  destruct (wr_protect _ _ _ _ _ _ _) as [[s3 ret] |] eqn:Ep; [| done].
  apply trace_wr_protect in Ep.
  assert (grows run_event s s3) as H3.
  { eapply grows_trans; [exact Ea |]. apply grows_same. by rewrite Ep, Ec. }
  destruct (negb (ret =? 0)); [by intros [= <-] |].
  destruct (wr_append _ _ _ _ _ _) as [[s4 l4] ret'] eqn:Eapp.
  apply grows_wr_append in Eapp.
  assert (grows run_event s s4) by (eapply grows_trans; eauto).
  wr_tail.
Qed.

Lemma grows_cow_loop fuel s u ep time l r :
  cow_loop alloc csum_of fuel s u ep time l = Some r ->
  grows run_event s (wr_state r).
Proof.
  revert s l. induction fuel as [| fuel IH]; intros s l; simpl; [done |].
  destruct (l_num_blocks l >? 0); [| intros [= <-]; apply grows_refl].
  destruct (cow_body _ _ _ _ _ _ _ _) as [[s1 l1 | s1 l1 | s1 l1 ret] |] eqn:Eb; [| | | done].
  - intros H. apply IH in H. apply grows_cow_body in Eb.
    eapply grows_trans; eauto.
  - intros [= <-]. by apply grows_cow_body in Eb.
  - intros [= <-]. by apply grows_cow_body in Eb.
Qed.

Lemma grows_free_data_blocks s b n : grows free_event s (nova_free_data_blocks s b n).
Proof. by eapply (grows_emit _ (EvFree b n)). Qed.

Lemma grows_invalidate_page s old : grows free_event s (nova_invalidate_page s old).
Proof.
  unfold nova_invalidate_page. destruct (log s !! old); [| apply grows_refl].
  destruct (_ =? _); [| by apply grows_same].
  eapply grows_trans; [| apply grows_free_data_blocks]. by apply grows_same.
Qed.

Lemma grows_assign_page entry s pg : grows free_event s (nova_assign_page entry s pg).
Proof.
  unfold nova_assign_page. destruct (_ =? 0); [by apply grows_same |].
  eapply grows_trans; [apply grows_invalidate_page | by apply grows_same].
Qed.

Lemma grows_assign_write_entry s entry :
  grows free_event s (nova_assign_write_entry s entry).
Proof.
  unfold nova_assign_write_entry.
  generalize (seqZ (pgoff (entry_at s entry)) (num_pages (entry_at s entry))).
  intros pgs. revert s. induction pgs as [| pg pgs IH]; intros s; simpl.
  - apply grows_refl.
  - eapply grows_trans; [apply grows_assign_page | apply IH].
Qed.

Lemma grows_reassign_loop fuel s curr_p s' ret :
  reassign_loop fuel s curr_p = Some (s', ret) -> grows free_event s s'.
Proof.
  revert s curr_p. induction fuel as [| fuel IH]; intros s curr_p; simpl; [done |].
  destruct (_ && _); [| intros [= <- <-]; apply grows_refl].
  destruct (_ =? 0); [intros [= <- <-]; apply grows_refl |].
  destruct (negb _); [apply IH |].
  intros H. apply IH in H.
  eapply grows_trans; [apply grows_assign_write_entry | exact H].
Qed.

Lemma grows_cleanup_loop fuel s curr_p end_tail s' ret :
  cleanup_loop fuel s curr_p end_tail = Some (s', ret) -> grows free_event s s'.
Proof.
  revert s curr_p. induction fuel as [| fuel IH]; intros s curr_p; simpl; [done |].
  destruct (negb (curr_p =? end_tail)); [| intros [= <- <-]; apply grows_refl].
  destruct (_ =? 0); [intros [= <- <-]; apply grows_refl |].
  destruct (negb _); [apply IH |].
  intros H. apply IH in H.
  eapply grows_trans; [apply grows_free_data_blocks | exact H].
Qed.

Lemma grows_cleanup fuel s blocknr allocated begin_tail end_tail s' ret :
  nova_cleanup_incomplete_write fuel s blocknr allocated begin_tail end_tail = Some (s', ret) ->
  grows free_event s s'.
Proof.
  unfold nova_cleanup_incomplete_write.
  destruct (_ && _); (destruct (_ || _); [intros [= <- <-] | intros H1%grows_cleanup_loop]).
  - apply grows_free_data_blocks.
  - eapply grows_trans; [apply grows_free_data_blocks | exact H1].
  - apply grows_refl.
  - exact H1.
Qed.

(** A call that returns a non-negative value leaves through [out:]
    without running the cleanup. *)
Lemma write_out_nonneg fuel s l ret ppos lock :
  0 <= ret ->
  write_out fuel s l ret ppos lock
  = Some (if lock then emit EvUnlock s else s, ret, ppos).
Proof.
  intros H. unfold write_out.
  destruct (ret <? 0) eqn:E; [lia | done].
Qed.

Lemma write_out_ret fuel s l ret ppos lock s' ret' ppos' :
  write_out fuel s l ret ppos lock = Some (s', ret', ppos') -> ret' = ret /\ ppos' = ppos.
Proof.
  unfold write_out.
  destruct (if ret <? 0 then _ else _) as [[s1 r1] |]; [| done].
  by intros [= <- <- <-].
Qed.

End TraceWriters.

Section TraceInplace.

Variable alloc : allocator.
Variable csum_of : list byte -> Z.

Lemma grows_inplace_arm s l start_blk ent_blks entry inplace :
  match inplace_arm alloc s l start_blk ent_blks entry inplace with
  | inl (s', _, _, _) => grows run_event s s'
  | inr r => grows run_event s (wr_state r)
  end.
Proof.
  unfold inplace_arm. destruct (_ && _).
  - apply grows_same. destruct (_ || _); [apply trace_set_updating | done].
  - destruct (nova_new_data_blocks _ _ _ _ _) as [[s1 b] a] eqn:Ea.
    apply grows_new_data_blocks in Ea. by destruct (a <=? 0).
Qed.

Lemma grows_inplace_body fuel s u ep time l r :
  inplace_body alloc csum_of fuel s u ep time l = Some r ->
  grows run_event s (wr_state r).
Proof.
  unfold inplace_body. cbv zeta.
  destruct (nova_check_existing_entry _ _ _ _ _) as [[ent_blks entry] inplace].
  pose proof (grows_inplace_arm s l (Z.shiftr (l_pos l) s_blocksize_bits)
                ent_blks entry inplace) as Harm.
  destruct (inplace_arm _ _ _ _ _ _ _) as [[[[s1 l1] hole_fill] blk_off] | r1];
    [| by intros [= <-]].
  destruct (wr_copy_in _ _ _ _ _ _ _) as [s2 copied] eqn:Ec.
  apply trace_wr_copy_in in Ec.
  destruct (wr_protect _ _ _ _ _ _ _) as [[s3 ret] |] eqn:Ep; [| done].
  apply trace_wr_protect in Ep.
  assert (grows run_event s s3) as H3.
  { eapply grows_trans; [exact Harm |]. apply grows_same. by rewrite Ep, Ec. }
  destruct (negb (ret =? 0)); [by intros [= <-] |].
  destruct hole_fill.
  - destruct (wr_append _ _ _ _ _ _) as [[s4 l4] ret'] eqn:Eapp.
    apply grows_wr_append in Eapp.
    assert (grows run_event s s4) by (eapply grows_trans; eauto).
    wr_tail.
  - assert (grows run_event s (nova_inplace_update_write_entry s3 entry ep
              (wr_file_size s3 (l_pos l1) copied))).
    { eapply grows_trans; [exact H3 | apply grows_inplace_update]. }
    wr_tail.
Qed.

Lemma grows_inplace_loop fuel s u ep time l r :
  inplace_loop alloc csum_of fuel s u ep time l = Some r ->
  grows run_event s (wr_state r).
Proof.
  revert s l. induction fuel as [| fuel IH]; intros s l; simpl; [done |].
  destruct (l_num_blocks l >? 0); [| intros [= <-]; apply grows_refl].
  destruct (inplace_body _ _ _ _ _ _ _ _) as [[s1 l1 | s1 l1 | s1 l1 ret] |] eqn:Eb; [| | | done].
  - intros H. apply IH in H. apply grows_inplace_body in Eb.
    eapply grows_trans; eauto.
  - intros [= <-]. by apply grows_inplace_body in Eb.
  - intros [= <-]. by apply grows_inplace_body in Eb.
Qed.

End TraceInplace.

(** ** Return values of the error exits *)

Section Returns.

Variable alloc : allocator.
Variable csum_of : list byte -> Z.

Lemma protect_loop_ret fuel s u l s' l' ret :
  protect_loop csum_of fuel s u l = Some (s', l', ret) -> ret <= 0.
Proof.
  revert s l. induction fuel as [| fuel IH]; intros s l; simpl; [done |].
  destruct (negb _); [intros [= <- <- <-]; unfold EFAULT; lia |].
  destruct (_ >? _); [apply IH | intros [= <- <- <-]; lia].
Qed.

Lemma protect_old_bytes_ret s buf blk from len inplace r :
  protect_old_bytes csum_of s buf blk from len inplace = inl r -> r < 0.
Proof.
  unfold protect_old_bytes. destruct (_ =? 0); [done |].
  destruct (_ && _); [| done]. intros [= <-]. unfold EIO. lia.
Qed.

Lemma protect_ret fuel s u boff pos count blocknr inplace s' ret :
  nova_protect_file_data csum_of fuel s u boff pos count blocknr inplace = Some (s', ret) ->
  ret <= 0.
Proof.
  unfold nova_protect_file_data.
  destruct (negb (kzalloc_ok s)); [intros [= <- <-]; unfold ENOMEM; lia |].
  destruct (negb (_ - _ =? 0)); [intros [= <- <-]; unfold EFAULT; lia |].
  destruct (if negb (_ =? 0) then _ else _) as [r | buf] eqn:Eh.
  { intros [= <- <-]. destruct (negb _) in Eh; [| done].
    apply protect_old_bytes_ret in Eh. lia. }
  clear Eh.
  destruct (if _ =? 1 then _ else _) as [[[s1 l1] r1] |] eqn:E; [| done].
  assert (r1 <= 0) as Hr1.
  { destruct (_ =? 1) in E; [inversion E; lia |]. by apply protect_loop_ret in E. }
  destruct (negb (r1 =? 0)); [by intros [= <- <-] |].
  destruct (if negb (_ =? 0) then _ else _) as [r | buf'] eqn:Ee.
  2:{ intros [= <- <-]. lia. }
  intros [= <- <-].
  destruct (negb _) in Ee; [| done].
  destruct (protect_old_bytes _ _ _ _ _ _ _) as [r' | b'] eqn:Eo.
  - inversion Ee; subst. apply protect_old_bytes_ret in Eo. lia.
  - by destruct (_ && _) in Ee.
Qed.

Lemma wr_protect_ret fuel s u l bytes inplace s' ret :
  wr_protect csum_of fuel s u l bytes inplace = Some (s', ret) -> ret <= 0.
Proof.
  unfold wr_protect. destruct (_ || _); [apply protect_ret | intros [= <- <-]; lia].
Qed.

Lemma cow_body_out fuel s u ep time l s' l' ret :
  cow_body alloc csum_of fuel s u ep time l = Some (WrOut s' l' ret) -> ret <= 0.
Proof.
  unfold cow_body. cbv zeta.
  destruct (nova_new_data_blocks _ _ _ _ _) as [[s1 b] a].
  destruct (a <=? 0) eqn:Ea; [intros [= <- <- <-]; lia |].
  destruct (wr_copy_in _ _ _ _ _ _ _) as [s2 copied].
  destruct (wr_protect _ _ _ _ _ _ _) as [[s3 r3] |] eqn:Ep; [| done].
  apply wr_protect_ret in Ep.
  destruct (negb (r3 =? 0)); [intros [= <- <- <-]; lia |].
  destruct (wr_append _ _ _ _ _ _) as [[s4 l4] ret'].
  destruct (negb (ret' =? 0)); [intros [= <- <- <-]; unfold ENOSPC; lia |].
  by destruct (l_status _ <? 0).
Qed.

Lemma cow_loop_out fuel s u ep time l s' l' ret :
  cow_loop alloc csum_of fuel s u ep time l = Some (WrOut s' l' ret) -> ret <= 0.
Proof.
  revert s l. induction fuel as [| fuel IH]; intros s l; simpl; [done |].
  destruct (l_num_blocks l >? 0); [| done].
  destruct (cow_body _ _ _ _ _ _ _ _) as [[s1 l1 | s1 l1 | s1 l1 r1] |] eqn:Eb; try done.
  - apply IH.
  - intros [= <- <- <-]. by apply cow_body_out in Eb.
Qed.

Lemma inplace_body_out fuel s u ep time l s' l' ret :
  inplace_body alloc csum_of fuel s u ep time l = Some (WrOut s' l' ret) -> ret <= 0.
Proof.
  unfold inplace_body. cbv zeta.
  destruct (nova_check_existing_entry _ _ _ _ _) as [[ent_blks entry] inplace].
  destruct (inplace_arm _ _ _ _ _ _ _) as [[[[s1 l1] hole_fill] blk_off] | r1] eqn:Earm.
  2:{ intros [= ->]. unfold inplace_arm in Earm.
      destruct (_ && _) in Earm; [done |].
      destruct (nova_new_data_blocks _ _ _ _ _) as [[s2 b] a].
      destruct (a <=? 0) eqn:Ea; [| done]. inversion Earm; subst. lia. }
  destruct (wr_copy_in _ _ _ _ _ _ _) as [s2 copied].
  destruct (wr_protect _ _ _ _ _ _ _) as [[s3 r3] |] eqn:Ep; [| done].
  apply wr_protect_ret in Ep.
  destruct (negb (r3 =? 0)); [intros [= <- <- <-]; lia |].
  destruct hole_fill.
  - destruct (wr_append _ _ _ _ _ _) as [[s4 l4] ret'].
    destruct (negb (ret' =? 0)); [intros [= <- <- <-]; unfold ENOSPC; lia |].
    by destruct (l_status _ <? 0).
  - simpl. by destruct (l_status _ <? 0).
Qed.

Lemma inplace_loop_out fuel s u ep time l s' l' ret :
  inplace_loop alloc csum_of fuel s u ep time l = Some (WrOut s' l' ret) -> ret <= 0.
Proof.
  revert s l. induction fuel as [| fuel IH]; intros s l; simpl; [done |].
  destruct (l_num_blocks l >? 0); [| done].
  destruct (inplace_body _ _ _ _ _ _ _ _) as [[s1 l1 | s1 l1 | s1 l1 r1] |] eqn:Eb; try done.
  - apply IH.
  - intros [= <- <- <-]. by apply inplace_body_out in Eb.
Qed.

Lemma reassign_loop_ret fuel s curr_p s' ret :
  reassign_loop fuel s curr_p = Some (s', ret) -> ret = 0 \/ ret = - EINVAL.
Proof.
  revert s curr_p. induction fuel as [| fuel IH]; intros s curr_p; simpl; [done |].
  destruct (_ && _); [| intros [= <- <-]; by left].
  destruct (_ =? 0); [intros [= <- <-]; by right |].
  destruct (negb _); apply IH.
Qed.

End Returns.

(** ** Zero-length writes and the mapped-file guard *)

(** C10. A write of length zero returns 0 at once under either policy: the
    result state is the input state itself, so no lock was taken, no block
    allocated, no log entry appended and no inode or log field changed, and
    the file position is the one passed in. *)
Theorem write_zero_length_is_noop :
  forall (alloc : allocator) (csum_of : list byte -> Z) (fuel : nat)
         (s : nova_state) (filp : file) (u : ubuf) (ppos : Z) (lock : bool)
         (policy : Z),
    nova_cow_file_write alloc csum_of fuel s filp u 0 ppos lock = Some (s, 0, ppos)
    /\ nova_inplace_file_write alloc csum_of fuel s filp u 0 ppos lock = Some (s, 0, ppos)
    /\ nova_dax_file_write alloc csum_of policy fuel s filp u 0 ppos = Some (s, 0, ppos).
Proof.
  intros. repeat split; try reflexivity.
  unfold nova_dax_file_write. by destruct (negb _).
Qed.

(** C8. A non-empty copy-on-write write to a file that is memory-mapped
    for writing is rejected with [-EACCES]; the result state is the input
    state itself, so nothing was allocated, appended or modified. *)
Theorem cow_write_rejects_mapped_file :
  forall (alloc : allocator) (csum_of : list byte -> Z) (fuel : nat)
         (s : nova_state) (filp : file) (u : ubuf) (len ppos : Z) (lock : bool)
         (v : vma_item),
    len <> 0 ->
    v ∈ i_mmap s ->
    vm_write v = true ->
    nova_cow_file_write alloc csum_of fuel s filp u len ppos lock
    = Some (s, - EACCES, ppos).
Proof.
  intros alloc csum_of fuel s filp u len ppos lock v Hlen Hin _.
  unfold nova_cow_file_write.
  destruct (len =? 0) eqn:E; [lia |].
  unfold mapping_mapped. destruct (i_mmap s); [by apply elem_of_nil in Hin | done].
Qed.

Lemma cow_write_rejects_mapped_file_witness :
  nova_cow_file_write ex_alloc byte_sum 8 ex_mapped ex_file (ex_user x41 4096) 4096 0 true
  = Some (ex_mapped, - EACCES, 0).
Proof.
  apply (cow_write_rejects_mapped_file ex_alloc byte_sum 8 ex_mapped ex_file
           (ex_user x41 4096) 4096 0 true
           {| vm_pgoff := 0; vm_pages := 1; vm_write := true |}).
  - lia.
  - simpl. apply list_elem_of_here.
  - reflexivity.
Defined.

(** ** The single commit of the copy-on-write writer *)

Lemma reassign_file_tree_trace fuel s begin_tail s' ret :
  nova_reassign_file_tree fuel s begin_tail = Some (s', ret) ->
  exists frees, trace s' = trace s ++ [EvReassign begin_tail] ++ frees
                /\ Forall free_event frees.
Proof.
  unfold nova_reassign_file_tree. intros (frees & H & F)%grows_reassign_loop.
  exists frees. split; [| done]. rewrite H. simpl. by rewrite <- app_assoc.
Qed.

Lemma trace_unlock (lock : bool) s :
  trace (if lock then emit EvUnlock s else s)
  = trace s ++ (if lock then [EvUnlock] else []).
Proof. destruct lock; simpl; [done | by rewrite app_nil_r]. Qed.

Lemma trace_lock (lock : bool) s :
  trace (if lock then emit EvLock s else s)
  = trace s ++ (if lock then [EvLock] else []).
Proof. destruct lock; simpl; [done | by rewrite app_nil_r]. Qed.



Lemma wr_ret_some r ret ppos :
  wr_ret r = Some (ret, ppos) -> exists s', r = Some (s', ret, ppos).
Proof.
  destruct r as [[[s' ret'] ppos'] |]; simpl; [| done].
  intros [= -> ->]. by exists s'.
Qed.


(** ** What each step changes

    Every step of a loop iteration is one of the record updates of the
    state; the lemmas below name the update, and the frame facts follow
    from them by computation. *)

Lemma set_csums_id s : set_csums (csums s) s = s.
Proof. by destruct s. Qed.

Lemma set_pmem_id s : set_pmem (pmem s) s = s.
Proof. by destruct s. Qed.

Section Effects.

Variable alloc : allocator.
Variable csum_of : list byte -> Z.

Lemma update_csum_eq s buf b :
  exists c, nova_update_block_csum_parity csum_of s buf b = set_csums c s.
Proof.
  unfold nova_update_block_csum_parity. destruct (data_csum s >? 0); [by eexists |].
  exists (csums s). by rewrite set_csums_id.
Qed.

Lemma protect_loop_eq fuel s u l s' l' ret :
  protect_loop csum_of fuel s u l = Some (s', l', ret) -> exists c, s' = set_csums c s.
Proof.
  revert s l. induction fuel as [| fuel IH]; intros s l; simpl; [done |].
  destruct (update_csum_eq s (p_buf l) (p_blocknr l)) as [c ->].
  destruct (negb _); [intros [= <- <- <-]; by eexists |].
  destruct (_ >? _); [| intros [= <- <- <-]; by eexists].
  intros (c' & ->)%IH. by eexists.
Qed.

Lemma protect_eq fuel s u boff pos count blocknr inplace s' ret :
  nova_protect_file_data csum_of fuel s u boff pos count blocknr inplace = Some (s', ret) ->
  exists c, s' = set_csums c s.
Proof.
  unfold nova_protect_file_data.
  assert (exists c, s = set_csums c s) as Hid by (exists (csums s); by rewrite set_csums_id).
  destruct (negb (kzalloc_ok s)); [intros [= <- <-]; exact Hid |].
  destruct (negb (_ - _ =? 0)); [intros [= <- <-]; exact Hid |].
  destruct (if negb (_ =? 0) then _ else _) as [r | buf]; [intros [= <- <-]; exact Hid |].
  destruct (if _ =? 1 then _ else _) as [[[s1 l1] r1] |] eqn:E; [| done].
  assert (exists c, s1 = set_csums c s) as [c1 ->].
  { destruct (_ =? 1) in E; [inversion E; subst; exact Hid |]. by apply protect_loop_eq in E. }
  clear Hid.
  destruct (negb (r1 =? 0)); [intros [= <- <-]; by eexists |].
  destruct (if negb (_ =? 0) then _ else _) as [r | buf'];
    intros [= <- <-]; [by eexists |].
  match goal with |- context [nova_update_block_csum_parity _ ?a ?b ?c] =>
    destruct (update_csum_eq a b c) as [c2 ->] end.
  by eexists.
Qed.

Lemma wr_protect_eq fuel s u l bytes inplace s' ret :
  wr_protect csum_of fuel s u l bytes inplace = Some (s', ret) ->
  exists c, s' = set_csums c s.
Proof.
  unfold wr_protect. destruct (_ || _); [apply protect_eq |].
  intros [= <- <-]. exists (csums s). by rewrite set_csums_id.
Qed.

Lemma handle_partial_eq s entry index offset length kmem :
  exists m, nova_handle_partial_block s entry index offset length kmem = set_pmem m s.
Proof.
  unfold nova_handle_partial_block, nova_copy_partial_block.
  destruct (entry =? 0); [by eexists |].
  destruct (negb _); [by eexists |]. exists (pmem s). by rewrite set_pmem_id.
Qed.

Lemma handle_head_tail_eq s pos count kmem :
  exists m, nova_handle_head_tail_blocks s pos count kmem = set_pmem m s.
Proof.
  unfold nova_handle_head_tail_blocks. cbv zeta.
  destruct (negb (Z.land pos (nova_inode_blk_size s - 1) =? 0)).
  - match goal with |- context [nova_handle_partial_block s ?a ?b ?c ?d ?e] =>
      destruct (handle_partial_eq s a b c d e) as [m1 ->] end.
    destruct (negb _); [| by eexists].
    match goal with |- context [nova_handle_partial_block ?s' ?a ?b ?c ?d ?e] =>
      destruct (handle_partial_eq s' a b c d e) as [m2 ->] end.
    by eexists.
  - destruct (negb _); [apply handle_partial_eq |].
    exists (pmem s). by rewrite set_pmem_id.
Qed.

Lemma wr_copy_in_eq merge s u l offset bytes kmem s' copied :
  wr_copy_in merge s u l offset bytes kmem = (s', copied) ->
  (exists m, s' = set_pmem m s) /\ copied = user_copy_ok u (l_buf l) bytes.
Proof.
  unfold wr_copy_in, memcpy_to_pmem_nocache. intros [= <- <-]. split; [| lia].
  destruct (_ && _); [| by eexists].
  destruct (handle_head_tail_eq s (l_pos l) bytes kmem) as [m ->]. by eexists.
Qed.

Lemma new_data_blocks_eq s blocknr start_blk num s' b a :
  nova_new_data_blocks alloc s blocknr start_blk num = (s', b, a) ->
  alloc (free_blocks s) start_blk num = (a, if a >? 0 then b else (alloc (free_blocks s) start_blk num).2)
  /\ (if a >? 0
      then s' = emit (EvAlloc b a) (set_free (free_blocks s ∖ blocks b a) s)
      else s' = emit (EvAllocFail a) s /\ b = blocknr).
Proof.
  unfold nova_new_data_blocks. destruct (alloc _ _ _) as [ret b0]. simpl.
  destruct (ret >? 0) eqn:E; intros [= <- <- <-]; rewrite E; done.
Qed.

Lemma wr_append_eq s l ep time start_blk copied s' l' ret :
  wr_append s l ep time start_blk copied = (s', l', ret) ->
  (ret = 0 /\ exists c e,
      c <> 0 /\
      e = nova_init_file_write_entry ep start_blk (l_allocated l) (l_blocknr l) time
            (wr_file_size s (l_pos l) copied) /\
      s' = emit (EvAppend c) (set_log (<[c := e]> (log s)) s) /\
      l' = set_l_update {| tail := c + entry_size; alter_tail := alter_tail (l_update l);
                           curr_entry := c |} l /\
      c = (if is_last_entry (tail (l_update l)) entry_size
           then next_log_page s (tail (l_update l)) else tail (l_update l)) /\
      tail (l_update l) <> 0)
  \/ (ret = - ENOSPC /\ s' = emit EvAppendFail s /\ l' = l).
Proof.
  unfold wr_append, nova_append_file_write_entry.
  destruct (Z.eqb_spec (tail (l_update l)) 0) as [Et | Et].
  - simpl. intros [= <- <- <-]. right. by destruct l.
  - cbv beta iota.
    match goal with |- context [?c =? 0] => destruct (Z.eqb_spec c 0) as [Ec | Ec] end;
      cbv beta iota; intros [= <- <- <-].
    + right. by destruct l.
    + left. split; [done |]. eexists _, _. repeat split; try done.
Qed.

End Effects.

(** ** Pure in-place calls leave the log alone *)

(** Two versions of a write-entry that differ at most in the in-place
    mutable fields (size, epoch, "updating"). *)
Definition same_extent (e0 e : nova_file_write_entry) : Prop :=
  entry_type e = entry_type e0 /\ reassigned e = reassigned e0
  /\ pgoff e = pgoff e0 /\ num_pages e = num_pages e0
  /\ invalid_pages e = invalid_pages e0 /\ block e = block e0 /\ mtime e = mtime e0.

(** The log holds the same entries at the same positions, up to the
    in-place mutable fields. *)
Definition log_rel (l0 l : gmap Z nova_file_write_entry) : Prop :=
  forall p, match l0 !! p, l !! p with
            | Some e0, Some e => same_extent e0 e
            | None, None => True
            | _, _ => False
            end.

(** The log tail, its mirror, the index and the log are untouched. *)
Definition log_untouched (s s' : nova_state) : Prop :=
  sih_log_tail s' = sih_log_tail s /\ sih_alter_log_tail s' = sih_alter_log_tail s
  /\ sih_tree s' = sih_tree s /\ log_pages s' = log_pages s /\ log_rel (log s) (log s').

Definition is_alloc (e : event) : Prop :=
  match e with EvAlloc _ _ => True | _ => False end.

(** Events of a call that did not fill a hole. *)
Definition quiet_event (e : event) : Prop :=
  match e with
  | EvAlloc _ _ | EvAppend _ | EvAppendFail | EvUpdateInode _ | EvReassign _ => False
  | _ => True
  end.

Definition alloc_seen (s s' : nova_state) : Prop :=
  exists evs, trace s' = trace s ++ evs /\ Exists is_alloc evs.

Lemma same_extent_refl e : same_extent e e.
Proof. by repeat split. Qed.

Lemma same_extent_trans e1 e2 e3 : same_extent e1 e2 -> same_extent e2 e3 -> same_extent e1 e3.
Proof. unfold same_extent. intuition congruence. Qed.

Lemma log_rel_refl l : log_rel l l.
Proof. intros p. destruct (l !! p); [apply same_extent_refl | done]. Qed.

Lemma log_rel_trans l1 l2 l3 : log_rel l1 l2 -> log_rel l2 l3 -> log_rel l1 l3.
Proof.
  intros H1 H2 p. specialize (H1 p). specialize (H2 p).
  destruct (l1 !! p), (l2 !! p), (l3 !! p); try done.
  by eapply same_extent_trans.
Qed.

Lemma log_rel_insert (l : gmap Z nova_file_write_entry) p e0 e :
  l !! p = Some e0 -> same_extent e0 e -> log_rel l (<[p := e]> l).
Proof.
  intros Hp He q. destruct (decide (p = q)) as [<- | Hne].
  - by rewrite lookup_insert_eq, Hp.
  - rewrite lookup_insert_ne by done. destruct (l !! q); [apply same_extent_refl | done].
Qed.

Lemma log_untouched_refl s : log_untouched s s.
Proof. repeat split. apply log_rel_refl. Qed.

Lemma log_untouched_trans s1 s2 s3 :
  log_untouched s1 s2 -> log_untouched s2 s3 -> log_untouched s1 s3.
Proof.
  intros (A1 & B1 & C1 & D1 & E1) (A2 & B2 & C2 & D2 & E2).
  repeat split; try congruence. by eapply log_rel_trans.
Qed.

Lemma alloc_seen_grows P s1 s2 s3 : alloc_seen s1 s2 -> grows P s2 s3 -> alloc_seen s1 s3.
Proof.
  intros (e1 & H1 & X) (e2 & H2 & _). exists (e1 ++ e2). split.
  - by rewrite H2, H1, app_assoc.
  - apply Exists_app. by left.
Qed.

Lemma grows_alloc_seen P s1 s2 s3 : grows P s1 s2 -> alloc_seen s2 s3 -> alloc_seen s1 s3.
Proof.
  intros (e1 & H1 & _) (e2 & H2 & X). exists (e1 ++ e2). split.
  - by rewrite H2, H1, app_assoc.
  - apply Exists_app. by right.
Qed.

Lemma grows_weaken (P Q : event -> Prop) s s' :
  (forall e, P e -> Q e) -> grows P s s' -> grows Q s s'.
Proof.
  intros HPQ (evs & H & F). exists evs. split; [done |].
  eapply Forall_impl; eauto.
Qed.

Lemma log_untouched_set_updating s entry v :
  log_untouched s (nova_set_write_entry_updating s entry v).
Proof.
  unfold nova_set_write_entry_updating.
  destruct (log s !! entry) as [e |] eqn:E; [| apply log_untouched_refl].
  repeat split; simpl. eapply log_rel_insert; [done |]. by repeat split.
Qed.

Lemma log_untouched_inplace_update s entry ep sz :
  log_untouched s (nova_inplace_update_write_entry s entry ep sz).
Proof.
  unfold nova_inplace_update_write_entry.
  destruct (log s !! entry) as [e |] eqn:E.
  - repeat split; simpl. eapply log_rel_insert; [done |]. by repeat split.
  - repeat split; simpl. apply log_rel_refl.
Qed.

Section PureInplace.

Variable alloc : allocator.
Variable csum_of : list byte -> Z.

(** A loop iteration that allocated nothing kept the log, the tail and the
    transaction's log positions. *)
Definition pure_step (s s' : nova_state) (l l' : wr_locals) : Prop :=
  grows quiet_event s s' /\ log_untouched s s'
  /\ l_update l' = l_update l /\ l_update_log l' = l_update_log l
  /\ l_begin_tail l' = l_begin_tail l.

Lemma wr_account_frame copied bytes l :
  l_update (wr_account copied bytes l) = l_update l
  /\ l_update_log (wr_account copied bytes l) = l_update_log l
  /\ l_begin_tail (wr_account copied bytes l) = l_begin_tail l.
Proof.
  unfold wr_account. destruct (copied >? 0), (negb _); simpl;
    try destruct (_ >=? 0); done.
Qed.

Lemma inplace_body_pure fuel s u ep time l r :
  inplace_body alloc csum_of fuel s u ep time l = Some r ->
  alloc_seen s (wr_state r) \/ pure_step s (wr_state r) l (wr_locals_of r).
Proof.
  intros Hb. pose proof (grows_inplace_body _ _ _ _ _ _ _ _ _ Hb) as Hg.
  revert Hb. unfold inplace_body. cbv zeta.
  destruct (nova_check_existing_entry _ _ _ _ _) as [[ent_blks entry] inplace].
  unfold inplace_arm.
  destruct (negb (entry =? 0) && inplace).
  - (* in place *)
    match goal with |- context [if ?c then nova_set_write_entry_updating s entry 1 else s] =>
      set (s1 := if c then nova_set_write_entry_updating s entry 1 else s) end.
    assert (log_untouched s s1 /\ trace s1 = trace s) as [Hu1 Ht1].
    { subst s1. destruct (_ || _).
      - split; [apply log_untouched_set_updating | apply trace_set_updating].
      - split; [apply log_untouched_refl | done]. }
    destruct (wr_copy_in _ _ _ _ _ _ _) as [s2 copied] eqn:Ec.
    apply wr_copy_in_eq in Ec as [[m ->] _].
    destruct (wr_protect _ _ _ _ _ _ _) as [[s3 ret] |] eqn:Ep; [| done].
    apply wr_protect_eq in Ep as [c ->].
    assert (pure_step s (set_csums c (set_pmem m s1)) l
              (set_l_alloc (get_nvmm (entry_at s entry)
                              (Z.shiftr (l_pos l) s_blocksize_bits)) ent_blks l)) as Hp.
    { split; [apply grows_same; simpl; done |]. split; [| done].
      destruct Hu1 as (? & ? & ? & ? & ?). by repeat split. }
    destruct (negb (ret =? 0)); [intros [= <-]; by right |].
    cbv beta iota.
    set (s4 := nova_inplace_update_write_entry _ _ _ _).
    assert (pure_step s s4 l
              (set_l_alloc (get_nvmm (entry_at s entry)
                              (Z.shiftr (l_pos l) s_blocksize_bits)) ent_blks l)) as Hp4.
    { destruct Hp as (G & U & ? & ? & ?). split; [| split; [| done]].
      - eapply grows_trans; [exact G |].
        eapply (grows_emit _ (EvInplaceUpdate entry)); [done |].
        subst s4. unfold nova_inplace_update_write_entry. by destruct (log _ !! entry).
      - eapply log_untouched_trans; [exact U | apply log_untouched_inplace_update]. }
    simpl.
    match goal with |- context [wr_account ?a ?b ?c] =>
      pose proof (wr_account_frame a b c) as (F1 & F2 & F3) end.
    destruct Hp4 as (G & U & ? & ? & ?).
    destruct (l_status _ <? 0); intros [= <-]; right; simpl;
      (split; [done |]; split; [done |]; repeat split; congruence).
  - (* hole fill *)
    destruct (nova_new_data_blocks _ _ _ _ _) as [[s1 b] a] eqn:Ea.
    apply new_data_blocks_eq in Ea as [_ Ea].
    destruct (a >? 0) eqn:Epos.
    + (* an allocation happened *)
      assert (alloc_seen s s1) as Hs1.
      { exists [EvAlloc b a]. subst s1. split; [done |]. by constructor. }
      assert ((a <=? 0) = false) as -> by lia.
      destruct (wr_copy_in _ _ _ _ _ _ _) as [s2 copied] eqn:Ec.
      apply trace_wr_copy_in in Ec.
      destruct (wr_protect _ _ _ _ _ _ _) as [[s3 ret] |] eqn:Ep; [| done].
      apply trace_wr_protect in Ep.
      assert (alloc_seen s s3) as Hs3.
      { eapply (alloc_seen_grows run_event); [exact Hs1 |]. apply grows_same. congruence. }
      destruct (negb (ret =? 0)); [intros [= <-]; by left |].
      destruct (wr_append _ _ _ _ _ _) as [[s4 l4] ret'] eqn:Eapp.
      apply grows_wr_append in Eapp.
      assert (alloc_seen s s4) by (eapply alloc_seen_grows; eauto).
      destruct (negb (ret' =? 0)); [intros [= <-]; by left |].
      destruct (l_status _ <? 0); intros [= <-]; by left.
    + (* the allocation failed *)
      destruct Ea as [-> ->].
      assert ((a <=? 0) = true) as -> by lia.
      intros [= <-]. right. split; [| split; [| done]].
      * by eapply (grows_emit _ (EvAllocFail a)).
      * repeat split. apply log_rel_refl.
Qed.

Lemma pure_step_trans s1 s2 s3 l1 l2 l3 :
  pure_step s1 s2 l1 l2 -> pure_step s2 s3 l2 l3 -> pure_step s1 s3 l1 l3.
Proof.
  intros (G1 & U1 & A1 & B1 & C1) (G2 & U2 & A2 & B2 & C2).
  split; [by eapply grows_trans |]. split; [by eapply log_untouched_trans |].
  repeat split; congruence.
Qed.

Lemma quiet_is_any s s' : grows quiet_event s s' -> grows (fun _ => True) s s'.
Proof. by apply grows_weaken. Qed.

Lemma run_is_any s s' : grows run_event s s' -> grows (fun _ => True) s s'.
Proof. by apply grows_weaken. Qed.

Lemma inplace_loop_pure fuel s u ep time l r :
  inplace_loop alloc csum_of fuel s u ep time l = Some r ->
  alloc_seen s (wr_state r) \/ pure_step s (wr_state r) l (wr_locals_of r).
Proof.
  revert s l. induction fuel as [| fuel IH]; intros s l; simpl; [done |].
  destruct (l_num_blocks l >? 0).
  2:{ intros [= <-]. right. split; [apply grows_refl |].
      split; [apply log_untouched_refl | done]. }
  destruct (inplace_body _ _ _ _ _ _ _ _) as [[s1 l1 | s1 l1 | s1 l1 ret] |] eqn:Eb;
    [| | | done].
  - intros Hl. pose proof (grows_inplace_loop _ _ _ _ _ _ _ _ _ Hl) as Hg.
    apply IH in Hl. apply inplace_body_pure in Eb. simpl in Eb.
    destruct Eb as [Eb | Eb].
    + left. by eapply alloc_seen_grows.
    + destruct Hl as [Hl | Hl].
      * left. destruct Eb as (G & _). by eapply grows_alloc_seen.
      * right. by eapply pure_step_trans.
  - intros [= <-]. by apply inplace_body_pure in Eb.
  - intros [= <-]. by apply inplace_body_pure in Eb.
Qed.

End PureInplace.
Lemma log_untouched_same s s' :
  sih_log_tail s' = sih_log_tail s -> sih_alter_log_tail s' = sih_alter_log_tail s ->
  sih_tree s' = sih_tree s -> log_pages s' = log_pages s -> log s' = log s ->
  log_untouched s s'.
Proof. intros ? ? ? ? Hl. repeat split; try done. rewrite Hl. apply log_rel_refl. Qed.

Lemma log_untouched_free s b n : log_untouched s (nova_free_data_blocks s b n).
Proof. by apply log_untouched_same. Qed.

Lemma log_untouched_cleanup_loop fuel s curr_p end_tail s' ret :
  cleanup_loop fuel s curr_p end_tail = Some (s', ret) -> log_untouched s s'.
Proof.
  revert s curr_p. induction fuel as [| fuel IH]; intros s curr_p; simpl; [done |].
  destruct (negb (curr_p =? end_tail)); [| intros [= <- <-]; apply log_untouched_refl].
  destruct (_ =? 0); [intros [= <- <-]; apply log_untouched_refl |].
  destruct (negb _); [apply IH |].
  intros H. apply IH in H.
  eapply log_untouched_trans; [apply log_untouched_free | exact H].
Qed.

Lemma log_untouched_cleanup fuel s blocknr allocated begin_tail end_tail s' ret :
  nova_cleanup_incomplete_write fuel s blocknr allocated begin_tail end_tail = Some (s', ret) ->
  log_untouched s s'.
Proof.
  unfold nova_cleanup_incomplete_write.
  destruct (_ && _);
    (destruct (_ || _); [intros [= <- <-] | intros H1%log_untouched_cleanup_loop]).
  - apply log_untouched_free.
  - eapply log_untouched_trans; [apply log_untouched_free | exact H1].
  - apply log_untouched_refl.
  - exact H1.
Qed.

Lemma free_is_quiet s s' : grows free_event s s' -> grows quiet_event s s'.
Proof. apply grows_weaken. by intros []. Qed.

Lemma write_out_quiet fuel s l ret ppos lock s' ret' ppos' :
  write_out fuel s l ret ppos lock = Some (s', ret', ppos') ->
  grows quiet_event s s' /\ log_untouched s s'.
Proof.
  unfold write_out.
  destruct (if ret <? 0 then _ else _) as [[s1 r1] |] eqn:E; [| done].
  intros [= <- <- <-].
  assert (grows quiet_event s s1 /\ log_untouched s s1) as [G U].
  { destruct (ret <? 0).
    - split; [apply free_is_quiet; by eapply grows_cleanup
             | by eapply log_untouched_cleanup].
    - inversion E; subst. split; [apply grows_refl | apply log_untouched_refl]. }
  destruct lock; [| done]. split.
  - eapply grows_trans; [exact G |]. by eapply (grows_emit _ EvUnlock).
  - eapply log_untouched_trans; [exact U |]. by apply log_untouched_same.
Qed.

Lemma inplace_commit_any fuel s l total ppos lock s' ret ppos' :
  inplace_commit fuel s l total ppos lock = Some (s', ret, ppos') ->
  grows (fun _ => True) s s'.
Proof.
  unfold inplace_commit. cbv zeta.
  destruct (if l_update_log l then _ else _) as [[s2 ret2] |] eqn:E; [| done].
  match type of E with (if _ then _ else Some (?s0, 0)) = _ =>
    assert (grows (fun _ => True) s0 s2) as G2 end.
  { destruct (l_update_log l).
    - apply grows_reassign_loop in E.
      eapply grows_trans; [| eapply grows_weaken; [| exact E]; done].
      match goal with |- grows _ ?a (emit ?e (nova_update_inode ?b ?c)) =>
        apply (grows_trans _ _ (nova_update_inode b c));
          [by eapply (grows_emit _ (EvUpdateInode (tail c)))
          | by eapply (grows_emit _ e)] end.
    - inversion E; subst. apply grows_refl. }
  assert (grows (fun _ => True) s s2) as G by (eapply grows_trans; [| exact G2]; by apply grows_same).
  destruct (negb (ret2 =? 0)).
  - intros [Hq _]%write_out_quiet. eapply grows_trans; [exact G |]. by apply quiet_is_any.
  - intros [Hq _]%write_out_quiet. eapply grows_trans; [exact G |].
    eapply grows_trans; [| apply quiet_is_any; exact Hq].
    apply grows_same. by destruct (_ >? _).
Qed.

Lemma inplace_commit_pure fuel s l total ppos lock s' ret ppos' :
  inplace_commit fuel s l total ppos lock = Some (s', ret, ppos') ->
  l_update_log l = false ->
  grows quiet_event s s' /\ log_untouched s s'.
Proof.
  unfold inplace_commit. cbv zeta. intros H Hl. rewrite Hl in H.
  cbv beta iota in H. simpl negb in H. cbv beta iota in H.
  apply write_out_quiet in H as [G U]. split.
  - eapply grows_trans; [| exact G]. apply grows_same. by destruct (_ >? _).
  - eapply log_untouched_trans; [| exact U].
    destruct (_ >? _); by apply log_untouched_same.
Qed.

Definition is_commit (e : event) : Prop :=
  match e with
  | EvAppend _ | EvUpdateInode _ | EvReassign _ => True
  | _ => False
  end.

Lemma quiet_not_commit evs e :
  Forall quiet_event evs -> e ∈ evs -> is_commit e -> False.
Proof.
  intros F Hin Hc. rewrite Forall_forall in F. specialize (F e Hin). by destruct e.
Qed.

(** C7. The events [evs] of an in-place-policy write call: when no run
    filled a hole (no allocation among them), the call appended no log
    entry, committed no tail and ran no reassignment pass, and it left the
    log tail, its mirror and the index as they were, every log entry in
    place and changed at most in its size, epoch and "updating" fields;
    conversely a log append, a tail commit or a reassignment pass occurs
    only in a call that performed a hole-fill allocation. *)
Theorem inplace_write_without_hole_fill_keeps_log :
  forall (alloc : allocator) (csum_of : list byte -> Z) (fuel : nat)
         (s : nova_state) (filp : file) (u : ubuf) (len ppos : Z) (lock : bool)
         (s' : nova_state) (ret ppos' : Z),
    nova_inplace_file_write alloc csum_of fuel s filp u len ppos lock
    = Some (s', ret, ppos') ->
    exists evs,
      trace s' = trace s ++ evs
      /\ (Forall (fun e => ~ is_alloc e) evs ->
          Forall quiet_event evs /\ log_untouched s s')
      /\ (forall e, e ∈ evs -> is_commit e -> Exists is_alloc evs).
Proof.
  intros alloc csum_of fuel s filp u len ppos lock s' ret ppos' Hw.
  assert (alloc_seen s s' \/ (grows quiet_event s s' /\ log_untouched s s')) as Hcases.
  { unfold nova_inplace_file_write in Hw.
    destruct (len =? 0).
    { inversion Hw; subst. right. split; [apply grows_refl | apply log_untouched_refl]. }
    assert (grows quiet_event s (if lock then emit EvLock s else s)
            /\ log_untouched s (if lock then emit EvLock s else s)) as [Gl Ul].
    { destruct lock.
      - split; [by eapply (grows_emit _ EvLock) | by apply log_untouched_same].
      - split; [apply grows_refl | apply log_untouched_refl]. }
    destruct (negb (ub_access_ok u)).
    { right. apply write_out_quiet in Hw as [G U]. split.
      - by eapply grows_trans. - by eapply log_untouched_trans. }
    destruct (negb (f_remove_privs filp =? 0)).
    { right. apply write_out_quiet in Hw as [G U]. split.
      - by eapply grows_trans. - by eapply log_untouched_trans. }
    cbv zeta in Hw.
    destruct (inplace_loop _ _ _ _ _ _ _ _) as [r |] eqn:El; [| done].
    pose proof (inplace_loop_pure _ _ _ _ _ _ _ _ _ El) as Hp.
    match type of El with inplace_loop _ _ _ ?s0 _ _ _ ?l0 = _ =>
      assert (grows quiet_event s s0 /\ log_untouched s s0) as [G0 U0];
      [ split; [eapply grows_trans; [exact Gl |]; by apply grows_same
               | eapply log_untouched_trans; [exact Ul |]; by apply log_untouched_same]
      | assert (l_update_log l0 = false) as Hl0 by done ]
    end.
    assert (forall s1 l1 total,
              wr_state r = s1 -> wr_locals_of r = l1 ->
              inplace_commit fuel s1 l1 total ppos lock = Some (s', ret, ppos') ->
              alloc_seen s s' \/ (grows quiet_event s s' /\ log_untouched s s')) as Hcommit.
    { intros s1 l1 total <- <- Hc. destruct Hp as [Hp | (G & U & A & B & C)].
      - left. eapply alloc_seen_grows; [| by eapply inplace_commit_any].
        by eapply grows_alloc_seen.
      - apply inplace_commit_pure in Hc as [Gc Uc]; [| congruence].
        right. split.
        + eapply grows_trans; [exact G0 |]. by eapply grows_trans.
        + eapply log_untouched_trans; [exact U0 |]. by eapply log_untouched_trans. }
    destruct r as [s1 l1 | s1 l1 | s1 l1 r1]; [by eapply Hcommit | by eapply Hcommit |].
    apply write_out_quiet in Hw as [Gw Uw]. simpl in Hp.
    destruct Hp as [Hp | (G & U & _)].
    - left. eapply alloc_seen_grows; [| exact Gw]. by eapply grows_alloc_seen.
    - right. split.
      + eapply grows_trans; [exact G0 |]. by eapply grows_trans.
      + eapply log_untouched_trans; [exact U0 |]. by eapply log_untouched_trans. }
  destruct Hcases as [(evs & Hevs & Hex) | [(evs & Hevs & Hq) Hu]].
  - exists evs. split; [done |]. split; [| done].
    intros Hno. exfalso. apply Exists_exists in Hex as (e & Hin & He).
    rewrite Forall_forall in Hno. by apply (Hno e).
  - exists evs. split; [done |]. split; [done |].
    intros e Hin Hc. exfalso. by eapply quiet_not_commit.
Qed.

Lemma inplace_write_without_hole_fill_keeps_log_witness :
  exists s',
    nova_inplace_file_write ex_alloc byte_sum 8 ex_block_A ex_file (ex_user x42 20) 20 10 true
    = Some (s', 20, 30)
    /\ exists evs,
         trace s' = trace ex_block_A ++ evs
         /\ (Forall (fun e => ~ is_alloc e) evs ->
             Forall quiet_event evs /\ log_untouched ex_block_A s')
         /\ (forall e, e ∈ evs -> is_commit e -> Exists is_alloc evs).
Proof.
  destruct (wr_ret_some (nova_inplace_file_write ex_alloc byte_sum 8 ex_block_A ex_file
                           (ex_user x42 20) 20 10 true) 20 30) as [s' H];
    [vm_compute; reflexivity |].
  exists s'. split; [exact H |].
  exact (inplace_write_without_hole_fill_keeps_log ex_alloc byte_sum 8 ex_block_A ex_file
           (ex_user x42 20) 20 10 true s' 20 30 H).
Defined.

(** ** Arithmetic of the word-size wrap and of page offsets *)

Lemma ulong_small z : 0 <= z < 2 ^ 64 -> ulong z = z.
Proof. intros H. unfold ulong. by apply Z.mod_small. Qed.

Lemma ulong_range z : 0 <= ulong z < 2 ^ 64.
Proof. unfold ulong. apply Z.mod_pos_bound. lia. Qed.

(** ** Read path: checksum verification *)

Section ReadChecksum.

Variable csum_of : list byte -> Z.


Lemma read_body_committed s dst isize len end_index l entry e :
  (r_index l < end_index
   \/ (r_index l = end_index
       /\ r_offset l < Z.land (isize - 1) (Z.lnot PAGE_MASK) + 1)) ->
  sih_tree s !! r_index l = Some entry -> entry <> 0 ->
  log s !! entry = Some e ->
  0 <= pgoff e <= r_index l -> r_index l < pgoff e + num_pages e -> r_index l < 2 ^ 64 ->
  read_body csum_of s dst isize len end_index l
  = read_copy csum_of s dst len l
      (if reassigned e =? 0
       then ulong ((num_pages e - ulong (r_index l - pgoff e)) * PAGE_SIZE)
       else PAGE_SIZE) false (get_nvmm e (r_index l)).
Proof.
  intros Heof Ht Hne Hl Hlo Hhi Hmax. unfold read_body. cbv zeta.
  assert ((r_index l >=? end_index)
          && ((r_index l >? end_index)
              || (Z.land (isize - 1) (Z.lnot PAGE_MASK) + 1 <=? r_offset l)) = false) as ->.
  { destruct Heof as [H | [H1 H2]].
    - apply andb_false_iff. left. lia.
    - apply andb_false_iff. right. apply orb_false_iff. split; lia. }
  unfold nova_get_write_entry, entry_at. rewrite Ht. simpl.
  assert ((entry =? 0) = false) as -> by lia. rewrite Hl. simpl.
  rewrite ulong_small by lia.
  assert ((r_index l <? pgoff e) || (r_index l - pgoff e >=? num_pages e) = false) as ->.
  { apply orb_false_iff. split; lia. }
  done.
Qed.


End ReadChecksum.



(** ** Return value of a write cut short by a user-copy fault *)

(** C6 (code defect). An in-place-policy write of 4096 bytes into the empty
    file whose user buffer faults after 100 bytes returns the positive
    count 100 although the entry of the run was never committed: the log
    tail is the one before the call, no [nova_update_inode] happened, the
    index is empty, and a read of the 100 bytes returns zeros.  The
    copy-on-write writer commits the tail in the same situation.  When the
    very first byte faults both writers return 0, not the [-EFAULT] that
    [status] holds. *)
Theorem short_copy_returns_uncommitted_count :
  wr_view (nova_inplace_file_write ex_alloc byte_sum 8 ex_fresh ex_file (ex_faulty 100)
             4096 0 true)
  = Some (100, 100, sih_log_tail ex_fresh, 100, [],
          [EvLock; EvAlloc 16 1; EvAppend 8192; EvUnlock])
  /\ read_back byte_sum 8
       (nova_inplace_file_write ex_alloc byte_sum 8 ex_fresh ex_file (ex_faulty 100)
          4096 0 true) 100 0
     = Some (100, repeat x00 100, 100)
  /\ wr_view (nova_cow_file_write ex_alloc byte_sum 8 ex_fresh ex_file (ex_faulty 100)
                4096 0 true)
     = Some (100, 100, 8256, 100, [],
             [EvLock; EvAlloc 16 1; EvAppend 8192; EvUpdateInode 8256; EvReassign 0;
              EvUnlock])
  /\ wr_ret (nova_cow_file_write ex_alloc byte_sum 8 ex_fresh ex_file (ex_faulty 0)
               4096 0 true)
     = Some (0, 0)
  /\ wr_ret (nova_inplace_file_write ex_alloc byte_sum 8 ex_fresh ex_file (ex_faulty 0)
               4096 0 true)
     = Some (0, 0).
Proof. repeat split; vm_compute; reflexivity. Qed.

(** ** Page arithmetic: the masks and shifts of the code as [mod] and [/] *)

Ltac Zify.zify_post_hook ::= Z.div_mod_to_equations.

Lemma land_blocksize x : Z.land x (s_blocksize - 1) = x mod 4096.
Proof. change (s_blocksize - 1) with (Z.ones 12). by rewrite Z.land_ones. Qed.

Lemma land_page_size x : Z.land x (PAGE_SIZE - 1) = x mod 4096.
Proof. change (PAGE_SIZE - 1) with (Z.ones 12). by rewrite Z.land_ones. Qed.

Lemma land_not_page_mask x : Z.land x (Z.lnot PAGE_MASK) = x mod 4096.
Proof.
  unfold PAGE_MASK. rewrite Z.lnot_involutive. apply land_page_size.
Qed.

Lemma shiftr_blocksize_bits x : Z.shiftr x s_blocksize_bits = x / 4096.
Proof. unfold s_blocksize_bits. by rewrite Z.shiftr_div_pow2. Qed.

Lemma shiftr_page x : Z.shiftr x PAGE_SHIFT = x / 4096.
Proof. unfold PAGE_SHIFT. by rewrite Z.shiftr_div_pow2. Qed.

Lemma shiftl_blocksize_bits x : Z.shiftl x s_blocksize_bits = x * 4096.
Proof. unfold s_blocksize_bits. by rewrite Z.shiftl_mul_pow2. Qed.

Lemma shiftl_page x : Z.shiftl x PAGE_SHIFT = x * 4096.
Proof. unfold PAGE_SHIFT. by rewrite Z.shiftl_mul_pow2. Qed.

Lemma blk_size_4k s : sih_i_blk_type s = 0 -> nova_inode_blk_size s = 4096.
Proof. intros H. unfold nova_inode_blk_size. by rewrite H. Qed.

Lemma land_blk_size_4k s x :
  sih_i_blk_type s = 0 -> Z.land x (nova_inode_blk_size s - 1) = x mod 4096.
Proof. intros H. rewrite (blk_size_4k s H). apply land_blocksize. Qed.

Lemma get_block_off_eq b : nova_get_block (nova_get_block_off b) = b * 4096.
Proof. unfold nova_get_block, nova_get_block_off. apply shiftl_page. Qed.

Lemma test_lia x : 0 <= x -> x mod 4096 < 4096 /\ x / 4096 * 4096 <= x.
Proof. intros. lia. Qed.
(** ** The partial-block merger *)

(** What the merger puts at offset [k] of a new block that stands for the
    logical page [pg]: the byte of the block the index maps the page to, or
    zero for a hole. *)
Definition old_byte (s : nova_state) (pg k : Z) : byte :=
  let entry := nova_get_write_entry s pg in
  if entry =? 0 then x00
  else pmem s (get_nvmm (entry_at s entry) pg * 4096 + k).

(** The block the index maps [pg] to, if any, is a real block outside the
    run [[b, b + n)]. *)
Definition old_block_outside (s : nova_state) (pg b n : Z) : Prop :=
  let entry := nova_get_write_entry s pg in
  entry = 0
  \/ (get_nvmm (entry_at s entry) pg <> 0
      /\ (get_nvmm (entry_at s entry) pg < b \/ b + n <= get_nvmm (entry_at s entry) pg)).

Lemma pmem_set_pmem m s : pmem (set_pmem m s) = m.
Proof. done. Qed.

Lemma handle_partial_pmem s entry index offset length kmem a :
  pmem (nova_handle_partial_block s entry index offset length kmem) a
  = if (kmem + offset <=? a) && (a <? kmem + offset + length)
    then (if entry =? 0 then x00
          else if get_nvmm (entry_at s entry) index * 4096 =? 0 then pmem s a
          else pmem s (get_nvmm (entry_at s entry) index * 4096 + offset
                       + (a - (kmem + offset))))
    else pmem s a.
Proof.
  unfold nova_handle_partial_block, nova_copy_partial_block, nova_get_block.
  rewrite shiftl_page.
  destruct (entry =? 0).
  - rewrite pmem_set_pmem. reflexivity.
  - destruct (_ =? 0); cbv [negb].
    + by destruct (_ && _).
    + rewrite pmem_set_pmem. unfold mem_copy. reflexivity.
Qed.

Lemma handle_partial_frame s entry index offset length kmem :
  sih_tree (nova_handle_partial_block s entry index offset length kmem) = sih_tree s
  /\ log (nova_handle_partial_block s entry index offset length kmem) = log s
  /\ sih_i_blk_type (nova_handle_partial_block s entry index offset length kmem)
     = sih_i_blk_type s.
Proof.
  destruct (handle_partial_eq s entry index offset length kmem) as [m ->]. done.
Qed.

Lemma handle_head_tail_unfold s pos count kmem :
  sih_i_blk_type s = 0 -> 0 <= pos -> 0 < count < 2 ^ 63 ->
  nova_handle_head_tail_blocks s pos count kmem
  = let off := pos mod 4096 in
    let nb := (count + off - 1) / 4096 + 1 in
    let s1 := if negb (off =? 0)
              then nova_handle_partial_block s (nova_get_write_entry s (pos / 4096))
                     (pos / 4096) 0 off kmem
              else s in
    if negb ((pos + count) mod 4096 =? 0)
    then nova_handle_partial_block s1 (nova_get_write_entry s1 (pos / 4096 + nb - 1))
           (pos / 4096 + nb - 1) ((pos + count) mod 4096)
           (4096 - (pos + count) mod 4096) (kmem + (nb - 1) * 4096)
    else s1.
Proof.
  intros Hb Hp Hc. unfold nova_handle_head_tail_blocks. cbv zeta.
  rewrite !land_blocksize, !shiftr_blocksize_bits, !shiftl_blocksize_bits.
  rewrite (land_blk_size_4k s) by done.
  rewrite ulong_small by lia.
  match goal with |- context [nova_inode_blk_size ?s1] =>
    assert (sih_i_blk_type s1 = 0) as H1;
    [| rewrite (land_blk_size_4k s1 _ H1) ] end.
  { destruct (negb _); [| done]. by rewrite (proj2 (proj2 (handle_partial_frame _ _ _ _ _ _))). }
  done.
Qed.

Section Merger.

(** A run of [n] new blocks starting at block [b] for [count] bytes at
    file position [pos]. *)
Variables (s : nova_state) (pos count b n : Z).
Hypothesis blk4k : sih_i_blk_type s = 0.
Hypothesis pos_nonneg : 0 <= pos.
Hypothesis count_pos : 0 < count.
Hypothesis count_fits : pos mod 4096 + count <= 4096 * n.
Hypothesis n_small : n <= 2 ^ 50.

Let off := pos mod 4096.
Let nb := (count + off - 1) / 4096 + 1.
Let start_blk := pos / 4096.
Let end_blk := start_blk + nb - 1.
Let s' := nova_handle_head_tail_blocks s pos count (b * 4096).

Hypothesis start_outside : old_block_outside s start_blk b n.
Hypothesis end_outside : old_block_outside s end_blk b n.

Lemma head_tail_nb : 1 <= nb <= n.
Proof. subst nb off. lia. Qed.

(** Head: the bytes of the first block before the write window. *)
Lemma head_tail_head a :
  b * 4096 <= a < b * 4096 + off -> pmem s' a = old_byte s start_blk (a - b * 4096).
Proof.
  intros Ha. subst s'. rewrite handle_head_tail_unfold by (try done; lia). cbv zeta.
  fold off. fold nb. fold start_blk. fold end_blk.
  assert ((off =? 0) = false) as -> by lia. simpl negb. cbv iota.
  set (s1 := nova_handle_partial_block s _ _ _ _ _).
  assert (pmem s1 a = old_byte s start_blk (a - b * 4096)) as H1.
  { subst s1. rewrite handle_partial_pmem.
    assert ((b * 4096 + 0 <=? a) && (a <? b * 4096 + 0 + off) = true) as ->
      by (apply andb_true_iff; lia).
    unfold old_byte. cbv zeta. fold start_blk.
    destruct (Z.eqb_spec (nova_get_write_entry s start_blk) 0) as [E | E]; [done |].
    destruct start_outside as [H | [H _]]; [done |]. fold start_blk in H.
    assert ((get_nvmm (entry_at s (nova_get_write_entry s start_blk)) start_blk * 4096 =? 0)
            = false) as -> by lia.
    f_equal. lia. }
  destruct (Z.eqb_spec ((pos + count) mod 4096) 0) as [E | E]; [done |]. simpl negb. cbv iota.
  rewrite handle_partial_pmem.
  pose proof head_tail_nb.
  assert ((b * 4096 + (nb - 1) * 4096 + (pos + count) mod 4096 <=? a) = false) as ->.
  { subst nb off. lia. }
  done.
Qed.

(** Tail: the bytes of the last block after the write window. *)
Lemma head_tail_tail a :
  b * 4096 + off + count <= a < b * 4096 + nb * 4096 ->
  pmem s' a = old_byte s end_blk (a - (b + nb - 1) * 4096).
Proof.
  intros Ha. subst s'. rewrite handle_head_tail_unfold by (try done; lia). cbv zeta.
  fold off. fold nb. fold start_blk. fold end_blk.
  pose proof head_tail_nb as Hnb.
  assert ((pos + count) mod 4096 <> 0
          /\ (nb - 1) * 4096 + (pos + count) mod 4096 = off + count) as [Hne Heq].
  { subst nb off. lia. }
  assert (((pos + count) mod 4096 =? 0) = false) as -> by lia. simpl negb. cbv iota.
  match goal with |- context [nova_handle_partial_block ?s1 (nova_get_write_entry ?s1 _) _ _ _ _] =>
    set (st1 := s1) end.
  assert (sih_tree st1 = sih_tree s /\ log st1 = log s
          /\ (forall x, x < b * 4096 \/ (b + n) * 4096 <= x -> pmem st1 x = pmem s x))
    as (Ht & Hl & Hm).
  { subst st1. destruct (negb (off =? 0)); [| done].
    split; [apply handle_partial_frame |]. split; [apply handle_partial_frame |].
    intros x Hx. rewrite handle_partial_pmem.
    assert ((b * 4096 + 0 <=? x) && (x <? b * 4096 + 0 + off) = false) as ->; [| done].
    apply andb_false_iff. subst off. lia. }
  clearbody st1.
  rewrite handle_partial_pmem.
  assert ((b * 4096 + (nb - 1) * 4096 + (pos + count) mod 4096 <=? a)
          && (a <? b * 4096 + (nb - 1) * 4096 + (pos + count) mod 4096
                   + (4096 - (pos + count) mod 4096)) = true) as ->.
  { apply andb_true_iff. lia. }
  unfold old_byte, nova_get_write_entry, entry_at. rewrite Ht, Hl.
  fold (nova_get_write_entry s end_blk). fold (entry_at s (nova_get_write_entry s end_blk)).
  cbv zeta.
  destruct (Z.eqb_spec (nova_get_write_entry s end_blk) 0) as [E | E]; [done |].
  destruct end_outside as [H | [H H']]; [done |]. fold end_blk in H, H'.
  assert ((get_nvmm (entry_at s (nova_get_write_entry s end_blk)) end_blk * 4096 =? 0)
          = false) as -> by lia.
  rewrite Hm by lia. f_equal. lia.
Qed.

(** Everything else is left as it was. *)
Lemma head_tail_other a :
  ~ (b * 4096 <= a < b * 4096 + off) ->
  ~ (b * 4096 + off + count <= a < b * 4096 + nb * 4096) ->
  pmem s' a = pmem s a.
Proof.
  intros Hh Ht. subst s'. rewrite handle_head_tail_unfold by (try done; lia). cbv zeta.
  fold off. fold nb. fold start_blk. fold end_blk.
  pose proof head_tail_nb as Hnb.
  match goal with |- context [nova_handle_partial_block ?s1 (nova_get_write_entry ?s1 _) _ _ _ _] =>
    set (st1 := s1) end.
  assert (pmem st1 a = pmem s a) as Hm.
  { subst st1. destruct (negb (off =? 0)); [| done].
    rewrite handle_partial_pmem.
    assert ((b * 4096 + 0 <=? a) && (a <? b * 4096 + 0 + off) = false) as ->; [| done].
    apply andb_false_iff. lia. }
  clearbody st1.
  destruct (negb ((pos + count) mod 4096 =? 0)) eqn:E; [| done].
  rewrite handle_partial_pmem.
  assert ((b * 4096 + (nb - 1) * 4096 + (pos + count) mod 4096 <=? a)
          && (a <? b * 4096 + (nb - 1) * 4096 + (pos + count) mod 4096
                   + (4096 - (pos + count) mod 4096)) = false) as ->; [| done].
  apply andb_false_iff. subst nb off. lia.
Qed.

(** The merge together with the copy from the user buffer, part one: the
    user's bytes are in the window, as far as they could be copied, and
    nothing outside the run changes. *)
Lemma run_copy_data (u : ubuf) (l : wr_locals) (merge : bool) (merge_state : nova_state)
    (copied : Z) :
  l_pos l = pos ->
  wr_copy_in merge s u l off count (b * 4096) = (merge_state, copied) ->
  copied = user_copy_ok u (l_buf l) count
  /\ (forall a, b * 4096 + off <= a < b * 4096 + off + copied ->
        pmem merge_state a = ub_byte u (l_buf l + (a - (b * 4096 + off))))
  /\ (forall a, a < b * 4096 \/ (b + nb) * 4096 <= a -> pmem merge_state a = pmem s a).
Proof.
  intros Hpos. unfold wr_copy_in, memcpy_to_pmem_nocache. rewrite Hpos.
  rewrite land_page_size. cbv beta iota.
  match goal with |- context [if ?c then nova_handle_head_tail_blocks s pos count (b * 4096) else s] =>
    set (s1 := if c then nova_handle_head_tail_blocks s pos count (b * 4096) else s) end.
  intros [= <- <-].
  assert (count - (count - user_copy_ok u (l_buf l) count) = user_copy_ok u (l_buf l) count)
    as -> by lia.
  assert (0 <= user_copy_ok u (l_buf l) count <= count) as Hok
    by (unfold user_copy_ok; lia).
  pose proof head_tail_nb as Hnb.
  assert (forall a, a < b * 4096 \/ (b + nb) * 4096 <= a -> pmem s1 a = pmem s a) as H1.
  { intros a Ha. subst s1. destruct (_ && _); [| done].
    apply head_tail_other; subst off; lia. }
  split; [done |]. rewrite pmem_set_pmem. unfold mem_store.
  split; intros a Ha.
  - assert ((b * 4096 + off <=? a) && (a <? b * 4096 + off + user_copy_ok u (l_buf l) count)
            = true) as -> by (apply andb_true_iff; lia).
    done.
  - assert ((b * 4096 + off <=? a) && (a <? b * 4096 + off + user_copy_ok u (l_buf l) count)
            = false) as ->.
    { apply andb_false_iff. subst off. lia. }
    by apply H1.
Qed.

(** Part two: a freshly allocated run holds the old bytes before and after
    the window. *)
Lemma run_copy_merge (u : ubuf) (l : wr_locals) (merge_state : nova_state) (copied : Z) :
  l_pos l = pos ->
  wr_copy_in true s u l off count (b * 4096) = (merge_state, copied) ->
  (forall a, b * 4096 <= a < b * 4096 + off ->
     pmem merge_state a = old_byte s start_blk (a - b * 4096))
  /\ (forall a, b * 4096 + off + count <= a < b * 4096 + nb * 4096 ->
        pmem merge_state a = old_byte s end_blk (a - (b + nb - 1) * 4096)).
Proof.
  intros Hpos. unfold wr_copy_in, memcpy_to_pmem_nocache. rewrite Hpos.
  rewrite land_page_size. cbv [andb].
  match goal with |- context [if ?c then nova_handle_head_tail_blocks s pos count (b * 4096) else s] =>
    set (s1 := if c then nova_handle_head_tail_blocks s pos count (b * 4096) else s) end.
  intros [= <- <-].
  assert (0 <= user_copy_ok u (l_buf l) count <= count) as Hok
    by (unfold user_copy_ok; lia).
  pose proof head_tail_nb as Hnb.
  assert (forall a, pmem s1 a = pmem s' a \/
                    (pmem s1 a = pmem s a /\ off = 0 /\ off + count = nb * 4096)) as H1.
  { intros a. subst s1.
    destruct (Z.eqb_spec off 0) as [E0 | E0]; cbv [negb orb]; [| by left].
    destruct (Z.eqb_spec ((off + count) mod 4096) 0) as [E1 | E1]; [| by left].
    right. split; [done |]. split; [done |]. subst nb. lia. }
  rewrite pmem_set_pmem. unfold mem_store.
  split; intros a Ha.
  - assert ((b * 4096 + off <=? a) = false) as -> by lia. cbv [andb].
    destruct (H1 a) as [-> | (_ & E & _)]; [by apply head_tail_head | lia].
  - assert ((a <? b * 4096 + off + user_copy_ok u (l_buf l) count) = false) as -> by lia.
    rewrite andb_false_r.
    destruct (H1 a) as [-> | (_ & _ & E)]; [by apply head_tail_tail | lia].
Qed.

End Merger.

(** ** Walking the log *)

(** The slot an entry appended at tail [p] lands in, and the slot a walker
    standing at [p] looks at: [p] itself, or the start of the next log
    page when [p] is past the last slot of its page. *)
Definition slot_of (s : nova_state) (p : Z) : Z :=
  if is_last_entry p entry_size then next_log_page s p else p.

(** [log_walk s p cs q]: from position [p] the successive slots are [cs]
    and the position after the last of them is [q]. *)
Fixpoint log_walk (s : nova_state) (p : Z) (cs : list Z) (q : Z) : Prop :=
  match cs with
  | [] => q = p
  | c :: cs => c = slot_of s p /\ c <> 0 /\ log_walk s (c + entry_size) cs q
  end.

(** The positions after each of the first [n] slots that follow [p]. *)
Fixpoint log_chain (s : nova_state) (p : Z) (n : nat) : list Z :=
  match n with
  | O => []
  | S n =>
      let c := slot_of s p in
      if c =? 0 then [] else (c + entry_size) :: log_chain s (c + entry_size) n
  end.

Lemma log_walk_pages s s' p cs q :
  log_pages s' = log_pages s -> log_walk s p cs q -> log_walk s' p cs q.
Proof.
  intros Hp. revert p. induction cs as [| c cs IH]; intros p; simpl; [done |].
  intros (Hc & Hne & Hw). split; [| split; [done | by apply IH]].
  rewrite Hc. unfold slot_of, next_log_page. by rewrite Hp.
Qed.

Lemma log_walk_snoc s p cs q c :
  log_walk s p cs q -> c = slot_of s q -> c <> 0 ->
  log_walk s p (cs ++ [c]) (c + entry_size).
Proof.
  revert p. induction cs as [| c0 cs IH]; intros p; simpl.
  - intros -> -> Hne. done.
  - intros (Hc & Hne & Hw) Hq Hn. split; [done |]. split; [done |]. by apply IH.
Qed.

Lemma log_walk_chain s p cs q n :
  log_walk s p cs q -> (length cs <= n)%nat ->
  exists rest, log_chain s p n = map (fun c => c + entry_size) cs ++ rest.
Proof.
  revert p n. induction cs as [| c cs IH]; intros p n; simpl.
  - intros _ _. by eexists.
  - intros (Hc & Hne & Hw) Hn. destruct n as [| n]; [lia |]. simpl.
    rewrite <- Hc. assert ((c =? 0) = false) as -> by lia.
    destruct (IH _ n Hw) as [rest ->]; [lia |]. by eexists.
Qed.

(** The walk ends where the slots after [p] say, and the positions it
    passes are pairwise distinct when the chain does not loop. *)
Lemma log_walk_nodup s p cs q n :
  log_walk s p cs q -> (length cs <= n)%nat ->
  NoDup (slot_of s p :: log_chain s p n) ->
  NoDup (slot_of s p :: map (fun c => c + entry_size) cs).
Proof.
  intros Hw Hn Hnd. destruct (log_walk_chain s p cs q n Hw Hn) as [rest Hr].
  rewrite Hr in Hnd. apply NoDup_cons in Hnd as [Hnin Hnd].
  apply NoDup_cons. split.
  - intros Hin. apply Hnin. apply elem_of_app. by left.
  - by apply NoDup_app in Hnd as [? _].
Qed.


(** ** Runs of a write call *)

(** One block run of a write call: the log slot of its entry, its first
    logical page, its length in blocks and its first physical block. *)
Record run := {
  r_slot : Z;
  r_pg : Z;
  r_n : Z;
  r_b : Z
}.

Definition run_blocks (runs : list run) : gset Z :=
  ⋃ (map (fun r => blocks (r_b r) (r_n r)) runs).

(** The runs cover consecutive pages from [pg] on. *)
Fixpoint runs_from (pg : Z) (runs : list run) : Prop :=
  match runs with
  | [] => True
  | r :: rs => r_pg r = pg /\ 0 < r_n r /\ runs_from (pg + r_n r) rs
  end.

Definition runs_end (pg : Z) (runs : list run) : Z :=
  fold_left (fun p r => p + r_n r) runs pg.

(** The allocator contract: a successful allocation returns at most the
    requested count of blocks, all of them free, none of them block 0. *)
Definition alloc_sound (alloc : allocator) : Prop :=
  forall free hint num ret b,
    alloc free hint num = (ret, b) -> 0 < ret ->
    ret <= num /\ 0 < b /\ blocks b ret ⊆ free.

Lemma elem_of_blocks x b n : x ∈ blocks b n <-> b <= x < b + n.
Proof. unfold blocks. rewrite elem_of_list_to_set, elem_of_seqZ. done. Qed.

Lemma run_blocks_snoc runs r :
  run_blocks (runs ++ [r]) = run_blocks runs ∪ blocks (r_b r) (r_n r).
Proof.
  unfold run_blocks. rewrite map_app, union_list_app_L. simpl. by rewrite union_empty_r_L.
Qed.

Lemma elem_of_run_blocks x runs :
  x ∈ run_blocks runs <-> exists r, r ∈ runs /\ r_b r <= x < r_b r + r_n r.
Proof.
  unfold run_blocks. rewrite elem_of_union_list. split.
  - intros (X & HX & Hx). apply list_elem_of_fmap in HX as (r & -> & Hr).
    exists r. split; [done |]. by apply elem_of_blocks.
  - intros (r & Hr & Hx). exists (blocks (r_b r) (r_n r)). split.
    + apply list_elem_of_fmap. by exists r.
    + by apply elem_of_blocks.
Qed.

Lemma runs_end_snoc pg runs r : runs_end pg (runs ++ [r]) = runs_end pg runs + r_n r.
Proof. unfold runs_end. by rewrite fold_left_app. Qed.

Lemma runs_from_snoc pg runs r :
  runs_from pg runs -> r_pg r = runs_end pg runs -> 0 < r_n r ->
  runs_from pg (runs ++ [r]).
Proof.
  revert pg. induction runs as [| r0 rs IH]; intros pg; simpl.
  - intros _ -> Hn. done.
  - intros (Hp & Hn0 & Hrs) Hr Hn. split; [done |]. split; [done |].
    apply IH; done.
Qed.

Lemma runs_from_bounds pg runs r :
  runs_from pg runs -> r ∈ runs ->
  pg <= r_pg r /\ r_pg r + r_n r <= runs_end pg runs /\ 0 < r_n r.
Proof.
  revert pg. induction runs as [| r0 rs IH]; intros pg; simpl.
  - intros _ H. by apply elem_of_nil in H.
  - intros (Hp & Hn0 & Hrs) Hin.
    assert (pg + r_n r0 <= runs_end (pg + r_n r0) rs) as Hmono.
    { clear -Hrs. revert Hrs. generalize (pg + r_n r0). induction rs as [| r1 rs IH]; intros p;
        simpl; [lia |]. intros (? & ? & H). specialize (IH _ H). unfold runs_end in *.
      simpl. lia. }
    unfold runs_end in *. simpl.
    apply elem_of_cons in Hin as [-> | Hin].
    + lia.
    + destruct (IH _ Hrs Hin) as (? & ? & ?). lia.
Qed.

Lemma runs_end_ge pg runs : runs_from pg runs -> pg + Z.of_nat (length runs) <= runs_end pg runs.
Proof.
  revert pg. induction runs as [| r0 rs IH]; intros pg; simpl.
  - unfold runs_end. simpl. lia.
  - intros (Hp & Hn0 & Hrs). specialize (IH _ Hrs). unfold runs_end in *. simpl. lia.
Qed.

(** Two pages of consecutive runs belong to one run only. *)
Lemma runs_from_unique pg runs r1 r2 q :
  runs_from pg runs -> r1 ∈ runs -> r2 ∈ runs ->
  r_pg r1 <= q < r_pg r1 + r_n r1 -> r_pg r2 <= q < r_pg r2 + r_n r2 -> r1 = r2.
Proof.
  revert pg. induction runs as [| r0 rs IH]; intros pg; simpl.
  - intros _ H. by apply elem_of_nil in H.
  - intros (Hp & Hn0 & Hrs) H1 H2 Hq1 Hq2.
    apply elem_of_cons in H1 as [-> | H1]; apply elem_of_cons in H2 as [-> | H2].
    + done.
    + pose proof (runs_from_bounds _ _ _ Hrs H2). lia.
    + pose proof (runs_from_bounds _ _ _ Hrs H1). lia.
    + by eapply IH.
Qed.

(** ** The loop invariant of the copy-on-write writer *)

Section CowLoop.

Variable alloc : allocator.
Variable csum_of : list byte -> Z.
Variables (s0 : nova_state) (u : ubuf) (pos0 len ep time : Z).

Hypothesis Halloc : alloc_sound alloc.
Hypothesis Hblk : sih_i_blk_type s0 = 0.
Hypothesis Hpos0 : 0 <= pos0.
Hypothesis Hlen : 0 < len.
Hypothesis Hmax : pos0 + len < 2 ^ 62.

Let first_pg := pos0 / 4096.
Let last_pg := (pos0 + len - 1) / 4096.

(** The log chain after the committed tail does not loop within the slots
    the call can use. *)
Hypothesis Hchain :
  NoDup (slot_of s0 (sih_log_tail s0)
         :: log_chain s0 (sih_log_tail s0) (Z.to_nat (last_pg + 1 - first_pg))).

(** What holds of the state that only the bookkeeping of completed runs
    touches: these facts hold at every point of the loop. *)
Record runs_inv (s : nova_state) (l : wr_locals) (runs : list run) : Prop := {
  ri_tree : sih_tree s = sih_tree s0;
  ri_tail : sih_log_tail s = sih_log_tail s0;
  ri_alter : sih_alter_log_tail s = sih_alter_log_tail s0;
  ri_pages : log_pages s = log_pages s0;
  ri_blk : sih_i_blk_type s = 0;
  ri_isize : i_size s = i_size s0;
  ri_sub : run_blocks runs ⊆ free_blocks s0;
  ri_walk : log_walk s0 (sih_log_tail s0) (map r_slot runs) (tail (l_update l));
  ri_log : forall r, r ∈ runs ->
           log s !! r_slot r
           = Some (nova_init_file_write_entry ep (r_pg r) (r_n r) (r_b r) time
                     (size (entry_at s (r_slot r))));
  ri_log_other : forall p, p ∉ map r_slot runs -> log s !! p = log s0 !! p;
  ri_from : runs_from first_pg runs;
  ri_end : runs_end first_pg runs <= last_pg + 1;
  ri_pmem_other : forall a, a / 4096 ∉ run_blocks runs ->
                  a / 4096 ∉ free_blocks s0 -> pmem s a = pmem s0 a
}.

(** At the head of the loop. *)
Record cow_inv (s : nova_state) (l : wr_locals) (runs : list run) : Prop := {
  ci_runs : runs_inv s l runs;
  ci_content : forall r x, r ∈ runs ->
               pos0 <= x < pos0 + len ->
               r_pg r * 4096 <= x < (r_pg r + r_n r) * 4096 ->
               pmem s (r_b r * 4096 + (x - r_pg r * 4096)) = ub_byte u (x - pos0);
  ci_free : free_blocks s = free_blocks s0 ∖ run_blocks runs;
  ci_written : l_written l = Z.max 0 (Z.min len (runs_end first_pg runs * 4096 - pos0));
  ci_pos : l_pos l = pos0 + l_written l;
  ci_count : l_count l = len - l_written l;
  ci_buf : l_buf l = l_written l;
  ci_nb : l_num_blocks l = last_pg + 1 - runs_end first_pg runs;
  ci_status : 0 <= l_status l;
  ci_begin : l_begin_tail l = hd 0 (map r_slot runs)
}.

(** At the error exit: the blocks of the last allocation are still
    allocated when the entry for them was not appended. *)
Definition pending (l : wr_locals) : gset Z :=
  if l_allocated l >? 0 then blocks (l_blocknr l) (l_allocated l) else ∅.

Record out_inv (s : nova_state) (l : wr_locals) (runs : list run) : Prop := {
  oi_runs : runs_inv s l runs;
  oi_free : free_blocks s = free_blocks s0 ∖ run_blocks runs ∖ pending l;
  oi_pending : pending l ⊆ free_blocks s0;
  oi_blocknr : l_allocated l > 0 -> l_blocknr l > 0;
  oi_begin : l_begin_tail l = hd 0 (map r_slot runs)
}.

(** After a user-copy fault: the entry of the faulting run was appended
    but the run is not recorded as begun. *)
Record break_inv (s : nova_state) (l : wr_locals) (runs : list run) : Prop := {
  bi_runs : runs_inv s l runs;
  bi_written : 0 <= l_written l < len;
  bi_begin : l_begin_tail l = 0 \/ l_begin_tail l = hd 0 (map r_slot runs)
}.

Lemma init_inv s :
  sih_tree s = sih_tree s0 -> sih_log_tail s = sih_log_tail s0 ->
  sih_alter_log_tail s = sih_alter_log_tail s0 ->
  log_pages s = log_pages s0 -> sih_i_blk_type s = 0 -> i_size s = i_size s0 ->
  log s = log s0 -> pmem s = pmem s0 -> free_blocks s = free_blocks s0 ->
  cow_inv s
    (wr_init s pos0 len (Z.shiftr (ulong (len + Z.land pos0 (s_blocksize - 1) - 1))
                           s_blocksize_bits + 1)) [].
Proof.
  intros Ht Htl Hal Hp Hb Hi Hl Hm Hf.
  assert (runs_end first_pg [] = first_pg) as He by done.
  split; simpl; rewrite ?He.
  - split; simpl; rewrite ?He; try done.
    + intros r Hr. by apply elem_of_nil in Hr.
    + intros p _. by rewrite Hl.
    + unfold first_pg, last_pg in *. lia.
    + intros a _ _. by rewrite Hm.
  - intros r x Hr. by apply elem_of_nil in Hr.
  - rewrite Hf. unfold run_blocks. simpl. by rewrite difference_empty_L.
  - unfold first_pg in *. lia.
  - lia.
  - lia.
  - done.
  - rewrite land_blocksize, shiftr_blocksize_bits. rewrite ulong_small by lia.
    unfold first_pg, last_pg in *. lia.
  - lia.
  - done.
Qed.

(** Arithmetic of the loop head. *)
Lemma cow_inv_arith s l runs :
  cow_inv s l runs -> l_num_blocks l > 0 ->
  let np := runs_end first_pg runs in
  first_pg <= np <= last_pg
  /\ l_pos l / 4096 = np
  /\ l_pos l - l_pos l mod 4096 = np * 4096
  /\ 0 <= l_written l < len
  /\ l_written l = Z.max 0 (np * 4096 - pos0)
  /\ (length runs <= Z.to_nat (np - first_pg))%nat.
Proof.
  intros [Hr Hct Hf Hw Hp Hc Hb Hn Hs Hbg] Hnb. cbv zeta.
  pose proof (runs_end_ge _ _ (ri_from _ _ _ Hr)) as Hge.
  set (np := runs_end first_pg runs) in *.
  assert (first_pg <= np <= last_pg) as Hnp by lia.
  assert (np * 4096 - pos0 < len) as Hlt by (unfold first_pg, last_pg in *; lia).
  assert (l_written l = Z.max 0 (np * 4096 - pos0)) as Hw' by lia.
  assert (l_pos l / 4096 = np /\ l_pos l - l_pos l mod 4096 = np * 4096) as [H1 H2].
  { rewrite Hp, Hw'. unfold first_pg, last_pg in *.
    destruct (Z.max_spec 0 (np * 4096 - pos0)) as [[? ->] | [? ->]]; lia. }
  repeat split; try lia.
Qed.

(** Steps that leave the log, the index and the transaction alone. *)
Lemma runs_inv_same s l runs s' l' :
  runs_inv s l runs ->
  sih_tree s' = sih_tree s -> sih_log_tail s' = sih_log_tail s ->
  sih_alter_log_tail s' = sih_alter_log_tail s ->
  log_pages s' = log_pages s -> sih_i_blk_type s' = sih_i_blk_type s ->
  i_size s' = i_size s -> log s' = log s ->
  (forall a, a / 4096 ∉ run_blocks runs -> a / 4096 ∉ free_blocks s0 ->
             pmem s' a = pmem s a) ->
  tail (l_update l') = tail (l_update l) ->
  runs_inv s' l' runs.
Proof.
  intros [] Ht Htl Hal Hp Hb Hi Hl Hm Hu. split; try congruence; try done.
  - intros r Hr. unfold entry_at. rewrite Hl. by apply ri_log0.
  - intros p Hp'. rewrite Hl. by apply ri_log_other0.
  - intros a H1 H2. rewrite Hm by done. by apply ri_pmem_other0.
Qed.

Lemma slots_nodup s l runs :
  runs_inv s l runs ->
  NoDup (map r_slot runs)
  /\ (forall c, c = slot_of s0 (tail (l_update l)) -> c <> 0 ->
                runs_end first_pg runs <= last_pg -> c ∉ map r_slot runs).
Proof.
  intros Hr.
  pose proof (runs_end_ge _ _ (ri_from _ _ _ Hr)) as Hge.
  pose proof (ri_end _ _ _ Hr) as Hend.
  split.
  - pose proof (log_walk_nodup s0 _ _ _ (Z.to_nat (last_pg + 1 - first_pg))
                  (ri_walk _ _ _ Hr)) as Hnd.
    rewrite length_map in Hnd. specialize (Hnd ltac:(lia) Hchain).
    apply NoDup_cons in Hnd as [_ Hnd].
    by apply (NoDup_fmap_1 (fun c => c + entry_size)) in Hnd.
  - intros c Hc Hne Hroom.
    pose proof (log_walk_snoc s0 _ _ _ c (ri_walk _ _ _ Hr) Hc Hne) as Hw.
    pose proof (log_walk_nodup s0 _ _ _ (Z.to_nat (last_pg + 1 - first_pg)) Hw) as Hnd.
    rewrite length_app, length_map in Hnd. simpl in Hnd.
    specialize (Hnd ltac:(lia) Hchain).
    apply NoDup_cons in Hnd as [_ Hnd].
    apply (NoDup_fmap_1 (fun c => c + entry_size)) in Hnd.
    apply NoDup_app in Hnd as (_ & Hdisj & _).
    intros Hin. apply (Hdisj c Hin). apply list_elem_of_here.
Qed.

Lemma pending_alloc blocknr allocated l :
  pending (set_l_alloc blocknr allocated l)
  = if allocated >? 0 then blocks blocknr allocated else ∅.
Proof. done. Qed.

Lemma wr_account_ok copied l :
  0 < copied -> wr_account copied copied l = l_advance copied l.
Proof.
  intros H. unfold wr_account.
  assert ((copied >? 0) = true) as -> by lia.
  by rewrite Z.eqb_refl.
Qed.

Lemma wr_account_short copied bytes l :
  0 <= copied < bytes -> 0 <= l_status l ->
  l_status (wr_account copied bytes l) < 0
  /\ l_written (wr_account copied bytes l) = l_written l + copied
  /\ l_update (wr_account copied bytes l) = l_update l
  /\ l_begin_tail (wr_account copied bytes l) = l_begin_tail l.
Proof.
  intros H Hs. unfold wr_account.
  assert ((copied =? bytes) = false) as -> by lia. cbv [negb].
  destruct (Z.gtb_spec copied 0).
  - simpl. assert ((copied >=? 0) = true) as -> by lia.
    repeat split; simpl; try done; unfold EFAULT; lia.
  - assert ((l_status l >=? 0) = true) as -> by lia.
    repeat split; simpl; try done; unfold EFAULT; lia.
Qed.

Lemma log_walk_hd s p cs q : log_walk s p cs q -> cs <> [] -> hd 0 cs <> 0.
Proof. destruct cs as [| c cs]; simpl; [done |]. by intros (_ & H & _) _. Qed.

Lemma begun_fields l c :
  let l' := if l_begin_tail l =? 0 then set_l_begin_tail c l else l in
  l_update l' = l_update l /\ l_pos l' = l_pos l /\ l_count l' = l_count l
  /\ l_buf l' = l_buf l /\ l_written l' = l_written l /\ l_status l' = l_status l
  /\ l_num_blocks l' = l_num_blocks l
  /\ l_begin_tail l' = if l_begin_tail l =? 0 then c else l_begin_tail l.
Proof. cbv zeta. by destruct (l_begin_tail l =? 0). Qed.

Lemma cow_body_step fuel s l runs r :
  cow_inv s l runs -> l_num_blocks l > 0 ->
  cow_body alloc csum_of fuel s u ep time l = Some r ->
  match r with
  | WrNext s' l' => exists rn, cow_inv s' l' (runs ++ [rn])
  | WrBreak s' l' => exists rn, break_inv s' l' (runs ++ [rn])
  | WrOut s' l' ret => ret <= 0 /\ out_inv s' l' runs
  end.
Proof.
  intros Hinv Hnb.
  destruct (cow_inv_arith _ _ _ Hinv Hnb) as (Hnp & Hdiv & Hmod & Hw & Hw' & Hlenr).
  cbv zeta in *.
  pose proof Hinv as [Hr Hct Hf Hwr Hp Hc Hb Hn Hs Hbg].
  pose proof (ri_blk _ _ _ Hr) as Hblk'.
  unfold cow_body. cbv zeta.
  rewrite (land_blk_size_4k s) by done. rewrite shiftr_blocksize_bits.
  destruct (nova_new_data_blocks _ _ _ _ _) as [[s1 b] a] eqn:Ea.
  apply new_data_blocks_eq in Ea as [Hal Es1].
  destruct (Z.leb_spec a 0) as [Hle | Hgt].
  { (* the allocation failed *)
    assert ((a >? 0) = false) as Ha by lia. rewrite Ha in Es1. destruct Es1 as [-> ->].
    intros [= <-]. split; [done |]. split.
    - eapply runs_inv_same; eauto.
    - rewrite pending_alloc, Ha. simpl. rewrite Hf. by rewrite difference_empty_L.
    - rewrite pending_alloc, Ha. apply empty_subseteq.
    - simpl. lia.
    - done. }
  assert ((a >? 0) = true) as Ha by lia. rewrite Ha in Hal, Es1.
  destruct (Halloc _ _ _ _ _ Hal Hgt) as (Hanb & Hbpos & Hbfree).
  rewrite get_block_off_eq.
  set (l1 := set_l_alloc b a l).
  assert (l_pos l1 = l_pos l /\ l_count l1 = l_count l /\ l_buf l1 = l_buf l
          /\ l_written l1 = l_written l /\ l_update l1 = l_update l
          /\ l_blocknr l1 = b /\ l_allocated l1 = a /\ l_status l1 = l_status l
          /\ l_begin_tail l1 = l_begin_tail l /\ l_num_blocks l1 = l_num_blocks l)
    as (Hl1p & Hl1c & Hl1b & Hl1w & Hl1u & Hl1bn & Hl1a & Hl1s & Hl1bt & Hl1n) by done.
  rewrite Hl1c.
  set (off := l_pos l mod 4096) in *.
  assert (wr_bytes a off (l_count l) = Z.min (4096 * a - off) (l_count l)) as Hbytes.
  { unfold wr_bytes. cbv zeta. rewrite ulong_small by (unfold s_blocksize; lia).
    unfold s_blocksize. destruct (Z.gtb_spec (4096 * a - off) (l_count l)); lia. }
  rewrite Hbytes. set (bytes := Z.min (4096 * a - off) (l_count l)).
  assert (0 < bytes /\ off + bytes <= 4096 * a) as [Hbpos' Hbfit] by (subst bytes; lia).
  destruct (wr_copy_in _ _ _ _ _ _ _) as [s2 copied] eqn:Ec.
  assert (a <= 2 ^ 50) as Hasmall.
  { unfold first_pg, last_pg in *. lia. }
  pose proof (wr_copy_in_eq _ _ _ _ _ _ _ _ _ Ec) as [[m Es2] _].
  assert (sih_i_blk_type s1 = 0) as Hblk1 by (by subst s1).
  destruct (run_copy_data s1 (l_pos l) bytes b a Hblk1 ltac:(lia) Hbpos' Hbfit Hasmall
              u l1 true s2 copied Hl1p Ec) as (Hcopied & Hdata & Hframe).
  fold off in Hdata, Hframe.
  assert (0 <= copied <= bytes) as Hcb by (rewrite Hcopied; unfold user_copy_ok; lia).
  pose proof (head_tail_nb (l_pos l) bytes a Hbpos' Hbfit) as Hnbr. fold off in Hnbr.
  (* the new blocks are free, hence outside the earlier runs *)
  assert (forall x, x / 4096 ∉ blocks b a -> pmem s2 x = pmem s x) as Hframe'.
  { intros x Hx. rewrite Hframe; [by subst s1 |].
    rewrite elem_of_blocks in Hx. lia. }
  assert (blocks b a ⊆ free_blocks s0) as Hbsub by (rewrite Hf in Hbfree; set_solver).
  assert (blocks b a ## run_blocks runs) as Hbdisj by (rewrite Hf in Hbfree; set_solver).
  clear Hframe Ec.
  destruct (wr_protect _ _ _ _ _ _ _) as [[s3 ret] |] eqn:Ep; [| done].
  pose proof (wr_protect_ret _ _ _ _ _ _ _ _ _ Ep) as Hret.
  apply wr_protect_eq in Ep as [cs Es3].
  (* the state after the copy and the checksum update, seen from [s] *)
  assert (sih_tree s3 = sih_tree s /\ sih_log_tail s3 = sih_log_tail s
          /\ sih_alter_log_tail s3 = sih_alter_log_tail s
          /\ log_pages s3 = log_pages s /\ sih_i_blk_type s3 = sih_i_blk_type s
          /\ i_size s3 = i_size s /\ log s3 = log s /\ pmem s3 = pmem s2
          /\ free_blocks s3 = free_blocks s ∖ blocks b a)
    as (H3t & H3tl & H3al & H3p & H3b & H3i & H3l & H3m & H3f)
    by (by subst s3 s2 s1).
  assert (forall l', tail (l_update l') = tail (l_update l) -> runs_inv s3 l' runs) as Hr3.
  { intros l' Hl'. eapply runs_inv_same; eauto.
    intros x _ Hx. rewrite H3m. apply Hframe'. set_solver. }
  assert (forall l', l_blocknr l' = b -> l_allocated l' = a ->
                     tail (l_update l') = tail (l_update l) ->
                     l_begin_tail l' = l_begin_tail l ->
                     forall s', free_blocks s' = free_blocks s3 ->
                     (runs_inv s3 l' runs -> runs_inv s' l' runs) ->
                     out_inv s' l' runs) as Hout.
  { intros l' Hb' Ha' Hu' Hbt' s' Hf' Hri. split.
    - apply Hri. by apply Hr3.
    - unfold pending. rewrite Ha', Hb', Ha, Hf', H3f, Hf. done.
    - unfold pending. by rewrite Ha', Hb', Ha.
    - rewrite Hb'. lia.
    - by rewrite Hbt'. }
  destruct (Z.eqb_spec ret 0) as [-> | Hrne]; cbv [negb].
  2:{ intros [= <-]. split; [done |]. by apply Hout. }
  destruct (wr_append _ _ _ _ _ _) as [[s4 l4] ret4] eqn:Eapp.
  apply wr_append_eq in Eapp
    as [(-> & c & e & Hcne & He & Es4 & El4 & Hc' & Htne) | (-> & Es4 & ->)].
  2:{ simpl. intros [= <-]. split; [unfold ENOSPC; lia |].
      apply Hout; try done. - by subst s4.
      - intros Hri. eapply runs_inv_same; eauto; by subst s4. }
  simpl negb. cbv iota.
  rewrite Hl1u, Hl1bn, Hl1a, Hl1p in *.
  set (rn := {| r_slot := c; r_pg := l_pos l / 4096; r_n := a; r_b := b |}).
  assert (c = slot_of s0 (tail (l_update l))) as Hcslot.
  { rewrite Hc'. unfold slot_of, next_log_page.
    by rewrite H3p, (ri_pages _ _ _ Hr). }
  destruct (slots_nodup _ _ _ Hr) as [Hnd Hfresh].
  specialize (Hfresh c Hcslot Hcne ltac:(lia)).
  assert (forall l', tail (l_update l') = c + entry_size ->
                     runs_inv s4 l' (runs ++ [rn])) as Hr4.
  { intros l' Hl'. destruct Hr. split.
    - subst s4. simpl. congruence.
    - subst s4. simpl. congruence.
    - subst s4. simpl. congruence.
    - subst s4. simpl. congruence.
    - subst s4. simpl. congruence.
    - subst s4. simpl. congruence.
    - rewrite run_blocks_snoc. simpl. set_solver.
    - rewrite map_app. simpl. rewrite Hl'.
      by apply (log_walk_snoc s0 _ _ (tail (l_update l))).
    - intros r0 [Hr0 | ->%list_elem_of_singleton]%elem_of_app.
      + assert (r_slot r0 <> c) as Hne.
        { intros <-. apply Hfresh. apply list_elem_of_fmap. by exists r0. }
        subst s4. unfold entry_at. simpl. rewrite lookup_insert_ne by done.
        rewrite H3l. by apply ri_log0.
      + subst s4. unfold entry_at. simpl. rewrite lookup_insert_eq. simpl.
        by rewrite He.
    - intros p Hp'. rewrite map_app in Hp'. simpl in Hp'.
      subst s4. simpl. rewrite lookup_insert_ne by set_solver.
      rewrite H3l. apply ri_log_other0. set_solver.
    - apply runs_from_snoc; simpl; [done | lia | lia].
    - rewrite runs_end_snoc. simpl. lia.
    - intros x Hx1 Hx2. rewrite run_blocks_snoc in Hx1. simpl in Hx1.
      subst s4. simpl. rewrite H3m, Hframe' by set_solver.
      apply ri_pmem_other0; [set_solver | done]. }
  assert (l_update l4 = {| tail := c + entry_size;
                           alter_tail := alter_tail (l_update l); curr_entry := c |}
          /\ l_pos l4 = l_pos l /\ l_count l4 = l_count l /\ l_buf l4 = l_buf l
          /\ l_written l4 = l_written l /\ l_status l4 = l_status l
          /\ l_begin_tail l4 = l_begin_tail l /\ l_num_blocks l4 = l_num_blocks l
          /\ l_allocated l4 = a)
    as (H4u & H4p & H4c & H4b & H4w & H4s & H4bt & H4n & H4a) by (by subst l4).
  clear Hout Hr3 El4.
  destruct (Z.eq_dec copied bytes) as [Heq | Hneq].
  - (* the whole chunk was copied: the loop goes on *)
    rewrite Heq in *. rewrite wr_account_ok by done.
    set (la := l_advance bytes l4).
    assert (l_status la = bytes) as Hlas by done.
    assert ((l_status la <? 0) = false) as -> by lia.
    intros [= <-]. exists rn.
    match goal with |- cow_inv _ ?x _ => set (l' := x) end.
    assert (l_update l' = l_update l4 /\ l_pos l' = l_pos l + bytes
            /\ l_count l' = ulong (l_count l - bytes) /\ l_buf l' = l_buf l + bytes
            /\ l_written l' = l_written l + bytes /\ l_status l' = bytes
            /\ l_num_blocks l' = ulong (l_num_blocks l - a)
            /\ l_begin_tail l' = if l_begin_tail l =? 0 then c else l_begin_tail l)
      as (H'u & H'p & H'c & H'b & H'w & H's & H'n & H'bt).
    { destruct (begun_fields la (curr_entry (l_update la)))
        as (G1 & G2 & G3 & G4 & G5 & G6 & G7 & G8).
      subst l'. change (l_begin_tail l4) with (l_begin_tail la).
      change (l_update l4) with (l_update la).
      rewrite G1, G2, G3, G4, G5, G6, G7, G8. subst la. simpl.
      rewrite ?H4u, ?H4p, ?H4c, ?H4b, ?H4w, ?H4n, ?H4a, ?H4bt. done. }
    clearbody l'. clear la Hlas.
    assert (runs_end first_pg (runs ++ [rn]) = runs_end first_pg runs + a) as Hend
      by (by rewrite runs_end_snoc).
    split.
    + apply Hr4. by rewrite H'u, H4u.
    + intros r0 x [Hr0 | ->%list_elem_of_singleton]%elem_of_app Hx1 Hx2.
      * subst s4. simpl. rewrite H3m, Hframe'; [by apply Hct |].
        intros Hin. apply (Hbdisj _ Hin). apply elem_of_run_blocks.
        exists r0. split; [done |].
        pose proof (runs_from_bounds _ _ _ (ri_from _ _ _ Hr) Hr0). lia.
      * simpl in *. subst s4. simpl. rewrite H3m, Hdata by lia.
        f_equal. lia.
    + subst s4. simpl. rewrite H3f, Hf, run_blocks_snoc. simpl. set_solver.
    + rewrite H'w, Hend. lia.
    + rewrite H'p, H'w. lia.
    + rewrite H'c, H'w. rewrite ulong_small; lia.
    + rewrite H'b, H'w. lia.
    + rewrite H'n, Hend. rewrite ulong_small; lia.
    + lia.
    + rewrite H'bt, Hbg, map_app. destruct runs as [| r0 rs]; [done |].
      pose proof (log_walk_hd _ _ _ _ (ri_walk _ _ _ Hr) ltac:(done)) as Hhd.
      simpl in *. by assert ((r_slot r0 =? 0) = false) as -> by lia.
  - (* a short copy: the loop is left with the entry appended *)
    destruct (wr_account_short copied bytes l4 ltac:(lia) ltac:(lia))
      as (Hst & Hwa & Hua & Hba).
    assert ((l_status (wr_account copied bytes l4) <? 0) = true) as -> by lia.
    intros [= <-]. exists rn. split.
    + apply Hr4. by rewrite Hua, H4u.
    + rewrite Hwa, H4w. lia.
    + rewrite Hba, H4bt, Hbg, map_app. destruct runs as [| r0 rs]; [by left | by right].
Qed.

(** The loop: it ends with every run written, or after a short copy, or
    at the error exit. *)
Lemma cow_loop_inv fuel s l runs r :
  cow_inv s l runs ->
  cow_loop alloc csum_of fuel s u ep time l = Some r ->
  match r with
  | WrNext _ _ => False
  | WrBreak s' l' =>
      exists runs', (cow_inv s' l' runs' /\ l_num_blocks l' = 0) \/ break_inv s' l' runs'
  | WrOut s' l' ret => ret <= 0 /\ exists runs', out_inv s' l' runs'
  end.
Proof.
  revert s l runs r. induction fuel as [| fuel IH]; intros s l runs r Hinv; simpl; [done |].
  destruct (Z.gtb_spec (l_num_blocks l) 0) as [Hnb | Hnb].
  - destruct (cow_body _ _ _ _ _ _ _ _) as [rb |] eqn:Eb; [| done].
    pose proof (cow_body_step _ _ _ _ _ Hinv ltac:(lia) Eb) as Hstep.
    destruct rb as [s1 l1 | s1 l1 | s1 l1 r1].
    + destruct Hstep as [rn Hinv1]. intros H. by apply (IH _ _ _ _ Hinv1) in H.
    + intros [= <-]. destruct Hstep as [rn Hb]. exists (runs ++ [rn]). by right.
    + intros [= <-]. destruct Hstep as [Hr1 Ho]. split; [done |]. by exists runs.
  - intros [= <-]. exists runs. left. split; [done |].
    pose proof (ci_nb _ _ _ Hinv). pose proof (ri_end _ _ _ (ci_runs _ _ _ Hinv)). lia.
Qed.

(** Enough fuel: one unit per page of the write, and one more. *)
Lemma cow_loop_total fuel s l runs :
  cow_inv s l runs -> (Z.to_nat (l_num_blocks l) < fuel)%nat ->
  (forall fuel' s' l' bytes, wr_protect csum_of fuel' s' u l' bytes false <> None) ->
  exists r, cow_loop alloc csum_of fuel s u ep time l = Some r.
Proof.
  intros Hinv Hfuel Hprot. revert s l runs Hinv Hfuel.
  induction fuel as [| fuel IH]; intros s l runs Hinv Hfuel; [lia |]. simpl.
  destruct (Z.gtb_spec (l_num_blocks l) 0) as [Hnb | Hnb]; [| by eexists].
  destruct (cow_body _ _ _ _ _ _ _ _) as [rb |] eqn:Eb.
  - pose proof (cow_body_step _ _ _ _ _ Hinv ltac:(lia) Eb) as Hstep.
    destruct rb as [s1 l1 | s1 l1 | s1 l1 r1]; try by eexists.
    destruct Hstep as [rn Hinv1]. apply (IH _ _ _ Hinv1).
    pose proof (ci_nb _ _ _ Hinv). pose proof (ci_nb _ _ _ Hinv1) as Hn1.
    rewrite runs_end_snoc in Hn1.
    pose proof (ri_from _ _ _ (ci_runs _ _ _ Hinv1)) as Hfrom.
    pose proof (runs_from_bounds _ _ rn Hfrom) as Hb.
    specialize (Hb ltac:(apply elem_of_app; right; apply list_elem_of_here)).
    lia.
  - exfalso. revert Eb. unfold cow_body. cbv zeta.
    destruct (nova_new_data_blocks _ _ _ _ _) as [[s1 b] a].
    destruct (a <=? 0); [done |].
    destruct (wr_copy_in _ _ _ _ _ _ _) as [s2 copied].
    destruct (wr_protect _ _ _ _ _ _ _) as [[s3 r3] |] eqn:Ep; [| by apply Hprot in Ep].
    destruct (negb _); [done |].
    destruct (wr_append _ _ _ _ _ _) as [[s4 l4] r4].
    destruct (negb _); [done |]. by destruct (_ <? 0).
Qed.

End CowLoop.

(** ** Walks of the log by the cleanup and the reassign routines *)

(** Log positions are unsigned, and the page links point at page starts. *)
Definition log_wf (s : nova_state) : Prop :=
  0 <= sih_log_tail s
  /\ forall k v, log_pages s !! k = Some v -> 0 <= v /\ ENTRY_LOC v = 0.

Lemma slot_of_pos s p : log_wf s -> 0 <= p -> 0 <= slot_of s p.
Proof.
  intros [_ Hp] Hp0. unfold slot_of, next_log_page.
  destruct (is_last_entry p entry_size); [| done].
  destruct (log_pages s !! BLOCK_OFF p) as [v |] eqn:E; simpl; [| done].
  by apply Hp in E as [? _].
Qed.

Lemma slot_of_idem s p : log_wf s -> slot_of s (slot_of s p) = slot_of s p.
Proof.
  intros [_ Hp]. unfold slot_of at 2 3. destruct (is_last_entry p entry_size) eqn:El.
  - unfold next_log_page. destruct (log_pages s !! BLOCK_OFF p) as [v |] eqn:E; simpl.
    + apply Hp in E as [_ E]. unfold slot_of, is_last_entry. by rewrite E.
    + done.
  - unfold slot_of. by rewrite El.
Qed.

Lemma log_walk_pos s p cs q :
  log_wf s -> 0 <= p -> log_walk s p cs q ->
  0 <= q /\ forall c, c ∈ cs -> 0 < c.
Proof.
  intros Hwf. revert p. induction cs as [| c cs IH]; intros p Hp; simpl.
  - intros ->. split; [done |]. intros c Hc. by apply elem_of_nil in Hc.
  - intros (Hc & Hne & Hw). pose proof (slot_of_pos s p Hwf Hp) as Hc0.
    rewrite <- Hc in Hc0. destruct (IH (c + entry_size)) as [Hq Hcs]; [unfold entry_size; lia | done |].
    split; [done |]. intros c' [-> | Hc']%elem_of_cons; [lia | by apply Hcs].
Qed.

(** The end of a walk is the position after its last slot. *)
Lemma log_walk_end s p cs q :
  log_walk s p cs q -> cs <> [] -> q ∈ map (fun c => c + entry_size) cs.
Proof.
  revert p. induction cs as [| c cs IH]; intros p; simpl; [done |].
  intros (Hc & Hne & Hw) _. destruct cs as [| c' cs].
  - simpl in Hw. subst q. apply list_elem_of_here.
  - apply list_elem_of_further. by apply (IH _ Hw).
Qed.

(** A walk restarted from its first slot. *)
Lemma log_walk_restart s p c cs q :
  log_wf s -> log_walk s p (c :: cs) q -> log_walk s c (c :: cs) q.
Proof.
  intros Hwf (Hc & Hne & Hw). split; [| done].
  rewrite Hc. by rewrite slot_of_idem.
Qed.

(** The blocks that the entries at the slots [cs] refer to. *)
Definition entry_blocks (s : nova_state) (cs : list Z) : gset Z :=
  ⋃ (map (fun c => blocks (Z.shiftr (block (entry_at s c)) PAGE_SHIFT)
                     (num_pages (entry_at s c))) cs).

Lemma cleanup_loop_walk cs : forall fuel s p q,
  log_walk s p cs q ->
  NoDup (p :: map (fun c => c + entry_size) cs) ->
  (forall c, c ∈ cs -> entry_type (entry_at s c) = FILE_WRITE) ->
  (length cs < fuel)%nat ->
  exists s', cleanup_loop fuel s p q = Some (s', 0)
    /\ free_blocks s' = free_blocks s ∪ entry_blocks s cs
    /\ sih_log_tail s' = sih_log_tail s /\ sih_alter_log_tail s' = sih_alter_log_tail s
    /\ sih_tree s' = sih_tree s /\ log s' = log s /\ pmem s' = pmem s.
Proof.
  induction cs as [| c cs IH]; intros fuel s p q Hw Hnd Hty Hfuel.
  - simpl in Hw. subst q. destruct fuel as [| fuel]; [simpl in Hfuel; lia |]. simpl.
    rewrite Z.eqb_refl. simpl. exists s. unfold entry_blocks. simpl.
    by rewrite union_empty_r_L.
  - destruct fuel as [| fuel]; [simpl in Hfuel; lia |].
    pose proof (log_walk_end _ _ _ _ Hw ltac:(done)) as Hq.
    destruct Hw as (Hc & Hne & Hw).
    apply NoDup_cons in Hnd as [Hp Hnd].
    assert (p <> q) as Hpq by (by intros ->).
    simpl. assert ((p =? q) = false) as -> by lia. simpl.
    fold (slot_of s p). rewrite <- Hc.
    assert ((c =? 0) = false) as -> by lia.
    unfold nova_get_entry_type. rewrite (Hty c) by apply list_elem_of_here.
    rewrite Z.eqb_refl. simpl.
    set (s1 := nova_free_data_blocks _ _ _).
    destruct (IH fuel s1 (c + entry_size) q) as (s' & Hs' & Hf & Hrest).
    + by apply (log_walk_pages s).
    + done.
    + intros c' Hc'. apply (Hty c'). by apply list_elem_of_further.
    + simpl in Hfuel. lia.
    + exists s'. split; [done |]. split; [| done].
      rewrite Hf. unfold entry_blocks. simpl. fold (entry_blocks s1 cs).
      unfold entry_blocks, entry_at. simpl. set_solver.
Qed.

(** What a pass over the index keeps of an entry: its place in the file
    and on the device; the [reassigned] mark is only ever set. *)
Definition same_place (e0 e : nova_file_write_entry) : Prop :=
  entry_type e = entry_type e0 /\ pgoff e = pgoff e0 /\ num_pages e = num_pages e0
  /\ block e = block e0 /\ epoch_id e = epoch_id e0
  /\ (reassigned e = 0 -> reassigned e0 = 0).

Definition log_ext (l0 l : gmap Z nova_file_write_entry) : Prop :=
  forall p, match l0 !! p, l !! p with
            | Some e0, Some e => same_place e0 e
            | None, None => True
            | _, _ => False
            end.

(** What the reassign pass leaves alone. *)
Record same_data (s s' : nova_state) : Prop := {
  sd_pmem : pmem s' = pmem s;
  sd_pages : log_pages s' = log_pages s;
  sd_tail : sih_log_tail s' = sih_log_tail s;
  sd_alter : sih_alter_log_tail s' = sih_alter_log_tail s;
  sd_blk : sih_i_blk_type s' = sih_i_blk_type s;
  sd_isize : i_size s' = i_size s;
  sd_mmap : i_mmap s' = i_mmap s;
  sd_csums : csums s' = csums s;
  sd_csum : data_csum s' = data_csum s;
  sd_parity : data_parity s' = data_parity s;
  sd_log : log_ext (log s) (log s')
}.

Lemma same_place_refl e : same_place e e.
Proof. by repeat split. Qed.

Lemma same_place_trans e1 e2 e3 : same_place e1 e2 -> same_place e2 e3 -> same_place e1 e3.
Proof.
  intros (A1 & A2 & A3 & A4 & A5 & A6) (B1 & B2 & B3 & B4 & B5 & B6).
  repeat split; try congruence; auto.
Qed.

Lemma log_ext_refl l : log_ext l l.
Proof. intros p. destruct (l !! p); [apply same_place_refl | done]. Qed.

Lemma log_ext_trans l1 l2 l3 : log_ext l1 l2 -> log_ext l2 l3 -> log_ext l1 l3.
Proof.
  intros H1 H2 p. specialize (H1 p). specialize (H2 p).
  destruct (l1 !! p), (l2 !! p), (l3 !! p); try done.
  by eapply same_place_trans.
Qed.

Lemma log_ext_entry l0 l p :
  log_ext l0 l -> same_place (default zero_entry (l0 !! p)) (default zero_entry (l !! p)).
Proof.
  intros H. specialize (H p). destruct (l0 !! p), (l !! p); try done.
Qed.

Lemma same_data_refl s : same_data s s.
Proof. split; try done. apply log_ext_refl. Qed.

Lemma same_data_trans s1 s2 s3 : same_data s1 s2 -> same_data s2 s3 -> same_data s1 s3.
Proof.
  intros [] []. split; try congruence. by eapply log_ext_trans.
Qed.

Lemma invalidate_page_same s old :
  same_data s (nova_invalidate_page s old)
  /\ sih_tree (nova_invalidate_page s old) = sih_tree s.
Proof.
  unfold nova_invalidate_page. destruct (log s !! old) as [e |] eqn:E.
  - assert (log_ext (log s)
              (<[old := {| entry_type := entry_type e; reassigned := 1;
                           updating := updating e; epoch_id := epoch_id e; pgoff := pgoff e;
                           num_pages := num_pages e; invalid_pages := invalid_pages e + 1;
                           block := block e; mtime := mtime e; size := size e |}]> (log s)))
      as Hext.
    { intros p. destruct (decide (p = old)) as [-> | Hne].
      - rewrite E, lookup_insert_eq. by repeat split.
      - rewrite lookup_insert_ne by done. destruct (log s !! p); [apply same_place_refl | done]. }
    simpl. destruct (_ =? _); split; try done; by split.
  - split; [apply same_data_refl | done].
Qed.

Lemma assign_page_same entry s pg :
  same_data s (nova_assign_page entry s pg)
  /\ sih_tree (nova_assign_page entry s pg) = <[pg := entry]> (sih_tree s).
Proof.
  unfold nova_assign_page. cbv zeta.
  destruct (nova_get_write_entry s pg =? 0).
  - split; [by split; try done; apply log_ext_refl | done].
  - destruct (invalidate_page_same s (nova_get_write_entry s pg)) as [[] Ht].
    split; [by split | simpl; by rewrite Ht].
Qed.

Lemma assign_pages_same entry pgs : forall s,
  let s' := fold_left (nova_assign_page entry) pgs s in
  same_data s s'
  /\ forall pg, sih_tree s' !! pg = if bool_decide (pg ∈ pgs) then Some entry
                                    else sih_tree s !! pg.
Proof.
  induction pgs as [| p pgs IH]; intros s; cbv zeta.
  - split; [apply same_data_refl |]. intros pg.
    case_bool_decide as Hin; [by apply elem_of_nil in Hin | done].
  - simpl. destruct (assign_page_same entry s p) as [Hd Ht].
    destruct (IH (nova_assign_page entry s p)) as [Hd' Ht'].
    split; [by eapply same_data_trans |].
    intros pg. rewrite Ht', Ht.
    destruct (decide (pg ∈ pgs)) as [Hin | Hnin].
    + rewrite !bool_decide_eq_true_2; [done | by apply list_elem_of_further | done].
    + rewrite (bool_decide_eq_false_2 (pg ∈ pgs)) by done.
      destruct (decide (pg = p)) as [-> | Hne].
      * rewrite lookup_insert_eq. by rewrite bool_decide_eq_true_2 by apply list_elem_of_here.
      * rewrite lookup_insert_ne by done.
        rewrite bool_decide_eq_false_2; [done |].
        by intros [-> | ?]%elem_of_cons.
Qed.

(** The pages of an entry. *)
Definition covers (e : nova_file_write_entry) (pg : Z) : Prop :=
  pgoff e <= pg < pgoff e + num_pages e.

Lemma assign_write_entry_same s c :
  let s' := nova_assign_write_entry s c in
  same_data s s'
  /\ forall pg, sih_tree s' !! pg
                = if bool_decide (covers (entry_at s c) pg) then Some c else sih_tree s !! pg.
Proof.
  cbv zeta. unfold nova_assign_write_entry.
  destruct (assign_pages_same c (seqZ (pgoff (entry_at s c)) (num_pages (entry_at s c))) s)
    as [Hd Ht].
  split; [done |]. intros pg. rewrite Ht.
  rewrite (bool_decide_ext _ (covers (entry_at s c) pg)); [done |].
  rewrite elem_of_seqZ. unfold covers. lia.
Qed.

Lemma same_data_entry s s' c : same_data s s' -> same_place (entry_at s c) (entry_at s' c).
Proof. intros Hd. apply log_ext_entry, (sd_log _ _ Hd). Qed.

Lemma same_data_covers s s' c pg :
  same_data s s' -> covers (entry_at s' c) pg <-> covers (entry_at s c) pg.
Proof.
  intros Hd. destruct (same_data_entry s s' c Hd) as (_ & Hp & Hn & _).
  unfold covers. by rewrite Hp, Hn.
Qed.

(** The reassign pass over the slots [cs]: it ends without error, and
    every page that one of the entries covers is indexed by such an entry
    afterwards, the other pages as before. *)
Lemma reassign_loop_walk cs : forall fuel s p,
  log_walk s p cs (sih_log_tail s) ->
  NoDup (p :: map (fun c => c + entry_size) cs) ->
  (cs <> [] -> p <> 0) -> (forall c, c ∈ cs -> 0 < c) ->
  (forall c, c ∈ cs -> entry_type (entry_at s c) = FILE_WRITE) ->
  (length cs < fuel)%nat ->
  exists s', reassign_loop fuel s p = Some (s', 0)
    /\ same_data s s'
    /\ forall pg,
         (exists c, c ∈ cs /\ covers (entry_at s c) pg /\ sih_tree s' !! pg = Some c)
         \/ ((forall c, c ∈ cs -> ~ covers (entry_at s c) pg)
             /\ sih_tree s' !! pg = sih_tree s !! pg).
Proof.
  induction cs as [| c cs IH]; intros fuel s p Hw Hnd Hp0 Hpos Hty Hfuel.
  - simpl in Hw. destruct fuel as [| fuel]; [simpl in Hfuel; lia |]. simpl.
    rewrite <- Hw, Z.eqb_refl, andb_false_r. exists s.
    split; [done |]. split; [apply same_data_refl |].
    intros pg. right. split; [| done]. intros c Hc. by apply elem_of_nil in Hc.
  - destruct fuel as [| fuel]; [simpl in Hfuel; lia |].
    pose proof (log_walk_end _ _ _ _ Hw ltac:(done)) as Hq.
    destruct Hw as (Hc & Hne & Hw).
    apply NoDup_cons in Hnd as [Hp Hnd].
    assert (p <> sih_log_tail s) as Hpq by (by intros ->).
    specialize (Hp0 ltac:(done)).
    simpl. assert ((p =? 0) = false) as -> by lia.
    assert ((p =? sih_log_tail s) = false) as -> by lia. simpl.
    fold (slot_of s p). rewrite <- Hc.
    assert ((c =? 0) = false) as -> by lia.
    unfold nova_get_entry_type. rewrite (Hty c) by apply list_elem_of_here.
    rewrite Z.eqb_refl. simpl.
    destruct (assign_write_entry_same s c) as [Hd Ht].
    set (s1 := nova_assign_write_entry s c) in *.
    destruct (IH fuel s1 (c + entry_size)) as (s' & Hs' & Hd' & Ht').
    + rewrite (sd_tail _ _ Hd). apply (log_walk_pages s); [| done]. by rewrite (sd_pages _ _ Hd).
    + done.
    + intros _. specialize (Hpos c ltac:(apply list_elem_of_here)). unfold entry_size. lia.
    + intros c' Hc'. apply Hpos. by apply list_elem_of_further.
    + intros c' Hc'. destruct (same_data_entry s s1 c' Hd) as (-> & _).
      apply Hty. by apply list_elem_of_further.
    + simpl in Hfuel. lia.
    + exists s'. split; [done |]. split; [by eapply same_data_trans |].
      intros pg. destruct (Ht' pg) as [(c' & Hc' & Hcov & Hl) | [Hnone Hl]].
      * left. exists c'. split; [by apply list_elem_of_further |].
        split; [by apply (same_data_covers s s1) | done].
      * rewrite Hl, Ht. case_bool_decide as Hcov.
        -- left. exists c. split; [apply list_elem_of_here | done].
        -- right. split; [| done]. intros c' [-> | Hc']%elem_of_cons; [done |].
           intros Hcov'. apply (Hnone c' Hc'). by apply (same_data_covers s s1).
Qed.

(** ** More fuel does not change a result *)

Lemma cleanup_loop_mono fuel : forall fuel' s p q r,
  cleanup_loop fuel s p q = Some r -> (fuel <= fuel')%nat ->
  cleanup_loop fuel' s p q = Some r.
Proof.
  induction fuel as [| fuel IH]; intros fuel' s p q r; simpl; [done |].
  intros H Hle. destruct fuel' as [| fuel']; [lia |]. simpl.
  destruct (negb (p =? q)); [| done].
  destruct (_ =? 0); [done |].
  destruct (negb _); apply IH; (done || lia).
Qed.

Lemma reassign_loop_mono fuel : forall fuel' s p r,
  reassign_loop fuel s p = Some r -> (fuel <= fuel')%nat ->
  reassign_loop fuel' s p = Some r.
Proof.
  induction fuel as [| fuel IH]; intros fuel' s p r; simpl; [done |].
  intros H Hle. destruct fuel' as [| fuel']; [lia |]. simpl.
  destruct (_ && _); [| done].
  destruct (_ =? 0); [done |].
  destruct (negb _); apply IH; (done || lia).
Qed.

(** ** The copy-on-write writer after its loop *)

Section CowExit.

Variable s0 : nova_state.
Variables (pos0 len ep time : Z).

Hypothesis Hblk : sih_i_blk_type s0 = 0.
Hypothesis Hwf : log_wf s0.
Hypothesis Hpos0 : 0 <= pos0.
Hypothesis Hlen : 0 < len.
Hypothesis Hmax : pos0 + len < 2 ^ 62.

Let first_pg := pos0 / 4096.
Let last_pg := (pos0 + len - 1) / 4096.

Hypothesis Hchain :
  NoDup (slot_of s0 (sih_log_tail s0)
         :: log_chain s0 (sih_log_tail s0) (Z.to_nat (last_pg + 1 - first_pg))).

Local Abbreviation runs_inv := (runs_inv s0 pos0 len ep time).

Lemma runs_slots_nodup s l runs :
  runs_inv s l runs ->
  NoDup (hd 0 (map r_slot runs) :: map (fun c => c + entry_size) (map r_slot runs))
  \/ runs = [].
Proof.
  intros Hr.
  pose proof (runs_end_ge _ _ (ri_from _ _ _ _ _ _ _ _ Hr)) as Hge.
  pose proof (ri_end _ _ _ _ _ _ _ _ Hr) as Hend.
  pose proof (ri_walk _ _ _ _ _ _ _ _ Hr) as Hw.
  pose proof (log_walk_nodup s0 _ _ _ (Z.to_nat (last_pg + 1 - first_pg)) Hw) as Hnd.
  rewrite length_map in Hnd. unfold first_pg, last_pg in *.
  specialize (Hnd ltac:(lia) Hchain).
  destruct runs as [| r0 rs]; [by right | left].
  simpl in Hw. destruct Hw as (Hc & _). by rewrite <- Hc in Hnd.
Qed.

Lemma runs_walk s l runs :
  runs_inv s l runs -> runs <> [] ->
  log_walk s (hd 0 (map r_slot runs)) (map r_slot runs) (tail (l_update l))
  /\ 0 < tail (l_update l) /\ (forall c, c ∈ map r_slot runs -> 0 < c).
Proof.
  intros Hr Hne.
  pose proof (ri_walk _ _ _ _ _ _ _ _ Hr) as Hw.
  destruct (log_walk_pos s0 _ _ _ Hwf (proj1 Hwf) Hw) as [Hq Hcs].
  split; [| split; [| done]].
  - destruct runs as [| r0 rs]; [done |].
    apply (log_walk_pages s0); [by rewrite (ri_pages _ _ _ _ _ _ _ _ Hr) |].
    by apply (log_walk_restart s0 (sih_log_tail s0)).
  - pose proof (log_walk_end _ _ _ _ Hw) as He.
    destruct runs as [| r0 rs]; [done |]. specialize (He ltac:(done)).
    apply list_elem_of_fmap in He as (c & -> & Hc). apply Hcs in Hc. unfold entry_size. lia.
Qed.

Lemma runs_entries s l runs r :
  runs_inv s l runs -> r ∈ runs ->
  entry_type (entry_at s (r_slot r)) = FILE_WRITE
  /\ pgoff (entry_at s (r_slot r)) = r_pg r
  /\ num_pages (entry_at s (r_slot r)) = r_n r
  /\ Z.shiftr (block (entry_at s (r_slot r))) PAGE_SHIFT = r_b r
  /\ reassigned (entry_at s (r_slot r)) = 0.
Proof.
  intros Hr Hin. pose proof (ri_log _ _ _ _ _ _ _ _ Hr r Hin) as Hl.
  unfold entry_at at 1 2 3 4 5. rewrite Hl. simpl.
  repeat split. unfold nova_get_block_off. rewrite shiftl_page, shiftr_page. lia.
Qed.

Lemma runs_entry_blocks s l runs :
  runs_inv s l runs -> entry_blocks s (map r_slot runs) = run_blocks runs.
Proof.
  intros Hr. unfold entry_blocks, run_blocks. f_equal. rewrite map_map.
  apply map_ext_in. intros r Hin%list_elem_of_In.
  destruct (runs_entries s l runs r Hr Hin) as (_ & _ & -> & -> & _). done.
Qed.

Local Abbreviation out_inv := (out_inv s0 pos0 len ep time).
Local Abbreviation break_inv := (break_inv s0 pos0 len ep time).

(** The error exit: the cleanup gives back the blocks of the runs and of
    the last allocation; the committed tail and the index are the ones
    before the call. *)
Lemma out_cleanup fuel s l runs r ppos lock s' ret ppos' :
  out_inv s l runs -> r < 0 ->
  write_out fuel s l r ppos lock = Some (s', ret, ppos') ->
  ret = r /\ ppos' = ppos /\ free_blocks s' = free_blocks s0
  /\ sih_log_tail s' = sih_log_tail s0 /\ sih_alter_log_tail s' = sih_alter_log_tail s0
  /\ sih_tree s' = sih_tree s0.
Proof.
  intros [Hr Hf Hpend Hbn Hbg] Hneg. unfold write_out.
  assert ((r <? 0) = true) as -> by lia.
  destruct (nova_cleanup_incomplete_write _ _ _ _ _ _) as [[s1 x] |] eqn:Ec; [| done].
  intros [= <- <- <-]. split; [done |]. split; [done |].
  assert (free_blocks s1 = free_blocks s0 /\ sih_log_tail s1 = sih_log_tail s
          /\ sih_alter_log_tail s1 = sih_alter_log_tail s /\ sih_tree s1 = sih_tree s)
    as (H1 & H2 & H3 & H4).
  2:{ rewrite <- (ri_tail _ _ _ _ _ _ _ _ Hr), <- (ri_alter _ _ _ _ _ _ _ _ Hr),
        <- (ri_tree _ _ _ _ _ _ _ _ Hr).
      by destruct lock. }
  revert Ec. unfold nova_cleanup_incomplete_write.
  set (sp := if _ && _ then _ else s).
  assert (log sp = log s /\ log_pages sp = log_pages s /\ sih_log_tail sp = sih_log_tail s
          /\ sih_alter_log_tail sp = sih_alter_log_tail s /\ sih_tree sp = sih_tree s
          /\ free_blocks sp = free_blocks s ∪ pending l)
    as (Hpl & Hpp & Hpt & Hpa & Hptr & Hpf).
  { subst sp. unfold pending. destruct (Z.gtb_spec (l_allocated l) 0) as [Hal | Hal].
    - assert ((l_blocknr l >? 0) = true) as -> by (specialize (Hbn ltac:(lia)); lia).
      simpl. done.
    - rewrite andb_false_r. by rewrite union_empty_r_L. }
  clearbody sp.
  assert (free_blocks s0 ∖ run_blocks runs ∖ pending l ∪ pending l ∪ run_blocks runs
          = free_blocks s0) as Hback.
  { pose proof (ri_sub _ _ _ _ _ _ _ _ Hr) as Hsub. apply set_eq. intros y.
    rewrite !elem_of_union, !elem_of_difference.
    destruct (decide (y ∈ run_blocks runs)), (decide (y ∈ pending l)); set_solver. }
  destruct runs as [| r0 rs].
  - rewrite Hbg. simpl. intros [= <- <-].
    rewrite Hpf, Hf. unfold run_blocks in *. simpl in *.
    rewrite union_empty_r_L in Hback. done.
  - destruct (runs_walk s l _ Hr ltac:(done)) as (Hw & Hq & Hcs).
    destruct (runs_slots_nodup s l _ Hr) as [Hnd | ?]; [| done].
    assert (0 < l_begin_tail l) as Hb0.
    { rewrite Hbg. apply Hcs. simpl. apply list_elem_of_here. }
    assert ((l_begin_tail l =? 0) = false) as -> by lia.
    assert ((tail (l_update l) =? 0) = false) as -> by lia. simpl.
    intros Ec.
    destruct (cleanup_loop_walk (map r_slot (r0 :: rs))
                (Nat.max fuel (S (length (r0 :: rs)))) sp (l_begin_tail l) (tail (l_update l)))
      as (s2 & Hs2 & Hf2 & Ht2 & Ha2 & Htr2 & _).
    + rewrite Hbg. by apply (log_walk_pages s).
    + by rewrite Hbg.
    + intros c (rc & -> & Hin)%list_elem_of_fmap.
      unfold entry_at. rewrite Hpl.
      by destruct (runs_entries s l _ rc Hr Hin) as (? & _).
    + rewrite length_map. lia.
    + apply (cleanup_loop_mono _ (Nat.max fuel (S (length (r0 :: rs))))) in Ec; [| lia].
      rewrite Ec in Hs2. injection Hs2 as <-.
      rewrite Hf2, Ht2, Ha2, Htr2. repeat split; try done.
      assert (entry_blocks sp (map r_slot (r0 :: rs)) = run_blocks (r0 :: rs)) as ->.
      { rewrite <- (runs_entry_blocks s l _ Hr). unfold entry_blocks, entry_at.
        by rewrite Hpl. }
      by rewrite Hpf, Hf.
Qed.

(** The reassign pass of the commit: it cannot fail, and it points the
    index at the entries of the runs. *)
Lemma commit_reassign fuel s l runs blks s3 r :
  runs_inv s l runs ->
  l_begin_tail l = 0 \/ l_begin_tail l = hd 0 (map r_slot runs) ->
  let s2 := nova_update_inode (set_sih_i_blocks blks s) (l_update l) in
  nova_reassign_file_tree fuel s2 (l_begin_tail l) = Some (s3, r) ->
  r = 0 /\ same_data s2 s3
  /\ (l_begin_tail l = 0 -> sih_tree s3 = sih_tree s0)
  /\ (l_begin_tail l <> 0 ->
      forall pg,
        (exists rn, rn ∈ runs /\ r_pg rn <= pg < r_pg rn + r_n rn
                    /\ sih_tree s3 !! pg = Some (r_slot rn))
        \/ ((forall rn, rn ∈ runs -> ~ (r_pg rn <= pg < r_pg rn + r_n rn))
            /\ sih_tree s3 !! pg = sih_tree s0 !! pg)).
Proof.
  intros Hr Hbg s2. unfold nova_reassign_file_tree.
  set (s2' := emit _ s2).
  assert (log s2' = log s /\ log_pages s2' = log_pages s
          /\ sih_log_tail s2' = tail (l_update l) /\ sih_tree s2' = sih_tree s
          /\ same_data s2 s2')
    as (Hl2 & Hp2 & Ht2 & Htr2 & Hd2).
  { repeat split; try done. apply log_ext_refl. }
  clearbody s2'.
  destruct (Z.eq_dec (l_begin_tail l) 0) as [H0 | Hn0].
  - rewrite H0. destruct fuel as [| fuel]; [done |]. simpl.
    intros [= <- <-]. split; [done |]. split; [done |].
    split; [| done]. intros _. by rewrite Htr2, (ri_tree _ _ _ _ _ _ _ _ Hr).
  - destruct Hbg as [? | Hbg]; [done |].
    assert (runs <> []) as Hne by (intros ->; simpl in Hbg; lia).
    destruct (runs_walk s l _ Hr Hne) as (Hw & Hq & Hcs).
    destruct (runs_slots_nodup s l _ Hr) as [Hnd | ?]; [| done].
    intros Hre.
    destruct (reassign_loop_walk (map r_slot runs) (Nat.max fuel (S (length runs)))
                s2' (l_begin_tail l))
      as (sx & Hsx & Hdx & Htx).
    + rewrite Ht2, Hbg. by apply (log_walk_pages s).
    + by rewrite Hbg.
    + done.
    + done.
    + intros c (rc & -> & Hin)%list_elem_of_fmap.
      unfold entry_at. rewrite Hl2.
      by destruct (runs_entries s l _ rc Hr Hin) as (? & _).
    + rewrite length_map. lia.
    + apply (reassign_loop_mono _ (Nat.max fuel (S (length runs)))) in Hre; [| lia].
      rewrite Hre in Hsx. injection Hsx as <- ->.
      split; [done |]. split; [by eapply same_data_trans |].
      split; [done |]. intros _ pg.
      assert (forall rc, rc ∈ runs ->
                covers (entry_at s2' (r_slot rc)) pg <-> r_pg rc <= pg < r_pg rc + r_n rc)
        as Hcov.
      { intros rc Hin. unfold covers, entry_at. rewrite Hl2.
        destruct (runs_entries s l _ rc Hr Hin) as (_ & Hpg & Hnp & _).
        unfold entry_at in Hpg, Hnp. by rewrite Hpg, Hnp. }
      destruct (Htx pg) as [(c & (rc & -> & Hin)%list_elem_of_fmap & Hc & Hl) | [Hnone Hl]].
      * left. exists rc. split; [done |]. split; [by apply Hcov | done].
      * right. split.
        -- intros rn Hin Hrn. apply (Hnone (r_slot rn)).
           ++ apply list_elem_of_fmap. by exists rn.
           ++ by apply Hcov.
        -- by rewrite Hl, Htr2, (ri_tree _ _ _ _ _ _ _ _ Hr).
Qed.

End CowExit.
Lemma first_free_spec free span : forall lo,
  0 < lo -> first_free free lo span <> 0 ->
  0 < first_free free lo span /\ first_free free lo span ∈ free.
Proof.
  induction span as [| k IH]; intros lo Hlo; simpl; [done |].
  destruct (decide (lo ∈ free)); [done |]. apply IH. lia.
Qed.

Lemma run_length_spec free n : forall b,
  0 <= run_length free b n <= Z.of_nat n
  /\ blocks b (run_length free b n) ⊆ free.
Proof.
  induction n as [| k IH]; intros b; simpl.
  - split; [lia |]. intros x Hx%elem_of_blocks. lia.
  - destruct (decide (b ∈ free)) as [Hb | Hb].
    + destruct (IH (b + 1)) as [Hr Hs]. split; [lia |].
      intros x Hx%elem_of_blocks.
      destruct (decide (x = b)) as [-> | Hne]; [done |].
      apply Hs, elem_of_blocks. lia.
    + split; [lia |]. intros x Hx%elem_of_blocks. lia.
Qed.

(** The example allocator keeps the allocator contract. *)
Lemma first_fit_sound lo span cap : 0 < lo -> alloc_sound (first_fit lo span cap).
Proof.
  intros Hlo free hint num ret b. unfold first_fit.
  destruct (Z.eqb_spec (first_free free lo span) 0) as [H0 | Hn0].
  - intros [= <- <-]. unfold ENOSPC. lia.
  - intros [= <- <-] Hret.
    destruct (first_free_spec free span lo Hlo Hn0) as [Hb _].
    destruct (run_length_spec free (Z.to_nat (Z.min cap num)) (first_free free lo span))
      as [Hr Hs].
    split; [lia | done].
Qed.

(** ** Cleanup after a failed copy-on-write write *)

(** The pieces of the call before the loop leave the file system alone. *)
Lemma write_out_none fuel s ret ppos lock s' ret' ppos' :
  write_out fuel s wr_none ret ppos lock = Some (s', ret', ppos') ->
  ret' = ret /\ ppos' = ppos /\ free_blocks s' = free_blocks s
  /\ sih_log_tail s' = sih_log_tail s /\ sih_alter_log_tail s' = sih_alter_log_tail s
  /\ sih_tree s' = sih_tree s.
Proof.
  unfold write_out, nova_cleanup_incomplete_write. simpl.
  destruct (ret <? 0); intros [= <- <- <-]; by destruct lock.
Qed.

(** C4. A copy-on-write write call that returns a negative value has given
    back every block it allocated: the set of free blocks is the one before
    the call, the inode's committed log tail (and its mirror) and the index
    are the ones before the call, and the file position did not move. *)
Theorem cow_write_failure_releases_blocks
    (alloc : allocator) (csum_of : list byte -> Z) (fuel : nat) (s : nova_state)
    (filp : file) (u : ubuf) (len ppos : Z) (need_lock : bool)
    (s' : nova_state) (ret ppos' : Z) :
  alloc_sound alloc ->
  sih_i_blk_type s = 0 ->
  log_wf s ->
  0 <= (if f_append filp then i_size s else ppos) ->
  0 <= len ->
  (if f_append filp then i_size s else ppos) + len < 2 ^ 62 ->
  NoDup (slot_of s (sih_log_tail s)
         :: log_chain s (sih_log_tail s)
              (Z.to_nat (((if f_append filp then i_size s else ppos) + len - 1) / 4096 + 1
                         - (if f_append filp then i_size s else ppos) / 4096))) ->
  nova_cow_file_write alloc csum_of fuel s filp u len ppos need_lock = Some (s', ret, ppos') ->
  ret < 0 ->
  free_blocks s' = free_blocks s
  /\ sih_log_tail s' = sih_log_tail s
  /\ sih_alter_log_tail s' = sih_alter_log_tail s
  /\ sih_tree s' = sih_tree s
  /\ ppos' = ppos.
Proof.
  intros Halloc Hblk Hwf Hpos Hlen Hmax Hchain. unfold nova_cow_file_write.
  destruct (Z.eqb_spec len 0) as [-> | Hl0]; [intros [= <- <- <-]; lia |].
  destruct (mapping_mapped s); [by intros [= <- <- <-] |].
  set (sl := if need_lock then emit EvLock s else s).
  assert (free_blocks sl = free_blocks s /\ sih_log_tail sl = sih_log_tail s
          /\ sih_alter_log_tail sl = sih_alter_log_tail s /\ sih_tree sl = sih_tree s
          /\ log_pages sl = log_pages s /\ sih_i_blk_type sl = sih_i_blk_type s
          /\ i_size sl = i_size s /\ log sl = log s /\ pmem sl = pmem s)
    as (Hf & Ht & Ha & Htr & Hp & Hb & Hi & Hl & Hm) by (by subst sl; destruct need_lock).
  destruct (negb (ub_access_ok u)).
  { intros (_ & -> & -> & -> & -> & ->)%write_out_none _. by rewrite Hf, Ht, Ha, Htr. }
  cbv zeta. destruct (negb (f_remove_privs filp =? 0)).
  { intros (_ & -> & -> & -> & -> & ->)%write_out_none _. by rewrite Hf, Ht, Ha, Htr. }
  rewrite Hi. set (pos := if f_append filp then i_size s else ppos) in *.
  set (si := set_i_mtime (now sl) sl).
  pose proof (init_inv s u pos len (epoch si) (now si) Hpos ltac:(lia) Hmax si
                Htr Ht Ha Hp ltac:(by rewrite <- Hblk) Hi Hl Hm Hf) as Hinit.
  destruct (cow_loop _ _ _ _ _ _ _ _) as [r |] eqn:Eloop; [| done].
  pose proof (cow_loop_inv alloc csum_of s u pos len (epoch si) (now si) Halloc Hblk Hpos
                ltac:(lia) Hmax Hchain _ _ _ _ _ Hinit Eloop) as Hres.
  destruct r as [s1 l1 | s1 l1 | s1 l1 r1]; [done | |].
  - (* the loop was left by its end or by a short copy: the return value
       is a count *)
    destruct Hres as [runs Hres]. unfold cow_commit. cbv zeta.
    destruct (nova_reassign_file_tree _ _ _) as [[s3 r3] |] eqn:Ere; [| done].
    assert (runs_inv s pos len (epoch si) (now si) s1 l1 runs
            /\ (l_begin_tail l1 = 0 \/ l_begin_tail l1 = hd 0 (map r_slot runs))
            /\ 0 <= l_written l1) as (Hr & Hbg & Hw).
    { destruct Hres as [[Hc _] | Hbr].
      - split; [apply Hc |]. split; [right; apply Hc |].
        rewrite (ci_written _ _ _ _ _ _ _ _ _ Hc). lia.
      - split; [apply Hbr |]. split; [apply Hbr |]. apply Hbr. }
    destruct (commit_reassign s pos len (epoch si) (now si) Hwf ltac:(lia) Hchain fuel s1 l1 runs _ s3 r3
                Hr Hbg Ere) as (-> & _).
    simpl. intros (-> & _)%write_out_ret. lia.
  - (* the error exit of the loop *)
    destruct Hres as [Hr1 [runs Hout]]. intros Hwo Hneg.
    pose proof (write_out_ret _ _ _ _ _ _ _ _ _ Hwo) as [-> _].
    destruct (out_cleanup s pos len (epoch si) (now si) Hblk Hwf Hpos ltac:(lia) Hmax Hchain fuel s1 l1 runs r1 ppos
                need_lock s' r1 ppos' Hout Hneg Hwo) as (_ & -> & -> & -> & -> & ->).
    done.
Qed.

Lemma ex_tight_wf : log_wf ex_tight.
Proof.
  split; [simpl; lia |]. intros k v. simpl.
  intros [_ <-]%lookup_singleton_Some. split; [lia | reflexivity].
Qed.

Lemma cow_write_failure_releases_blocks_witness :
  exists s',
    nova_cow_file_write ex_alloc byte_sum 16 ex_tight ex_file (ex_user x41 40960) 40960 0 true
    = Some (s', - ENOSPC, 0)
    /\ wr_view (nova_cow_file_write ex_alloc byte_sum 16 ex_tight ex_file
                  (ex_user x41 40960) 40960 0 true)
       = Some (- ENOSPC, 0, 8192, 0, [],
               [EvLock; EvAlloc 16 2; EvAppend 8192; EvAlloc 18 2; EvAppend 8256;
                EvAllocFail (- ENOSPC); EvFree 16 2; EvFree 18 2; EvUnlock])
    /\ free_blocks s' = free_blocks ex_tight
    /\ sih_log_tail s' = sih_log_tail ex_tight
    /\ sih_alter_log_tail s' = sih_alter_log_tail ex_tight
    /\ sih_tree s' = sih_tree ex_tight
    /\ 0 = 0.
Proof.
  destruct (wr_ret_some
              (nova_cow_file_write ex_alloc byte_sum 16 ex_tight ex_file (ex_user x41 40960)
                 40960 0 true) (- ENOSPC) 0) as [s' Hs']; [vm_compute; reflexivity |].
  exists s'. split; [exact Hs' |]. split; [vm_compute; reflexivity |].
  apply (cow_write_failure_releases_blocks ex_alloc byte_sum 16 ex_tight ex_file
           (ex_user x41 40960) 40960 0 true s' (- ENOSPC) 0).
  - apply first_fit_sound. lia.
  - reflexivity.
  - exact ex_tight_wf.
  - simpl. lia.
  - lia.
  - simpl. lia.
  - apply (bool_decide_unpack _). vm_compute. exact I.
  - exact Hs'.
  - unfold ENOSPC. lia.
Defined.

(** ** Reading back what the index points at *)

Lemma mem_load_ext (m : mem) (f : Z -> byte) a p n :
  (forall k, 0 <= k < n -> m (a + k) = f (p + k)) ->
  mem_load m a n = map f (seqZ p n).
Proof.
  intros H. unfold mem_load, seqZ. rewrite <- list_fmap_compose.
  apply map_ext_in. intros i Hi%in_seq. simpl.
  rewrite H by lia. f_equal. lia.
Qed.

(** The pages a read takes in one piece from the entry [e] at page [pg]. *)
Definition chunk_pages (e : nova_file_write_entry) (pg : Z) : Z :=
  if reassigned e =? 0 then pgoff e + num_pages e - pg else 1.

Section ReadBack.

Variable csum_of : list byte -> Z.
Variables (s : nova_state) (pos len : Z).

(** The bytes the file is expected to hold, by file offset. *)
Variable fdata : Z -> byte.

Let first_pg := pos / 4096.
Let last_pg := (pos + len - 1) / 4096.

(** The page [pg] is indexed by an entry that covers it, and the blocks of
    the entry hold the expected bytes of the window, for all the pages the
    read takes from the entry in one piece; with data checksums on, these
    blocks verify. *)
Definition chunk_ok (pg : Z) : Prop :=
  exists c e,
    sih_tree s !! pg = Some c /\ c <> 0 /\ log s !! c = Some e
    /\ 0 <= pgoff e <= pg /\ pg < pgoff e + num_pages e /\ num_pages e <= 2 ^ 50
    /\ (forall x, pos <= x < pos + len ->
                  pg * 4096 <= x < (pg + chunk_pages e pg) * 4096 ->
                  pmem s (get_nvmm e pg * 4096 + (x - pg * 4096)) = fdata x)
    /\ (data_csum s > 0 -> nova_find_pgoff_in_vma s pg = false ->
        forall k, 0 <= k < chunk_pages e pg -> pg + k <= last_pg ->
                  block_csum_ok csum_of s (get_nvmm e pg + k) = true).

Hypothesis Hpos : 0 <= pos.
Hypothesis Hlen : 0 < len.
Hypothesis Hsize : pos + len <= i_size s.
Hypothesis Hmax : i_size s < 2 ^ 62.
Hypothesis Hchunks : forall pg, first_pg <= pg <= last_pg -> chunk_ok pg.

Variable dst : ubuf.
Hypothesis Hacc : ub_access_ok dst = true.
Hypothesis Hvalid : len <= ub_valid dst.

(** The loop state after [copied] bytes. *)
Definition read_at (l : rd_locals) : Prop :=
  r_index l * 4096 + r_offset l = pos + r_copied l
  /\ 0 <= r_offset l < 4096 /\ 0 <= r_copied l < len
  /\ r_out l = map fdata (seqZ pos (r_copied l)).

Lemma read_body_chunk l :
  read_at l ->
  exists l',
    read_body csum_of s dst (i_size s) len (Z.shiftr (i_size s - 1) PAGE_SHIFT) l = RdNext l'
    /\ r_copied l < r_copied l' <= len
    /\ r_out l' = map fdata (seqZ pos (r_copied l'))
    /\ (r_copied l' < len -> read_at l' /\ r_index l < r_index l').
Proof.
  intros (Hio & Hoff & Hcop & Hout).
  assert (first_pg <= r_index l <= last_pg) as Hpg by (unfold first_pg, last_pg; lia).
  destruct (Hchunks _ Hpg) as (c & e & Ht & Hc & Hl & Hlo & Hhi & Hnp & Hdata & Hcs).
  rewrite (read_body_committed csum_of s dst _ len _ l c e); try done; try lia.
  2:{ rewrite shiftr_page, land_not_page_mask. lia. }
  fold (chunk_pages e (r_index l)).
  set (n := chunk_pages e (r_index l)).
  assert (1 <= n <= 2 ^ 50) as Hn.
  { subst n. unfold chunk_pages. destruct (reassigned e =? 0); lia. }
  assert ((if reassigned e =? 0
           then ulong ((num_pages e - ulong (r_index l - pgoff e)) * PAGE_SIZE)
           else PAGE_SIZE) = n * 4096) as ->.
  { subst n. unfold chunk_pages, PAGE_SIZE in *. destruct (reassigned e =? 0); [| done].
    rewrite (ulong_small (_ - _)) by lia. rewrite ulong_small; lia. }
  unfold read_copy. cbv zeta.
  rewrite (ulong_small (n * 4096 - _)) by lia.
  rewrite (ulong_small (len - _)) by lia.
  set (nr := if n * 4096 - r_offset l >? len - r_copied l then len - r_copied l
             else n * 4096 - r_offset l).
  assert (nr = Z.min (n * 4096 - r_offset l) (len - r_copied l)) as Hnr
    by (subst nr; destruct (Z.gtb_spec (n * 4096 - r_offset l) (len - r_copied l)); lia).
  assert (0 < nr) as Hnr0 by lia.
  assert (negb false && (data_csum s >? 0) && negb (nova_find_pgoff_in_vma s (r_index l))
          && negb (nova_verify_data_csum csum_of s (get_nvmm e (r_index l)) (r_offset l) nr)
          = false) as ->.
  { destruct (Z.gtb_spec (data_csum s) 0) as [Hcsum | ?]; [| done].
    destruct (nova_find_pgoff_in_vma s (r_index l)) eqn:Hvma; [done |].
    simpl. apply negb_false_iff. unfold nova_verify_data_csum. cbv zeta.
    apply forallb_forall. intros b Hb%list_elem_of_In%elem_of_seqZ.
    rewrite !shiftr_page in Hb.
    replace b with (get_nvmm e (r_index l) + (b - get_nvmm e (r_index l))) by lia.
    apply Hcs; try done; unfold last_pg; lia. }
  assert (user_copy_ok dst (r_copied l) nr = nr) as Hok by (unfold user_copy_ok; lia).
  rewrite Hok, Z.sub_diag. simpl negb. cbv iota.
  eexists. split; [reflexivity |]. simpl.
  split; [lia |]. split.
  - rewrite Hout. replace (r_copied l + (nr - 0)) with (r_copied l + nr) by lia.
    rewrite seqZ_app by lia. rewrite map_app. f_equal.
    apply mem_load_ext. intros k Hk.
    unfold nova_get_block. rewrite shiftl_page.
    replace (get_nvmm e (r_index l) * 4096 + r_offset l + k)
      with (get_nvmm e (r_index l) * 4096 + (pos + r_copied l + k - r_index l * 4096)) by lia.
    apply Hdata; fold n; lia.
  - intros Hmore. rewrite shiftr_page, land_not_page_mask.
    assert (r_offset l + (nr - 0) = n * 4096) as -> by lia.
    rewrite Z.mod_mul, Z.div_mul by lia.
    split; [| lia]. repeat split; simpl; try lia.
    rewrite Hout. replace (r_copied l + (nr - 0)) with (r_copied l + nr) by lia.
    rewrite seqZ_app by lia. rewrite map_app. f_equal.
    apply mem_load_ext. intros k Hk.
    unfold nova_get_block. rewrite shiftl_page.
    replace (get_nvmm e (r_index l) * 4096 + r_offset l + k)
      with (get_nvmm e (r_index l) * 4096 + (pos + r_copied l + k - r_index l * 4096)) by lia.
    apply Hdata; fold n; lia.
Qed.

Lemma read_loop_chunks fuel : forall l,
  read_at l -> (Z.to_nat (last_pg - r_index l) < fuel)%nat ->
  read_loop csum_of fuel s dst pos (i_size s) len (Z.shiftr (i_size s - 1) PAGE_SHIFT) l
  = Some (len, map fdata (seqZ pos len), pos + len).
Proof.
  induction fuel as [| fuel IH]; intros l Hat Hfuel; [lia |]. simpl.
  destruct (read_body_chunk l Hat) as (l' & -> & Hc & Hout & Hnext).
  destruct (Z.ltb_spec (r_copied l') len) as [Hlt | Hge].
  - destruct (Hnext Hlt) as [Hat' Hidx]. apply IH; [done |].
    destruct Hat' as (Hio & Hoff & Hcop & _).
    assert (r_index l' <= last_pg) by (unfold last_pg; lia). lia.
  - assert (r_copied l' = len) as Heq by lia.
    unfold read_out. rewrite Hout, Heq.
    by assert ((len =? 0) = false) as -> by lia.
Qed.

(** A read of the window returns the expected bytes. *)
Lemma read_chunks fuel :
  (Z.to_nat (last_pg + 1 - first_pg) <= fuel)%nat ->
  do_dax_mapping_read csum_of fuel s dst len pos
  = Some (len, map fdata (seqZ pos len), pos + len).
Proof.
  intros Hfuel. unfold do_dax_mapping_read. cbv zeta.
  rewrite Hacc. simpl negb. cbv iota.
  assert ((i_size s =? 0) = false) as -> by lia.
  rewrite ulong_small by lia.
  assert ((len >? i_size s - pos) = false) as -> by lia.
  assert ((len <=? 0) = false) as -> by lia.
  apply read_loop_chunks.
  - repeat split; simpl; rewrite ?shiftr_page, ?land_not_page_mask; lia.
  - simpl. rewrite shiftr_page. unfold first_pg, last_pg in *. lia.
Qed.

End ReadBack.

(** ** The configuration and the mappings are not touched by the writers *)

Definition same_conf (s s' : nova_state) : Prop :=
  data_csum s' = data_csum s /\ data_parity s' = data_parity s /\ i_mmap s' = i_mmap s.

Section Conf.

Variable alloc : allocator.
Variable csum_of : list byte -> Z.

Lemma cow_body_conf fuel s u ep time l r :
  cow_body alloc csum_of fuel s u ep time l = Some r -> same_conf s (wr_state r).
Proof.
  unfold cow_body. cbv zeta.
  destruct (nova_new_data_blocks _ _ _ _ _) as [[s1 b] a] eqn:Ea.
  apply new_data_blocks_eq in Ea as [_ Es1].
  assert (same_conf s s1) as H1.
  { destruct (a >? 0); [by subst s1 | by destruct Es1 as [-> _]]. }
  destruct (a <=? 0); [by intros [= <-] |].
  destruct (wr_copy_in _ _ _ _ _ _ _) as [s2 copied] eqn:Ec.
  apply wr_copy_in_eq in Ec as [[m ->] _].
  destruct (wr_protect _ _ _ _ _ _ _) as [[s3 ret] |] eqn:Ep; [| done].
  apply wr_protect_eq in Ep as [cs ->].
  destruct (negb (ret =? 0)); [by intros [= <-] |].
  destruct (wr_append _ _ _ _ _ _) as [[s4 l4] ret4] eqn:Eapp.
  apply wr_append_eq in Eapp
    as [(-> & c & e & _ & _ & -> & _) | (-> & -> & _)]; simpl.
  - destruct (_ <? 0); by intros [= <-].
  - by intros [= <-].
Qed.

Lemma cow_loop_conf fuel : forall s u ep time l r,
  cow_loop alloc csum_of fuel s u ep time l = Some r -> same_conf s (wr_state r).
Proof.
  induction fuel as [| fuel IH]; intros s u ep time l r; simpl; [done |].
  destruct (l_num_blocks l >? 0); [| by intros [= <-]].
  destruct (cow_body _ _ _ _ _ _ _ _) as [rb |] eqn:Eb; [| done].
  apply cow_body_conf in Eb. destruct rb as [s1 l1 | s1 l1 | s1 l1 r1].
  - intros H%IH. destruct Eb as (A & B & C), H as (A' & B' & C'). simpl in *.
    unfold same_conf. repeat split; congruence.
  - by intros [= <-].
  - by intros [= <-].
Qed.

End Conf.
Lemma runs_cover runs : forall pg0 pg,
  runs_from pg0 runs -> pg0 <= pg < runs_end pg0 runs ->
  exists rn, rn ∈ runs /\ r_pg rn <= pg < r_pg rn + r_n rn.
Proof.
  induction runs as [| r0 rs IH]; intros pg0 pg; simpl.
  - unfold runs_end. simpl. lia.
  - intros (Hp & Hn & Hrs) Hpg. destruct (Z.lt_ge_cases pg (pg0 + r_n r0)) as [Hlt | Hge].
    + exists r0. split; [apply list_elem_of_here | lia].
    + destruct (IH (pg0 + r_n r0) pg Hrs) as (rn & Hin & Hrn).
      * unfold runs_end in *. simpl in Hpg. lia.
      * exists rn. split; [by apply list_elem_of_further | done].
Qed.

(** ** A completed copy-on-write write, read back *)

Section CowBack.

Variable alloc : allocator.
Variable csum_of : list byte -> Z.
Variables (s : nova_state) (filp : file) (u : ubuf) (len ppos : Z) (need_lock : bool).

Let pos := if f_append filp then i_size s else ppos.

Hypothesis Halloc : alloc_sound alloc.
Hypothesis Hblk : sih_i_blk_type s = 0.
Hypothesis Hwf : log_wf s.
Hypothesis Hpos : 0 <= pos.
Hypothesis Hlen : 0 < len.
Hypothesis Hmax : pos + len < 2 ^ 62.
Hypothesis Hsize : i_size s < 2 ^ 62.
Hypothesis Hprivs : f_remove_privs filp <= 0.
Hypothesis Hcsum : data_csum s = 0.
Hypothesis Hchain :
  NoDup (slot_of s (sih_log_tail s)
         :: log_chain s (sih_log_tail s)
              (Z.to_nat ((pos + len - 1) / 4096 + 1 - pos / 4096))).

Lemma cow_write_chunks fuel s' ppos' :
  nova_cow_file_write alloc csum_of fuel s filp u len ppos need_lock = Some (s', len, ppos') ->
  ppos' = pos + len /\ pos + len <= i_size s' /\ i_size s' < 2 ^ 62
  /\ forall pg, pos / 4096 <= pg <= (pos + len - 1) / 4096 ->
                chunk_ok csum_of s' pos len (fun x => ub_byte u (x - pos)) pg.
Proof.
  unfold nova_cow_file_write.
  assert ((len =? 0) = false) as -> by lia.
  destruct (mapping_mapped s); [intros [= _ Hr]; unfold EACCES in Hr; lia |].
  set (sl := if need_lock then emit EvLock s else s).
  assert (free_blocks sl = free_blocks s /\ sih_log_tail sl = sih_log_tail s
          /\ sih_alter_log_tail sl = sih_alter_log_tail s /\ sih_tree sl = sih_tree s
          /\ log_pages sl = log_pages s /\ sih_i_blk_type sl = sih_i_blk_type s
          /\ i_size sl = i_size s /\ log sl = log s /\ pmem sl = pmem s
          /\ same_conf s sl)
    as (Hf & Ht & Ha & Htr & Hp & Hb & Hi & Hl & Hm & Hcf) by (by subst sl; destruct need_lock).
  destruct (negb (ub_access_ok u)).
  { intros (Hr & _)%write_out_ret. unfold EFAULT in Hr. lia. }
  cbv zeta. destruct (negb (f_remove_privs filp =? 0)).
  { intros (Hr & _)%write_out_ret. lia. }
  rewrite Hi. fold pos.
  set (si := set_i_mtime (now sl) sl).
  pose proof (init_inv s u pos len (epoch si) (now si) Hpos Hlen Hmax si
                Htr Ht Ha Hp ltac:(by rewrite <- Hblk) Hi Hl Hm Hf) as Hinit.
  destruct (cow_loop _ _ _ _ _ _ _ _) as [r |] eqn:Eloop; [| done].
  pose proof (cow_loop_inv alloc csum_of s u pos len (epoch si) (now si) Halloc Hblk Hpos
                Hlen Hmax Hchain _ _ _ _ _ Hinit Eloop) as Hres.
  pose proof (cow_loop_conf _ _ _ _ _ _ _ _ _ Eloop) as Hconf.
  destruct r as [s1 l1 | s1 l1 | s1 l1 r1]; [done | |].
  2:{ destruct Hres as [Hr1 _]. intros (Hr & _)%write_out_ret. lia. }
  destruct Hres as [runs Hres]. unfold cow_commit. cbv zeta.
  destruct (nova_reassign_file_tree _ _ _) as [[s3 r3] |] eqn:Ere; [| done].
  assert (runs_inv s pos len (epoch si) (now si) s1 l1 runs
          /\ (l_begin_tail l1 = 0 \/ l_begin_tail l1 = hd 0 (map r_slot runs)))
    as (Hr & Hbg).
  { destruct Hres as [[Hc _] | Hbr].
    - split; [apply Hc |]. right; apply Hc.
    - split; [apply Hbr |]. apply Hbr. }
  destruct (commit_reassign s pos len (epoch si) (now si) Hwf Hlen Hchain fuel s1 l1 runs _ s3 r3
              Hr Hbg Ere) as (-> & Hd3 & _ & Htree).
  simpl negb. cbv iota.
  intros Hwo. pose proof (write_out_ret _ _ _ _ _ _ _ _ _ Hwo) as [Hret ->].
  destruct Hres as [[Hc Hnb] | Hbr].
  2:{ pose proof (bi_written _ _ _ _ _ _ _ _ Hbr). lia. }
  clear Hbg.
  rewrite write_out_nonneg in Hwo by lia. injection Hwo as <-.
  pose proof (ci_nb _ _ _ _ _ _ _ _ _ Hc) as Hend. rewrite Hnb in Hend.
  pose proof (ci_pos _ _ _ _ _ _ _ _ _ Hc) as Hlp. rewrite <- Hret in Hlp.
  pose proof (ri_from _ _ _ _ _ _ _ _ Hr) as Hfrom.
  assert (runs <> []) as Hne.
  { intros ->. unfold runs_end in Hend. simpl in Hend. lia. }
  destruct (runs_walk s pos len (epoch si) (now si) Hwf s1 l1 runs Hr Hne) as (_ & _ & Hslots).
  assert (l_begin_tail l1 <> 0) as Hbt.
  { rewrite (ci_begin _ _ _ _ _ _ _ _ _ Hc). destruct runs as [| r0 rs]; [done |].
    specialize (Hslots (r_slot r0) ltac:(apply list_elem_of_here)). simpl. lia. }
  specialize (Htree Hbt).
  set (s4 := set_i_blocks _ s3) in *.
  set (s5 := if l_pos l1 >? i_size s3 then set_sizes (l_pos l1) s4 else s4).
  assert (pmem s5 = pmem s1 /\ sih_tree s5 = sih_tree s3 /\ log s5 = log s3
          /\ data_csum s5 = 0 /\ i_size s5 = Z.max (i_size s) (pos + len))
    as (H5m & H5t & H5l & H5c & H5i).
  { destruct Hd3 as [D1 _ _ _ _ D6 _ _ D9 _ _]. simpl in D1, D6, D9.
    destruct Hconf as (C1 & _), Hcf as (C2 & _). simpl in C1.
    pose proof (ri_isize _ _ _ _ _ _ _ _ Hr) as Hsz.
    assert (data_csum s3 = 0) as Hc3 by congruence.
    assert (i_size s4 = i_size s) as Hi4 by (subst s4; simpl; congruence).
    assert (i_size s3 = i_size s) as Hi3 by (by rewrite <- Hi4).
    subst s5. destruct (Z.gtb_spec (l_pos l1) (i_size s3)) as [Hgt | Hle]; simpl;
      repeat split; try done; lia. }
  clearbody s5.
  assert (pmem (if need_lock then emit EvUnlock s5 else s5) = pmem s5
          /\ sih_tree (if need_lock then emit EvUnlock s5 else s5) = sih_tree s5
          /\ log (if need_lock then emit EvUnlock s5 else s5) = log s5
          /\ data_csum (if need_lock then emit EvUnlock s5 else s5) = data_csum s5
          /\ i_size (if need_lock then emit EvUnlock s5 else s5) = i_size s5)
    as (H6m & H6t & H6l & H6c & H6i) by (by destruct need_lock).
  rewrite H6i, H5i. split; [lia |]. split; [lia |]. split; [lia |].
  intros pg Hpg. unfold chunk_ok. rewrite H6t, H6l, H6m, H6c, H5t, H5l, H5m, H5c.
  destruct (Htree pg) as [(rn & Hin & Hcov & Hlk) | [Hnone _]].
  2:{ destruct (runs_cover runs (pos / 4096) pg Hfrom ltac:(lia)) as (rn & Hin & Hrn).
      by destruct (Hnone rn Hin). }
  pose proof (ri_log _ _ _ _ _ _ _ _ Hr rn Hin) as Hlog.
  pose proof (sd_log _ _ Hd3 (r_slot rn)) as Hext. simpl in Hext. rewrite Hlog in Hext.
  destruct (log s3 !! r_slot rn) as [e |] eqn:Ee; [| done].
  destruct Hext as (_ & Hpg' & Hnp & Hbl & _). simpl in Hpg', Hnp, Hbl.
  pose proof (runs_from_bounds _ _ _ Hfrom Hin) as (Hb1 & Hb2 & Hb3).
  exists (r_slot rn), e. split; [done |].
  split; [specialize (Hslots (r_slot rn) ltac:(apply list_elem_of_fmap; by exists rn)); lia |].
  split; [done |]. rewrite Hpg', Hnp.
  split; [lia |]. split; [lia |]. split; [lia |]. split; [| lia].
  intros x Hx Hxp.
  assert (chunk_pages e pg <= r_pg rn + r_n rn - pg) as Hcp.
  { unfold chunk_pages. rewrite Hpg', Hnp. destruct (reassigned e =? 0); lia. }
  unfold get_nvmm. rewrite Hbl, Hpg'. unfold nova_get_block_off.
  rewrite shiftl_page, shiftr_page, Z.div_mul by lia.
  replace ((r_b rn + pg - r_pg rn) * 4096 + (x - pg * 4096))
    with (r_b rn * 4096 + (x - r_pg rn * 4096)) by lia.
  apply (ci_content _ _ _ _ _ _ _ _ _ Hc rn x Hin); lia.
Qed.

End CowBack.

(** ** The partial blocks of a new run *)

(** The block an indexed page lives in is a real block that is not free. *)
Definition committed_block (s : nova_state) (pg : Z) : Prop :=
  let entry := nova_get_write_entry s pg in
  entry = 0
  \/ (get_nvmm (entry_at s entry) pg <> 0
      /\ get_nvmm (entry_at s entry) pg ∉ free_blocks s).

Lemma committed_block_outside s pg b n :
  committed_block s pg -> blocks b n ⊆ free_blocks s -> old_block_outside s pg b n.
Proof.
  unfold committed_block, old_block_outside. cbv zeta.
  intros [H0 | [Hne Hnf]] Hsub; [by left | right]. split; [done |].
  destruct (decide (get_nvmm (entry_at s (nova_get_write_entry s pg)) pg ∈ blocks b n))
    as [Hin | Hnin].
  - by apply Hsub in Hin.
  - rewrite elem_of_blocks in Hnin. lia.
Qed.

(** C2. A run of the copy-on-write writer that got the blocks
    [[b, b + a)] leaves them merged: below the write window the first block
    holds the bytes of the block that the index had for the page (zeros
    when the page had no entry), the window holds the bytes copied from the
    user buffer, and above the window the last block of the run holds the
    bytes of the old block of that page (zeros when it had none). *)
Theorem cow_run_merges_partial_blocks
    (alloc : allocator) (csum_of : list byte -> Z) (fuel : nat) (s : nova_state)
    (u : ubuf) (ep time : Z) (l : wr_locals) (r : wr_res) (a b : Z) :
  alloc_sound alloc ->
  sih_i_blk_type s = 0 ->
  0 <= l_pos l -> 0 < l_count l -> l_num_blocks l <= 2 ^ 50 ->
  alloc (free_blocks s) (l_pos l / 4096) (l_num_blocks l) = (a, b) -> 0 < a ->
  let off := l_pos l mod 4096 in
  let bytes := Z.min (4096 * a - off) (l_count l) in
  let nb := (bytes + off - 1) / 4096 + 1 in
  committed_block s (l_pos l / 4096) ->
  committed_block s (l_pos l / 4096 + nb - 1) ->
  cow_body alloc csum_of fuel s u ep time l = Some r ->
  (forall k, 0 <= k < off ->
     pmem (wr_state r) (b * 4096 + k) = old_byte s (l_pos l / 4096) k)
  /\ (forall k, 0 <= k < user_copy_ok u (l_buf l) bytes ->
        pmem (wr_state r) (b * 4096 + off + k) = ub_byte u (l_buf l + k))
  /\ (forall k, off + bytes <= k < nb * 4096 ->
        pmem (wr_state r) (b * 4096 + k)
        = old_byte s (l_pos l / 4096 + nb - 1) (k - (nb - 1) * 4096)).
Proof.
  intros Halloc Hblk Hpos Hcount Hnum Hal Ha off bytes nb Hstart Hend.
  destruct (Halloc _ _ _ _ _ Hal Ha) as (Hanb & Hbpos & Hbfree).
  unfold cow_body. cbv zeta.
  rewrite (land_blk_size_4k s) by done. rewrite shiftr_blocksize_bits.
  unfold nova_new_data_blocks. rewrite Hal.
  assert ((a >? 0) = true) as -> by lia.
  assert ((a <=? 0) = false) as -> by lia.
  set (s1 := emit _ _). rewrite get_block_off_eq.
  set (l1 := set_l_alloc b a l).
  change (l_count l1) with (l_count l). fold off.
  assert (wr_bytes a off (l_count l) = bytes) as ->.
  { unfold wr_bytes. cbv zeta. rewrite ulong_small by (unfold s_blocksize, off; lia).
    unfold s_blocksize, bytes. destruct (Z.gtb_spec (4096 * a - off) (l_count l)); lia. }
  assert (0 < bytes /\ off + bytes <= 4096 * a) as [Hb0 Hfit] by (unfold bytes, off; lia).
  destruct (wr_copy_in _ _ _ _ _ _ _) as [s2 copied] eqn:Ec.
  assert (sih_i_blk_type s1 = 0) as Hblk1 by done.
  assert (forall pg k, old_byte s1 pg k = old_byte s pg k) as Hold by done.
  destruct (run_copy_data s1 (l_pos l) bytes b a Hblk1 Hpos Hb0 Hfit ltac:(lia)
              u l1 true s2 copied eq_refl Ec) as (Hcopied & Hdata & _).
  destruct (run_copy_merge s1 (l_pos l) bytes b a Hblk1 Hpos Hb0 Hfit ltac:(lia)
              ltac:(by apply (committed_block_outside s))
              ltac:(by apply (committed_block_outside s))
              u l1 s2 copied eq_refl Ec) as (Hhead & Htail).
  fold off in Hdata, Hhead, Htail. fold nb in Htail.
  assert (forall s' : nova_state, pmem s' = pmem s2 ->
            (forall k, 0 <= k < off -> pmem s' (b * 4096 + k) = old_byte s (l_pos l / 4096) k)
            /\ (forall k, 0 <= k < user_copy_ok u (l_buf l) bytes ->
                  pmem s' (b * 4096 + off + k) = ub_byte u (l_buf l + k))
            /\ (forall k, off + bytes <= k < nb * 4096 ->
                  pmem s' (b * 4096 + k)
                  = old_byte s (l_pos l / 4096 + nb - 1) (k - (nb - 1) * 4096))) as Hgoal.
  { intros s' ->. split; [| split].
    - intros k Hk. rewrite Hhead by lia. rewrite Hold. f_equal. lia.
    - intros k Hk. rewrite Hdata by (rewrite Hcopied; simpl; lia). simpl. f_equal. lia.
    - intros k Hk. rewrite Htail by lia. rewrite Hold. f_equal. lia. }
  destruct (wr_protect _ _ _ _ _ _ _) as [[s3 ret] |] eqn:Ep; [| done].
  apply wr_protect_eq in Ep as [cs ->].
  destruct (negb (ret =? 0)); [intros [= <-]; by apply Hgoal |].
  destruct (wr_append _ _ _ _ _ _) as [[s4 l4] ret4] eqn:Eapp.
  apply wr_append_eq in Eapp
    as [(-> & c & e & _ & _ & -> & _) | (-> & -> & _)]; simpl.
  - destruct (_ <? 0); intros [= <-]; by apply Hgoal.
  - intros [= <-]. by apply Hgoal.
Qed.

(** A result that evaluates to some value. *)
Lemma some_result {A : Type} (o : option A) :
  match o with Some _ => true | None => false end = true -> exists r, o = Some r.
Proof. destruct o as [r |]; [by exists r | done]. Qed.

Lemma cow_run_merges_partial_blocks_witness :
  exists r,
    cow_body ex_alloc byte_sum 8 ex_block_A (ex_user x42 20) 7 1001
      (wr_init ex_block_A 10 20 1) = Some r
    /\ ((forall k, 0 <= k < 10 -> pmem (wr_state r) (17 * 4096 + k) = old_byte ex_block_A 0 k)
        /\ (forall k, 0 <= k < 20 ->
              pmem (wr_state r) (17 * 4096 + 10 + k) = ub_byte (ex_user x42 20) (0 + k))
        /\ (forall k, 30 <= k < 4096 ->
              pmem (wr_state r) (17 * 4096 + k) = old_byte ex_block_A 0 (k - 0)))
    /\ read_back byte_sum 8
         (nova_cow_file_write ex_alloc byte_sum 8 ex_block_A ex_file (ex_user x42 20) 20 10 true)
         4096 0
       = Some (4096, repeat x41 10 ++ repeat x42 20 ++ repeat x41 4066, 4096).
Proof.
  destruct (some_result (cow_body ex_alloc byte_sum 8 ex_block_A (ex_user x42 20) 7 1001
                           (wr_init ex_block_A 10 20 1))) as [r E];
    [vm_compute; reflexivity |].
  exists r. split; [exact E |]. split; [| vm_compute; reflexivity].
  apply (cow_run_merges_partial_blocks ex_alloc byte_sum 8 ex_block_A (ex_user x42 20) 7 1001
           (wr_init ex_block_A 10 20 1) r 1 17).
  - apply first_fit_sound. lia.
  - reflexivity.
  - simpl. lia.
  - simpl. lia.
  - simpl. lia.
  - vm_compute. reflexivity.
  - lia.
  - right. split; [vm_compute; discriminate |].
    change (16 ∉ blocks 17 31). rewrite elem_of_blocks. lia.
  - right. split; [vm_compute; discriminate |].
    change (16 ∉ blocks 17 31). rewrite elem_of_blocks. lia.
  - exact E.
Defined.

(** ** The in-place writer: in place or hole fill *)

(** The loop body of the in-place writer after the look-up of the entry. *)
Definition inplace_rest (alloc : allocator) (csum_of : list byte -> Z) (fuel : nat)
    (s : nova_state) (u : ubuf) (epoch_id time : Z) (l : wr_locals)
    (chk : Z * Z * bool) : option wr_res :=
  let offset := Z.land (l_pos l) (nova_inode_blk_size s - 1) in
  let start_blk := Z.shiftr (l_pos l) s_blocksize_bits in
  let '(ent_blks, entry, inplace) := chk in
  match inplace_arm alloc s l start_blk ent_blks entry inplace with
  | inr r => Some r
  | inl (s, l, hole_fill, blk_off) =>
      let bytes := wr_bytes (l_allocated l) offset (l_count l) in
      let kmem := nova_get_block blk_off in
      let '(s, copied) := wr_copy_in hole_fill s u l offset bytes kmem in
      match wr_protect csum_of fuel s u l bytes (negb hole_fill) with
      | None => None
      | Some (s, ret) =>
          if negb (ret =? 0) then Some (WrOut s l ret)
          else
            let '(s, l, ret) :=
              if hole_fill then wr_append s l epoch_id time start_blk copied
              else (nova_inplace_update_write_entry s entry epoch_id
                      (wr_file_size s (l_pos l) copied), l, 0) in
            if negb (ret =? 0) then Some (WrOut s l (- ENOSPC))
            else
              let l := wr_account copied bytes l in
              if l_status l <? 0 then Some (WrBreak s l)
              else
                Some (WrNext s
                        (if hole_fill
                         then
                           let l := set_l_update_log true l in
                           if l_begin_tail l =? 0
                           then set_l_begin_tail (curr_entry (l_update l)) l else l
                         else l))
      end
  end.

Lemma inplace_body_rest alloc csum_of fuel s u ep time l :
  inplace_body alloc csum_of fuel s u ep time l
  = inplace_rest alloc csum_of fuel s u ep time l
      (nova_check_existing_entry s (l_num_blocks l)
         (Z.shiftr (l_pos l) s_blocksize_bits) true ep).
Proof. reflexivity. Qed.

Lemma check_existing_covered s nb pg ep c :
  sih_tree s !! pg = Some c -> c <> 0 ->
  pgoff (entry_at s c) <= pg < pgoff (entry_at s c) + num_pages (entry_at s c) ->
  0 <= pgoff (entry_at s c) -> num_pages (entry_at s c) < 2 ^ 63 -> 0 < nb ->
  nova_check_existing_entry s nb pg true ep
  = (Z.min (chunk_pages (entry_at s c) pg) nb, c, epoch_id (entry_at s c) =? ep).
Proof.
  intros Ht Hc Hcov Hpg Hnp Hnb. unfold nova_check_existing_entry, nova_get_write_entry.
  rewrite Ht. simpl. assert ((c =? 0) = false) as -> by lia. simpl.
  unfold chunk_pages. f_equal. f_equal.
  destruct (reassigned (entry_at s c) =? 0).
  - rewrite (ulong_small (pg - _)) by lia. rewrite ulong_small by lia.
    destruct (Z.gtb_spec (num_pages (entry_at s c) - (pg - pgoff (entry_at s c))) nb); lia.
  - destruct (Z.gtb_spec 1 nb); lia.
Qed.

(** An entry that an in-place run leaves in place: the extent, the
    epoch and the [reassigned] mark are as before. *)
Definition kept (e0 e : nova_file_write_entry) : Prop :=
  same_place e0 e /\ reassigned e = reassigned e0.

Definition log_keep (l0 l : gmap Z nova_file_write_entry) : Prop :=
  forall p, match l0 !! p, l !! p with
            | Some e0, Some e => kept e0 e
            | None, None => True
            | _, _ => False
            end.

Lemma kept_refl e : kept e e.
Proof. split; [apply same_place_refl | done]. Qed.

Lemma kept_trans e1 e2 e3 : kept e1 e2 -> kept e2 e3 -> kept e1 e3.
Proof. intros [A1 A2] [B1 B2]. split; [by eapply same_place_trans | congruence]. Qed.

Lemma log_keep_refl l : log_keep l l.
Proof. intros p. destruct (l !! p); [apply kept_refl | done]. Qed.

Lemma log_keep_trans l1 l2 l3 : log_keep l1 l2 -> log_keep l2 l3 -> log_keep l1 l3.
Proof.
  intros H1 H2 p. specialize (H1 p). specialize (H2 p).
  destruct (l1 !! p), (l2 !! p), (l3 !! p); try done.
  by eapply kept_trans.
Qed.

Lemma log_keep_insert l p e0 e :
  l !! p = Some e0 -> kept e0 e -> log_keep l (<[p := e]> l).
Proof.
  intros Hl Hk q. destruct (decide (q = p)) as [-> | Hne].
  - by rewrite Hl, lookup_insert_eq.
  - rewrite lookup_insert_ne by done. destruct (l !! q); [apply kept_refl | done].
Qed.

(** What an in-place run leaves alone. *)
Record kept_state (s s' : nova_state) : Prop := {
  ks_free : free_blocks s' = free_blocks s;
  ks_tree : sih_tree s' = sih_tree s;
  ks_tail : sih_log_tail s' = sih_log_tail s;
  ks_alter : sih_alter_log_tail s' = sih_alter_log_tail s;
  ks_pages : log_pages s' = log_pages s;
  ks_isize : i_size s' = i_size s;
  ks_blk : sih_i_blk_type s' = sih_i_blk_type s;
  ks_conf : same_conf s s';
  ks_log : log_keep (log s) (log s')
}.

Lemma kept_state_refl s : kept_state s s.
Proof. split; try done. apply log_keep_refl. Qed.

Lemma kept_state_trans s1 s2 s3 : kept_state s1 s2 -> kept_state s2 s3 -> kept_state s1 s3.
Proof.
  intros [] []. split; try congruence.
  - destruct ks_conf0 as (? & ? & ?), ks_conf1 as (? & ? & ?).
    unfold same_conf. repeat split; congruence.
  - by eapply log_keep_trans.
Qed.

Lemma kept_state_set_updating s entry v :
  kept_state s (nova_set_write_entry_updating s entry v)
  /\ pmem (nova_set_write_entry_updating s entry v) = pmem s
  /\ trace (nova_set_write_entry_updating s entry v) = trace s.
Proof.
  unfold nova_set_write_entry_updating.
  destruct (log s !! entry) as [e0 |] eqn:E; [| by split; [apply kept_state_refl |]].
  split; [| done]. split; try done. simpl.
  apply (log_keep_insert _ _ e0); [done |]. by repeat split.
Qed.

Lemma kept_state_inplace_update s entry sz :
  kept_state s (nova_inplace_update_write_entry s entry (epoch_id (entry_at s entry)) sz)
  /\ pmem (nova_inplace_update_write_entry s entry (epoch_id (entry_at s entry)) sz) = pmem s
  /\ grows quiet_event s
       (nova_inplace_update_write_entry s entry (epoch_id (entry_at s entry)) sz).
Proof.
  unfold nova_inplace_update_write_entry, entry_at.
  destruct (log s !! entry) as [e0 |] eqn:E; simpl.
  - split; [| split; [done | by eapply (grows_emit _ (EvInplaceUpdate entry))]].
    split; try done. simpl.
    apply (log_keep_insert _ _ e0); [done |]. by repeat split.
  - split; [| split; [done | by eapply (grows_emit _ (EvInplaceUpdate entry))]].
    split; try done. apply log_keep_refl.
Qed.

Lemma wr_account_full copied l :
  0 < copied -> wr_account copied copied l = l_advance copied l.
Proof.
  intros H. unfold wr_account.
  assert ((copied >? 0) = true) as -> by lia.
  by rewrite Z.eqb_refl.
Qed.

Lemma wr_account_short_status copied bytes l :
  0 <= copied < bytes -> l_status (wr_account copied bytes l) < 0.
Proof.
  intros H. unfold wr_account.
  assert ((copied =? bytes) = false) as -> by lia. cbv [negb].
  destruct (Z.gtb_spec copied 0).
  - simpl. assert ((copied >=? 0) = true) as -> by lia. simpl. unfold EFAULT. lia.
  - destruct (Z.geb_spec (l_status l) 0); simpl; unfold EFAULT; lia.
Qed.

Section InplaceRun.

Variable alloc : allocator.
Variable csum_of : list byte -> Z.
Variables (s : nova_state) (u : ubuf) (ep time : Z) (l : wr_locals) (c : Z).

Hypothesis Halloc : alloc_sound alloc.
Hypothesis Hblk : sih_i_blk_type s = 0.
Hypothesis Hpos : 0 <= l_pos l.
Hypothesis Hcount : 0 < l_count l.
Hypothesis Hnum : 0 < l_num_blocks l <= 2 ^ 50.

Let pg := l_pos l / 4096.
Let off := l_pos l mod 4096.
Let e := entry_at s c.

Hypothesis Htree : sih_tree s !! pg = Some c.
Hypothesis Hc : c <> 0.
Hypothesis Hcov : pgoff e <= pg < pgoff e + num_pages e.
Hypothesis Hpgoff : 0 <= pgoff e.
Hypothesis Hnp : num_pages e < 2 ^ 63.

Let ent_blks := Z.min (chunk_pages e pg) (l_num_blocks l).

Lemma ent_blks_range : 1 <= ent_blks <= 2 ^ 50.
Proof.
  unfold ent_blks, chunk_pages. destruct (reassigned e =? 0); lia.
Qed.

Lemma inplace_body_covered fuel :
  inplace_body alloc csum_of fuel s u ep time l
  = inplace_rest alloc csum_of fuel s u ep time l (ent_blks, c, epoch_id e =? ep).
Proof.
  rewrite inplace_body_rest, shiftr_blocksize_bits. fold pg.
  rewrite (check_existing_covered s _ pg ep c) by (done || lia). done.
Qed.

Let blk := get_nvmm e pg.
Let run_bytes (n : Z) := Z.min (4096 * n - off) (l_count l).

Lemma wr_bytes_run n : 1 <= n <= 2 ^ 50 -> wr_bytes n off (l_count l) = run_bytes n.
Proof.
  intros Hn. unfold wr_bytes, run_bytes. cbv zeta.
  rewrite ulong_small by (unfold s_blocksize, off; lia).
  unfold s_blocksize. destruct (Z.gtb_spec (4096 * n - off) (l_count l)); lia.
Qed.

(** The run on an entry of the writer's epoch: the bytes go into the
    blocks of the entry, nothing is allocated or appended. *)
Lemma inplace_same_epoch_effect fuel r :
  epoch_id e = ep ->
  inplace_body alloc csum_of fuel s u ep time l = Some r ->
  let bytes := run_bytes ent_blks in
  let copied := user_copy_ok u (l_buf l) bytes in
  let l1 := set_l_alloc blk ent_blks l in
  kept_state s (wr_state r)
  /\ grows quiet_event s (wr_state r)
  /\ pmem (wr_state r) = mem_store (pmem s) (blk * 4096 + off) (ub_byte u) (l_buf l) copied
  /\ match r with
     | WrOut _ l' ret => l' = l1
     | WrBreak _ l' => copied < bytes /\ l' = wr_account copied bytes l1
     | WrNext _ l' => copied = bytes /\ l' = l_advance bytes l1
     end.
Proof.
  intros Hep Hbody bytes copied l1. revert Hbody. rewrite inplace_body_covered.
  unfold inplace_rest. cbv zeta.
  rewrite (land_blk_size_4k s) by done. rewrite shiftr_blocksize_bits. fold pg off.
  assert ((epoch_id e =? ep) = true) as -> by lia.
  unfold inplace_arm. assert ((c =? 0) = false) as -> by lia. simpl andb. cbv iota.
  fold e blk. cbv zeta.
  match goal with |- context [if ?cnd then nova_set_write_entry_updating s c 1 else s] =>
    set (s1 := if cnd then nova_set_write_entry_updating s c 1 else s) end.
  assert (kept_state s s1 /\ pmem s1 = pmem s /\ trace s1 = trace s) as (Hk1 & Hm1 & Ht1).
  { subst s1. destruct (_ || _); [apply kept_state_set_updating |].
    split; [apply kept_state_refl | done]. }
  fold l1.
  change (l_allocated l1) with ent_blks. change (l_count l1) with (l_count l).
  pose proof ent_blks_range as Hent.
  rewrite wr_bytes_run by done.
  fold bytes.
  assert (0 < bytes) as Hb0 by (unfold bytes, run_bytes, off; lia).
  unfold wr_copy_in. simpl andb. cbv iota. unfold memcpy_to_pmem_nocache. cbv zeta.
  change (l_buf l1) with (l_buf l).
  fold copied.
  replace (bytes - (bytes - copied)) with copied by lia.
  unfold nova_get_block. rewrite shiftl_page.
  set (s2 := set_pmem _ s1).
  assert (kept_state s s2
          /\ pmem s2 = mem_store (pmem s) (blk * 4096 + off) (ub_byte u) (l_buf l) copied
          /\ trace s2 = trace s) as (Hk2 & Hm2 & Ht2).
  { subst s2. split; [| split; [simpl; by rewrite Hm1 | done]].
    destruct Hk1. by split. }
  clearbody s2. clear s1 Hk1 Hm1 Ht1.
  destruct (wr_protect _ _ _ _ _ _ _) as [[s3 ret] |] eqn:Ep; [| done].
  pose proof (trace_wr_protect _ _ _ _ _ _ _ _ _ Ep) as Ht3.
  apply wr_protect_eq in Ep as [cs ->].
  assert (kept_state s (set_csums cs s2)) as Hk3 by (destruct Hk2; by split).
  destruct (negb (ret =? 0)).
  { intros [= <-]. simpl. split; [done |]. split; [apply grows_same; congruence |]. done. }
  cbv beta iota.
  assert (0 <= copied <= bytes) as Hcb by (unfold copied, user_copy_ok; lia).
  set (s4 := nova_inplace_update_write_entry _ _ _ _).
  assert (kept_state s s4 /\ grows quiet_event s s4 /\ pmem s4 = pmem s2) as (Hk4 & Hg4 & Hm4).
  { assert (ep = epoch_id (entry_at (set_csums cs s2) c)) as Hep'.
    { rewrite <- Hep. pose proof (ks_log _ _ Hk3 c) as Hl. unfold e, entry_at.
      destruct (log s !! c), (log (set_csums cs s2) !! c); simpl; try done.
      destruct Hl as [(_ & _ & _ & _ & H & _) _]. congruence. }
    subst s4. rewrite Hep'.
    match goal with |- context [nova_inplace_update_write_entry ?a ?b _ ?d] =>
      destruct (kept_state_inplace_update a b d) as (K & M & G) end.
    split; [by eapply kept_state_trans |]. split; [| by rewrite M].
    eapply grows_trans; [| exact G]. apply grows_same. simpl in *. congruence. }
  clearbody s4. simpl negb. cbv iota.
  destruct (Z.eq_dec copied bytes) as [Heq | Hne].
  - assert (wr_account copied bytes l1 = l_advance bytes l1) as ->
      by (rewrite Heq; apply wr_account_full; lia).
    simpl l_status.
    assert ((bytes <? 0) = false) as -> by lia.
    intros [= <-]. cbn [wr_state]. rewrite Hm4, Hm2. done.
  - pose proof (wr_account_short_status copied bytes l1 ltac:(lia)) as Hst.
    assert ((l_status (wr_account copied bytes l1) <? 0) = true) as -> by lia.
    intros [= <-]. cbn [wr_state]. rewrite Hm4, Hm2.
    split; [done |]. split; [done |]. split; [done |]. split; [lia | done].
Qed.

End InplaceRun.

(** ** A run that fills a hole *)

(** What a hole-fill run leaves alone: all but the free blocks, the
    memory of the new blocks, the log and the checksums. *)
Record filled (s : nova_state) (a b : Z) (s' : nova_state) : Prop := {
  fl_free : free_blocks s' = free_blocks s ∖ blocks b a;
  fl_tree : sih_tree s' = sih_tree s;
  fl_tail : sih_log_tail s' = sih_log_tail s;
  fl_alter : sih_alter_log_tail s' = sih_alter_log_tail s;
  fl_pages : log_pages s' = log_pages s;
  fl_isize : i_size s' = i_size s;
  fl_blk : sih_i_blk_type s' = sih_i_blk_type s;
  fl_conf : same_conf s s';
  fl_frame : forall x, x / 4096 ∉ blocks b a -> pmem s' x = pmem s x
}.

(** The entry of the run is in the log at the slot after the tail of
    the transaction. *)
Definition appended (s : nova_state) (l : wr_locals) (entry : nova_file_write_entry)
    (s' : nova_state) (upd : nova_inode_update) : Prop :=
  let c := slot_of s (tail (l_update l)) in
  c <> 0 /\ tail (l_update l) <> 0
  /\ log s' = <[c := entry]> (log s)
  /\ upd = {| tail := c + entry_size; alter_tail := alter_tail (l_update l);
              curr_entry := c |}.

(** The locals when a hole-fill run is done and the loop goes on. *)
Definition fill_next (l : wr_locals) : wr_locals :=
  let l := set_l_update_log true l in
  if l_begin_tail l =? 0 then set_l_begin_tail (curr_entry (l_update l)) l else l.

Section FillRun.

Variable alloc : allocator.
Variable csum_of : list byte -> Z.
Variables (s : nova_state) (u : ubuf) (ep time : Z) (l : wr_locals).
Variables (n entry : Z) (inplace : bool).

Hypothesis Halloc : alloc_sound alloc.
Hypothesis Hblk : sih_i_blk_type s = 0.
Hypothesis Hpos : 0 <= l_pos l.
Hypothesis Hcount : 0 < l_count l.
Hypothesis Hn : n <= 2 ^ 50.
Hypothesis Hfill : negb (entry =? 0) && inplace = false.

Let pg := l_pos l / 4096.
Let off := l_pos l mod 4096.

Lemma fill_effect fuel r :
  inplace_rest alloc csum_of fuel s u ep time l (n, entry, inplace) = Some r ->
  exists a b,
    alloc (free_blocks s) pg n = (a, b)
    /\ ((a <= 0 /\ r = WrOut (emit (EvAllocFail a) s) (set_l_alloc (l_blocknr l) a l) a)
        \/ (0 < a <= n /\ 0 < b /\ blocks b a ⊆ free_blocks s
            /\ let bytes := Z.min (4096 * a - off) (l_count l) in
               let copied := user_copy_ok u (l_buf l) bytes in
               let l1 := set_l_alloc b a l in
               let entry_data := nova_init_file_write_entry ep pg a b time
                                   (wr_file_size s (l_pos l) copied) in
               filled s a b (wr_state r)
               /\ (forall k, 0 <= k < copied ->
                     pmem (wr_state r) (b * 4096 + off + k) = ub_byte u (l_buf l + k))
               /\ match r with
                  | WrOut s' l' ret => ret <= 0 /\ l' = l1 /\ log s' = log s
                  | WrBreak s' l' =>
                      copied < bytes
                      /\ exists upd, appended s l entry_data s' upd
                                     /\ l' = wr_account copied bytes (set_l_update upd l1)
                  | WrNext s' l' =>
                      copied = bytes
                      /\ exists upd, appended s l entry_data s' upd
                                     /\ l' = fill_next (l_advance bytes (set_l_update upd l1))
                  end)).
Proof.
  unfold inplace_rest. cbv zeta.
  rewrite (land_blk_size_4k s) by done. rewrite shiftr_blocksize_bits. fold pg off.
  unfold inplace_arm. rewrite Hfill.
  destruct (nova_new_data_blocks _ _ _ _ _) as [[s1 b] a] eqn:Ea.
  apply new_data_blocks_eq in Ea as [Hal Es1].
  destruct (Z.leb_spec a 0) as [Hle | Hgt].
  { assert ((a >? 0) = false) as Ha by lia. rewrite Ha in Es1, Hal. destruct Es1 as [-> ->].
    intros [= <-]. eexists a, _. split; [exact Hal |]. left. done. }
  assert ((a >? 0) = true) as Ha by lia. rewrite Ha in Hal, Es1.
  destruct (Halloc _ _ _ _ _ Hal Hgt) as (Han & Hbpos & Hbfree).
  intros Hbody. exists a, b. split; [done |]. right.
  split; [lia |]. split; [done |]. split; [done |].
  set (bytes := Z.min (4096 * a - off) (l_count l)).
  set (copied := user_copy_ok u (l_buf l) bytes).
  set (l1 := set_l_alloc b a l).
  set (entry_data := nova_init_file_write_entry ep pg a b time
                       (wr_file_size s (l_pos l) copied)).
  revert Hbody.
  rewrite get_block_off_eq. fold l1.
  change (l_allocated l1) with a. change (l_count l1) with (l_count l).
  assert (wr_bytes a off (l_count l) = bytes) as ->.
  { unfold wr_bytes. cbv zeta. rewrite ulong_small by (unfold s_blocksize, off; lia).
    unfold s_blocksize, bytes. destruct (Z.gtb_spec (4096 * a - off) (l_count l)); lia. }
  assert (0 < bytes /\ off + bytes <= 4096 * a) as [Hb0 Hfit] by (unfold bytes, off; lia).
  destruct (wr_copy_in _ _ _ _ _ _ _) as [s2 copied'] eqn:Ec.
  pose proof (wr_copy_in_eq _ _ _ _ _ _ _ _ _ Ec) as [[m Es2] _].
  assert (sih_i_blk_type s1 = 0) as Hblk1 by (by subst s1).
  destruct (run_copy_data s1 (l_pos l) bytes b a Hblk1 Hpos Hb0 Hfit ltac:(lia)
              u l1 true s2 copied' eq_refl Ec) as (Hcopied & Hdata & Hframe).
  fold off in Hdata, Hframe. change (l_buf l1) with (l_buf l) in Hcopied, Hdata.
  fold copied in Hcopied. subst copied'.
  assert (0 <= copied <= bytes) as Hcb by (unfold copied, user_copy_ok; lia).
  pose proof (head_tail_nb (l_pos l) bytes a Hb0 Hfit) as Hnbr. fold off in Hnbr.
  assert (forall x, x / 4096 ∉ blocks b a -> pmem s2 x = pmem s x) as Hframe'.
  { intros x Hx. rewrite Hframe; [by subst s1 |].
    rewrite elem_of_blocks in Hx. lia. }
  clear Hframe Ec.
  destruct (wr_protect _ _ _ _ _ _ _) as [[s3 ret] |] eqn:Ep; [| done].
  pose proof (wr_protect_ret _ _ _ _ _ _ _ _ _ Ep) as Hret.
  apply wr_protect_eq in Ep as [cs Es3].
  assert (filled s a b s3 /\ pmem s3 = pmem s2 /\ log s3 = log s /\ i_size s3 = i_size s
          /\ log_pages s3 = log_pages s)
    as (Hf3 & Hm3 & Hl3 & Hi3 & Hp3).
  { subst s3 s2 s1. split; [| done]. split; try done. }
  assert (forall s', pmem s' = pmem s3 ->
            forall k, 0 <= k < copied ->
                      pmem s' (b * 4096 + off + k) = ub_byte u (l_buf l + k)) as Hwin.
  { intros s' -> k Hk. rewrite Hm3, Hdata by lia. f_equal. lia. }
  clear Hdata.
  destruct (Z.eqb_spec ret 0) as [-> | Hrne]; cbv [negb].
  2:{ intros [= <-]. cbn [wr_state]. split; [done |]. split; [by apply Hwin |]. done. }
  destruct (wr_append _ _ _ _ _ _) as [[s4 l4] ret4] eqn:Eapp.
  apply wr_append_eq in Eapp
    as [(-> & c & e & Hcne & He & Es4 & El4 & Hc' & Htne) | (-> & Es4 & ->)].
  2:{ simpl negb. cbv iota. intros [= <-]. cbn [wr_state].
      assert (filled s a b s4) as Hf4 by (destruct Hf3; subst s4; by split).
      split; [done |]. split; [apply Hwin; by subst s4 |].
      split; [unfold ENOSPC; lia |]. split; [done |]. by subst s4. }
  simpl negb. cbv iota.
  change (l_allocated l1) with a in He. change (l_blocknr l1) with b in He.
  change (l_pos l1) with (l_pos l) in He. change (l_update l1) with (l_update l) in El4, Hc', Htne.
  assert (filled s a b s4 /\ pmem s4 = pmem s3) as (Hf4 & Hm4)
    by (destruct Hf3; subst s4; split; [by split | done]).
  assert (appended s l entry_data s4
            {| tail := c + entry_size; alter_tail := alter_tail (l_update l);
               curr_entry := c |}) as Happ.
  { assert (c = slot_of s (tail (l_update l))) as Hcs.
    { rewrite Hc'. unfold slot_of, next_log_page. by rewrite Hp3. }
    unfold appended. cbv zeta. rewrite <- Hcs. split; [done |]. split; [done |].
    split; [| done]. subst s4. simpl. rewrite Hl3, He.
    unfold entry_data, wr_file_size. by rewrite Hi3. }
  subst l4.
  destruct (Z.eq_dec copied bytes) as [Heq | Hneq].
  - assert (wr_account copied bytes (set_l_update {| tail := c + entry_size;
               alter_tail := alter_tail (l_update l); curr_entry := c |} l1)
            = l_advance bytes (set_l_update {| tail := c + entry_size;
               alter_tail := alter_tail (l_update l); curr_entry := c |} l1)) as ->
      by (rewrite Heq; apply wr_account_full; lia).
    simpl l_status. assert ((bytes <? 0) = false) as -> by lia.
    intros [= <-]. cbn [wr_state].
    split; [done |]. split; [by apply Hwin |]. split; [done |].
    eexists. split; [exact Happ | done].
  - match goal with |- context [wr_account copied bytes ?x] =>
      pose proof (wr_account_short_status copied bytes x ltac:(lia)) as Hst end.
    match goal with |- context [l_status ?x <? 0] =>
      assert ((l_status x <? 0) = true) as -> by lia end.
    intros [= <-]. cbn [wr_state].
    split; [done |]. split; [by apply Hwin |]. split; [lia |].
    eexists. split; [exact Happ | done].
Qed.

End FillRun.

(** ** In place or hole fill: the epoch decides *)

(** C3. A run of the in-place writer that starts on a page covered by an
    existing write-entry: when the entry's epoch is the writer's, the bytes
    are stored into the blocks of the entry and nothing is allocated,
    appended or re-indexed; when the epochs differ, the run asks the
    allocator for fresh blocks, stores the bytes there, and every block that
    was not free (the blocks of the old entry among them) keeps its
    contents, the index is unchanged and the old entry stays in the log. *)
Theorem inplace_run_overwrites_iff_same_epoch
    (alloc : allocator) (csum_of : list byte -> Z) (fuel : nat) (s : nova_state)
    (u : ubuf) (ep time : Z) (l : wr_locals) (c : Z) (r : wr_res) :
  alloc_sound alloc ->
  sih_i_blk_type s = 0 ->
  0 <= l_pos l -> 0 < l_count l -> 0 < l_num_blocks l <= 2 ^ 50 ->
  sih_tree s !! (l_pos l / 4096) = Some c -> c <> 0 ->
  pgoff (entry_at s c) <= l_pos l / 4096 < pgoff (entry_at s c) + num_pages (entry_at s c) ->
  0 <= pgoff (entry_at s c) -> num_pages (entry_at s c) < 2 ^ 63 ->
  inplace_body alloc csum_of fuel s u ep time l = Some r ->
  let e := entry_at s c in
  let pg := l_pos l / 4096 in
  let off := l_pos l mod 4096 in
  let ent_blks := Z.min (chunk_pages e pg) (l_num_blocks l) in
  (epoch_id e = ep ->
     kept_state s (wr_state r)
     /\ grows quiet_event s (wr_state r)
     /\ pmem (wr_state r)
        = mem_store (pmem s) (get_nvmm e pg * 4096 + off) (ub_byte u) (l_buf l)
            (user_copy_ok u (l_buf l) (Z.min (4096 * ent_blks - off) (l_count l))))
  /\ (epoch_id e <> ep ->
      exists a b,
        alloc (free_blocks s) pg ent_blks = (a, b)
        /\ ((a <= 0
             /\ r = WrOut (emit (EvAllocFail a) s) (set_l_alloc (l_blocknr l) a l) a)
            \/ (0 < a
                /\ filled s a b (wr_state r)
                /\ (forall k,
                      0 <= k < user_copy_ok u (l_buf l) (Z.min (4096 * a - off) (l_count l)) ->
                      pmem (wr_state r) (b * 4096 + off + k) = ub_byte u (l_buf l + k))
                /\ (forall x, x / 4096 ∉ free_blocks s -> pmem (wr_state r) x = pmem s x)
                /\ (c <> slot_of s (tail (l_update l)) ->
                    log (wr_state r) !! c = log s !! c)))).
Proof.
  intros Halloc Hblk Hpos Hcount Hnum Htree Hc Hcov Hpgoff Hnp Hbody e pg off ent_blks.
  split.
  - intros Hep.
    edestruct (inplace_same_epoch_effect alloc csum_of s u ep time l c) as (Hk & Hg & Hm & _);
      eauto.
  - intros Hep. revert Hbody.
    rewrite (inplace_body_covered alloc csum_of s u ep time l c) by done.
    assert ((epoch_id (entry_at s c) =? ep) = false) as -> by (fold e; lia).
    intros Hbody.
    assert (1 <= ent_blks <= 2 ^ 50) as Hent by (by apply ent_blks_range).
    edestruct (fill_effect alloc csum_of s u ep time l ent_blks c false)
      as (a & b & Hal & [Hfail | (Ha & Hb & Hsub & Hf & Hdata & Hr)]);
      [try done; try lia; by rewrite ?andb_false_r .. | |].
    + exists a, b. split; [done |]. by left.
    + exists a, b. split; [done |]. right. split; [lia |]. split; [done |].
      split; [done |]. split.
      * intros x Hx. apply (fl_frame _ _ _ _ Hf). intros Hin. by apply Hsub in Hin.
      * intros Hslot. destruct r as [s' l' | s' l' | s' l' ret]; cbn [wr_state] in *.
        -- destruct Hr as (_ & upd & (_ & _ & -> & _) & _). by rewrite lookup_insert_ne.
        -- destruct Hr as (_ & upd & (_ & _ & -> & _) & _). by rewrite lookup_insert_ne.
        -- by destruct Hr as (_ & _ & ->).
Qed.

Lemma inplace_run_overwrites_iff_same_epoch_witness :
  exists r,
    inplace_body ex_alloc byte_sum 8 ex_block_A_later (ex_user x42 20) 8 1001
      (wr_init ex_block_A_later 10 20 1) = Some r
    /\ ((epoch_id (entry_at ex_block_A_later 8192) = 8 ->
         kept_state ex_block_A_later (wr_state r)
         /\ grows quiet_event ex_block_A_later (wr_state r)
         /\ pmem (wr_state r)
            = mem_store (pmem ex_block_A_later)
                (get_nvmm (entry_at ex_block_A_later 8192) (10 / 4096) * 4096 + 10 mod 4096)
                (ub_byte (ex_user x42 20)) 0
                (user_copy_ok (ex_user x42 20) 0
                   (Z.min (4096 * Z.min (chunk_pages (entry_at ex_block_A_later 8192)
                                           (10 / 4096)) 1 - 10 mod 4096) 20)))
        /\ (epoch_id (entry_at ex_block_A_later 8192) <> 8 ->
            exists a b,
              ex_alloc (free_blocks ex_block_A_later) (10 / 4096)
                (Z.min (chunk_pages (entry_at ex_block_A_later 8192) (10 / 4096)) 1) = (a, b)
              /\ ((a <= 0
                   /\ r = WrOut (emit (EvAllocFail a) ex_block_A_later)
                            (set_l_alloc 0 a (wr_init ex_block_A_later 10 20 1)) a)
                  \/ (0 < a
                      /\ filled ex_block_A_later a b (wr_state r)
                      /\ (forall k,
                            0 <= k < user_copy_ok (ex_user x42 20) 0
                                       (Z.min (4096 * a - 10 mod 4096) 20) ->
                            pmem (wr_state r) (b * 4096 + 10 mod 4096 + k)
                            = ub_byte (ex_user x42 20) (0 + k))
                      /\ (forall x, x / 4096 ∉ free_blocks ex_block_A_later ->
                                    pmem (wr_state r) x = pmem ex_block_A_later x)
                      /\ (8192 <> slot_of ex_block_A_later 8256 ->
                          log (wr_state r) !! 8192 = log ex_block_A_later !! 8192)))))
    /\ wr_view (nova_inplace_file_write ex_alloc byte_sum 8 ex_block_A ex_file
                  (ex_user x42 20) 20 10 true)
       = Some (20, 30, 8256, 4096, [(0, 8192)], [EvLock; EvInplaceUpdate 8192; EvUnlock])
    /\ wr_view (nova_inplace_file_write ex_alloc byte_sum 8 ex_block_A_later ex_file
                  (ex_user x42 20) 20 10 true)
       = Some (20, 30, 8320, 4096, [(0, 8256)],
               [EvLock; EvAlloc 17 1; EvAppend 8256; EvUpdateInode 8320; EvReassign 8256;
                EvFree 16 1; EvUnlock]).
Proof.
  destruct (some_result (inplace_body ex_alloc byte_sum 8 ex_block_A_later (ex_user x42 20)
                           8 1001 (wr_init ex_block_A_later 10 20 1))) as [r E];
    [vm_compute; reflexivity |].
  exists r. split; [exact E |]. split; [| split; vm_compute; reflexivity].
  apply (inplace_run_overwrites_iff_same_epoch ex_alloc byte_sum 8 ex_block_A_later
           (ex_user x42 20) 8 1001 (wr_init ex_block_A_later 10 20 1) 8192 r).
  - apply first_fit_sound. lia.
  - reflexivity.
  - simpl. lia.
  - simpl. lia.
  - simpl. lia.
  - reflexivity.
  - lia.
  - vm_compute. split; [discriminate | reflexivity].
  - vm_compute. discriminate.
  - vm_compute. reflexivity.
  - exact E.
Defined.

(** ** The loop invariant of the in-place writer *)

(** The index of a consistent file: an indexed page belongs to a committed
    entry that covers it and whose block for the page is allocated; an
    entry not marked [reassigned] still owns all its pages; the entry does
    not sit in one of the [n] log slots after the committed tail. *)
Definition index_wf (s : nova_state) (n : nat) : Prop :=
  forall pg c, sih_tree s !! pg = Some c -> c <> 0 ->
    exists e, (log s !! c = Some e)
      /\ (0 <= pgoff e <= pg) /\ pg < pgoff e + num_pages e /\ num_pages e <= 2 ^ 50
      /\ (reassigned e = 0 ->
          forall pg', pgoff e <= pg' < pgoff e + num_pages e -> sih_tree s !! pg' = Some c)
      /\ (get_nvmm e pg ∉ free_blocks s)
      /\ (c + entry_size ∉ log_chain s (sih_log_tail s) n).

(** No two indexed pages share a block. *)
Definition index_inj (s : nova_state) : Prop :=
  forall pg1 pg2 c1 c2,
    sih_tree s !! pg1 = Some c1 -> sih_tree s !! pg2 = Some c2 -> c1 <> 0 -> c2 <> 0 ->
    get_nvmm (entry_at s c1) pg1 = get_nvmm (entry_at s c2) pg2 -> pg1 = pg2.

(** The slots of a walk are in the chain, and the next slot is a new one. *)
Lemma log_walk_in_chain s p cs q n c :
  log_walk s p cs q -> (length cs <= n)%nat -> c ∈ cs ->
  c + entry_size ∈ log_chain s p n.
Proof.
  intros Hw Hn Hc. destruct (log_walk_chain s p cs q n Hw Hn) as [rest ->].
  apply elem_of_app. left. apply list_elem_of_fmap. by exists c.
Qed.

Lemma log_walk_fresh s p cs q n c :
  log_walk s p cs q -> c = slot_of s q -> c <> 0 -> (length cs < n)%nat ->
  NoDup (slot_of s p :: log_chain s p n) -> c ∉ cs.
Proof.
  intros Hw Hc Hne Hn Hchain.
  pose proof (log_walk_snoc s p cs q c Hw Hc Hne) as Hw'.
  pose proof (log_walk_nodup s p _ _ n Hw') as Hnd.
  rewrite length_app in Hnd. simpl in Hnd. specialize (Hnd ltac:(lia) Hchain).
  apply NoDup_cons in Hnd as [_ Hnd].
  apply (NoDup_fmap_1 (fun c => c + entry_size)) in Hnd.
  apply NoDup_app in Hnd as (_ & Hdisj & _).
  intros Hin. apply (Hdisj c Hin). apply list_elem_of_here.
Qed.

(** A page without an entry: the run is a hole fill of at most the
    remaining blocks. *)
Lemma check_existing_hole s nb pg ep :
  nova_get_write_entry s pg = 0 -> 0 < nb ->
  exists n, nova_check_existing_entry s nb pg true ep = (n, 0, false) /\ n <= nb.
Proof.
  intros H0 Hnb. unfold nova_check_existing_entry. rewrite H0. simpl.
  destruct (negb (nova_find_next_entry s pg =? 0)); [| by exists nb].
  destruct (_ <=? pg); [by exists nb |].
  match goal with |- context [if ?x >? nb then _ else _] =>
    destruct (Z.gtb_spec x nb); eexists; (split; [reflexivity | lia]) end.
Qed.

(** The runs of a call, each marked as a hole fill or not. *)
Definition fills (rs : list (bool * run)) : list run :=
  omap (fun r : bool * run => if fst r then Some (snd r) else None) rs.

Lemma fills_snoc rs k r :
  fills (rs ++ [(k, r)]) = fills rs ++ (if k then [r] else []).
Proof. unfold fills. rewrite omap_app. f_equal. by destruct k. Qed.

Lemma fills_in rs r : r ∈ fills rs <-> (true, r) ∈ rs.
Proof.
  unfold fills. rewrite list_elem_of_omap. split.
  - intros ([k r'] & Hin & Hk). simpl in Hk. destruct k; [| done]. by injection Hk as ->.
  - intros Hin. by exists (true, r).
Qed.

Lemma fills_length rs : (length (fills rs) <= length rs)%nat.
Proof.
  induction rs as [| [k r] rs IH]; simpl; [done |]. destruct k; simpl; lia.
Qed.

Section InplaceLoop.

Variable alloc : allocator.
Variable csum_of : list byte -> Z.
Variables (s0 : nova_state) (u : ubuf) (pos0 len ep time : Z).

Hypothesis Halloc : alloc_sound alloc.
Hypothesis Hblk : sih_i_blk_type s0 = 0.
Hypothesis Hwf : log_wf s0.
Hypothesis Hpos0 : 0 <= pos0.
Hypothesis Hlen : 0 < len.
Hypothesis Hmax : pos0 + len < 2 ^ 62.

Let first_pg := pos0 / 4096.
Let last_pg := (pos0 + len - 1) / 4096.
Let slots := Z.to_nat (last_pg + 1 - first_pg).

Hypothesis Hchain :
  NoDup (slot_of s0 (sih_log_tail s0) :: log_chain s0 (sih_log_tail s0) slots).
Hypothesis Hindex : index_wf s0 slots.
Hypothesis Hinj : index_inj s0.

(** A run that went in place: it lies in the blocks that the index gives
    the pages of the run, all of one entry, and it ends with the entry or
    with the write. *)
Definition in_place_run (r : run) : Prop :=
  r_slot r <> 0
  /\ (forall pg, r_pg r <= pg < r_pg r + r_n r -> sih_tree s0 !! pg = Some (r_slot r))
  /\ r_b r = get_nvmm (entry_at s0 (r_slot r)) (r_pg r)
  /\ (reassigned (entry_at s0 (r_slot r)) = 0 ->
      r_pg r + r_n r
      = Z.min (pgoff (entry_at s0 (r_slot r)) + num_pages (entry_at s0 (r_slot r)))
              (last_pg + 1))
  /\ (reassigned (entry_at s0 (r_slot r)) <> 0 -> r_n r = 1).

Record inplace_inv (s : nova_state) (l : wr_locals) (rs : list (bool * run)) : Prop := {
  ii_tree : sih_tree s = sih_tree s0;
  ii_tail : sih_log_tail s = sih_log_tail s0;
  ii_alter : sih_alter_log_tail s = sih_alter_log_tail s0;
  ii_pages : log_pages s = log_pages s0;
  ii_blk : sih_i_blk_type s = 0;
  ii_isize : i_size s = i_size s0;
  ii_conf : same_conf s0 s;
  ii_free : free_blocks s = free_blocks s0 ∖ run_blocks (fills rs);
  ii_sub : run_blocks (fills rs) ⊆ free_blocks s0;
  ii_walk : log_walk s0 (sih_log_tail s0) (map r_slot (fills rs)) (tail (l_update l));
  ii_log_fill : forall r, r ∈ fills rs ->
    exists e, log s !! r_slot r = Some e
              /\ same_place (nova_init_file_write_entry ep (r_pg r) (r_n r) (r_b r) time 0) e;
  ii_log_old : forall p, p ∉ map r_slot (fills rs) ->
    match log s0 !! p, log s !! p with
    | Some e0, Some e => kept e0 e
    | None, None => True
    | _, _ => False
    end;
  ii_from : runs_from first_pg (map snd rs);
  ii_end : runs_end first_pg (map snd rs) <= last_pg + 1;
  ii_content : forall r x, r ∈ map snd rs ->
    pos0 <= x < pos0 + len -> r_pg r * 4096 <= x < (r_pg r + r_n r) * 4096 ->
    pmem s (r_b r * 4096 + (x - r_pg r * 4096)) = ub_byte u (x - pos0);
  ii_old : forall r, (false, r) ∈ rs -> in_place_run r;
  ii_written : l_written l = Z.max 0 (Z.min len (runs_end first_pg (map snd rs) * 4096 - pos0));
  ii_pos : l_pos l = pos0 + l_written l;
  ii_count : l_count l = len - l_written l;
  ii_buf : l_buf l = l_written l;
  ii_nb : l_num_blocks l = last_pg + 1 - runs_end first_pg (map snd rs);
  ii_begin : l_begin_tail l = hd 0 (map r_slot (fills rs));
  ii_ulog : l_update_log l = false -> fills rs = []
}.

Lemma inplace_init s :
  sih_tree s = sih_tree s0 -> sih_log_tail s = sih_log_tail s0 ->
  sih_alter_log_tail s = sih_alter_log_tail s0 ->
  log_pages s = log_pages s0 -> sih_i_blk_type s = 0 -> i_size s = i_size s0 ->
  same_conf s0 s ->
  log s = log s0 -> pmem s = pmem s0 -> free_blocks s = free_blocks s0 ->
  inplace_inv s
    (wr_init s pos0 len (Z.shiftr (ulong (len + Z.land pos0 (s_blocksize - 1) - 1))
                           s_blocksize_bits + 1)) [].
Proof.
  intros Ht Htl Hal Hp Hb Hi Hc Hl Hm Hf.
  assert (runs_end first_pg [] = first_pg) as He by done.
  split; simpl; rewrite ?He; try done.
  - rewrite Hf. unfold run_blocks. simpl. by rewrite difference_empty_L.
  - intros r Hr. by apply elem_of_nil in Hr.
  - intros p _. rewrite Hl. destruct (log s0 !! p); [apply kept_refl | done].
  - unfold first_pg, last_pg. lia.
  - intros r x Hr. by apply elem_of_nil in Hr.
  - intros r Hr. by apply elem_of_nil in Hr.
  - unfold first_pg. lia.
  - lia.
  - lia.
  - rewrite land_blocksize, shiftr_blocksize_bits. rewrite ulong_small by lia.
    unfold first_pg, last_pg. lia.
Qed.

(** Arithmetic of the loop head. *)
Lemma inplace_inv_arith s l rs :
  inplace_inv s l rs -> l_num_blocks l > 0 ->
  let np := runs_end first_pg (map snd rs) in
  first_pg <= np <= last_pg
  /\ l_pos l / 4096 = np
  /\ l_pos l - l_pos l mod 4096 = np * 4096
  /\ 0 <= l_written l < len
  /\ 0 <= l_pos l /\ 0 < l_count l /\ 0 < l_num_blocks l <= 2 ^ 50
  /\ (length rs <= Z.to_nat (np - first_pg))%nat.
Proof.
  intros Hi Hnb. cbv zeta.
  pose proof (runs_end_ge _ _ (ii_from _ _ _ Hi)) as Hge. rewrite length_map in Hge.
  pose proof (ii_nb _ _ _ Hi) as Hn. pose proof (ii_written _ _ _ Hi) as Hw.
  pose proof (ii_pos _ _ _ Hi) as Hp. pose proof (ii_count _ _ _ Hi) as Hc.
  set (np := runs_end first_pg (map snd rs)) in *.
  assert (first_pg <= np <= last_pg) as Hnp by lia.
  assert (np * 4096 - pos0 < len) as Hlt by (unfold first_pg, last_pg in *; lia).
  assert (l_written l = Z.max 0 (np * 4096 - pos0)) as Hw' by lia.
  assert (l_pos l / 4096 = np /\ l_pos l - l_pos l mod 4096 = np * 4096) as [H1 H2].
  { rewrite Hp, Hw'. unfold first_pg, last_pg in *.
    destruct (Z.max_spec 0 (np * 4096 - pos0)) as [[? ->] | [? ->]]; lia. }
  assert (last_pg + 1 - first_pg <= 2 ^ 50) by (unfold first_pg, last_pg in *; lia).
  repeat split; try lia.
Qed.

Lemma get_nvmm_add e pg k : get_nvmm e (pg + k) = get_nvmm e pg + k.
Proof. unfold get_nvmm. lia. Qed.

Lemma kept_get_nvmm e0 e pg : kept e0 e -> get_nvmm e pg = get_nvmm e0 pg.
Proof. intros [(_ & Hp & _ & Hb & _) _]. unfold get_nvmm. by rewrite Hp, Hb. Qed.

Lemma kept_chunk_pages e0 e pg : kept e0 e -> chunk_pages e pg = chunk_pages e0 pg.
Proof.
  intros [(_ & Hp & Hn & _) Hr]. unfold chunk_pages. by rewrite Hp, Hn, Hr.
Qed.

(** The entry that the index of [s0] gives a page, as the loop sees it. *)
Lemma indexed_entry s l rs pg c :
  inplace_inv s l rs ->
  sih_tree s0 !! pg = Some c -> c <> 0 ->
  exists e0 e,
    log s0 !! c = Some e0 /\ log s !! c = Some e /\ kept e0 e
    /\ (0 <= pgoff e0 <= pg) /\ pg < pgoff e0 + num_pages e0 /\ num_pages e0 <= 2 ^ 50
    /\ (reassigned e0 = 0 ->
        forall pg', pgoff e0 <= pg' < pgoff e0 + num_pages e0 -> sih_tree s0 !! pg' = Some c)
    /\ (get_nvmm e0 pg ∉ free_blocks s0)
    /\ (c ∉ map r_slot (fills rs)).
Proof.
  intros Hi Ht Hc.
  destruct (Hindex pg c Ht Hc) as (e0 & Hl0 & Hpg & Hcov & Hnp & Hown & Hnf & Hfresh).
  assert (c ∉ map r_slot (fills rs)) as Hnin.
  { intros Hin. apply Hfresh.
    apply (log_walk_in_chain s0 _ _ _ _ _ (ii_walk _ _ _ Hi)); [| done].
    rewrite length_map.
    pose proof (runs_end_ge _ _ (ii_from _ _ _ Hi)) as Hge. rewrite length_map in Hge.
    pose proof (ii_end _ _ _ Hi). pose proof (fills_length rs). unfold slots. lia. }
  pose proof (ii_log_old _ _ _ Hi c Hnin) as Hold. rewrite Hl0 in Hold.
  destruct (log s !! c) as [e |] eqn:El; [| done].
  exists e0, e. done.
Qed.

(** The blocks of the earlier runs are not the blocks the index gives the
    pages from the end of the runs on. *)
Lemma earlier_blocks_apart s l rs r x q cq :
  inplace_inv s l rs -> r ∈ map snd rs ->
  r_pg r * 4096 <= x < (r_pg r + r_n r) * 4096 ->
  runs_end first_pg (map snd rs) <= q ->
  sih_tree s0 !! q = Some cq -> cq <> 0 ->
  (r_b r * 4096 + (x - r_pg r * 4096)) / 4096 <> get_nvmm (entry_at s0 cq) q.
Proof.
  intros Hi Hin Hx Hq Htq Hcq.
  destruct (Hindex q cq Htq Hcq) as (e1 & Hlq & _ & _ & _ & _ & Hnf & _).
  assert (entry_at s0 cq = e1) as Hent by (unfold entry_at; by rewrite Hlq).
  rewrite Hent.
  pose proof (runs_from_bounds _ _ _ (ii_from _ _ _ Hi) Hin) as (Hb1 & Hb2 & Hb3).
  apply list_elem_of_fmap in Hin as ([k r'] & -> & Hin). cbn [fst snd] in *.
  assert ((r_b r' * 4096 + (x - r_pg r' * 4096)) / 4096 = r_b r' + (x / 4096 - r_pg r'))
    as -> by lia.
  destruct k.
  - (* a hole fill: its blocks were free *)
    intros Heq. apply Hnf. rewrite <- Heq.
    apply (ii_sub _ _ _ Hi). apply elem_of_run_blocks. exists r'.
    split; [by apply fills_in | lia].
  - (* in place: another page of the index *)
    destruct (ii_old _ _ _ Hi r' Hin) as (Hs & Hpages & Hb & _).
    intros Heq.
    assert (x / 4096 = q); [| lia].
    apply (Hinj (x / 4096) q (r_slot r') cq); try done.
    + apply Hpages. lia.
    + rewrite Hent, <- Heq, Hb.
      replace (x / 4096) with (r_pg r' + (x / 4096 - r_pg r')) at 1 by lia.
      by rewrite get_nvmm_add.
Qed.

(** A run in place keeps the invariant. *)
Lemma inplace_step_same s l rs c fuel r :
  inplace_inv s l rs -> l_num_blocks l > 0 ->
  sih_tree s0 !! runs_end first_pg (map snd rs) = Some c -> c <> 0 ->
  epoch_id (entry_at s c) = ep ->
  inplace_body alloc csum_of fuel s u ep time l = Some r ->
  match r with
  | WrNext s' l' => exists rn, inplace_inv s' l' (rs ++ [(false, rn)])
  | WrBreak s' l' => 0 <= l_written l' < len
  | WrOut _ _ _ => True
  end.
Proof.
  intros Hi Hnb Ht Hc Hep Hbody.
  destruct (inplace_inv_arith _ _ _ Hi Hnb)
    as (Hnp & Hdiv & Hmod & Hw & Hpos & Hcount & Hnum & Hlen').
  cbv zeta in *. set (np := runs_end first_pg (map snd rs)) in *.
  destruct (indexed_entry s l rs np c Hi Ht Hc)
    as (e0 & e & Hl0 & Hl & Hk & Hpg & Hcov & Hnpg & Hown & Hnf & Hnin).
  assert (entry_at s c = e) as Hes by (unfold entry_at; by rewrite Hl).
  assert (entry_at s0 c = e0) as He0 by (unfold entry_at; by rewrite Hl0).
  pose proof Hk as [(_ & Hkp & Hkn & _) Hkr].
  set (off := l_pos l mod 4096) in *.
  set (n := Z.min (chunk_pages e np) (l_num_blocks l)).
  set (bytes := Z.min (4096 * n - off) (l_count l)).
  assert (1 <= n <= l_num_blocks l) as Hn.
  { subst n. unfold chunk_pages. rewrite Hkp, Hkn. destruct (reassigned e =? 0); lia. }
  pose proof (ii_written _ _ _ Hi) as Hwr. pose proof (ii_pos _ _ _ Hi) as Hp.
  pose proof (ii_count _ _ _ Hi) as Hcnt. pose proof (ii_buf _ _ _ Hi) as Hbuf.
  pose proof (ii_nb _ _ _ Hi) as Hnbv. fold np in Hwr, Hnbv.
  edestruct (inplace_same_epoch_effect alloc csum_of s u ep time l c)
    as (Hks & _ & Hm & Hr); [| | | | | | | | exact Hep | exact Hbody |].
  { apply Hi. } { done. } { done. } { rewrite Hdiv, (ii_tree _ _ _ Hi). exact Ht. }
  { done. } { rewrite Hes, Hdiv, Hkp, Hkn. lia. } { rewrite Hes, Hkp. lia. }
  { rewrite Hes, Hkn. lia. }
  rewrite Hes, Hdiv in Hm, Hr. fold off n bytes in Hm, Hr.
  destruct r as [s' l' | s' l' | s' l' ret]; [| | done]; cbn [wr_state] in *.
  2:{ destruct Hr as [Hshort ->].
      assert (0 <= user_copy_ok u (l_buf l) bytes) by (unfold user_copy_ok; lia).
      unfold wr_account.
      assert ((user_copy_ok u (l_buf l) bytes =? bytes) = false) as -> by lia.
      cbv [negb].
      destruct (user_copy_ok u (l_buf l) bytes >? 0) eqn:E;
        destruct (l_status _ >=? 0); simpl; lia. }
  destruct Hr as [Hfull ->]. rewrite Hfull in Hm.
  set (rn := {| r_slot := c; r_pg := np; r_n := n; r_b := get_nvmm e np |}).
  exists rn.
  assert (fills (rs ++ [(false, rn)]) = fills rs) as Hfills
    by (by rewrite fills_snoc, app_nil_r).
  assert (runs_end first_pg (map snd (rs ++ [(false, rn)])) = np + n) as Hend
    by (rewrite map_app; change (map snd [(false, rn)]) with [rn];
        by rewrite runs_end_snoc).
  destruct Hks as [K1 K2 K3 K4 K5 K6 K7 K8 K9].
  assert (0 < bytes /\ off + bytes <= 4096 * n) as [Hb0 Hfit] by (subst bytes; lia).
  (* the bytes of the earlier runs are where they were *)
  assert (forall r x, r ∈ map snd rs -> r_pg r * 4096 <= x < (r_pg r + r_n r) * 4096 ->
            pmem s' (r_b r * 4096 + (x - r_pg r * 4096))
            = pmem s (r_b r * 4096 + (x - r_pg r * 4096))) as Hframe.
  { intros r x Hin Hx. rewrite Hm. unfold mem_store.
    match goal with |- (if ?cnd then _ else _) = _ => destruct cnd eqn:Ecnd; [| done] end.
    exfalso.
    set (a := r_b r * 4096 + (x - r_pg r * 4096)) in *.
    assert (get_nvmm e np <= a / 4096 < get_nvmm e np + n) as Hblk' by lia.
    set (q := np + (a / 4096 - get_nvmm e np)).
    assert (sih_tree s0 !! q = Some c) as Htq.
    { destruct (Z.eq_dec q np) as [-> | Hqne]; [done |].
      apply Hown; [| subst q n; unfold chunk_pages in *; rewrite Hkp, Hkn in *;
                     destruct (reassigned e =? 0); lia].
      assert (chunk_pages e np <> 1) as Hch by (subst q n; lia).
      unfold chunk_pages in Hch. rewrite <- Hkr.
      destruct (Z.eqb_spec (reassigned e) 0); [done | lia]. }
    apply (earlier_blocks_apart s l rs r x q c Hi Hin Hx ltac:(subst q; fold np; lia) Htq Hc).
    fold a. rewrite He0, <- (kept_get_nvmm e0 e q Hk). subst q.
    rewrite get_nvmm_add. lia. }
  split; try (rewrite ?Hfills, ?Hend; cbn [l_advance set_l_alloc l_update l_written l_pos
                l_count l_buf l_num_blocks l_begin_tail l_update_log l_allocated];
              first [ congruence | done | apply Hi | idtac ]).
  - rewrite K2. apply Hi.
  - rewrite K3. apply Hi.
  - rewrite K4. apply Hi.
  - rewrite K5. apply Hi.
  - rewrite K7. apply Hi.
  - rewrite K6. apply Hi.
  - destruct K8 as (A & B & C), (ii_conf _ _ _ Hi) as (A' & B' & C').
    unfold same_conf. repeat split; congruence.
  - rewrite K1. apply Hi.
  - intros r Hin. destruct (ii_log_fill _ _ _ Hi r Hin) as (e1 & Hl1 & Hsp).
    pose proof (K9 (r_slot r)) as Hkk. rewrite Hl1 in Hkk.
    destruct (log s' !! r_slot r) as [e2 |]; [| done].
    exists e2. split; [done |]. eapply same_place_trans; [exact Hsp | apply Hkk].
  - intros p Hp'. pose proof (ii_log_old _ _ _ Hi p Hp') as Hold.
    pose proof (K9 p) as Hkk.
    destruct (log s0 !! p), (log s !! p), (log s' !! p); try done.
    by eapply kept_trans.
  - rewrite map_app. change (map snd [(false, rn)]) with [rn].
    apply runs_from_snoc; [apply Hi | done | simpl; lia].
  - lia.
  - intros r x. rewrite map_app. change (map snd [(false, rn)]) with [rn].
    intros [Hin | Heq%list_elem_of_singleton]%elem_of_app Hx1 Hx2.
    + rewrite Hframe by done. by apply (ii_content _ _ _ Hi).
    + rewrite Heq in *. cbn [r_b r_pg r_n rn] in *. rewrite Hm. unfold mem_store.
      assert ((get_nvmm e np * 4096 + off <=? get_nvmm e np * 4096 + (x - np * 4096))
              && (get_nvmm e np * 4096 + (x - np * 4096)
                  <? get_nvmm e np * 4096 + off + bytes) = true) as ->.
      { apply andb_true_iff. split; lia. }
      f_equal. lia.
  - intros r [Hin | [= Heq]%list_elem_of_singleton]%elem_of_app; [by apply (ii_old _ _ _ Hi) |].
    rewrite Heq. unfold in_place_run. cbn [r_slot r_pg r_n r_b rn]. rewrite He0.
    split; [done |]. split; [| split; [by apply kept_get_nvmm | split]].
    + intros pg' Hpg'. destruct (Z.eq_dec pg' np) as [-> | Hne]; [done |].
      assert (chunk_pages e np <> 1) as Hch by (subst n; lia).
      unfold chunk_pages in Hch.
      apply Hown; [rewrite <- Hkr; destruct (Z.eqb_spec (reassigned e) 0); [done | lia] |].
      subst n. unfold chunk_pages in *. rewrite Hkp, Hkn in *.
      destruct (reassigned e =? 0); lia.
    + intros Hr0. subst n. unfold chunk_pages. rewrite Hkr, Hr0, Hkp, Hkn. simpl. lia.
    + intros Hr0. subst n. unfold chunk_pages. rewrite Hkr.
      destruct (Z.eqb_spec (reassigned e0) 0); lia.
  - subst bytes. lia.
  - lia.
  - rewrite ulong_small; subst bytes; lia.
  - rewrite ulong_small; lia.
Qed.

(** The block of a byte of an earlier run is a block of a hole fill of
    this call or a block that was not free before the call. *)
Lemma earlier_block_kind s l rs r x :
  inplace_inv s l rs -> r ∈ map snd rs ->
  r_pg r * 4096 <= x < (r_pg r + r_n r) * 4096 ->
  (r_b r * 4096 + (x - r_pg r * 4096)) / 4096 ∈ run_blocks (fills rs)
  \/ (r_b r * 4096 + (x - r_pg r * 4096)) / 4096 ∉ free_blocks s0.
Proof.
  intros Hi Hin Hx.
  pose proof (runs_from_bounds _ _ _ (ii_from _ _ _ Hi) Hin) as (Hb1 & Hb2 & Hb3).
  apply list_elem_of_fmap in Hin as ([k r'] & -> & Hin). cbn [fst snd] in *.
  assert ((r_b r' * 4096 + (x - r_pg r' * 4096)) / 4096 = r_b r' + (x / 4096 - r_pg r'))
    as -> by lia.
  destruct k.
  - left. apply elem_of_run_blocks. exists r'. split; [by apply fills_in | lia].
  - right. destruct (ii_old _ _ _ Hi r' Hin) as (Hs & Hpages & Hb & _).
    destruct (Hindex (x / 4096) (r_slot r') (Hpages (x / 4096) ltac:(lia)) Hs)
      as (e1 & Hl1 & _ & _ & _ & _ & Hnf & _).
    assert (entry_at s0 (r_slot r') = e1) as Hent by (unfold entry_at; by rewrite Hl1).
    rewrite Hb, Hent, <- get_nvmm_add.
    by replace (r_pg r' + (x / 4096 - r_pg r')) with (x / 4096) by lia.
Qed.

(** A hole fill keeps the invariant. *)
Lemma inplace_step_fill s l rs n entry inplace fuel r :
  inplace_inv s l rs -> l_num_blocks l > 0 -> n <= l_num_blocks l ->
  negb (entry =? 0) && inplace = false ->
  inplace_rest alloc csum_of fuel s u ep time l (n, entry, inplace) = Some r ->
  match r with
  | WrNext s' l' => exists rn, inplace_inv s' l' (rs ++ [(true, rn)])
  | WrBreak s' l' => 0 <= l_written l' < len
  | WrOut _ _ _ => True
  end.
Proof.
  intros Hi Hnb Hn Hfill Hbody.
  destruct (inplace_inv_arith _ _ _ Hi Hnb)
    as (Hnp & Hdiv & Hmod & Hw & Hpos & Hcount & Hnum & Hlen').
  cbv zeta in *. set (np := runs_end first_pg (map snd rs)) in *.
  set (off := l_pos l mod 4096) in *.
  pose proof (ii_written _ _ _ Hi) as Hwr. pose proof (ii_pos _ _ _ Hi) as Hp.
  pose proof (ii_count _ _ _ Hi) as Hcnt. pose proof (ii_buf _ _ _ Hi) as Hbuf.
  pose proof (ii_nb _ _ _ Hi) as Hnbv. fold np in Hwr, Hnbv.
  edestruct (fill_effect alloc csum_of s u ep time l n entry inplace)
    as (a & b & Hal & [[_ ->] | (Ha & Hbpos & Hsub & Heff)]);
    [exact Halloc | apply Hi | exact Hpos | exact Hcount | lia | exact Hfill | exact Hbody
     | done |].
  fold off in Heff. cbv zeta in Heff. rewrite Hdiv in Heff.
  set (bytes := Z.min (4096 * a - off) (l_count l)) in *.
  destruct Heff as (Hf & Hdata & Hr).
  assert (0 < bytes /\ off + bytes <= 4096 * a) as [Hb0 Hfit] by (subst bytes; lia).
  destruct r as [s' l' | s' l' | s' l' ret]; [| | done]; cbn [wr_state] in *.
  2:{ destruct Hr as (Hshort & upd & _ & ->).
      assert (0 <= user_copy_ok u (l_buf l) bytes) by (unfold user_copy_ok; lia).
      unfold wr_account.
      assert ((user_copy_ok u (l_buf l) bytes =? bytes) = false) as -> by lia.
      cbv [negb].
      destruct (user_copy_ok u (l_buf l) bytes >? 0) eqn:E;
        destruct (l_status _ >=? 0); simpl; lia. }
  destruct Hr as (Hfull & upd & (Hcne & Htne & Hlog & Hupd) & ->).
  rewrite Hfull in Hdata, Hlog.
  assert (slot_of s (tail (l_update l)) = slot_of s0 (tail (l_update l))) as Hslot.
  { unfold slot_of, next_log_page. by rewrite (ii_pages _ _ _ Hi). }
  rewrite Hslot in Hcne, Hlog, Hupd. set (c := slot_of s0 (tail (l_update l))) in *.
  set (rn := {| r_slot := c; r_pg := np; r_n := a; r_b := b |}).
  exists rn.
  assert (fills (rs ++ [(true, rn)]) = fills rs ++ [rn]) as Hfills by (by rewrite fills_snoc).
  assert (runs_end first_pg (map snd (rs ++ [(true, rn)])) = np + a) as Hend
    by (rewrite map_app; change (map snd [(true, rn)]) with [rn];
        by rewrite runs_end_snoc).
  assert (c ∉ map r_slot (fills rs)) as Hfresh.
  { apply (log_walk_fresh s0 _ _ _ slots c (ii_walk _ _ _ Hi) eq_refl Hcne); [| done].
    rewrite length_map. pose proof (fills_length rs). unfold slots. lia. }
  destruct Hf as [F1 F2 F3 F4 F5 F6 F7 F8 F9].
  assert (blocks b a ⊆ free_blocks s0 /\ blocks b a ## run_blocks (fills rs))
    as [Hbsub Hbdisj] by (rewrite (ii_free _ _ _ Hi) in Hsub; set_solver).
  set (l' := fill_next _).
  assert (l_update l' = upd /\ l_pos l' = l_pos l + bytes
          /\ l_count l' = ulong (l_count l - bytes) /\ l_buf l' = l_buf l + bytes
          /\ l_written l' = l_written l + bytes
          /\ l_num_blocks l' = ulong (l_num_blocks l - a)
          /\ l_begin_tail l' = (if l_begin_tail l =? 0 then c else l_begin_tail l)
          /\ l_update_log l' = true)
    as (L1 & L2 & L3 & L4 & L5 & L6 & L7 & L8).
  { subst l'. unfold fill_next. cbv zeta.
    cbn [set_l_update_log l_begin_tail l_advance set_l_update set_l_alloc l_update].
    rewrite Hupd. cbn [curr_entry].
    destruct (l_begin_tail l =? 0); done. }
  clearbody l'.
  split; rewrite ?Hfills, ?Hend, ?L2, ?L3, ?L4, ?L5, ?L6, ?L7.
  - rewrite F2. apply Hi.
  - rewrite F3. apply Hi.
  - rewrite F4. apply Hi.
  - rewrite F5. apply Hi.
  - rewrite F7. apply Hi.
  - rewrite F6. apply Hi.
  - destruct F8 as (A & B & C), (ii_conf _ _ _ Hi) as (A' & B' & C').
    unfold same_conf. repeat split; congruence.
  - rewrite F1, (ii_free _ _ _ Hi), run_blocks_snoc. cbn [r_b r_n rn]. set_solver.
  - rewrite run_blocks_snoc. cbn [r_b r_n rn]. pose proof (ii_sub _ _ _ Hi). set_solver.
  - rewrite map_app, L1, Hupd. cbn [map tail r_slot rn].
    by apply (log_walk_snoc s0 _ _ (tail (l_update l))); [apply Hi | |].
  - intros r [Hin | Heq%list_elem_of_singleton]%elem_of_app.
    + destruct (ii_log_fill _ _ _ Hi r Hin) as (e1 & Hl1 & Hsp).
      exists e1. split; [| done]. rewrite Hlog, lookup_insert_ne; [done |].
      intros Hc. apply Hfresh. rewrite Hc. apply list_elem_of_fmap. by exists r.
    + rewrite Heq. cbn [r_slot r_pg r_n r_b rn]. eexists. split.
      * rewrite Hlog. apply lookup_insert_eq.
      * by repeat split.
  - intros p Hp'. rewrite map_app in Hp'. cbn [map r_slot rn] in Hp'.
    rewrite Hlog, lookup_insert_ne by set_solver.
    apply (ii_log_old _ _ _ Hi). set_solver.
  - rewrite map_app. change (map snd [(true, rn)]) with [rn].
    apply runs_from_snoc; [apply Hi | done | simpl; lia].
  - lia.
  - intros r x. rewrite map_app. change (map snd [(true, rn)]) with [rn].
    intros [Hin | Heq%list_elem_of_singleton]%elem_of_app Hx1 Hx2.
    + rewrite F9; [by apply (ii_content _ _ _ Hi) |].
      destruct (earlier_block_kind s l rs r x Hi Hin Hx2) as [Hk | Hk].
      * intros Hb'. by apply (Hbdisj _ Hb').
      * intros Hb'. by apply Hk, Hbsub.
    + rewrite Heq in *. cbn [r_b r_pg r_n rn] in *.
      replace (b * 4096 + (x - np * 4096)) with (b * 4096 + off + (x - np * 4096 - off)) by lia.
      rewrite Hdata by lia. f_equal. lia.
  - intros r [Hin | [= Heq]%list_elem_of_singleton]%elem_of_app; by apply (ii_old _ _ _ Hi).
  - subst bytes. lia.
  - lia.
  - rewrite ulong_small; subst bytes; lia.
  - lia.
  - rewrite ulong_small; lia.
  - rewrite map_app. pose proof (ii_begin _ _ _ Hi) as Hbg. rewrite Hbg.
    destruct (fills rs) as [| r0 rs0] eqn:Efl; [done |].
    pose proof (log_walk_hd _ _ _ _ (ii_walk _ _ _ Hi)) as Hhd. rewrite Efl in Hhd.
    specialize (Hhd ltac:(done)). cbn [map hd app] in *.
    by assert ((r_slot r0 =? 0) = false) as -> by lia.
  - by rewrite L8.
Qed.

(** One iteration of the loop of the in-place writer. *)
Lemma inplace_body_step s l rs fuel r :
  inplace_inv s l rs -> l_num_blocks l > 0 ->
  inplace_body alloc csum_of fuel s u ep time l = Some r ->
  match r with
  | WrNext s' l' => exists k rn, inplace_inv s' l' (rs ++ [(k, rn)])
  | WrBreak s' l' => 0 <= l_written l' < len
  | WrOut _ _ ret => ret <= 0
  end.
Proof.
  intros Hi Hnb Hbody.
  assert (match r with
          | WrNext s' l' => exists k rn, inplace_inv s' l' (rs ++ [(k, rn)])
          | WrBreak s' l' => 0 <= l_written l' < len
          | WrOut _ _ ret => True
          end) as Hres.
  2:{ destruct r as [s' l' | s' l' | s' l' ret]; try done.
      by apply inplace_body_out in Hbody. }
  destruct (inplace_inv_arith _ _ _ Hi Hnb)
    as (Hnp & Hdiv & Hmod & Hw & Hpos & Hcount & Hnum & Hlen').
  cbv zeta in *. set (np := runs_end first_pg (map snd rs)) in *.
  destruct (sih_tree s0 !! np) as [c |] eqn:Ht.
  - destruct (Z.eq_dec c 0) as [-> | Hc].
    + (* an index slot without entry: a hole *)
      destruct (check_existing_hole s (l_num_blocks l) np ep) as (n & Hchk & Hn); [| lia |].
      { unfold nova_get_write_entry. by rewrite (ii_tree _ _ _ Hi), Ht. }
      rewrite inplace_body_rest, shiftr_blocksize_bits, Hdiv, Hchk in Hbody.
      pose proof (inplace_step_fill s l rs n 0 false fuel r Hi Hnb Hn eq_refl Hbody) as H.
      destruct r as [s' l' | s' l' | s' l' ret]; try done.
      destruct H as [rn H]. by exists true, rn.
    + destruct (indexed_entry s l rs np c Hi Ht Hc)
        as (e0 & e & Hl0 & Hl & Hk & Hpg & Hcov & Hnpg & Hown & Hnf & Hnin).
      assert (entry_at s c = e) as Hes by (unfold entry_at; by rewrite Hl).
      pose proof Hk as [(_ & Hkp & Hkn & _) Hkr].
      destruct (Z.eq_dec (epoch_id (entry_at s c)) ep) as [Hep | Hep].
      * pose proof (inplace_step_same s l rs c fuel r Hi Hnb Ht Hc Hep Hbody) as H.
        destruct r as [s' l' | s' l' | s' l' ret]; try done.
        destruct H as [rn H]. by exists false, rn.
      * rewrite (inplace_body_covered alloc csum_of s u ep time l c) in Hbody
          by first [ done | by rewrite Hdiv, (ii_tree _ _ _ Hi)
                   | rewrite Hes, Hdiv, Hkp, Hkn; lia | rewrite Hes, Hkp; lia
                   | rewrite Hes, Hkn; lia | apply Hi ].
        assert ((epoch_id (entry_at s c) =? ep) = false) as Hne by lia.
        rewrite Hne in Hbody.
        eapply inplace_step_fill in Hbody; [| done | done | lia | by rewrite andb_false_r].
        destruct r as [s' l' | s' l' | s' l' ret]; try done.
        destruct Hbody as [rn H]. by exists true, rn.
  - destruct (check_existing_hole s (l_num_blocks l) np ep) as (n & Hchk & Hn); [| lia |].
    { unfold nova_get_write_entry. by rewrite (ii_tree _ _ _ Hi), Ht. }
    rewrite inplace_body_rest, shiftr_blocksize_bits, Hdiv, Hchk in Hbody.
    pose proof (inplace_step_fill s l rs n 0 false fuel r Hi Hnb Hn eq_refl Hbody) as H.
    destruct r as [s' l' | s' l' | s' l' ret]; try done.
    destruct H as [rn H]. by exists true, rn.
Qed.

(** The loop: when it ends by itself, every page of the write is in a run. *)
Lemma inplace_loop_inv fuel : forall s l rs r,
  inplace_inv s l rs ->
  inplace_loop alloc csum_of fuel s u ep time l = Some r ->
  match r with
  | WrNext _ _ => False
  | WrBreak s' l' =>
      (exists rs', inplace_inv s' l' rs' /\ l_num_blocks l' = 0) \/ 0 <= l_written l' < len
  | WrOut _ _ ret => ret <= 0
  end.
Proof.
  induction fuel as [| fuel IH]; intros s l rs r Hi; simpl; [done |].
  destruct (Z.gtb_spec (l_num_blocks l) 0) as [Hnb | Hnb].
  - destruct (inplace_body _ _ _ _ _ _ _ _) as [rb |] eqn:Eb; [| done].
    pose proof (inplace_body_step _ _ _ _ _ Hi ltac:(lia) Eb) as Hstep.
    destruct rb as [s1 l1 | s1 l1 | s1 l1 r1].
    + destruct Hstep as (k & rn & Hi1). intros H. by apply (IH _ _ _ _ Hi1) in H.
    + intros [= <-]. by right.
    + by intros [= <-].
  - intros [= <-]. left. exists rs. split; [done |].
    pose proof (ii_nb _ _ _ Hi). pose proof (ii_end _ _ _ Hi). lia.
Qed.

(** The reassign pass of the in-place writer. *)
Lemma inplace_reassign fuel s l rs s2 s3 r :
  inplace_inv s l rs ->
  log s2 = log s -> log_pages s2 = log_pages s -> sih_tree s2 = sih_tree s ->
  sih_log_tail s2 = tail (l_update l) ->
  reassign_loop fuel s2 (l_begin_tail l) = Some (s3, r) ->
  r = 0 /\ same_data s2 s3
  /\ forall pg,
       (exists rn, rn ∈ fills rs /\ r_pg rn <= pg < r_pg rn + r_n rn
                   /\ sih_tree s3 !! pg = Some (r_slot rn))
       \/ ((forall rn, rn ∈ fills rs -> ~ (r_pg rn <= pg < r_pg rn + r_n rn))
           /\ sih_tree s3 !! pg = sih_tree s0 !! pg).
Proof.
  intros Hi Hl2 Hp2 Htr2 Ht2 Hre.
  pose proof (ii_walk _ _ _ Hi) as Hw. pose proof (ii_begin _ _ _ Hi) as Hbg.
  destruct (log_walk_pos s0 _ _ _ Hwf (proj1 Hwf) Hw) as [Hq Hcs].
  assert (forall rc, rc ∈ fills rs ->
            entry_type (entry_at s2 (r_slot rc)) = FILE_WRITE
            /\ forall pg, covers (entry_at s2 (r_slot rc)) pg
                          <-> r_pg rc <= pg < r_pg rc + r_n rc) as Hent.
  { intros rc Hin. destruct (ii_log_fill _ _ _ Hi rc Hin) as (e1 & Hl1 & Hsp).
    unfold covers, entry_at. rewrite Hl2, Hl1. simpl.
    destruct Hsp as (-> & -> & -> & _). done. }
  destruct (fills rs) as [| r0 rs0] eqn:Efl.
  { (* no hole was filled: the pass has nothing to walk *)
    simpl in Hbg. rewrite Hbg in Hre. destruct fuel as [| fuel]; [done |].
    simpl in Hre. injection Hre as <- <-.
    split; [done |]. split; [apply same_data_refl |]. intros pg. right.
    split; [intros rn Hin; by apply elem_of_nil in Hin |].
    by rewrite Htr2, (ii_tree _ _ _ Hi). }
  rewrite <- Efl in *.
  assert (fills rs <> []) as Hne by (by rewrite Efl).
  clear r0 rs0 Efl.
  set (cs := map r_slot (fills rs)) in *.
  assert (cs <> []) as Hcne by (unfold cs; by destruct (fills rs)).
  destruct (reassign_loop_walk cs (Nat.max fuel (S (length cs))) s2 (l_begin_tail l))
    as (sx & Hsx & Hdx & Htx).
  - rewrite Ht2, Hbg. apply (log_walk_pages s0); [by rewrite Hp2, (ii_pages _ _ _ Hi) |].
    destruct cs as [| c0 cs0] eqn:Ecs; [done |].
    by apply (log_walk_restart s0 (sih_log_tail s0)).
  - rewrite Hbg.
    pose proof (log_walk_nodup s0 _ _ _ slots Hw) as Hnd.
    assert (length cs <= slots)%nat as Hlen'.
    { unfold cs. rewrite length_map.
      pose proof (runs_end_ge _ _ (ii_from _ _ _ Hi)) as Hge. rewrite length_map in Hge.
      pose proof (ii_end _ _ _ Hi). pose proof (fills_length rs). unfold slots. lia. }
    specialize (Hnd Hlen' Hchain).
    destruct cs as [| c0 cs0] eqn:Ecs.
    + apply NoDup_cons. split; [apply not_elem_of_nil | apply NoDup_nil_2].
    + simpl in Hw. destruct Hw as (Hc & _). simpl. by rewrite <- Hc in Hnd.
  - intros _. rewrite Hbg. destruct cs as [| c0 cs0]; [done |].
    specialize (Hcs c0 ltac:(apply list_elem_of_here)). simpl. lia.
  - done.
  - intros c (rc & -> & Hin)%list_elem_of_fmap. by apply Hent.
  - lia.
  - apply (reassign_loop_mono _ (Nat.max fuel (S (length cs)))) in Hre; [| lia].
    rewrite Hre in Hsx. injection Hsx as <- ->.
    split; [done |]. split; [done |]. intros pg.
    destruct (Htx pg) as [(c & (rc & -> & Hin)%list_elem_of_fmap & Hc & Hlk) | [Hnone Hlk]].
    + left. exists rc. split; [done |]. split; [by apply Hent | done].
    + right. split.
      * intros rn Hin Hrn. apply (Hnone (r_slot rn)).
        -- apply list_elem_of_fmap. by exists rn.
        -- by apply Hent.
      * by rewrite Hlk, Htr2, (ii_tree _ _ _ Hi).
Qed.

Hypothesis Hsize : i_size s0 < 2 ^ 62.
Hypothesis Hcsum : data_csum s0 = 0.

(** The call after a loop that covered the whole write: every page of
    the window reads back. *)
Lemma inplace_commit_chunks fuel s l rs total ppos lock s' ppos' :
  inplace_inv s l rs -> l_num_blocks l = 0 ->
  inplace_commit fuel s l total ppos lock = Some (s', len, ppos') ->
  ppos' = pos0 + len /\ pos0 + len <= i_size s' /\ i_size s' < 2 ^ 62
  /\ forall pg, first_pg <= pg <= last_pg ->
                chunk_ok csum_of s' pos0 len (fun x => ub_byte u (x - pos0)) pg.
Proof.
  intros Hi Hnb. unfold inplace_commit. cbv zeta.
  set (sb := set_i_blocks _ _).
  assert (log sb = log s /\ log_pages sb = log_pages s /\ sih_tree sb = sih_tree s
          /\ pmem sb = pmem s /\ i_size sb = i_size s /\ data_csum sb = data_csum s)
    as (B1 & B2 & B3 & B4 & B5 & B6) by done.
  clearbody sb.
  pose proof (ii_nb _ _ _ Hi) as Hend. rewrite Hnb in Hend.
  pose proof (ii_written _ _ _ Hi) as Hwr. pose proof (ii_pos _ _ _ Hi) as Hp.
  assert (l_written l = len) as Hwl by (unfold first_pg, last_pg in *; lia).
  (* the state after the reassign pass, or the state as it is *)
  assert (forall s3 r,
            (if l_update_log l
             then nova_reassign_file_tree fuel (nova_update_inode sb (l_update l))
                    (l_begin_tail l)
             else Some (sb, 0)) = Some (s3, r) ->
            r = 0 /\ pmem s3 = pmem s /\ i_size s3 = i_size s /\ data_csum s3 = data_csum s
            /\ log_ext (log s) (log s3)
            /\ forall pg,
                 (exists rn, rn ∈ fills rs /\ r_pg rn <= pg < r_pg rn + r_n rn
                             /\ sih_tree s3 !! pg = Some (r_slot rn))
                 \/ ((forall rn, rn ∈ fills rs -> ~ (r_pg rn <= pg < r_pg rn + r_n rn))
                     /\ sih_tree s3 !! pg = sih_tree s0 !! pg)) as Hpass.
  { intros s3 r. destruct (l_update_log l) eqn:Eul.
    - unfold nova_reassign_file_tree. intros Hre.
      eapply (inplace_reassign _ s l rs) in Hre; [| done | by simpl | by simpl | by simpl | done].
      destruct Hre as (-> & Hd & Htree). split; [done |].
      destruct Hd as [D1 _ _ _ _ D6 _ _ D9 _ D11]. simpl in D1, D6, D9, D11.
      split; [congruence |]. split; [congruence |]. split; [congruence |].
      split; [by rewrite <- B1 | done].
    - intros [= <- <-]. rewrite (ii_ulog _ _ _ Hi Eul).
      split; [done |]. split; [done |]. split; [done |]. split; [done |].
      split; [rewrite B1; apply log_ext_refl |].
      intros pg. right. split; [intros rn Hin; by apply elem_of_nil in Hin |].
      by rewrite B3, (ii_tree _ _ _ Hi). }
  destruct (if l_update_log l then _ else _) as [[s3 r3] |]; [| done].
  destruct (Hpass s3 r3 eq_refl) as (-> & P1 & P2 & P3 & P4 & Htree). clear Hpass.
  simpl negb. cbv iota.
  set (s5 := if l_pos l >? i_size s3 then set_sizes (l_pos l) s3 else s3).
  intros Hwo. pose proof (write_out_ret _ _ _ _ _ _ _ _ _ Hwo) as [_ ->].
  rewrite write_out_nonneg in Hwo by lia. injection Hwo as <-.
  assert (pmem s5 = pmem s /\ sih_tree s5 = sih_tree s3 /\ log s5 = log s3
          /\ data_csum s5 = 0 /\ i_size s5 = Z.max (i_size s0) (pos0 + len))
    as (H5m & H5t & H5l & H5c & H5i).
  { pose proof (ii_isize _ _ _ Hi) as Hsz. destruct (ii_conf _ _ _ Hi) as (C1 & _).
    assert (data_csum s3 = 0) as Hc3 by congruence.
    assert (i_size s3 = i_size s0) as Hi3 by congruence.
    subst s5. destruct (Z.gtb_spec (l_pos l) (i_size s3)) as [Hgt | Hle]; simpl;
      repeat split; try done; lia. }
  clearbody s5.
  assert (pmem (if lock then emit EvUnlock s5 else s5) = pmem s5
          /\ sih_tree (if lock then emit EvUnlock s5 else s5) = sih_tree s5
          /\ log (if lock then emit EvUnlock s5 else s5) = log s5
          /\ data_csum (if lock then emit EvUnlock s5 else s5) = data_csum s5
          /\ i_size (if lock then emit EvUnlock s5 else s5) = i_size s5)
    as (H6m & H6t & H6l & H6c & H6i) by (by destruct lock).
  rewrite H6i, H5i. split; [lia |]. split; [lia |]. split; [lia |].
  intros pg Hpg. unfold chunk_ok. rewrite H6t, H6l, H6m, H6c, H5t, H5l, H5m, H5c.
  pose proof (ii_from _ _ _ Hi) as Hfrom.
  destruct (runs_cover (map snd rs) first_pg pg Hfrom ltac:(lia)) as (rn & Hin & Hrn).
  pose proof (runs_from_bounds _ _ _ Hfrom Hin) as (Hb1 & Hb2 & Hb3).
  destruct (Htree pg) as [(rf & Hinf & Hcov & Hlk) | [Hnone Hlk]].
  - (* the page of a hole fill *)
    destruct (ii_log_fill _ _ _ Hi rf Hinf) as (e1 & Hl1 & Hsp).
    pose proof (P4 (r_slot rf)) as Hext. rewrite Hl1 in Hext.
    destruct (log s3 !! r_slot rf) as [e3 |] eqn:Ee; [| done].
    destruct (same_place_trans _ _ _ Hsp Hext) as (_ & Hpg' & Hnp & Hbl & _).
    simpl in Hpg', Hnp, Hbl.
    assert (rf ∈ map snd rs) as Hinr.
    { apply list_elem_of_fmap. exists (true, rf). split; [done | by apply fills_in]. }
    pose proof (runs_from_bounds _ _ _ Hfrom Hinr) as (Hf1 & Hf2 & Hf3).
    destruct (log_walk_pos s0 _ _ _ Hwf (proj1 Hwf) (ii_walk _ _ _ Hi)) as [_ Hslots].
    exists (r_slot rf), e3. split; [done |].
    split; [specialize (Hslots (r_slot rf) ltac:(apply list_elem_of_fmap; by exists rf)); lia |].
    split; [done |]. rewrite Hpg', Hnp.
    split; [unfold first_pg in *; lia |]. split; [lia |].
    split; [unfold first_pg, last_pg in *; lia |]. split; [| lia].
    intros x Hx Hxp.
    assert (chunk_pages e3 pg <= r_pg rf + r_n rf - pg) as Hcp.
    { unfold chunk_pages. rewrite Hpg', Hnp. destruct (reassigned e3 =? 0); lia. }
    unfold get_nvmm. rewrite Hbl, Hpg'. unfold nova_get_block_off.
    rewrite shiftl_page, shiftr_page, Z.div_mul by lia.
    replace ((r_b rf + pg - r_pg rf) * 4096 + (x - pg * 4096))
      with (r_b rf * 4096 + (x - r_pg rf * 4096)) by lia.
    apply (ii_content _ _ _ Hi rf x Hinr); lia.
  - (* a page written in place *)
    apply list_elem_of_fmap in Hin as ([k rn'] & -> & Hin). cbn [snd] in *.
    destruct k; [exfalso; apply (Hnone rn'); [by apply fills_in | done] |].
    destruct (ii_old _ _ _ Hi rn' Hin) as (Hs & Hpages & Hb & Hr0 & Hr1).
    pose proof (Hpages pg Hrn) as Htp.
    destruct (indexed_entry s l rs pg (r_slot rn') Hi Htp Hs)
      as (e0 & e1 & Hl0 & Hl1 & Hk & Hpgo & Hcovr & Hnpg & Hown & Hnf & Hnin).
    pose proof (P4 (r_slot rn')) as Hext. rewrite Hl1 in Hext.
    destruct (log s3 !! r_slot rn') as [e3 |] eqn:Ee; [| done].
    destruct (same_place_trans _ _ _ (proj1 Hk) Hext) as (_ & Hpg' & Hnp & Hbl & _ & Hre).
    assert (entry_at s0 (r_slot rn') = e0) as He0 by (unfold entry_at; by rewrite Hl0).
    rewrite He0 in Hb, Hr0, Hr1.
    exists (r_slot rn'), e3. split; [by rewrite Hlk |]. split; [done |].
    split; [done |]. rewrite Hpg', Hnp.
    split; [lia |]. split; [lia |]. split; [lia |]. split; [| lia].
    intros x Hx Hxp.
    assert (get_nvmm e3 pg = r_b rn' + (pg - r_pg rn')) as ->.
    { rewrite Hb. unfold get_nvmm. rewrite Hbl, Hpg'. lia. }
    replace ((r_b rn' + (pg - r_pg rn')) * 4096 + (x - pg * 4096))
      with (r_b rn' * 4096 + (x - r_pg rn' * 4096)) by lia.
    apply (ii_content _ _ _ Hi rn' x); [apply list_elem_of_fmap; by exists (false, rn') | done |].
    unfold chunk_pages in Hxp. rewrite Hpg', Hnp in Hxp.
    destruct (Z.eqb_spec (reassigned e3) 0) as [Hz | Hnz].
    + specialize (Hr0 (Hre Hz)). unfold last_pg in *. lia.
    + lia.
Qed.

End InplaceLoop.
(** ** A completed in-place write, read back *)

Lemma inplace_commit_ret fuel s l total ppos lock s' ret ppos' :
  inplace_commit fuel s l total ppos lock = Some (s', ret, ppos') ->
  ret = l_written l \/ ret = - EINVAL.
Proof.
  unfold inplace_commit. cbv zeta.
  destruct (if l_update_log l then _ else _) as [[s3 r3] |] eqn:E; [| done].
  assert (r3 = 0 \/ r3 = - EINVAL) as Hr3.
  { destruct (l_update_log l); [| injection E as <- <-; by left].
    by apply reassign_loop_ret in E. }
  destruct (Z.eqb_spec r3 0) as [-> | Hne]; simpl.
  - intros (-> & _)%write_out_ret. by left.
  - intros (-> & _)%write_out_ret. destruct Hr3; [done | by right].
Qed.

Section InplaceBack.

Variable alloc : allocator.
Variable csum_of : list byte -> Z.
Variables (s : nova_state) (filp : file) (u : ubuf) (len ppos : Z) (need_mutex : bool).

Let pos := if f_append filp then i_size s else ppos.
Let slots := Z.to_nat ((pos + len - 1) / 4096 + 1 - pos / 4096).

Hypothesis Halloc : alloc_sound alloc.
Hypothesis Hblk : sih_i_blk_type s = 0.
Hypothesis Hwf : log_wf s.
Hypothesis Hpos : 0 <= pos.
Hypothesis Hlen : 0 < len.
Hypothesis Hmax : pos + len < 2 ^ 62.
Hypothesis Hsize : i_size s < 2 ^ 62.
Hypothesis Hprivs : f_remove_privs filp <= 0.
Hypothesis Hcsum : data_csum s = 0.
Hypothesis Hchain :
  NoDup (slot_of s (sih_log_tail s) :: log_chain s (sih_log_tail s) slots).
Hypothesis Hindex : index_wf s slots.
Hypothesis Hinj : index_inj s.

Lemma inplace_write_chunks fuel s' ppos' :
  nova_inplace_file_write alloc csum_of fuel s filp u len ppos need_mutex
  = Some (s', len, ppos') ->
  ppos' = pos + len /\ pos + len <= i_size s' /\ i_size s' < 2 ^ 62
  /\ forall pg, pos / 4096 <= pg <= (pos + len - 1) / 4096 ->
                chunk_ok csum_of s' pos len (fun x => ub_byte u (x - pos)) pg.
Proof.
  unfold nova_inplace_file_write.
  assert ((len =? 0) = false) as -> by lia.
  set (sl := if need_mutex then emit EvLock s else s).
  assert (free_blocks sl = free_blocks s /\ sih_log_tail sl = sih_log_tail s
          /\ sih_alter_log_tail sl = sih_alter_log_tail s /\ sih_tree sl = sih_tree s
          /\ log_pages sl = log_pages s /\ sih_i_blk_type sl = sih_i_blk_type s
          /\ i_size sl = i_size s /\ log sl = log s /\ pmem sl = pmem s
          /\ same_conf s sl)
    as (Hf & Ht & Ha & Htr & Hp & Hb & Hi & Hl & Hm & Hcf)
    by (by subst sl; destruct need_mutex).
  destruct (negb (ub_access_ok u)).
  { intros (Hr & _)%write_out_ret. unfold EFAULT in Hr. lia. }
  cbv zeta. destruct (negb (f_remove_privs filp =? 0)).
  { intros (Hr & _)%write_out_ret. lia. }
  rewrite Hi. fold pos.
  set (si := set_i_mtime (now sl) sl).
  pose proof (inplace_init s u pos len (epoch si) (now si) Hpos Hlen Hmax si
                Htr Ht Ha Hp ltac:(by rewrite <- Hblk) Hi Hcf Hl Hm Hf) as Hinit.
  destruct (inplace_loop _ _ _ _ _ _ _ _) as [r |] eqn:Eloop; [| done].
  pose proof (inplace_loop_inv alloc csum_of s u pos len (epoch si) (now si) Halloc Hblk
                Hwf Hpos Hlen Hmax Hchain Hindex Hinj _ _ _ _ _ Hinit Eloop) as Hres.
  destruct r as [s1 l1 | s1 l1 | s1 l1 r1]; [done | |].
  2:{ intros (Hr & _)%write_out_ret. lia. }
  destruct Hres as [(rs & Hinv & Hnb) | Hshort].
  - intros Hc.
    by apply (inplace_commit_chunks csum_of s u pos len (epoch si) (now si)
                Hwf Hpos Hlen Hmax Hchain Hindex Hsize Hcsum fuel s1 l1 rs _ ppos
                need_mutex s' ppos' Hinv Hnb) in Hc.
  - intros [Hr | Hr]%inplace_commit_ret; [lia | unfold EINVAL in Hr; lia].
Qed.

End InplaceBack.

(** ** Round trip *)

Lemma map_seqZ_shift (f : Z -> byte) pos len :
  map (fun x => f (x - pos)) (seqZ pos len) = map f (seqZ 0 len).
Proof.
  unfold seqZ. rewrite <- !list_fmap_compose.
  apply map_ext. intros i. simpl. f_equal. lia.
Qed.

(** X1. With data checksums off, a write of [len > 0] bytes that returns
    [len], under either write policy, followed by a read of [len] bytes
    at the position of the write returns [len] and exactly the bytes of
    the user buffer of the write. *)
Theorem write_then_read_returns_data
    (alloc : allocator) (csum_of : list byte -> Z) (inplace_data_updates : Z)
    (fuel fuel' : nat) (s : nova_state) (filp : file) (u dst : ubuf) (len ppos : Z)
    (s' : nova_state) (ppos' : Z) :
  let pos := if f_append filp then i_size s else ppos in
  let pages := Z.to_nat ((pos + len - 1) / 4096 + 1 - pos / 4096) in
  alloc_sound alloc ->
  sih_i_blk_type s = 0 -> log_wf s -> data_csum s = 0 ->
  0 <= pos -> 0 < len -> pos + len < 2 ^ 62 -> i_size s < 2 ^ 62 ->
  f_remove_privs filp <= 0 ->
  NoDup (slot_of s (sih_log_tail s) :: log_chain s (sih_log_tail s) pages) ->
  (inplace_data_updates <> 0 -> index_wf s pages /\ index_inj s) ->
  ub_access_ok dst = true -> len <= ub_valid dst -> (pages <= fuel')%nat ->
  nova_dax_file_write alloc csum_of inplace_data_updates fuel s filp u len ppos
  = Some (s', len, ppos') ->
  ppos' = pos + len
  /\ nova_dax_file_read csum_of fuel' s' dst len pos
     = Some (len, map (ub_byte u) (seqZ 0 len), pos + len).
Proof.
  intros pos pages Halloc Hblk Hwf Hcsum Hpos Hlen Hmax Hsize Hprivs Hchain Hidx
    Hacc Hvalid Hfuel Hwrite.
  assert (ppos' = pos + len /\ pos + len <= i_size s' /\ i_size s' < 2 ^ 62
          /\ forall pg, pos / 4096 <= pg <= (pos + len - 1) / 4096 ->
                        chunk_ok csum_of s' pos len (fun x => ub_byte u (x - pos)) pg)
    as (Hpp & Hsz & Hsz' & Hchunks).
  { revert Hwrite. unfold nova_dax_file_write.
    destruct (Z.eqb_spec inplace_data_updates 0) as [H0 | Hn0]; simpl.
    - by apply cow_write_chunks.
    - destruct (Hidx Hn0) as [Hindex Hinj]. by apply inplace_write_chunks. }
  split; [done |]. unfold nova_dax_file_read.
  rewrite <- (map_seqZ_shift (ub_byte u) pos len).
  by apply read_chunks.
Qed.

Lemma ex_fresh_wf : log_wf ex_fresh.
Proof.
  split; [simpl; lia |]. intros k v. simpl.
  intros [_ <-]%lookup_singleton_Some. split; [lia | reflexivity].
Qed.

Lemma write_then_read_returns_data_witness :
  (exists s',
     nova_dax_file_write ex_alloc byte_sum 1 8 ex_fresh ex_file (ex_user x41 4096) 4096 0
     = Some (s', 4096, 4096)
     /\ nova_dax_file_read byte_sum 8 s' (ex_dest 4096) 4096 0
        = Some (4096, map (ub_byte (ex_user x41 4096)) (seqZ 0 4096), 0 + 4096))
  /\ (exists s',
        nova_dax_file_write ex_alloc byte_sum 0 8 ex_fresh ex_file (ex_user x41 4096) 4096 0
        = Some (s', 4096, 4096)
        /\ read_back byte_sum 8 (Some (s', 4096, 4096)) 4096 0
           = Some (4096, repeat x41 4096, 4096))
  /\ map (ub_byte (ex_user x41 4096)) (seqZ 0 4096) = repeat x41 4096.
Proof.
  split; [| split; [| vm_compute; reflexivity]].
  - destruct (wr_ret_some
                (nova_dax_file_write ex_alloc byte_sum 1 8 ex_fresh ex_file (ex_user x41 4096)
                   4096 0) 4096 4096) as [s' Hs']; [vm_compute; reflexivity |].
    exists s'. split; [exact Hs' |].
    apply (write_then_read_returns_data ex_alloc byte_sum 1 8 8 ex_fresh ex_file
             (ex_user x41 4096) (ex_dest 4096) 4096 0 s' 4096).
    + apply first_fit_sound. lia.
    + reflexivity.
    + exact ex_fresh_wf.
    + reflexivity.
    + simpl. lia.
    + lia.
    + simpl. lia.
    + simpl. lia.
    + simpl. lia.
    + apply (bool_decide_unpack _). vm_compute. exact I.
    + intros _. split.
      * intros pg c Hl. simpl in Hl. by rewrite lookup_empty in Hl.
      * intros pg1 pg2 c1 c2 Hl. simpl in Hl. by rewrite lookup_empty in Hl.
    + reflexivity.
    + simpl. lia.
    + vm_compute. lia.
    + exact Hs'.
  - destruct (wr_ret_some
                (nova_dax_file_write ex_alloc byte_sum 0 8 ex_fresh ex_file (ex_user x41 4096)
                   4096 0) 4096 4096) as [s' Hs']; [vm_compute; reflexivity |].
    exists s'. split; [exact Hs' |].
    rewrite <- Hs'. vm_compute. reflexivity.
Defined.

(** * The block mapping path: [nova_dax_get_blocks] and the iomap operations *)

(** The conversions of an [unsigned long] to [int] and to [u32]. *)
Definition int_of (z : Z) : Z := (z + 2 ^ 31) mod 2 ^ 32 - 2 ^ 31.
Definition u32 (z : Z) : Z := z mod 2 ^ 32.

(** Kernel constants of [linux/iomap.h] and [linux/mm.h]. *)
Inductive iomap_type := IOMAP_HOLE | IOMAP_MAPPED.

Definition IOMAP_F_MERGED : Z := 1.
Definition IOMAP_F_NEW : Z := 4.
Definition IOMAP_WRITE : Z := 1.
Definition IOMAP_NULL_BLOCK : Z := -1.
Definition VM_FAULT_SIGBUS : Z := 2.

(** [struct iomap], without the block device. *)
Record iomap := {
  io_blkno : Z;
  io_offset : Z;
  io_length : Z;
  io_type : iomap_type;
  io_flags : Z
}.

Section Mapping.

Variable alloc : allocator.

(** Modelled from the spec: [alloc_blocks(hint, count, zero, affinity)];
    with [zero] set the blocks are handed out zero-filled. *)
Definition nova_new_data_blocks_zero (s : nova_state) (blocknr start_blk num : Z)
    (zero : bool) : nova_state * Z * Z :=
  let '(s, b, ret) := nova_new_data_blocks alloc s blocknr start_blk num in
  if zero && (ret >? 0)
  then (set_pmem (mem_zero (pmem s) (nova_get_block (nova_get_block_off b))
                    (ret * PAGE_SIZE)) s, b, ret)
  else (s, b, ret).

(** The label [out1:]; the result is the state, the return value and
    [*bno]. *)
Definition get_blocks_out1 (s : nova_state) (num_blocks bno : Z)
    (taking_lock locked : bool) : nova_state * Z * Z :=
  (if taking_lock && locked then emit EvUnlock s else s, num_blocks, bno).

(** The label [out:]. *)
Definition get_blocks_out (fuel : nat) (s : nova_state)
    (num_blocks ret nvmm blocknr allocated : Z) (update : nova_inode_update) (bno : Z)
    (taking_lock locked : bool) : option (nova_state * Z * Z) :=
  if ret <? 0 then
    match nova_cleanup_incomplete_write fuel s blocknr allocated 0 (tail update) with
    | None => None
    | Some (s, _) => Some (get_blocks_out1 s ret bno taking_lock locked)
    end
  else Some (get_blocks_out1 s num_blocks (u32 nvmm) taking_lock locked).

(** From [pi = nova_get_inode(sb, inode)] to the label [out:]: a run of
    zeroed blocks is allocated, logged with the file size as it is,
    committed and indexed. *)
Definition get_blocks_create (fuel : nat) (s : nova_state)
    (iblock num_blocks bno epoch_id : Z) (taking_lock locked : bool)
    : option (nova_state * Z * Z) :=
  let s := set_i_mtime (now s) s in
  let time := now s in
  let update := {| tail := sih_log_tail s; alter_tail := sih_alter_log_tail s;
                   curr_entry := 0 |} in
  let '(s, blocknr, allocated) := nova_new_data_blocks_zero s 0 iblock num_blocks true in
  if allocated <=? 0
  then get_blocks_out fuel s num_blocks allocated 0 blocknr allocated update bno
         taking_lock locked
  else
    let num_blocks := allocated in
    let entry_data := nova_init_file_write_entry epoch_id iblock num_blocks blocknr
                        time (i_size s) in
    let '(s, update, ret) := nova_append_file_write_entry s entry_data update in
    if negb (ret =? 0)
    then get_blocks_out fuel s num_blocks (- ENOSPC) 0 blocknr allocated update bno
           taking_lock locked
    else
      let nvmm := blocknr in
      let data_bits := blk_type_to_shift (sih_i_blk_type s) in
      let s := set_sih_i_blocks
                 (sih_i_blocks s + Z.shiftl num_blocks (data_bits - s_blocksize_bits)) s in
      let s := nova_update_inode s update in
      match nova_reassign_file_tree fuel s (curr_entry update) with
      | None => None
      | Some (s, ret) =>
          if negb (ret =? 0)
          then get_blocks_out fuel s num_blocks ret nvmm blocknr allocated update bno
                 taking_lock locked
          else
            let s := set_i_blocks (sih_i_blocks s) s in
            get_blocks_out fuel s num_blocks ret nvmm blocknr allocated update bno
              taking_lock locked
      end.

(** From the label [again:] on; [passes] bounds the jumps back to it (the
    code jumps once, after it has taken the lock). *)
Fixpoint get_blocks_again (passes fuel : nat) (s : nova_state)
    (iblock max_blocks bno create : Z) (taking_lock locked check_next : bool)
    (epoch_id : Z) : option (nova_state * Z * Z) :=
  match passes with
  | O => None
  | S passes =>
      let '(ent_blks, entry, inplace) :=
        nova_check_existing_entry s max_blocks iblock check_next epoch_id in
      let num_blocks := int_of ent_blks in
      if negb (entry =? 0) && ((create =? 0) || inplace)
      then
        let nvmm := get_nvmm (entry_at s entry) iblock in
        get_blocks_out fuel s num_blocks 0 nvmm 0 0
          {| tail := 0; alter_tail := 0; curr_entry := 0 |} bno taking_lock locked
      else if create =? 0
      then Some (get_blocks_out1 s 0 bno taking_lock locked)
      else if taking_lock && negb locked
      then get_blocks_again passes fuel (emit EvLock s) iblock max_blocks bno create
             taking_lock true true epoch_id
      else get_blocks_create fuel s iblock num_blocks bno epoch_id taking_lock locked
  end.

(** The result is the state, the return value (the number of blocks
    mapped or allocated, [0] when a plain lookup fails, negative on
    error) and [*bno], which is [bno] when the code does not store to it. *)
Definition nova_dax_get_blocks (fuel : nat) (s : nova_state)
    (iblock max_blocks bno create : Z) (taking_lock : bool)
    : option (nova_state * Z * Z) :=
  if max_blocks =? 0 then Some (s, 0, bno)
  else
    let epoch_id := epoch s in
    let check_next := negb taking_lock in
    get_blocks_again 2 fuel s iblock max_blocks bno create taking_lock false
      check_next epoch_id.

(** [nova_iomap_begin]; [blkbits] is [inode->i_blkbits], [bno] the
    uninitialised local that [nova_dax_get_blocks] fills, and [new] is
    never set by the callee. *)
Definition nova_iomap_begin (fuel : nat) (s : nova_state) (blkbits : Z)
    (offset length flags : Z) (io : iomap) (bno : Z) (taking_lock : bool)
    : option (nova_state * Z * iomap) :=
  let first_block := ulong (Z.shiftr offset blkbits) in
  let max_blocks := ulong (Z.shiftr (length + Z.shiftl 1 blkbits - 1) blkbits) in
  let new := false in
  match nova_dax_get_blocks fuel s first_block max_blocks bno
          (Z.land flags IOMAP_WRITE) taking_lock with
  | None => None
  | Some (s, ret, bno) =>
      if ret <? 0 then Some (s, ret, io)
      else
        let io :=
          if ret =? 0
          then {| io_blkno := ulong IOMAP_NULL_BLOCK;
                  io_offset := ulong (Z.shiftl first_block blkbits);
                  io_length := Z.shiftl 1 blkbits;
                  io_type := IOMAP_HOLE; io_flags := 0 |}
          else {| io_blkno := ulong (Z.shiftl bno (blkbits - 9));
                  io_offset := ulong (Z.shiftl first_block blkbits);
                  io_length := ulong (Z.shiftl ret blkbits);
                  io_type := IOMAP_MAPPED; io_flags := Z.lor 0 IOMAP_F_MERGED |} in
        let io :=
          if new
          then {| io_blkno := io_blkno io; io_offset := io_offset io;
                  io_length := io_length io; io_type := io_type io;
                  io_flags := Z.lor (io_flags io) IOMAP_F_NEW |}
          else io in
        Some (s, 0, io)
  end.

(** [nova_iomap_end]: the result says whether the page cache is truncated
    to the file size, and the return value. *)
Definition nova_iomap_end (offset length written flags : Z) (io : iomap) : bool * Z :=
  (match io_type io with IOMAP_MAPPED => true | IOMAP_HOLE => false end
   && (written <? length) && negb (Z.land flags IOMAP_WRITE =? 0), 0).

Definition nova_iomap_begin_lock (fuel : nat) (s : nova_state) (blkbits : Z)
    (offset length flags : Z) (io : iomap) (bno : Z) : option (nova_state * Z * iomap) :=
  nova_iomap_begin fuel s blkbits offset length flags io bno true.

(** [nova_dax_pfn_mkwrite]; [dax_pfn_mkwrite] is the kernel's handler. *)
Definition nova_dax_pfn_mkwrite (dax_pfn_mkwrite : Z -> Z) (s : nova_state) (vmf_pgoff : Z)
    : nova_state * Z :=
  let s := emit EvLock s in
  let size := Z.shiftr (i_size s + PAGE_SIZE - 1) PAGE_SHIFT in
  let ret := if vmf_pgoff >=? size then VM_FAULT_SIGBUS else dax_pfn_mkwrite vmf_pgoff in
  (emit EvUnlock s, ret).

End Mapping.

(** ** Properties of the mapping path *)

(** The fields that a failed call must leave alone. *)
Record unchanged (s s' : nova_state) : Prop := {
  un_free : free_blocks s' = free_blocks s;
  un_log : log s' = log s;
  un_pages : log_pages s' = log_pages s;
  un_tree : sih_tree s' = sih_tree s;
  un_tail : sih_log_tail s' = sih_log_tail s;
  un_alter : sih_alter_log_tail s' = sih_alter_log_tail s;
  un_size : i_size s' = i_size s;
  un_blocks : sih_i_blocks s' = sih_i_blocks s
}.

(** The events of the work done under the inode lock. *)
Definition work_event (e : event) : Prop :=
  match e with EvLock | EvUnlock => False | _ => True end.

Lemma run_is_work s s' : grows run_event s s' -> grows work_event s s'.
Proof. apply grows_weaken. by intros []. Qed.

Lemma free_is_work s s' : grows free_event s s' -> grows work_event s s'.
Proof. apply grows_weaken. by intros []. Qed.

Lemma unchanged_refl s : unchanged s s.
Proof. by split. Qed.

Lemma unchanged_trans s1 s2 s3 : unchanged s1 s2 -> unchanged s2 s3 -> unchanged s1 s3.
Proof. intros [] []. split; congruence. Qed.

(** The count that [nova_check_existing_entry] answers is between 0 and
    the count asked for. *)
Lemma check_existing_bounds s nb pg cn ep :
  0 < nb ->
  0 <= (nova_check_existing_entry s nb pg cn ep).1.1 <= nb.
Proof.
  intros Hnb. unfold nova_check_existing_entry.
  repeat match goal with
  | |- context [ulong ?x] =>
      let H := fresh in pose proof (ulong_range x) as H; generalize dependent (ulong x); intros
  | |- context [if ?c then _ else _] => destruct c eqn:?
  end; simpl; lia.
Qed.

Lemma check_existing_emit e s nb pg cn ep :
  nova_check_existing_entry (emit e s) nb pg cn ep
  = nova_check_existing_entry s nb pg cn ep.
Proof. reflexivity. Qed.

(** The entry of a mapped page is found whether or not the next entry is
    looked for. *)
Lemma check_existing_found s nb pg cn ep c :
  sih_tree s !! pg = Some c -> c <> 0 ->
  pgoff (entry_at s c) <= pg < pgoff (entry_at s c) + num_pages (entry_at s c) ->
  0 <= pgoff (entry_at s c) -> num_pages (entry_at s c) < 2 ^ 63 -> 0 < nb ->
  nova_check_existing_entry s nb pg cn ep
  = (Z.min (chunk_pages (entry_at s c) pg) nb, c, epoch_id (entry_at s c) =? ep).
Proof.
  intros Ht Hc Hcov Hpg Hnp Hnb.
  rewrite <- (check_existing_covered s nb pg ep c) by done.
  unfold nova_check_existing_entry, nova_get_write_entry.
  rewrite Ht. simpl. by assert ((c =? 0) = false) as -> by lia.
Qed.

Lemma int_of_small z : - 2 ^ 31 <= z < 2 ^ 31 -> int_of z = z.
Proof. unfold int_of. lia. Qed.

(** A hole: the run to allocate is at least one block and at most the
    blocks asked for. *)
Lemma check_existing_hole_run s nb pg ep :
  nova_get_write_entry s pg = 0 -> 0 < nb ->
  (forall c, pgoff (entry_at s c) - pg < 2 ^ 64) ->
  exists n, nova_check_existing_entry s nb pg true ep = (n, 0, false) /\ 0 < n <= nb.
Proof.
  intros H0 Hnb Hfld. unfold nova_check_existing_entry. rewrite H0. simpl.
  destruct (negb (nova_find_next_entry s pg =? 0)); [| exists nb; split; [done | lia]].
  destruct (Z.leb_spec (pgoff (entry_at s (nova_find_next_entry s pg))) pg) as [Hle | Hgt];
    [exists nb; split; [done | lia] |].
  specialize (Hfld (nova_find_next_entry s pg)).
  rewrite ulong_small by lia.
  match goal with |- context [if ?x >? nb then _ else _] =>
    destruct (Z.gtb_spec x nb); eexists; (split; [reflexivity | lia]) end.
Qed.

Section MappingProps.

Variable alloc : allocator.
Hypothesis Halloc : alloc_sound alloc.

(** The reassign pass over the one entry just committed at [c]. *)
Lemma reassign_new_entry fuel s c e :
  log_wf s -> c = slot_of s c -> 0 < c -> sih_log_tail s = c + entry_size ->
  log s !! c = Some e -> entry_type e = FILE_WRITE -> (2 <= fuel)%nat ->
  exists s', nova_reassign_file_tree fuel s c = Some (s', 0)
    /\ same_data s s'
    /\ forall pg, sih_tree s' !! pg
                  = if bool_decide (covers e pg) then Some c else sih_tree s !! pg.
Proof.
  intros Hwf Hc Hc0 Htail Hl Hty Hfuel. unfold nova_reassign_file_tree.
  set (s1 := emit (EvReassign c) s).
  assert (entry_at s1 c = e) as He by (unfold entry_at; simpl; by rewrite Hl).
  destruct (reassign_loop_walk [c] fuel s1 c) as (s' & Hs' & Hd & Ht).
  - simpl. split; [exact Hc | split; [lia | by rewrite Htail]].
  - simpl. apply NoDup_cons. split; [| apply NoDup_singleton].
    intros Hin%list_elem_of_singleton. unfold entry_size in Hin. lia.
  - lia.
  - intros c' Hc'%list_elem_of_singleton. by subst.
  - intros c' Hc'%list_elem_of_singleton. subst c'. by rewrite He.
  - simpl. lia.
  - exists s'. split; [done |]. split; [by destruct Hd |].
    intros pg. destruct (Ht pg) as [(c' & Hc'%list_elem_of_singleton & Hcov & Hl') | [Hno Hl']].
    + subst c'. rewrite He in Hcov. by rewrite bool_decide_eq_true_2.
    + rewrite bool_decide_eq_false_2; [done |].
      intros Hcov. apply (Hno c); [apply list_elem_of_here | by rewrite He].
Qed.

Lemma slot_of_zero s : slot_of s 0 = 0.
Proof. reflexivity. Qed.

(** A creating call whose allocation and log append succeed. *)
Lemma get_blocks_create_effect fuel s iblock n bno ep tl locked a b :
  log_wf s -> slot_of s (sih_log_tail s) <> 0 -> (2 <= fuel)%nat ->
  alloc (free_blocks s) iblock n = (a, b) -> 0 < a ->
  let c := slot_of s (sih_log_tail s) in
  exists s' e,
    get_blocks_create alloc fuel s iblock n bno ep tl locked
    = Some (if tl && locked then emit EvUnlock s' else s', a, u32 b)
    /\ (forall pg, sih_tree s' !! pg
                   = if bool_decide (iblock <= pg < iblock + a) then Some c
                     else sih_tree s !! pg)
    /\ log s' !! c = Some e /\ entry_type e = FILE_WRITE /\ pgoff e = iblock
    /\ num_pages e = a /\ block e = nova_get_block_off b /\ epoch_id e = ep
    /\ (forall x, pmem s' x = if (b * 4096 <=? x) && (x <? (b + a) * 4096) then x00
                              else pmem s x)
    /\ i_size s' = i_size s /\ sih_log_tail s' = c + entry_size
    /\ log_pages s' = log_pages s
    /\ exists frees,
         trace s' = trace s ++ [EvAlloc b a; EvAppend c; EvUpdateInode (c + entry_size);
                                EvReassign c] ++ frees
         /\ Forall free_event frees.
Proof.
  intros Hwf Hc Hfuel Ea Ha c.
  assert (sih_log_tail s <> 0) as Ht0 by (intros E; rewrite E in Hc; by apply Hc).
  pose proof (slot_of_pos s _ Hwf (proj1 Hwf)) as Hc0. fold c in Hc0, Hc.
  unfold get_blocks_create, nova_new_data_blocks_zero, nova_new_data_blocks. cbv zeta.
  simpl free_blocks. rewrite Ea.
  assert ((a >? 0) = true) as Hgt by lia. rewrite Hgt. cbn [andb]. rewrite Hgt.
  cbv iota beta.
  assert ((a <=? 0) = false) as -> by lia.
  set (s1 := set_pmem _ _).
  set (data := nova_init_file_write_entry _ _ _ _ _ _).
  set (upd := {| tail := _ |}).
  assert (nova_append_file_write_entry s1 data upd
          = (emit (EvAppend c) (set_log (<[c := data]> (log s1)) s1),
             {| tail := c + entry_size; alter_tail := sih_alter_log_tail s;
                curr_entry := c |}, 0)) as ->.
  { unfold nova_append_file_write_entry. cbv zeta. subst upd. simpl tail.
    assert ((sih_log_tail s =? 0) = false) as -> by lia.
    change (if is_last_entry (sih_log_tail s) entry_size
            then next_log_page s1 (sih_log_tail s) else sih_log_tail s) with c.
    by assert ((c =? 0) = false) as -> by lia. }
  simpl negb. cbv iota beta. simpl curr_entry.
  set (s3 := nova_update_inode _ _).
  destruct (reassign_new_entry fuel s3 c data) as (s4 & Hr & Hd & Ht).
  - split; [simpl; unfold entry_size; lia | apply Hwf].
  - symmetry. apply (slot_of_idem s _ Hwf).
  - lia.
  - done.
  - simpl. apply lookup_insert_eq.
  - done.
  - done.
  - rewrite Hr. simpl negb. cbv iota beta. unfold get_blocks_out. simpl (0 <? 0). cbv iota.
    unfold get_blocks_out1.
    pose proof (sd_log _ _ Hd c) as Hlc. simpl in Hlc. rewrite lookup_insert_eq in Hlc.
    destruct (log s4 !! c) as [e |] eqn:El; [| done].
    destruct Hlc as (H1 & H2 & H3 & H4 & H5 & _).
    exists (set_i_blocks (sih_i_blocks s4) s4), e.
    split; [done |]. split.
    { intros pg. simpl. rewrite Ht. done. }
    simpl. rewrite (sd_pmem _ _ Hd), (sd_isize _ _ Hd), (sd_tail _ _ Hd), (sd_pages _ _ Hd).
    simpl. repeat (split; [done || congruence |]).
    split.
    { intros x. unfold mem_zero. rewrite get_block_off_eq. unfold PAGE_SIZE.
      destruct (Z.leb_spec (b * 4096) x), (Z.ltb_spec x (b * 4096 + a * 4096)),
        (Z.ltb_spec x ((b + a) * 4096)); simpl; done || lia. }
    repeat (split; [done |]).
    apply reassign_file_tree_trace in Hr as (frees & Hfr & Ffr).
    exists frees. split; [| done]. rewrite Hfr. simpl. by rewrite <- !app_assoc.
Qed.

Lemma grows_new_data_blocks_zero s blocknr start_blk num zero s' b a :
  nova_new_data_blocks_zero alloc s blocknr start_blk num zero = (s', b, a) ->
  grows run_event s s'.
Proof.
  unfold nova_new_data_blocks_zero.
  destruct (nova_new_data_blocks _ _ _ _ _) as [[s1 b1] a1] eqn:E.
  apply grows_new_data_blocks in E.
  destruct (_ && _); intros [= <- <- <-]; [| done].
  eapply grows_trans; [exact E | by apply grows_same].
Qed.

Lemma get_blocks_out_grows fuel s nb ret nvmm blocknr allocated upd bno tl locked s' r b :
  get_blocks_out fuel s nb ret nvmm blocknr allocated upd bno tl locked = Some (s', r, b) ->
  exists s1, s' = (if tl && locked then emit EvUnlock s1 else s1)
    /\ grows work_event s s1
    /\ r = (if ret <? 0 then ret else nb).
Proof.
  unfold get_blocks_out, get_blocks_out1. destruct (ret <? 0).
  - destruct (nova_cleanup_incomplete_write _ _ _ _ _ _) as [[s1 r1] |] eqn:E; [| done].
    intros [= <- <- <-]. exists s1. split; [done |]. split; [| done].
    apply free_is_work. by eapply grows_cleanup.
  - intros [= <- <- <-]. exists s. split; [done |]. split; [apply grows_refl | done].
Qed.

Lemma get_blocks_create_grows fuel s iblock n bno ep tl locked s' r b :
  get_blocks_create alloc fuel s iblock n bno ep tl locked = Some (s', r, b) ->
  exists s1, s' = (if tl && locked then emit EvUnlock s1 else s1)
    /\ grows work_event s s1.
Proof.
  unfold get_blocks_create. cbv zeta.
  destruct (nova_new_data_blocks_zero _ _ _ _ _ _) as [[s1 b1] a1] eqn:Ea.
  apply grows_new_data_blocks_zero, run_is_work in Ea.
  assert (grows work_event s s1) as G1.
  { eapply grows_trans; [| exact Ea]. by apply grows_same. }
  destruct (a1 <=? 0).
  { intros (s2 & -> & G & _)%get_blocks_out_grows. exists s2. split; [done |].
    by eapply grows_trans. }
  destruct (nova_append_file_write_entry _ _ _) as [[s2 upd] ret] eqn:Eap.
  apply grows_append, run_is_work in Eap.
  destruct (negb (ret =? 0)).
  { intros (s3 & -> & G & _)%get_blocks_out_grows. exists s3. split; [done |].
    eapply grows_trans; [exact G1 |]. by eapply grows_trans. }
  destruct (nova_reassign_file_tree _ _ _) as [[s3 ret3] |] eqn:Er; [| done].
  apply reassign_file_tree_trace in Er as (frees & Hfr & Ffr).
  assert (grows work_event s s3) as G3.
  { eapply grows_trans; [exact G1 |]. eapply grows_trans; [exact Eap |].
    exists ([EvUpdateInode (tail upd); EvReassign (curr_entry upd)] ++ frees). split.
    - rewrite Hfr. simpl. by rewrite <- app_assoc.
    - apply Forall_app. split; [by repeat constructor |].
      eapply Forall_impl; [exact Ffr |]. by intros []. }
  destruct (negb (ret3 =? 0)).
  - intros (s4 & -> & G & _)%get_blocks_out_grows. exists s4. split; [done |].
    by eapply grows_trans.
  - intros (s4 & -> & G & _)%get_blocks_out_grows. exists s4. split; [done |].
    eapply grows_trans; [exact G3 |]. eapply grows_trans; [| exact G]. by apply grows_same.
Qed.

(** A creating call that fails has changed nothing but the contents of
    free blocks. *)
Lemma get_blocks_create_fail fuel s iblock n bno ep tl locked s' ret b' :
  log_wf s -> (2 <= fuel)%nat -> 0 <= n ->
  get_blocks_create alloc fuel s iblock n bno ep tl locked = Some (s', ret, b') ->
  ret < 0 -> unchanged s s' /\ b' = bno.
Proof.
  intros Hwf Hfuel Hn Hg Hret.
  destruct (alloc (free_blocks s) iblock n) as [a b] eqn:Ea.
  destruct (Z.ltb_spec 0 a) as [Ha | Ha].
  - destruct (decide (slot_of s (sih_log_tail s) = 0)) as [Hc | Hc].
    + revert Hg. unfold get_blocks_create, nova_new_data_blocks_zero, nova_new_data_blocks.
      cbv zeta. simpl free_blocks. rewrite Ea.
      assert ((a >? 0) = true) as Hgt by lia. rewrite Hgt. cbn [andb]. rewrite Hgt.
      cbv iota beta.
      assert ((a <=? 0) = false) as -> by lia.
      set (s1 := set_pmem _ _).
      set (data := nova_init_file_write_entry _ _ _ _ _ _).
      set (upd := {| tail := _ |}).
      assert (nova_append_file_write_entry s1 data upd
              = (emit EvAppendFail s1, upd, - ENOSPC)) as ->.
      { unfold nova_append_file_write_entry. cbv zeta. subst upd. simpl tail.
        destruct (sih_log_tail s =? 0) eqn:E0; [done |].
        change (if is_last_entry (sih_log_tail s) entry_size
                then next_log_page s1 (sih_log_tail s) else sih_log_tail s)
          with (slot_of s (sih_log_tail s)).
        by rewrite Hc. }
      simpl negb. cbv iota. unfold get_blocks_out. simpl (_ <? 0). cbv iota.
      unfold nova_cleanup_incomplete_write. cbv zeta.
      destruct (Halloc _ _ _ _ _ Ea Ha) as (_ & Hb & Hsub).
      assert ((b >? 0) = true) as -> by lia. rewrite Hgt. simpl.
      intros [= <- <- <-]. split; [| done].
      assert (unchanged s (nova_free_data_blocks (emit EvAppendFail s1) b a)) as Hu.
      { split; try done. simpl. apply set_eq. intros x.
        destruct (decide (x ∈ blocks b a)); set_solver. }
      destruct (tl && locked); [| done]. by destruct Hu.
    + destruct (get_blocks_create_effect fuel s iblock n bno ep tl locked a b)
        as (s1 & e & Hs1 & _); try done.
      rewrite Hs1 in Hg. inversion Hg. lia.
  - revert Hg. unfold get_blocks_create, nova_new_data_blocks_zero, nova_new_data_blocks.
    cbv zeta. simpl free_blocks. rewrite Ea.
    assert ((a >? 0) = false) as Hgt by lia. rewrite Hgt. cbv iota beta.
    rewrite ?Hgt. cbn [andb]. cbv iota beta.
    assert ((a <=? 0) = true) as -> by lia.
    unfold get_blocks_out, get_blocks_out1. destruct (Z.ltb_spec a 0).
    + unfold nova_cleanup_incomplete_write. simpl.
      intros [= <- <- <-]. split; [| done]. by destruct (tl && locked).
    + intros [= <- <- <-]. lia.
Qed.

Lemma get_blocks_again_fail passes : forall fuel s iblock mb bno create tl locked cn ep s' ret b',
  log_wf s -> (2 <= fuel)%nat -> 0 < mb < 2 ^ 31 ->
  get_blocks_again alloc passes fuel s iblock mb bno create tl locked cn ep
  = Some (s', ret, b') ->
  ret < 0 -> unchanged s s' /\ b' = bno.
Proof.
  induction passes as [| passes IH]; intros fuel s iblock mb bno create tl locked cn ep
    s' ret b' Hwf Hfuel Hmb; simpl; [done |].
  pose proof (check_existing_bounds s mb iblock cn ep ltac:(lia)) as Hb.
  destruct (nova_check_existing_entry s mb iblock cn ep) as [[n entry] inplace].
  simpl in Hb. rewrite int_of_small by lia.
  destruct (_ && _).
  { unfold get_blocks_out, get_blocks_out1. simpl. intros [= <- <- <-]. lia. }
  destruct (create =? 0).
  { unfold get_blocks_out1. intros [= <- <- <-]. lia. }
  destruct (tl && negb locked).
  - intros Hg Hret.
    destruct (IH fuel (emit EvLock s) _ _ _ _ _ _ _ _ _ _ _ Hwf Hfuel Hmb Hg Hret) as [[] ->].
    by split.
  - apply get_blocks_create_fail; [done | done | lia].
Qed.

Lemma get_blocks_again_lock passes : forall fuel s iblock mb bno create tl locked cn ep s' r b,
  get_blocks_again alloc passes fuel s iblock mb bno create tl locked cn ep
  = Some (s', r, b) ->
  exists evs, Forall work_event evs
    /\ (trace s' = trace s ++ evs ++ (if tl && locked then [EvUnlock] else [])
        \/ (tl = true /\ locked = false /\ create <> 0
            /\ trace s' = trace s ++ [EvLock] ++ evs ++ [EvUnlock])).
Proof.
  induction passes as [| passes IH]; intros fuel s iblock mb bno create tl locked cn ep
    s' r b; simpl; [done |].
  destruct (nova_check_existing_entry s mb iblock cn ep) as [[n entry] inplace].
  assert (forall s1, s' = (if tl && locked then emit EvUnlock s1 else s1) ->
            grows work_event s s1 ->
            exists evs, Forall work_event evs
              /\ (trace s' = trace s ++ evs ++ (if tl && locked then [EvUnlock] else [])
                  \/ (tl = true /\ locked = false /\ create <> 0
                      /\ trace s' = trace s ++ [EvLock] ++ evs ++ [EvUnlock]))) as Hout.
  { intros s1 -> (evs & He & Fe). exists evs. split; [done |]. left.
    destruct (tl && locked); simpl; rewrite He; [by rewrite <- app_assoc | by rewrite app_nil_r]. }
  destruct (negb (entry =? 0) && _).
  { intros (s1 & Hs1 & G & _)%get_blocks_out_grows. by eapply Hout. }
  destruct (Z.eqb_spec create 0) as [Hcr | Hcr].
  { unfold get_blocks_out1. intros [= <- <- <-]. eapply Hout; [done | apply grows_refl]. }
  destruct tl, locked; simpl.
  - intros (s1 & Hs1 & G)%get_blocks_create_grows. by eapply Hout.
  - intros (evs & Fe & [He | (_ & [=] & _)])%IH. exists evs. split; [done |]. right.
    repeat (split; [done |]). rewrite He. simpl. by rewrite <- !app_assoc.
  - intros (s1 & Hs1 & G)%get_blocks_create_grows. by eapply Hout.
  - intros (s1 & Hs1 & G)%get_blocks_create_grows. by eapply Hout.
Qed.

End MappingProps.


Lemma check_existing_hole_any s nb pg cn ep :
  nova_get_write_entry s pg = 0 ->
  exists n, nova_check_existing_entry s nb pg cn ep = (n, 0, false).
Proof.
  intros H0. unfold nova_check_existing_entry. rewrite H0. simpl.
  destruct cn; [| by eexists].
  destruct (negb _); [| by eexists]. destruct (_ <=? pg); by eexists.
Qed.

Lemma get_write_entry_some s pg :
  nova_get_write_entry s pg <> 0 -> sih_tree s !! pg = Some (nova_get_write_entry s pg).
Proof. unfold nova_get_write_entry. by destruct (sih_tree s !! pg). Qed.

Lemma chunk_pages_pos e pg :
  pg < pgoff e + num_pages e -> 1 <= chunk_pages e pg.
Proof. unfold chunk_pages. destruct (_ =? 0); lia. Qed.

(** What the caller of a mapping call sees besides the state. *)
Definition gb_ret (r : option (nova_state * Z * Z)) : option (Z * Z) :=
  match r with
  | Some (_, ret, bno) => Some (ret, bno)
  | None => None
  end.

Lemma gb_ret_some r ret bno :
  gb_ret r = Some (ret, bno) -> exists s', r = Some (s', ret, bno).
Proof.
  destruct r as [[[s' ret'] bno'] |]; simpl; [| done].
  intros [= -> ->]. by exists s'.
Qed.

(** X2. A call that has nothing to allocate -- a plain lookup, or a creating
    call on a page that an entry of the current epoch maps -- returns the
    state as it was, with no lock taken.  On a hole it answers 0 and does
    not store to [*bno]; on a mapped page it answers the block of the page
    and a count between 1 and [max_blocks], and all the pages of the
    extent it reports are indexed by the entry of the first one, whose
    blocks for them are consecutive. *)
Theorem get_blocks_lookup_reports_index
    (alloc : allocator) (fuel : nat) (s : nova_state)
    (iblock max_blocks bno create : Z) (taking_lock : bool) :
  let c := nova_get_write_entry s iblock in
  0 < max_blocks < 2 ^ 31 -> index_wf s 0 ->
  create = 0 \/ (c <> 0 /\ epoch_id (entry_at s c) = epoch s) ->
  exists n b,
    nova_dax_get_blocks alloc fuel s iblock max_blocks bno create taking_lock
    = Some (s, n, b)
    /\ (c = 0 -> n = 0 /\ b = bno)
    /\ (c <> 0 ->
        1 <= n <= max_blocks
        /\ b = u32 (get_nvmm (entry_at s c) iblock)
        /\ forall k, 0 <= k < n ->
             nova_get_write_entry s (iblock + k) = c
             /\ get_nvmm (entry_at s c) (iblock + k) = get_nvmm (entry_at s c) iblock + k).
Proof.
  intros c Hmb Hidx Hcase. unfold nova_dax_get_blocks.
  assert ((max_blocks =? 0) = false) as -> by lia. cbv zeta. simpl get_blocks_again.
  destruct (decide (c = 0)) as [Hc | Hc].
  - destruct Hcase as [-> | [? _]]; [| done].
    destruct (check_existing_hole_any s max_blocks iblock (negb taking_lock) (epoch s) Hc)
      as [n ->].
    simpl. unfold get_blocks_out1. rewrite andb_false_r.
    exists 0, bno. split; [done |]. split; [done |]. by intros.
  - pose proof (get_write_entry_some s iblock Hc) as Ht. fold c in Ht.
    destruct (Hidx _ _ Ht Hc) as (e & Hl & Hpg & Hhi & Hnp & Hown & _).
    assert (entry_at s c = e) as He by (unfold entry_at; by rewrite Hl).
    rewrite (check_existing_found s max_blocks iblock _ (epoch s) c); rewrite ?He; try lia;
      [| done].
    assert ((c =? 0) = false) as -> by lia.
    assert ((create =? 0) || (epoch_id e =? epoch s) = true) as ->.
    { destruct Hcase as [-> | [_ Hep]]; [done |]. rewrite He in Hep.
      rewrite Hep, Z.eqb_refl. apply orb_true_r. }
    simpl. unfold get_blocks_out, get_blocks_out1. simpl. rewrite andb_false_r.
    pose proof (chunk_pages_pos e iblock Hhi) as Hch.
    rewrite int_of_small by lia.
    eexists _, _. split; [reflexivity |]. split; [done |]. intros _.
    split; [lia |]. split; [done |]. intros k Hk. split.
    + unfold chunk_pages in *. destruct (Z.eqb_spec (reassigned e) 0) as [Hr | Hr].
      * unfold nova_get_write_entry at 1. rewrite (Hown Hr (iblock + k)); [done | lia].
      * assert (k = 0) as -> by lia. by rewrite Z.add_0_r.
    + unfold get_nvmm. lia.
Qed.

Lemma ex_block_A_index : index_wf ex_block_A 0.
Proof.
  intros pg c Ht Hc. simpl in Ht. apply lookup_singleton_Some in Ht as [<- <-].
  exists ex_entry_A. split; [done |]. simpl. split; [lia |]. split; [lia |]. split; [lia |].
  split; [| split].
  - intros _ pg' Hpg'. assert (pg' = 0) as -> by lia. done.
  - change (16 ∉ blocks 17 31). rewrite elem_of_blocks. lia.
  - apply not_elem_of_nil.
Qed.

Lemma get_blocks_lookup_reports_index_witness :
  exists n b,
    nova_dax_get_blocks ex_alloc 4 ex_block_A 0 5 77 1 true = Some (ex_block_A, n, b)
    /\ (nova_get_write_entry ex_block_A 0 = 0 -> n = 0 /\ b = 77)
    /\ (nova_get_write_entry ex_block_A 0 <> 0 ->
        1 <= n <= 5
        /\ b = u32 (get_nvmm (entry_at ex_block_A (nova_get_write_entry ex_block_A 0)) 0)
        /\ forall k, 0 <= k < n ->
             nova_get_write_entry ex_block_A (0 + k) = nova_get_write_entry ex_block_A 0
             /\ get_nvmm (entry_at ex_block_A (nova_get_write_entry ex_block_A 0)) (0 + k)
                = get_nvmm (entry_at ex_block_A (nova_get_write_entry ex_block_A 0)) 0 + k).
Proof.
  apply (get_blocks_lookup_reports_index ex_alloc 4 ex_block_A 0 5 77 1 true).
  - lia.
  - apply ex_block_A_index.
  - right. split; [by vm_compute | reflexivity].
Defined.

Lemma shiftr_block_off b : Z.shiftr (nova_get_block_off b) PAGE_SHIFT = b.
Proof.
  unfold nova_get_block_off, PAGE_SHIFT. rewrite Z.shiftr_shiftl_l by lia.
  by rewrite Z.sub_diag, Z.shiftl_0_r.
Qed.

(** The page has no entry of the current epoch: the existing-entry check
    of a creating call does not end the call, and with [check_next] it
    answers a run of at least one block. *)
Lemma check_existing_stale s mb iblock create cn :
  let c := nova_get_write_entry s iblock in
  0 < mb -> 0 <= iblock -> (forall p, pgoff (entry_at s p) < 2 ^ 64) -> index_wf s 0 ->
  create <> 0 -> c = 0 \/ epoch_id (entry_at s c) <> epoch s ->
  exists n entry inplace,
    nova_check_existing_entry s mb iblock cn (epoch s) = (n, entry, inplace)
    /\ negb (entry =? 0) && ((create =? 0) || inplace) = false
    /\ (cn = true -> 0 < n <= mb).
Proof.
  intros c Hmb Hib Hfld Hidx Hcr Hcase.
  assert ((create =? 0) = false) as Hcr0 by lia.
  destruct (decide (c = 0)) as [Hc | Hc].
  - destruct cn.
    + destruct (check_existing_hole_run s mb iblock (epoch s) Hc Hmb) as (n & -> & Hn).
      { intros p. specialize (Hfld p). lia. }
      by exists n, 0, false.
    + destruct (check_existing_hole_any s mb iblock false (epoch s) Hc) as (n & ->).
      by exists n, 0, false.
  - destruct Hcase as [? | Hep]; [done |].
    pose proof (get_write_entry_some s iblock Hc) as Ht. fold c in Ht.
    destruct (Hidx _ _ Ht Hc) as (e & Hl & Hpg & Hhi & Hnp & Hown & _).
    assert (entry_at s c = e) as He by (unfold entry_at; by rewrite Hl).
    rewrite (check_existing_found s mb iblock _ (epoch s) c); rewrite ?He; try lia; [| done].
    rewrite He in Hep. pose proof (chunk_pages_pos e iblock Hhi).
    eexists _, _, _. split; [reflexivity |].
    rewrite Hcr0. assert ((epoch_id e =? epoch s) = false) as -> by lia.
    split; [by rewrite andb_false_r | lia].
Qed.

(** X3. A creating call on a page that no entry of the current epoch maps (a
    hole, or a page last written in an earlier epoch), when the allocator
    and the log have room: it answers a run of [a] blocks, between 1 and
    [max_blocks], that were free; it appends and commits one write entry
    for them and indexes the pages of the run with it, the other pages as
    before; the blocks are zero-filled (the old bytes of a page of an
    earlier epoch are not copied); the file size stays as it was; and the
    inode lock, if asked for, is taken before the allocation and released
    after the reassignment pass. *)
Theorem get_blocks_create_maps_zeroed_run
    (alloc : allocator) (fuel : nat) (s : nova_state)
    (iblock max_blocks bno create : Z) (taking_lock : bool) :
  let c0 := nova_get_write_entry s iblock in
  let c := slot_of s (sih_log_tail s) in
  alloc_sound alloc -> log_wf s -> index_wf s 0 -> (2 <= fuel)%nat ->
  0 < max_blocks < 2 ^ 31 -> 0 <= iblock ->
  (forall p, pgoff (entry_at s p) < 2 ^ 64) ->
  create <> 0 -> c0 = 0 \/ epoch_id (entry_at s c0) <> epoch s ->
  c <> 0 ->
  (forall num, 0 < num -> 0 < (alloc (free_blocks s) iblock num).1) ->
  exists s' a b frees,
    nova_dax_get_blocks alloc fuel s iblock max_blocks bno create taking_lock
    = Some (s', a, u32 b)
    /\ 1 <= a <= max_blocks /\ 0 < b /\ blocks b a ⊆ free_blocks s
    /\ (forall pg, iblock <= pg < iblock + a ->
          nova_get_write_entry s' pg = c
          /\ get_nvmm (entry_at s' c) pg = b + (pg - iblock))
    /\ (forall pg, ~ (iblock <= pg < iblock + a) -> sih_tree s' !! pg = sih_tree s !! pg)
    /\ (forall x, b * 4096 <= x < (b + a) * 4096 -> pmem s' x = x00)
    /\ i_size s' = i_size s
    /\ sih_log_tail s' = c + entry_size
    /\ trace s' = trace s ++ (if taking_lock then [EvLock] else [])
                    ++ [EvAlloc b a; EvAppend c; EvUpdateInode (c + entry_size);
                        EvReassign c]
                    ++ frees ++ (if taking_lock then [EvUnlock] else [])
    /\ Forall free_event frees.
Proof.
  intros c0 c Halloc Hwf Hidx Hfuel Hmb Hib Hfld Hcr Hcase Hc Hsucc.
  assert ((create =? 0) = false) as Hcr0 by lia.
  destruct (check_existing_stale s max_blocks iblock create true
              ltac:(lia) Hib Hfld Hidx Hcr Hcase) as (n & entry & inplace & Hck & Hcond & Hn).
  specialize (Hn eq_refl).
  destruct (alloc (free_blocks s) iblock n) as [a b] eqn:Ea.
  pose proof (Hsucc n ltac:(lia)) as Ha. rewrite Ea in Ha. simpl in Ha.
  destruct (Halloc _ _ _ _ _ Ea Ha) as (Han & Hb & Hsub).
  assert (forall s0 tl locked,
            log_wf s0 -> slot_of s0 (sih_log_tail s0) = c ->
            alloc (free_blocks s0) iblock n = (a, b) ->
            sih_tree s0 = sih_tree s -> pmem s0 = pmem s -> i_size s0 = i_size s ->
            exists s1 frees,
              get_blocks_create alloc fuel s0 iblock n bno (epoch s) tl locked
              = Some (if tl && locked then emit EvUnlock s1 else s1, a, u32 b)
              /\ (forall pg, iblock <= pg < iblock + a ->
                    nova_get_write_entry s1 pg = c
                    /\ get_nvmm (entry_at s1 c) pg = b + (pg - iblock))
              /\ (forall pg, ~ (iblock <= pg < iblock + a) ->
                    sih_tree s1 !! pg = sih_tree s !! pg)
              /\ (forall x, b * 4096 <= x < (b + a) * 4096 -> pmem s1 x = x00)
              /\ i_size s1 = i_size s
              /\ sih_log_tail s1 = c + entry_size
              /\ trace s1 = trace s0 ++ [EvAlloc b a; EvAppend c;
                                         EvUpdateInode (c + entry_size); EvReassign c]
                              ++ frees
              /\ Forall free_event frees) as Hcreate.
  { intros s0 tl locked Hwf0 Hc0 Ea0 Ht0 Hp0 Hs0.
    destruct (get_blocks_create_effect alloc fuel s0 iblock n bno (epoch s) tl locked a b)
      as (s1 & e & Hs1 & Ht & Hl & Hty & Hpg & Hnp & Hbl & Hep & Hmem & Hsz & Htl & _
          & frees & Htr & Ffr); try done.
    { by rewrite Hc0. }
    rewrite Hc0 in *. exists s1, frees. split; [done |].
    split.
    { intros pg Hpg'. unfold nova_get_write_entry, entry_at, get_nvmm.
      rewrite Ht, bool_decide_eq_true_2, Hl by done. simpl.
      split; [done |]. rewrite Hbl, shiftr_block_off. lia. }
    split.
    { intros pg Hpg'. by rewrite Ht, bool_decide_eq_false_2, Ht0. }
    split.
    { intros x Hx. rewrite Hmem.
      destruct (Z.leb_spec (b * 4096) x), (Z.ltb_spec x ((b + a) * 4096)); simpl; done || lia. }
    split; [congruence |]. done. }
  unfold nova_dax_get_blocks.
  assert ((max_blocks =? 0) = false) as -> by lia. cbv zeta.
  destruct taking_lock.
  - destruct (check_existing_stale s max_blocks iblock create false
                ltac:(lia) Hib Hfld Hidx Hcr Hcase) as (n1 & entry1 & inplace1 & Hck1 & Hcond1 & _).
    rewrite Hcr0 in Hcond, Hcond1.
    simpl get_blocks_again. rewrite Hcr0, Hck1. cbv iota beta.
    rewrite Hcond1. simpl (true && negb false).
    cbv iota. rewrite check_existing_emit, Hck. cbv iota beta.
    rewrite Hcond. simpl (true && negb true).
    cbv iota. rewrite int_of_small by lia.
    destruct (Hcreate (emit EvLock s) true true) as (s1 & frees & Hs1 & H1 & H2 & H3 & H4 & H5 & H6 & H7);
      try done.
    rewrite Hs1. exists (emit EvUnlock s1), a, b, frees. simpl.
    split; [done |]. repeat (split; [done || lia |]).
    split; [| done]. rewrite H6. simpl. by rewrite <- !app_assoc.
  - rewrite Hcr0 in Hcond.
    simpl get_blocks_again. rewrite Hcr0, Hck. cbv iota beta.
    rewrite Hcond. simpl (false && _). cbv iota.
    rewrite int_of_small by lia.
    destruct (Hcreate s false false) as (s1 & frees & Hs1 & H1 & H2 & H3 & H4 & H5 & H6 & H7);
      try done.
    rewrite Hs1. exists s1, a, b, frees. simpl.
    split; [done |]. repeat (split; [done || lia |]).
    split; [| done]. rewrite H6. simpl. by rewrite app_nil_r.
Qed.

Lemma ex_block_A_later_wf : log_wf ex_block_A_later.
Proof.
  split; [simpl; lia |]. intros k v. simpl.
  intros [_ <-]%lookup_singleton_Some. split; [lia | reflexivity].
Qed.

Lemma ex_block_A_later_index : index_wf ex_block_A_later 0.
Proof.
  intros pg c Ht Hc. simpl in Ht. apply lookup_singleton_Some in Ht as [<- <-].
  exists ex_entry_A. split; [done |]. simpl. split; [lia |]. split; [lia |]. split; [lia |].
  split; [| split].
  - intros _ pg' Hpg'. assert (pg' = 0) as -> by lia. done.
  - change (16 ∉ blocks 17 31). rewrite elem_of_blocks. lia.
  - apply not_elem_of_nil.
Qed.

Lemma get_blocks_create_maps_zeroed_run_witness :
  exists s' a b frees,
    nova_dax_get_blocks ex_alloc 4 ex_block_A_later 0 5 77 1 true = Some (s', a, u32 b)
    /\ 1 <= a <= 5 /\ 0 < b /\ blocks b a ⊆ free_blocks ex_block_A_later
    /\ (forall pg, 0 <= pg < 0 + a ->
          nova_get_write_entry s' pg = 8256
          /\ get_nvmm (entry_at s' 8256) pg = b + (pg - 0))
    /\ (forall pg, ~ (0 <= pg < 0 + a) ->
          sih_tree s' !! pg = sih_tree ex_block_A_later !! pg)
    /\ (forall x, b * 4096 <= x < (b + a) * 4096 -> pmem s' x = x00)
    /\ i_size s' = i_size ex_block_A_later
    /\ sih_log_tail s' = 8256 + entry_size
    /\ trace s' = trace ex_block_A_later ++ [EvLock]
                    ++ [EvAlloc b a; EvAppend 8256; EvUpdateInode (8256 + entry_size);
                        EvReassign 8256]
                    ++ frees ++ [EvUnlock]
    /\ Forall free_event frees.
Proof.
  apply (get_blocks_create_maps_zeroed_run ex_alloc 4 ex_block_A_later 0 5 77 1 true).
  - apply first_fit_sound. lia.
  - exact ex_block_A_later_wf.
  - exact ex_block_A_later_index.
  - lia.
  - lia.
  - lia.
  - intros p. unfold entry_at. simpl.
    destruct (decide (p = 8192)) as [-> | Hne].
    + rewrite lookup_singleton_eq. simpl. lia.
    + rewrite lookup_singleton_ne by done. simpl. lia.
  - lia.
  - right. vm_compute. lia.
  - by vm_compute.
  - intros num Hnum. unfold ex_alloc, first_fit. cbv zeta.
    assert (Z.min 2 num = 1 \/ Z.min 2 num = 2) as [-> | ->] by lia; vm_compute; done.
Defined.

(** X4. A call that returns an error has changed neither the free-block set,
    nor the log, nor the committed tails, nor the index, nor the sizes, and
    it has not stored to [*bno]: the blocks it had allocated are back with
    the allocator. *)
Theorem get_blocks_failure_changes_nothing
    (alloc : allocator) (fuel : nat) (s : nova_state)
    (iblock max_blocks bno create : Z) (taking_lock : bool)
    (s' : nova_state) (ret b : Z) :
  alloc_sound alloc -> log_wf s -> (2 <= fuel)%nat -> 0 < max_blocks < 2 ^ 31 ->
  nova_dax_get_blocks alloc fuel s iblock max_blocks bno create taking_lock
  = Some (s', ret, b) ->
  ret < 0 ->
  unchanged s s' /\ b = bno.
Proof.
  intros Halloc Hwf Hfuel Hmb Hg Hret. unfold nova_dax_get_blocks in Hg.
  assert ((max_blocks =? 0) = false) as E by lia. rewrite E in Hg.
  by eapply get_blocks_again_fail.
Qed.

(** A device without a free block. *)
Definition ex_full : nova_state := set_free ∅ ex_fresh.

Lemma get_blocks_failure_changes_nothing_witness :
  exists s',
    nova_dax_get_blocks ex_alloc 4 ex_full 3 5 77 1 true = Some (s', - ENOSPC, 77)
    /\ unchanged ex_full s' /\ 77 = 77.
Proof.
  destruct (gb_ret_some (nova_dax_get_blocks ex_alloc 4 ex_full 3 5 77 1 true)
              (- ENOSPC) 77) as [s' Hs']; [vm_compute; reflexivity |].
  exists s'. split; [exact Hs' |].
  apply (get_blocks_failure_changes_nothing ex_alloc 4 ex_full 3 5 77 1 true s' (- ENOSPC) 77).
  - apply first_fit_sound. lia.
  - exact ex_fresh_wf.
  - lia.
  - lia.
  - exact Hs'.
  - unfold ENOSPC. lia.
Defined.

(** X5. The inode lock of a mapping call: the call takes it at most once, only
    when it was asked to ([taking_lock]) and has to allocate ([create]),
    and then before any other event; it releases it as its last event,
    whatever the outcome. *)
Theorem get_blocks_lock_is_balanced
    (alloc : allocator) (fuel : nat) (s : nova_state)
    (iblock max_blocks bno create : Z) (taking_lock : bool)
    (s' : nova_state) (ret b : Z) :
  nova_dax_get_blocks alloc fuel s iblock max_blocks bno create taking_lock
  = Some (s', ret, b) ->
  exists evs, Forall work_event evs
    /\ (trace s' = trace s ++ evs
        \/ (taking_lock = true /\ create <> 0
            /\ trace s' = trace s ++ [EvLock] ++ evs ++ [EvUnlock])).
Proof.
  unfold nova_dax_get_blocks. destruct (max_blocks =? 0).
  - intros [= <- <- <-]. exists []. split; [constructor | left; by rewrite app_nil_r].
  - intros (evs & Fe & [He | (Htl & _ & Hcr & He)])%get_blocks_again_lock.
    + exists evs. split; [done |]. left.
      rewrite He, andb_false_r. by rewrite app_nil_r.
    + exists evs. split; [done |]. by right.
Qed.

Lemma get_blocks_lock_is_balanced_witness :
  exists s' evs,
    nova_dax_get_blocks ex_alloc 4 ex_fresh 3 5 77 1 true = Some (s', 2, 16)
    /\ Forall work_event evs
    /\ (trace s' = trace ex_fresh ++ evs
        \/ (true = true /\ 1 <> 0
            /\ trace s' = trace ex_fresh ++ [EvLock] ++ evs ++ [EvUnlock])).
Proof.
  destruct (gb_ret_some (nova_dax_get_blocks ex_alloc 4 ex_fresh 3 5 77 1 true) 2 16)
    as [s' Hs']; [vm_compute; reflexivity |].
  destruct (get_blocks_lock_is_balanced ex_alloc 4 ex_fresh 3 5 77 1 true s' 2 16 Hs')
    as (evs & H).
  exists s', evs. split; [exact Hs' | exact H].
Defined.


Lemma int_of_range z : - 2 ^ 31 <= int_of z < 2 ^ 31.
Proof. unfold int_of. lia. Qed.

Section MappingReturns.

Variable alloc : allocator.
Hypothesis Halloc : alloc_sound alloc.

Lemma get_blocks_create_ret fuel s iblock n bno ep tl locked s' r b :
  get_blocks_create alloc fuel s iblock n bno ep tl locked = Some (s', r, b) ->
  r < 0 \/ r <= n.
Proof.
  unfold get_blocks_create, nova_new_data_blocks_zero, nova_new_data_blocks. cbv zeta.
  destruct (alloc _ iblock n) as [a b0] eqn:Ea.
  destruct (Z.ltb_spec 0 a) as [Ha | Ha].
  - destruct (Halloc _ _ _ _ _ Ea ltac:(lia)) as (Han & _).
    assert ((a >? 0) = true) as Hgt by lia. rewrite Hgt. cbn [andb]. rewrite Hgt.
    cbv iota beta.
    assert ((a <=? 0) = false) as -> by lia.
    destruct (nova_append_file_write_entry _ _ _) as [[s2 upd] ret].
    destruct (negb (ret =? 0)).
    { intros (_ & _ & _ & ->)%get_blocks_out_grows. left. unfold ENOSPC. simpl. lia. }
    destruct (nova_reassign_file_tree _ _ _) as [[s3 ret3] |]; [| done].
    destruct (negb (ret3 =? 0));
      intros (_ & _ & _ & ->)%get_blocks_out_grows; destruct (ret3 <? 0) eqn:E; lia.
  - assert ((a >? 0) = false) as Hgt by lia. rewrite Hgt. cbv iota beta.
    rewrite ?Hgt. cbn [andb]. cbv iota beta.
    assert ((a <=? 0) = true) as -> by lia.
    intros (_ & _ & _ & ->)%get_blocks_out_grows. destruct (a <? 0) eqn:E; lia.
Qed.

Lemma get_blocks_again_ret passes : forall fuel s iblock mb bno create tl locked cn ep s' r b,
  get_blocks_again alloc passes fuel s iblock mb bno create tl locked cn ep
  = Some (s', r, b) ->
  r < 2 ^ 31.
Proof.
  induction passes as [| passes IH]; intros fuel s iblock mb bno create tl locked cn ep
    s' r b; simpl; [done |].
  destruct (nova_check_existing_entry s mb iblock cn ep) as [[n entry] inplace].
  pose proof (int_of_range n).
  destruct (negb (entry =? 0) && _).
  { intros (_ & _ & _ & ->)%get_blocks_out_grows. simpl. lia. }
  destruct (create =? 0).
  { unfold get_blocks_out1. intros [= <- <- <-]. lia. }
  destruct (tl && negb locked); [apply IH |].
  intros [? | ?]%get_blocks_create_ret; lia.
Qed.

End MappingReturns.

(** X6. A successful [nova_iomap_begin] answers an extent that starts at the
    block boundary at or below [offset] and contains [offset]: one block
    for a hole, the blocks that [nova_dax_get_blocks] reported for a
    mapped range; and it never sets [IOMAP_F_NEW], also when the blocks
    were allocated by this call. *)
Theorem iomap_begin_extent_contains_offset
    (alloc : allocator) (fuel : nat) (s : nova_state) (blkbits offset length flags : Z)
    (io : iomap) (bno : Z) (taking_lock : bool) (s' : nova_state) (io' : iomap) :
  alloc_sound alloc -> 0 <= blkbits <= 30 -> 0 <= offset < 2 ^ 63 ->
  nova_iomap_begin alloc fuel s blkbits offset length flags io bno taking_lock
  = Some (s', 0, io') ->
  io_offset io' = offset / 2 ^ blkbits * 2 ^ blkbits
  /\ io_offset io' <= offset < io_offset io' + io_length io'
  /\ io_length io' mod 2 ^ blkbits = 0
  /\ Z.land (io_flags io') IOMAP_F_NEW = 0.
Proof.
  intros Halloc Hbits Hoff. unfold nova_iomap_begin. cbv zeta.
  destruct (nova_dax_get_blocks _ _ _ _ _ _ _ _) as [[[s1 ret] b1] |] eqn:Eg; [| done].
  assert (ret < 2 ^ 31) as Hret.
  { revert Eg. unfold nova_dax_get_blocks. destruct (_ =? 0); [intros [= <- <- <-]; lia |].
    by apply get_blocks_again_ret. }
  assert (0 < 2 ^ blkbits <= 2 ^ 30) as Hpow.
  { split; [apply Z.pow_pos_nonneg; lia | apply Z.pow_le_mono_r; lia]. }
  assert (ulong (Z.shiftl (ulong (Z.shiftr offset blkbits)) blkbits)
          = offset / 2 ^ blkbits * 2 ^ blkbits) as Hoff'.
  { rewrite Z.shiftr_div_pow2 by lia.
    assert (0 <= offset / 2 ^ blkbits <= offset).
    { split; [apply Z.div_pos; lia |]. apply Z.div_le_upper_bound; nia. }
    rewrite (ulong_small (offset / _)) by lia.
    rewrite Z.shiftl_mul_pow2 by lia.
    pose proof (Z.mul_div_le offset (2 ^ blkbits) ltac:(lia)).
    apply ulong_small. nia. }
  pose proof (Z.mul_div_le offset (2 ^ blkbits) ltac:(lia)) as Hlo.
  pose proof (Z.mul_succ_div_gt offset (2 ^ blkbits) ltac:(lia)) as Hhi.
  destruct (Z.ltb_spec ret 0); [intros [= _ ? _]; lia |].
  destruct (Z.eqb_spec ret 0) as [-> | Hne]; intros [= <- <-]; simpl; rewrite Hoff'.
  - rewrite Z.shiftl_mul_pow2, Z.mul_1_l by lia.
    split; [done |]. split; [nia |]. split; [apply Z.mod_same; lia | done].
  - rewrite Z.shiftl_mul_pow2 by lia. rewrite ulong_small by nia.
    split; [done |]. split; [nia |]. split; [apply Z.mod_mul; lia | done].
Qed.

Lemma iomap_begin_extent_contains_offset_witness :
  exists s' io',
    nova_iomap_begin ex_alloc 4 ex_block_A 12 100 5000 0
      {| io_blkno := 0; io_offset := 0; io_length := 0; io_type := IOMAP_HOLE;
         io_flags := 0 |} 77 true
    = Some (s', 0, io')
    /\ io_offset io' = 100 / 2 ^ 12 * 2 ^ 12
    /\ io_offset io' <= 100 < io_offset io' + io_length io'
    /\ io_length io' mod 2 ^ 12 = 0
    /\ Z.land (io_flags io') IOMAP_F_NEW = 0.
Proof.
  set (io := {| io_blkno := 0; io_offset := 0; io_length := 0; io_type := IOMAP_HOLE;
                io_flags := 0 |}).
  destruct (nova_iomap_begin ex_alloc 4 ex_block_A 12 100 5000 0 io 77 true)
    as [[[s' r] io'] |] eqn:E; [| by vm_compute in E].
  assert (r = 0) as ->.
  { change r with (snd (fst (s', r, io'))).
    assert (Some (s', r, io').1.2
            = match nova_iomap_begin ex_alloc 4 ex_block_A 12 100 5000 0 io 77 true with
              | Some x => Some x.1.2 | None => None end) as H by (by rewrite E).
    vm_compute in H. by inversion H. }
  exists s', io'. split; [done |].
  apply (iomap_begin_extent_contains_offset ex_alloc 4 ex_block_A 12 100 5000 0 io 77 true
           s' io').
  - apply first_fit_sound. lia.
  - lia.
  - lia.
  - exact E.
Defined.

(** X7. A write fault on a page that starts at or beyond the end of the file
    gets [VM_FAULT_SIGBUS] and the kernel's handler is not consulted; a
    page with at least one byte below the end of the file is handed to the
    kernel's handler; either way the inode lock is taken and released. *)
Theorem pfn_mkwrite_sigbus_past_eof
    (dax_pfn_mkwrite : Z -> Z) (s : nova_state) (vmf_pgoff : Z) :
  let r := nova_dax_pfn_mkwrite dax_pfn_mkwrite s vmf_pgoff in
  r.2 = (if i_size s <=? vmf_pgoff * PAGE_SIZE then VM_FAULT_SIGBUS
         else dax_pfn_mkwrite vmf_pgoff)
  /\ trace r.1 = trace s ++ [EvLock; EvUnlock]
  /\ i_size r.1 = i_size s.
Proof.
  unfold nova_dax_pfn_mkwrite. cbv zeta. simpl. split; [| split; [| done]].
  - rewrite shiftr_page. unfold PAGE_SIZE.
    destruct (Z.geb_spec vmf_pgoff ((i_size s + 4096 - 1) / 4096)),
      (Z.leb_spec (i_size s) (vmf_pgoff * 4096)); try done; lia.
  - by rewrite <- app_assoc.
Qed.


(** ** The inode lock and the return value of the writers *)

Lemma write_out_work fuel s l ret ppos lock s' r p :
  write_out fuel s l ret ppos lock = Some (s', r, p) ->
  exists evs, Forall work_event evs
    /\ trace s' = trace s ++ evs ++ (if lock then [EvUnlock] else []).
Proof.
  unfold write_out.
  destruct (if ret <? 0 then _ else _) as [[s1 r1] |] eqn:E; [| done].
  intros [= <- <- <-].
  assert (grows work_event s s1) as (evs & He & Fe).
  { destruct (ret <? 0).
    - apply free_is_work. by eapply grows_cleanup.
    - inversion E; subst. apply grows_refl. }
  exists evs. split; [done |]. rewrite trace_unlock, He. by rewrite <- app_assoc.
Qed.

Lemma grows_then_out s s1 s' evs2 (lock : bool) :
  grows work_event s s1 ->
  Forall work_event evs2 ->
  trace s' = trace s1 ++ evs2 ++ (if lock then [EvUnlock] else []) ->
  exists evs, Forall work_event evs
    /\ trace s' = trace s ++ evs ++ (if lock then [EvUnlock] else []).
Proof.
  intros (evs1 & H1 & F1) F2 H2. exists (evs1 ++ evs2). split; [by apply Forall_app |].
  rewrite H2, H1. by rewrite <- !app_assoc.
Qed.

Lemma cow_commit_work fuel s l total ppos lock s' ret ppos' :
  cow_commit fuel s l total ppos lock = Some (s', ret, ppos') ->
  exists evs, Forall work_event evs
    /\ trace s' = trace s ++ evs ++ (if lock then [EvUnlock] else []).
Proof.
  unfold cow_commit. cbv zeta.
  destruct (nova_reassign_file_tree _ _ _) as [[s2 ret2] |] eqn:Er; [| done].
  apply reassign_file_tree_trace in Er as (frees & Hfr & Ffr). simpl in Hfr.
  assert (grows work_event s s2) as G.
  { exists ([EvUpdateInode (tail (l_update l)); EvReassign (l_begin_tail l)] ++ frees).
    split; [rewrite Hfr; by rewrite <- app_assoc |].
    apply Forall_app. split; [by repeat constructor |].
    eapply Forall_impl; [exact Ffr |]. by intros []. }
  destruct (negb (ret2 =? 0)).
  - intros (evs & Fe & He)%write_out_work. by eapply grows_then_out.
  - intros (evs & Fe & He)%write_out_work. eapply grows_then_out; [exact G | exact Fe |].
    rewrite He. by destruct (_ >? _).
Qed.

Lemma inplace_commit_work fuel s l total ppos lock s' ret ppos' :
  inplace_commit fuel s l total ppos lock = Some (s', ret, ppos') ->
  exists evs, Forall work_event evs
    /\ trace s' = trace s ++ evs ++ (if lock then [EvUnlock] else []).
Proof.
  unfold inplace_commit. cbv zeta.
  destruct (if l_update_log l then _ else _) as [[s2 ret2] |] eqn:E; [| done].
  assert (grows work_event s s2) as G.
  { destruct (l_update_log l).
    - apply reassign_file_tree_trace in E as (frees & Hfr & Ffr). simpl in Hfr.
      exists ([EvUpdateInode (tail (l_update l)); EvReassign (l_begin_tail l)] ++ frees).
      split; [rewrite Hfr; by rewrite <- app_assoc |].
      apply Forall_app. split; [by repeat constructor |].
      eapply Forall_impl; [exact Ffr |]. by intros [].
    - inversion E; subst. by apply grows_same. }
  destruct (negb (ret2 =? 0)).
  - intros (evs & Fe & He)%write_out_work. by eapply grows_then_out.
  - intros (evs & Fe & He)%write_out_work. eapply grows_then_out; [exact G | exact Fe |].
    rewrite He. by destruct (_ >? _).
Qed.

Lemma lock_then_out s s' (lock : bool) evs :
  Forall work_event evs ->
  trace s' = trace (if lock then emit EvLock s else s) ++ evs
               ++ (if lock then [EvUnlock] else []) ->
  trace s' = trace s
  \/ exists evs, Forall work_event evs
       /\ trace s' = trace s ++ (if lock then [EvLock] else []) ++ evs
                       ++ (if lock then [EvUnlock] else []).
Proof.
  intros Fe He. right. exists evs. split; [done |].
  rewrite He, trace_lock. by rewrite <- !app_assoc.
Qed.

Section WriterLocks.

Variable alloc : allocator.
Variable csum_of : list byte -> Z.

Lemma cow_write_work fuel s filp u len ppos lock s' ret ppos' :
  nova_cow_file_write alloc csum_of fuel s filp u len ppos lock = Some (s', ret, ppos') ->
  trace s' = trace s
  \/ exists evs, Forall work_event evs
       /\ trace s' = trace s ++ (if lock then [EvLock] else []) ++ evs
                       ++ (if lock then [EvUnlock] else []).
Proof.
  unfold nova_cow_file_write.
  destruct (len =? 0); [intros [= <- _ _]; by left |].
  destruct (mapping_mapped s); [intros [= <- _ _]; by left |].
  destruct (negb (ub_access_ok u)).
  { intros (evs & Fe & He)%write_out_work. by eapply lock_then_out. }
  destruct (negb (f_remove_privs filp =? 0)).
  { intros (evs & Fe & He)%write_out_work. by eapply lock_then_out. }
  cbv zeta.
  destruct (cow_loop _ _ _ _ _ _ _ _) as [r |] eqn:El; [| done].
  apply grows_cow_loop, run_is_work in El.
  assert (grows work_event (if lock then emit EvLock s else s) (wr_state r)) as G.
  { eapply grows_trans; [| exact El]. by apply grows_same. }
  intros Hw.
  assert (exists evs, Forall work_event evs
            /\ trace s' = trace (wr_state r) ++ evs ++ (if lock then [EvUnlock] else []))
    as (evs2 & F2 & H2).
  { destruct r as [s1 l1 | s1 l1 | s1 l1 r1]; simpl.
    - by eapply cow_commit_work.
    - by eapply cow_commit_work.
    - by eapply write_out_work. }
  destruct (grows_then_out _ _ _ _ _ G F2 H2) as (evs & Fe & He).
  by eapply lock_then_out.
Qed.

Lemma inplace_write_work fuel s filp u len ppos lock s' ret ppos' :
  nova_inplace_file_write alloc csum_of fuel s filp u len ppos lock
  = Some (s', ret, ppos') ->
  trace s' = trace s
  \/ exists evs, Forall work_event evs
       /\ trace s' = trace s ++ (if lock then [EvLock] else []) ++ evs
                       ++ (if lock then [EvUnlock] else []).
Proof.
  unfold nova_inplace_file_write.
  destruct (len =? 0); [intros [= <- _ _]; by left |].
  destruct (negb (ub_access_ok u)).
  { intros (evs & Fe & He)%write_out_work. by eapply lock_then_out. }
  destruct (negb (f_remove_privs filp =? 0)).
  { intros (evs & Fe & He)%write_out_work. by eapply lock_then_out. }
  cbv zeta.
  destruct (inplace_loop _ _ _ _ _ _ _ _) as [r |] eqn:El; [| done].
  apply grows_inplace_loop, run_is_work in El.
  assert (grows work_event (if lock then emit EvLock s else s) (wr_state r)) as G.
  { eapply grows_trans; [| exact El]. by apply grows_same. }
  intros Hw.
  assert (exists evs, Forall work_event evs
            /\ trace s' = trace (wr_state r) ++ evs ++ (if lock then [EvUnlock] else []))
    as (evs2 & F2 & H2).
  { destruct r as [s1 l1 | s1 l1 | s1 l1 r1]; simpl.
    - by eapply inplace_commit_work.
    - by eapply inplace_commit_work.
    - by eapply write_out_work. }
  destruct (grows_then_out _ _ _ _ _ G F2 H2) as (evs & Fe & He).
  by eapply lock_then_out.
Qed.

End WriterLocks.

(** X8. A write call under either policy, whatever its outcome: either it
    left the trace as it was (a zero-length write, or the copy-on-write
    writer refusing a mapped file), or its first event is the taking of the
    inode lock and its last event the release, with no lock event between
    them.  The call never returns with the lock held and never releases a
    lock that it did not take. *)
Theorem write_lock_is_balanced
    (alloc : allocator) (csum_of : list byte -> Z) (inplace_data_updates : Z)
    (fuel : nat) (s : nova_state) (filp : file) (u : ubuf) (len ppos : Z)
    (s' : nova_state) (ret ppos' : Z) :
  nova_dax_file_write alloc csum_of inplace_data_updates fuel s filp u len ppos
  = Some (s', ret, ppos') ->
  trace s' = trace s
  \/ exists evs, Forall work_event evs
       /\ trace s' = trace s ++ [EvLock] ++ evs ++ [EvUnlock].
Proof.
  unfold nova_dax_file_write. destruct (negb _).
  - apply inplace_write_work.
  - apply cow_write_work.
Qed.

Lemma write_lock_is_balanced_witness :
  exists s',
    nova_dax_file_write ex_alloc byte_sum 0 16 ex_tight ex_file (ex_user x41 40960) 40960 0
    = Some (s', - ENOSPC, 0)
    /\ (trace s' = trace ex_tight
        \/ exists evs, Forall work_event evs
             /\ trace s' = trace ex_tight ++ [EvLock] ++ evs ++ [EvUnlock]).
Proof.
  destruct (wr_ret_some
              (nova_dax_file_write ex_alloc byte_sum 0 16 ex_tight ex_file
                 (ex_user x41 40960) 40960 0) (- ENOSPC) 0) as [s' Hs'];
    [vm_compute; reflexivity |].
  exists s'. split; [exact Hs' |].
  exact (write_lock_is_balanced ex_alloc byte_sum 0 16 ex_tight ex_file
           (ex_user x41 40960) 40960 0 s' (- ENOSPC) 0 Hs').
Defined.


(** ** The return value and the file position of a write *)

(** The bookkeeping of the writers' loops: the position is the start plus
    the bytes written, and the bytes written and the bytes left add up to
    the length of the request. *)
Definition pos_inv (pos len : Z) (l : wr_locals) : Prop :=
  l_pos l = pos + l_written l /\ 0 <= l_written l
  /\ l_count l = len - l_written l /\ 0 <= l_count l.

Lemma wr_bytes_bounds allocated offset count :
  0 <= count -> 0 <= wr_bytes allocated offset count <= count.
Proof.
  intros Hc. unfold wr_bytes.
  pose proof (ulong_range (s_blocksize * allocated - offset)).
  destruct (Z.gtb_spec (ulong (s_blocksize * allocated - offset)) count); lia.
Qed.

Lemma wr_copy_in_bounds merge s u l offset bytes kmem s' copied :
  wr_copy_in merge s u l offset bytes kmem = (s', copied) ->
  0 <= bytes -> 0 <= copied <= bytes.
Proof.
  unfold wr_copy_in, memcpy_to_pmem_nocache, user_copy_ok. intros [= _ <-]. lia.
Qed.

Lemma wr_account_pos pos len copied bytes l :
  pos_inv pos len l -> 0 <= copied <= l_count l -> len < 2 ^ 64 ->
  pos_inv pos len (wr_account copied bytes l).
Proof.
  intros (Hp & Hw & Hc & Hc0) Hcop Hlen. unfold wr_account, pos_inv.
  destruct (Z.gtb_spec copied 0).
  - assert (ulong (l_count l - copied) = l_count l - copied) as Hu by (apply ulong_small; lia).
    destruct (negb _); [destruct (_ >=? 0) |]; simpl; rewrite ?Hu; lia.
  - destruct (negb _); [destruct (_ >=? 0) |]; simpl; lia.
Qed.

Lemma wr_append_locals s l ep time start_blk copied s' l' ret :
  wr_append s l ep time start_blk copied = (s', l', ret) ->
  exists upd, l' = set_l_update upd l.
Proof.
  unfold wr_append.
  destruct (nova_append_file_write_entry _ _ _) as [[s1 upd] r1].
  intros [= _ <- _]. by exists upd.
Qed.

Definition res_pos_inv (pos len : Z) (r : wr_res) : Prop :=
  match r with
  | WrNext _ l | WrBreak _ l => pos_inv pos len l
  | WrOut _ _ _ => True
  end.

Section WriterReturns.

Variable alloc : allocator.
Variable csum_of : list byte -> Z.

Lemma cow_body_pos fuel s u ep time l r pos len :
  cow_body alloc csum_of fuel s u ep time l = Some r ->
  pos_inv pos len l -> len < 2 ^ 64 -> res_pos_inv pos len r.
Proof.
  intros Hb Hinv Hlen. revert Hb. unfold cow_body. cbv zeta.
  destruct (nova_new_data_blocks _ _ _ _ _) as [[s1 b] a].
  destruct (a <=? 0); [by intros [= <-] |].
  destruct (wr_copy_in _ _ _ _ _ _ _) as [s2 copied] eqn:Ec.
  destruct (wr_protect _ _ _ _ _ _ _) as [[s3 ret] |]; [| done].
  destruct (negb (ret =? 0)); [by intros [= <-] |].
  destruct (wr_append _ _ _ _ _ _) as [[s4 l4] ret'] eqn:Eapp.
  apply wr_append_locals in Eapp as [upd ->].
  destruct (negb (ret' =? 0)); [by intros [= <-] |].
  pose proof (wr_bytes_bounds a (Z.land (l_pos l) (nova_inode_blk_size s - 1)) (l_count l)
                ltac:(destruct Hinv as (_ & _ & _ & ?); done)) as Hbytes.
  apply wr_copy_in_bounds in Ec; [| simpl; lia]. simpl in Ec.
  match goal with |- context [wr_account copied ?bytes ?l0] =>
    pose proof (wr_account_pos pos len copied bytes l0 Hinv ltac:(simpl in *; lia) Hlen) as Hacc
  end.
  destruct (_ <? 0); [by intros [= <-] |].
  intros [= <-]. simpl. by destruct (_ =? 0).
Qed.

Lemma cow_loop_pos fuel : forall s u ep time l r pos len,
  cow_loop alloc csum_of fuel s u ep time l = Some r ->
  pos_inv pos len l -> len < 2 ^ 64 -> res_pos_inv pos len r.
Proof.
  induction fuel as [| fuel IH]; intros s u ep time l r pos len; simpl; [done |].
  destruct (l_num_blocks l >? 0); [| by intros [= <-]].
  destruct (cow_body _ _ _ _ _ _ _ _) as [[s1 l1 | s1 l1 | s1 l1 ret] |] eqn:Eb; [| | | done].
  - intros H Hinv Hlen. eapply IH; [exact H | | done].
    by apply (cow_body_pos _ _ _ _ _ _ _ _ _ Eb).
  - intros [= <-] Hinv Hlen. by apply (cow_body_pos _ _ _ _ _ _ _ _ _ Eb).
  - by intros [= <-].
Qed.

Lemma inplace_body_pos fuel s u ep time l r pos len :
  inplace_body alloc csum_of fuel s u ep time l = Some r ->
  pos_inv pos len l -> len < 2 ^ 64 -> res_pos_inv pos len r.
Proof.
  intros Hb Hinv Hlen. revert Hb. unfold inplace_body. cbv zeta.
  destruct (nova_check_existing_entry _ _ _ _ _) as [[ent_blks entry] inplace].
  assert (match inplace_arm alloc s l (Z.shiftr (l_pos l) s_blocksize_bits)
                  ent_blks entry inplace with
          | inl (_, l1, _, _) => exists b a, l1 = set_l_alloc b a l
          | inr r => res_pos_inv pos len r
          end) as Harm.
  { unfold inplace_arm. destruct (_ && _); [by eexists _, _ |].
    destruct (nova_new_data_blocks _ _ _ _ _) as [[s1 b] a].
    destruct (a <=? 0); [done | by eexists _, _]. }
  destruct (inplace_arm _ _ _ _ _ _ _) as [[[[s1 l1] hole_fill] blk_off] | r1];
    [| by intros [= <-]].
  destruct Harm as (b & a & ->).
  destruct (wr_copy_in _ _ _ _ _ _ _) as [s2 copied] eqn:Ec.
  destruct (wr_protect _ _ _ _ _ _ _) as [[s3 ret] |]; [| done].
  destruct (negb (ret =? 0)); [by intros [= <-] |].
  pose proof (wr_bytes_bounds a (Z.land (l_pos l) (nova_inode_blk_size s - 1)) (l_count l)
                ltac:(destruct Hinv as (_ & _ & _ & ?); done)) as Hbytes.
  apply wr_copy_in_bounds in Ec; [| simpl; lia]. simpl in Ec.
  destruct hole_fill.
  - destruct (wr_append _ _ _ _ _ _) as [[s4 l4] ret'] eqn:Eapp.
    apply wr_append_locals in Eapp as [upd ->].
    destruct (negb (ret' =? 0)); [by intros [= <-] |].
    match goal with |- context [wr_account copied ?bytes ?l0] =>
      pose proof (wr_account_pos pos len copied bytes l0 Hinv ltac:(simpl in *; lia) Hlen)
        as Hacc
    end.
    destruct (_ <? 0); [by intros [= <-] |].
    intros [= <-]. simpl. by destruct (_ =? 0).
  - simpl negb. cbv iota.
    match goal with |- context [wr_account copied ?bytes ?l0] =>
      pose proof (wr_account_pos pos len copied bytes l0 Hinv ltac:(simpl in *; lia) Hlen)
        as Hacc
    end.
    destruct (_ <? 0); by intros [= <-].
Qed.

Lemma inplace_loop_pos fuel : forall s u ep time l r pos len,
  inplace_loop alloc csum_of fuel s u ep time l = Some r ->
  pos_inv pos len l -> len < 2 ^ 64 -> res_pos_inv pos len r.
Proof.
  induction fuel as [| fuel IH]; intros s u ep time l r pos len; simpl; [done |].
  destruct (l_num_blocks l >? 0); [| by intros [= <-]].
  destruct (inplace_body _ _ _ _ _ _ _ _) as [[s1 l1 | s1 l1 | s1 l1 ret] |] eqn:Eb;
    [| | | done].
  - intros H Hinv Hlen. eapply IH; [exact H | | done].
    by apply (inplace_body_pos _ _ _ _ _ _ _ _ _ Eb).
  - intros [= <-] Hinv Hlen. by apply (inplace_body_pos _ _ _ _ _ _ _ _ _ Eb).
  - by intros [= <-].
Qed.

End WriterReturns.

Lemma init_pos_inv s pos len nb : 0 <= len -> pos_inv pos len (wr_init s pos len nb).
Proof. intros H. unfold pos_inv. simpl. lia. Qed.

Lemma commit_ret_pos (ret2 : Z) fuel s2 s3 l ppos lock
    pos len s' ret ppos' :
  pos_inv pos len l -> (ret2 = 0 \/ ret2 = - EINVAL) ->
  (if negb (ret2 =? 0) then write_out fuel s2 l ret2 ppos lock
   else write_out fuel s3 l (l_written l) (l_pos l) lock) = Some (s', ret, ppos') ->
  (ret <= 0 /\ ppos' = ppos) \/ (0 <= ret <= len /\ ppos' = pos + ret).
Proof.
  intros (Hp & Hw & Hc & Hc0) [-> | ->]; simpl.
  - intros [-> ->]%write_out_ret. right. lia.
  - intros [-> ->]%write_out_ret. left. unfold EINVAL. lia.
Qed.

(** X9. A write call under either policy returns a negative error or zero
    with the file position as it was, or the number of bytes it wrote,
    which is at most [len], with the file position advanced by exactly
    that number from where the write started (the end of the file for
    [O_APPEND]). *)
Theorem write_returns_count_and_advances
    (alloc : allocator) (csum_of : list byte -> Z) (inplace_data_updates : Z)
    (fuel : nat) (s : nova_state) (filp : file) (u : ubuf) (len ppos : Z)
    (s' : nova_state) (ret ppos' : Z) :
  let pos := if f_append filp then i_size s else ppos in
  0 <= len < 2 ^ 63 -> f_remove_privs filp <= 0 ->
  nova_dax_file_write alloc csum_of inplace_data_updates fuel s filp u len ppos
  = Some (s', ret, ppos') ->
  (ret <= 0 /\ ppos' = ppos) \/ (0 <= ret <= len /\ ppos' = pos + ret).
Proof.
  intros pos Hlen Hpriv. unfold nova_dax_file_write.
  destruct (negb (inplace_data_updates =? 0)).
  - unfold nova_inplace_file_write.
    destruct (len =? 0); [intros [= _ <- <-]; left; lia |].
    destruct (negb (ub_access_ok u)).
    { intros [-> ->]%write_out_ret. left. unfold EFAULT. lia. }
    destruct (negb (f_remove_privs filp =? 0)).
    { intros [-> ->]%write_out_ret. left. lia. }
    cbv zeta.
    destruct (inplace_loop _ _ _ _ _ _ _ _) as [r |] eqn:El; [| done].
    eapply inplace_loop_pos in El as Hinv;
      [| apply init_pos_inv; lia | lia].
    assert (forall s1 l1, pos_inv pos len l1 ->
              inplace_commit fuel s1 l1
                (Z.shiftr (ulong (len + Z.land (if f_append filp
                                                 then i_size (emit EvLock s) else ppos)
                                          (s_blocksize - 1) - 1)) s_blocksize_bits + 1)
                ppos true = Some (s', ret, ppos') ->
              (ret <= 0 /\ ppos' = ppos) \/ (0 <= ret <= len /\ ppos' = pos + ret)) as Hcommit.
    { intros s1 l1 Hl1. unfold inplace_commit. cbv zeta.
      destruct (if l_update_log l1 then _ else _) as [[s2 ret2] |] eqn:E; [| done].
      apply (commit_ret_pos ret2); [done |].
      destruct (l_update_log l1).
      - by apply reassign_loop_ret in E.
      - inversion E. by left. }
    destruct r as [s1 l1 | s1 l1 | s1 l1 r1]; simpl in Hinv.
    + by apply Hcommit.
    + by apply Hcommit.
    + intros [-> ->]%write_out_ret. left. split; [| done]. by apply inplace_loop_out in El.
  - unfold nova_cow_file_write.
    destruct (len =? 0); [intros [= _ <- <-]; left; lia |].
    destruct (mapping_mapped s); [intros [= _ <- <-]; left; unfold EACCES; lia |].
    destruct (negb (ub_access_ok u)).
    { intros [-> ->]%write_out_ret. left. unfold EFAULT. lia. }
    destruct (negb (f_remove_privs filp =? 0)).
    { intros [-> ->]%write_out_ret. left. lia. }
    cbv zeta.
    destruct (cow_loop _ _ _ _ _ _ _ _) as [r |] eqn:El; [| done].
    eapply cow_loop_pos in El as Hinv;
      [| apply init_pos_inv; lia | lia].
    assert (forall s1 l1, pos_inv pos len l1 ->
              cow_commit fuel s1 l1
                (Z.shiftr (ulong (len + Z.land (if f_append filp
                                                 then i_size (emit EvLock s) else ppos)
                                          (s_blocksize - 1) - 1)) s_blocksize_bits + 1)
                ppos true = Some (s', ret, ppos') ->
              (ret <= 0 /\ ppos' = ppos) \/ (0 <= ret <= len /\ ppos' = pos + ret)) as Hcommit.
    { intros s1 l1 Hl1. unfold cow_commit. cbv zeta.
      destruct (nova_reassign_file_tree _ _ _) as [[s2 ret2] |] eqn:E; [| done].
      apply (commit_ret_pos ret2); [done |].
      by apply reassign_loop_ret in E. }
    destruct r as [s1 l1 | s1 l1 | s1 l1 r1]; simpl in Hinv.
    + by apply Hcommit.
    + by apply Hcommit.
    + intros [-> ->]%write_out_ret. left. split; [| done]. by apply cow_loop_out in El.
Qed.

Definition ex_append : file := {| f_append := true; f_remove_privs := 0 |}.

Lemma write_returns_count_and_advances_witness :
  exists s',
    nova_dax_file_write ex_alloc byte_sum 1 8 ex_block_A ex_append (ex_user x42 100) 100 0
    = Some (s', 100, 4196)
    /\ ((100 <= 0 /\ 4196 = 0) \/ (0 <= 100 <= 100 /\ 4196 = i_size ex_block_A + 100)).
Proof.
  destruct (wr_ret_some
              (nova_dax_file_write ex_alloc byte_sum 1 8 ex_block_A ex_append
                 (ex_user x42 100) 100 0) 100 4196) as [s' Hs']; [vm_compute; reflexivity |].
  exists s'. split; [exact Hs' |].
  apply (write_returns_count_and_advances ex_alloc byte_sum 1 8 ex_block_A ex_append
           (ex_user x42 100) 100 0 s' 100 4196).
  - lia.
  - simpl. lia.
  - exact Hs'.
Defined.


(** ** The file size after a write *)

Section Sizes.

Variable alloc : allocator.
Variable csum_of : list byte -> Z.

Lemma isize_update_csum s buf b :
  i_size (nova_update_block_csum_parity csum_of s buf b) = i_size s.
Proof. unfold nova_update_block_csum_parity. by destruct (data_csum s >? 0). Qed.

Lemma isize_handle_partial s entry index offset length kmem :
  i_size (nova_handle_partial_block s entry index offset length kmem) = i_size s.
Proof.
  unfold nova_handle_partial_block, nova_copy_partial_block.
  destruct (entry =? 0); [done |].
  by destruct (negb _).
Qed.

Lemma isize_handle_head_tail s pos count kmem :
  i_size (nova_handle_head_tail_blocks s pos count kmem) = i_size s.
Proof.
  unfold nova_handle_head_tail_blocks.
  repeat match goal with |- context [if ?c then _ else _] => destruct c end;
    rewrite ?isize_handle_partial; try done.
Qed.

Lemma isize_new_data_blocks s blocknr start_blk num s' b a :
  nova_new_data_blocks alloc s blocknr start_blk num = (s', b, a) -> i_size s' = i_size s.
Proof.
  unfold nova_new_data_blocks. destruct (alloc _ _ _) as [ret b0].
  by destruct (ret >? 0); intros [= <- <- <-].
Qed.

Lemma isize_append s data upd s' upd' ret :
  nova_append_file_write_entry s data upd = (s', upd', ret) -> i_size s' = i_size s.
Proof.
  unfold nova_append_file_write_entry.
  by destruct (_ =? 0) in |- *; intros [= <- <- <-].
Qed.

Lemma isize_protect_loop fuel s u l s' l' ret :
  protect_loop csum_of fuel s u l = Some (s', l', ret) -> i_size s' = i_size s.
Proof.
  revert s l. induction fuel as [| fuel IH]; intros s l; simpl; [done |].
  destruct (negb _).
  - intros [= <- <- <-]. apply isize_update_csum.
  - destruct (_ >? _).
    + intros H. apply IH in H. by rewrite H, isize_update_csum.
    + intros [= <- <- <-]. apply isize_update_csum.
Qed.

Lemma isize_protect fuel s u boff pos count blocknr inplace s' ret :
  nova_protect_file_data csum_of fuel s u boff pos count blocknr inplace = Some (s', ret) ->
  i_size s' = i_size s.
Proof.
  unfold nova_protect_file_data.
  destruct (negb (kzalloc_ok s)); [by intros [= <- <-] |].
  destruct (negb (_ - _ =? 0)); [by intros [= <- <-] |].
  destruct (if negb (_ =? 0) then _ else _) as [r | buf]; [by intros [= <- <-] |].
  destruct (if _ =? 1 then _ else _) as [[[s1 l1] r1] |] eqn:E; [| done].
  assert (i_size s1 = i_size s) as Hs1.
  { destruct (_ =? 1) in E; [by inversion E |]. by apply isize_protect_loop in E. }
  destruct (negb (r1 =? 0)); [by intros [= <- <-] |].
  destruct (if negb (_ =? 0) then _ else _) as [r | buf'];
    intros [= <- <-]; [done |]. by rewrite isize_update_csum.
Qed.

Lemma isize_wr_copy_in merge s u l offset bytes kmem s' copied :
  wr_copy_in merge s u l offset bytes kmem = (s', copied) -> i_size s' = i_size s.
Proof.
  unfold wr_copy_in, memcpy_to_pmem_nocache. intros [= <- <-]. simpl.
  destruct (_ && _); [apply isize_handle_head_tail | done].
Qed.

Lemma isize_wr_protect fuel s u l bytes inplace s' ret :
  wr_protect csum_of fuel s u l bytes inplace = Some (s', ret) -> i_size s' = i_size s.
Proof.
  unfold wr_protect. destruct (_ || _); [apply isize_protect | by intros [= <- <-]].
Qed.

Lemma isize_wr_append s l ep time start_blk copied s' l' ret :
  wr_append s l ep time start_blk copied = (s', l', ret) -> i_size s' = i_size s.
Proof.
  unfold wr_append.
  destruct (nova_append_file_write_entry _ _ _) as [[s1 upd] r1] eqn:E.
  intros [= <- <- <-]. by eapply isize_append.
Qed.

Lemma isize_inplace_update s entry ep sz :
  i_size (nova_inplace_update_write_entry s entry ep sz) = i_size s.
Proof. unfold nova_inplace_update_write_entry. by destruct (log s !! entry). Qed.

Ltac size_tail :=
  repeat match goal with
  | |- context [if ?c then _ else _] => destruct c
  | |- Some _ = Some _ -> _ => intros [= <-]
  | |- None = Some _ -> _ => done
  end; cbn [wr_state]; rewrite ?isize_inplace_update; congruence.

Lemma isize_cow_body fuel s u ep time l r :
  cow_body alloc csum_of fuel s u ep time l = Some r -> i_size (wr_state r) = i_size s.
Proof.
  unfold cow_body. cbv zeta.
  destruct (nova_new_data_blocks _ _ _ _ _) as [[s1 b] a] eqn:Ea.
  apply isize_new_data_blocks in Ea.
  destruct (a <=? 0); [by intros [= <-] |].
  destruct (wr_copy_in _ _ _ _ _ _ _) as [s2 copied] eqn:Ec.
  apply isize_wr_copy_in in Ec.
  destruct (wr_protect _ _ _ _ _ _ _) as [[s3 ret] |] eqn:Ep; [| done].
  apply isize_wr_protect in Ep.
  destruct (negb (ret =? 0)); [intros [= <-]; simpl; congruence |].
  destruct (wr_append _ _ _ _ _ _) as [[s4 l4] ret'] eqn:Eapp.
  apply isize_wr_append in Eapp.
  size_tail.
Qed.

Lemma isize_cow_loop fuel : forall s u ep time l r,
  cow_loop alloc csum_of fuel s u ep time l = Some r -> i_size (wr_state r) = i_size s.
Proof.
  induction fuel as [| fuel IH]; intros s u ep time l r; simpl; [done |].
  destruct (l_num_blocks l >? 0); [| by intros [= <-]].
  destruct (cow_body _ _ _ _ _ _ _ _) as [[s1 l1 | s1 l1 | s1 l1 ret] |] eqn:Eb; [| | | done].
  - intros H. apply IH in H. apply isize_cow_body in Eb. simpl in Eb. congruence.
  - intros [= <-]. by apply isize_cow_body in Eb.
  - intros [= <-]. by apply isize_cow_body in Eb.
Qed.

Lemma isize_set_updating s entry v :
  i_size (nova_set_write_entry_updating s entry v) = i_size s.
Proof. unfold nova_set_write_entry_updating. by destruct (log s !! entry). Qed.

Lemma isize_inplace_arm s l start_blk ent_blks entry inplace :
  match inplace_arm alloc s l start_blk ent_blks entry inplace with
  | inl (s', _, _, _) => i_size s' = i_size s
  | inr r => i_size (wr_state r) = i_size s
  end.
Proof.
  unfold inplace_arm. destruct (_ && _).
  - destruct (_ || _); [apply isize_set_updating | done].
  - destruct (nova_new_data_blocks _ _ _ _ _) as [[s1 b] a] eqn:Ea.
    apply isize_new_data_blocks in Ea. by destruct (a <=? 0).
Qed.

Lemma isize_inplace_body fuel s u ep time l r :
  inplace_body alloc csum_of fuel s u ep time l = Some r ->
  i_size (wr_state r) = i_size s.
Proof.
  unfold inplace_body. cbv zeta.
  destruct (nova_check_existing_entry _ _ _ _ _) as [[ent_blks entry] inplace].
  pose proof (isize_inplace_arm s l (Z.shiftr (l_pos l) s_blocksize_bits)
                ent_blks entry inplace) as Harm.
  destruct (inplace_arm _ _ _ _ _ _ _) as [[[[s1 l1] hole_fill] blk_off] | r1];
    [| by intros [= <-]].
  destruct (wr_copy_in _ _ _ _ _ _ _) as [s2 copied] eqn:Ec.
  apply isize_wr_copy_in in Ec.
  destruct (wr_protect _ _ _ _ _ _ _) as [[s3 ret] |] eqn:Ep; [| done].
  apply isize_wr_protect in Ep.
  destruct (negb (ret =? 0)); [intros [= <-]; simpl; congruence |].
  destruct hole_fill.
  - destruct (wr_append _ _ _ _ _ _) as [[s4 l4] ret'] eqn:Eapp.
    apply isize_wr_append in Eapp.
    size_tail.
  - size_tail.
Qed.

Lemma isize_inplace_loop fuel : forall s u ep time l r,
  inplace_loop alloc csum_of fuel s u ep time l = Some r ->
  i_size (wr_state r) = i_size s.
Proof.
  induction fuel as [| fuel IH]; intros s u ep time l r; simpl; [done |].
  destruct (l_num_blocks l >? 0); [| by intros [= <-]].
  destruct (inplace_body _ _ _ _ _ _ _ _) as [[s1 l1 | s1 l1 | s1 l1 ret] |] eqn:Eb;
    [| | | done].
  - intros H. apply IH in H. apply isize_inplace_body in Eb. simpl in Eb. congruence.
  - intros [= <-]. by apply isize_inplace_body in Eb.
  - intros [= <-]. by apply isize_inplace_body in Eb.
Qed.

End Sizes.

Lemma isize_reassign_loop fuel : forall s curr_p s' ret,
  reassign_loop fuel s curr_p = Some (s', ret) -> i_size s' = i_size s.
Proof.
  induction fuel as [| fuel IH]; intros s curr_p s' ret; simpl; [done |].
  destruct (_ && _); [| by intros [= <- <-]].
  destruct (_ =? 0); [by intros [= <- <-] |].
  destruct (negb _); [apply IH |].
  intros H. apply IH in H. rewrite H.
  match goal with |- i_size (nova_assign_write_entry ?s0 ?c) = _ =>
    destruct (assign_write_entry_same s0 c) as [Hd _]; apply (sd_isize _ _ Hd) end.
Qed.

Lemma isize_cleanup fuel s blocknr allocated begin_tail end_tail s' ret :
  nova_cleanup_incomplete_write fuel s blocknr allocated begin_tail end_tail = Some (s', ret) ->
  i_size s' = i_size s.
Proof.
  unfold nova_cleanup_incomplete_write. cbv zeta.
  assert (forall fuel s p q s' ret,
            cleanup_loop fuel s p q = Some (s', ret) -> i_size s' = i_size s) as Hloop.
  { clear. induction fuel as [| fuel IH]; intros s p q s' ret; simpl; [done |].
    destruct (negb (p =? q)); [| by intros [= <- <-]].
    destruct (_ =? 0); [by intros [= <- <-] |].
    destruct (negb _); [apply IH |].
    intros H. by apply IH in H. }
  destruct (_ && _); (destruct (_ || _); [by intros [= <- <-] | intros H%Hloop; by rewrite H]).
Qed.

Lemma isize_write_out fuel s l ret ppos lock s' ret' ppos' :
  write_out fuel s l ret ppos lock = Some (s', ret', ppos') -> i_size s' = i_size s.
Proof.
  unfold write_out.
  destruct (if ret <? 0 then _ else _) as [[s1 r1] |] eqn:E; [| done].
  intros [= <- <- <-].
  assert (i_size s1 = i_size s) as <-.
  { destruct (ret <? 0); [by eapply isize_cleanup | by inversion E]. }
  by destruct lock.
Qed.

Lemma commit_size (ret2 : Z) fuel s2 s3 l ppos lock pos len s' ret ppos' :
  pos_inv pos len l -> (ret2 = 0 \/ ret2 = - EINVAL) -> i_size s3 = i_size s2 ->
  (if negb (ret2 =? 0) then write_out fuel s2 l ret2 ppos lock
   else write_out fuel (if l_pos l >? i_size s3 then set_sizes (l_pos l) s3 else s3) l
          (l_written l) (l_pos l) lock) = Some (s', ret, ppos') ->
  i_size s2 <= i_size s' /\ (0 < ret -> i_size s' = Z.max (i_size s2) (pos + ret)).
Proof.
  intros (Hp & Hw & Hc & Hc0) [-> | ->] H3; simpl.
  - intros Hout. pose proof (write_out_ret _ _ _ _ _ _ _ _ _ Hout) as [-> ->].
    apply isize_write_out in Hout. rewrite Hout.
    destruct (Z.gtb_spec (l_pos l) (i_size s3)); simpl; lia.
  - intros Hout. pose proof (write_out_ret _ _ _ _ _ _ _ _ _ Hout) as [-> ->].
    apply isize_write_out in Hout. unfold EINVAL. lia.
Qed.

(** X10. The file size after a write call under either policy: it never
    shrinks, and a call that returns a positive count leaves it at the
    larger of the old size and the end of the bytes written. *)
Theorem write_extends_file_size
    (alloc : allocator) (csum_of : list byte -> Z) (inplace_data_updates : Z)
    (fuel : nat) (s : nova_state) (filp : file) (u : ubuf) (len ppos : Z)
    (s' : nova_state) (ret ppos' : Z) :
  let pos := if f_append filp then i_size s else ppos in
  0 <= len < 2 ^ 63 ->
  nova_dax_file_write alloc csum_of inplace_data_updates fuel s filp u len ppos
  = Some (s', ret, ppos') ->
  i_size s <= i_size s'
  /\ (0 < ret -> f_remove_privs filp <= 0 -> i_size s' = Z.max (i_size s) (pos + ret)).
Proof.
  intros pos Hlen. unfold nova_dax_file_write.
  destruct (negb (inplace_data_updates =? 0)).
  - unfold nova_inplace_file_write.
    destruct (len =? 0); [intros [= <- <- _]; lia |].
    destruct (negb (ub_access_ok u)).
    { intros Hout. pose proof (write_out_ret _ _ _ _ _ _ _ _ _ Hout) as [-> _].
      apply isize_write_out in Hout. simpl in Hout. unfold EFAULT. lia. }
    destruct (negb (f_remove_privs filp =? 0)).
    { intros Hout. pose proof (write_out_ret _ _ _ _ _ _ _ _ _ Hout) as [-> _].
      apply isize_write_out in Hout. simpl in Hout. lia. }
    cbv zeta.
    destruct (inplace_loop _ _ _ _ _ _ _ _) as [r |] eqn:El; [| done].
    eapply inplace_loop_pos in El as Hinv; [| apply init_pos_inv; lia | lia].
    pose proof (isize_inplace_loop _ _ _ _ _ _ _ _ _ El) as Hsz. simpl in Hsz.
    assert (forall l1, pos_inv pos len l1 ->
              inplace_commit fuel (wr_state r) l1
                (Z.shiftr (ulong (len + Z.land (if f_append filp
                                                 then i_size (emit EvLock s) else ppos)
                                          (s_blocksize - 1) - 1)) s_blocksize_bits + 1)
                ppos true = Some (s', ret, ppos') ->
              i_size s <= i_size s'
              /\ (0 < ret -> f_remove_privs filp <= 0 ->
                  i_size s' = Z.max (i_size s) (pos + ret))) as Hcommit.
    { intros l1 Hl1. unfold inplace_commit. cbv zeta.
      destruct (if l_update_log l1 then _ else _) as [[s2 ret2] |] eqn:E; [| done].
      assert (i_size s2 = i_size s /\ (ret2 = 0 \/ ret2 = - EINVAL)) as [Hs2 Hr2].
      { destruct (l_update_log l1).
        - split; [| by apply reassign_loop_ret in E].
          apply isize_reassign_loop in E. simpl in E. congruence.
        - inversion E; subst. simpl. split; [done | by left]. }
      intros Hc.
      apply (commit_size ret2 fuel s2 s2 l1 ppos true pos len) in Hc as [H1 H2];
        [| done | done | done].
      rewrite <- Hs2. split; [done | intros Hr _; by apply H2]. }
    destruct r as [s1 l1 | s1 l1 | s1 l1 r1]; simpl in Hinv, Hsz, Hcommit.
    + by apply Hcommit.
    + by apply Hcommit.
    + intros Hout. pose proof (write_out_ret _ _ _ _ _ _ _ _ _ Hout) as [-> _].
      apply isize_write_out in Hout. apply inplace_loop_out in El. lia.
  - unfold nova_cow_file_write.
    destruct (len =? 0); [intros [= <- <- _]; lia |].
    destruct (mapping_mapped s); [intros [= <- <- _]; unfold EACCES; lia |].
    destruct (negb (ub_access_ok u)).
    { intros Hout. pose proof (write_out_ret _ _ _ _ _ _ _ _ _ Hout) as [-> _].
      apply isize_write_out in Hout. simpl in Hout. unfold EFAULT. lia. }
    destruct (negb (f_remove_privs filp =? 0)).
    { intros Hout. pose proof (write_out_ret _ _ _ _ _ _ _ _ _ Hout) as [-> _].
      apply isize_write_out in Hout. simpl in Hout. lia. }
    cbv zeta.
    destruct (cow_loop _ _ _ _ _ _ _ _) as [r |] eqn:El; [| done].
    eapply cow_loop_pos in El as Hinv; [| apply init_pos_inv; lia | lia].
    pose proof (isize_cow_loop _ _ _ _ _ _ _ _ _ El) as Hsz. simpl in Hsz.
    assert (forall l1, pos_inv pos len l1 ->
              cow_commit fuel (wr_state r) l1
                (Z.shiftr (ulong (len + Z.land (if f_append filp
                                                 then i_size (emit EvLock s) else ppos)
                                          (s_blocksize - 1) - 1)) s_blocksize_bits + 1)
                ppos true = Some (s', ret, ppos') ->
              i_size s <= i_size s'
              /\ (0 < ret -> f_remove_privs filp <= 0 ->
                  i_size s' = Z.max (i_size s) (pos + ret))) as Hcommit.
    { intros l1 Hl1. unfold cow_commit. cbv zeta.
      destruct (nova_reassign_file_tree _ _ _) as [[s2 ret2] |] eqn:E; [| done].
      assert (i_size s2 = i_size s /\ (ret2 = 0 \/ ret2 = - EINVAL)) as [Hs2 Hr2].
      { split; [| by apply reassign_loop_ret in E].
        apply isize_reassign_loop in E. simpl in E. congruence. }
      intros Hc.
      apply (commit_size ret2 fuel s2 (set_i_blocks (sih_i_blocks s2) s2) l1 ppos true
               pos len) in Hc as [H1 H2]; [| done | done | done].
      rewrite <- Hs2. split; [done | intros Hr _; by apply H2]. }
    destruct r as [s1 l1 | s1 l1 | s1 l1 r1]; simpl in Hinv, Hsz, Hcommit.
    + by apply Hcommit.
    + by apply Hcommit.
    + intros Hout. pose proof (write_out_ret _ _ _ _ _ _ _ _ _ Hout) as [-> _].
      apply isize_write_out in Hout. apply cow_loop_out in El. lia.
Qed.


Lemma write_extends_file_size_witness :
  exists s',
    nova_dax_file_write ex_alloc byte_sum 1 8 ex_block_A ex_append (ex_user x42 100) 100 0
    = Some (s', 100, 4196)
    /\ i_size ex_block_A <= i_size s'
    /\ (0 < 100 -> f_remove_privs ex_append <= 0 ->
        i_size s' = Z.max (i_size ex_block_A) (i_size ex_block_A + 100)).
Proof.
  destruct (wr_ret_some
              (nova_dax_file_write ex_alloc byte_sum 1 8 ex_block_A ex_append
                 (ex_user x42 100) 100 0) 100 4196) as [s' Hs']; [vm_compute; reflexivity |].
  exists s'. split; [exact Hs' |].
  apply (write_extends_file_size ex_alloc byte_sum 1 8 ex_block_A ex_append
           (ex_user x42 100) 100 0 s' 100 4196).
  - lia.
  - exact Hs'.
Defined.


(** ** Edge behaviour of the read path *)

Lemma read_eof csum_of fuel s dst len pos :
  ub_access_ok dst = true -> 0 <= i_size s <= pos -> pos < 2 ^ 63 -> len < 2 ^ 63 ->
  (1 <= fuel)%nat ->
  do_dax_mapping_read csum_of fuel s dst len pos = Some (0, [], pos + 0).
Proof.
  intros Hacc Hsz Hpos Hlen Hfuel.
  unfold do_dax_mapping_read. cbv zeta. rewrite Hacc. cbn [negb].
  destruct (Z.eqb_spec (i_size s) 0) as [H0 | H0]; [done |].
  assert (ulong (i_size s - pos) = if pos =? i_size s then 0 else 2 ^ 64 + i_size s - pos)
    as ->.
  { unfold ulong. destruct (Z.eqb_spec pos (i_size s)); lia. }
  destruct (Z.leb_spec (if len >? (if pos =? i_size s then 0 else 2 ^ 64 + i_size s - pos)
                        then if pos =? i_size s then 0 else 2 ^ 64 + i_size s - pos
                        else len) 0) as [Hle | Hgt]; [done |].
  destruct fuel as [| fuel]; [lia |]. cbn [read_loop].
  unfold read_body. cbv zeta. cbn [r_index r_offset].
  rewrite !shiftr_page, !land_not_page_mask.
  assert ((pos / 4096 >=? (i_size s - 1) / 4096)
          && ((pos / 4096 >? (i_size s - 1) / 4096)
              || ((i_size s - 1) mod 4096 + 1 <=? pos mod 4096)) = true) as ->.
  { apply andb_true_iff. split; [lia |]. apply orb_true_iff.
    destruct (Z.gtb_spec (pos / 4096) ((i_size s - 1) / 4096)); [by left | right]. lia. }
  done.
Qed.

Lemma read_eof_some csum_of fuel s dst len pos r :
  ub_access_ok dst = true -> 0 <= i_size s <= pos -> pos < 2 ^ 63 -> len < 2 ^ 63 ->
  do_dax_mapping_read csum_of fuel s dst len pos = Some r -> r = (0, [], pos + 0).
Proof.
  intros Hacc Hsz Hpos Hlen. destruct fuel as [| fuel].
  - unfold do_dax_mapping_read. cbv zeta. rewrite Hacc. cbn [negb].
    destruct (i_size s =? 0); [by intros [= <-] |].
    destruct (_ <=? 0); [by intros [= <-] | done].
  - rewrite read_eof by (done || lia). by intros [= <-].
Qed.

(** X11. A read that starts at or beyond the end of the file returns 0, stores
    nothing in the user buffer and leaves the file position as it was. *)
Theorem read_beyond_eof_returns_nothing
    (csum_of : list byte -> Z) (fuel : nat) (s : nova_state) (dst : ubuf) (len pos : Z) :
  ub_access_ok dst = true -> 0 <= i_size s <= pos -> pos < 2 ^ 63 -> len < 2 ^ 63 ->
  (1 <= fuel)%nat ->
  nova_dax_file_read csum_of fuel s dst len pos = Some (0, [], pos).
Proof.
  intros Hacc Hsz Hpos Hlen Hfuel. unfold nova_dax_file_read.
  rewrite read_eof by done. by rewrite Z.add_0_r.
Qed.

Lemma read_beyond_eof_returns_nothing_witness :
  nova_dax_file_read byte_sum 1 ex_block_A (ex_dest 100) 100 5000 = Some (0, [], 5000).
Proof.
  apply (read_beyond_eof_returns_nothing byte_sum 1 ex_block_A (ex_dest 100) 100 5000).
  - reflexivity.
  - simpl. lia.
  - lia.
  - lia.
  - lia.
Defined.

Lemma length_mem_load m a n : Z.of_nat (length (mem_load m a n)) = Z.max 0 n.
Proof. unfold mem_load. rewrite length_map, length_seq. lia. Qed.

Section ReadBounds.

Variable csum_of : list byte -> Z.
Variables (s : nova_state) (dst : ubuf) (pos isize len end_index : Z).

Hypothesis Hlen : 0 <= len < 2 ^ 64.

(** The loop state: the bytes counted are the bytes stored, at most the
    (clipped) length. *)
Definition read_counted (l : rd_locals) : Prop :=
  0 <= r_copied l <= len /\ Z.of_nat (length (r_out l)) = r_copied l.

(** What the loop may answer. *)
Definition read_answer (r : Z * list byte * Z) : Prop :=
  let '(ret, out, ppos') := r in
  ret <= len /\ ppos' = pos + Z.max 0 ret /\ ret <= Z.of_nat (length out).

Lemma read_out_answer l error :
  0 <= r_copied l <= len -> r_copied l <= Z.of_nat (length (r_out l)) -> error <= 0 ->
  read_answer (read_out pos l error).
Proof.
  intros Hc Hl He. unfold read_out, read_answer.
  destruct (Z.eqb_spec (r_copied l) 0) as [E | E]; simpl; [rewrite E |]; lia.
Qed.

Lemma read_copy_counted l nr zero nvmm :
  read_counted l ->
  match read_copy csum_of s dst len l nr zero nvmm with
  | RdNext l' => read_counted l'
  | RdOut l' error =>
      0 <= r_copied l' <= len /\ r_copied l' <= Z.of_nat (length (r_out l')) /\ error <= 0
  | RdReturn ret => ret < 0
  end.
Proof.
  intros [Hc Hl]. unfold read_copy. cbv zeta.
  rewrite (ulong_small (len - r_copied l)) by lia.
  pose proof (ulong_range (nr - r_offset l)) as Hnr.
  set (nr1 := if ulong (nr - r_offset l) >? len - r_copied l then len - r_copied l
              else ulong (nr - r_offset l)).
  assert (0 <= nr1 <= len - r_copied l) as Hnr1.
  { subst nr1. destruct (Z.gtb_spec (ulong (nr - r_offset l)) (len - r_copied l)); lia. }
  destruct (_ && _); [unfold EIO; simpl; lia |].
  assert (0 <= user_copy_ok dst (r_copied l) nr1 <= nr1) as Hok by (unfold user_copy_ok; lia).
  set (ok := user_copy_ok dst (r_copied l) nr1) in *.
  assert (Z.of_nat (length (if zero then repeat x00 (Z.to_nat ok)
                            else mem_load (pmem s)
                                   (nova_get_block (Z.shiftl nvmm PAGE_SHIFT) + r_offset l) ok))
          = ok) as Hbytes.
  { destruct zero; [rewrite repeat_length | rewrite length_mem_load]; lia. }
  destruct (negb (nr1 - ok =? 0)) eqn:E; simpl.
  - rewrite length_app. unfold EFAULT. lia.
  - unfold read_counted. simpl. rewrite length_app. lia.
Qed.

Lemma read_body_counted l :
  read_counted l ->
  match read_body csum_of s dst isize len end_index l with
  | RdNext l' => read_counted l'
  | RdOut l' error =>
      0 <= r_copied l' <= len /\ r_copied l' <= Z.of_nat (length (r_out l')) /\ error <= 0
  | RdReturn ret => ret < 0
  end.
Proof.
  intros Hc. unfold read_body. cbv zeta.
  destruct (_ && _); [destruct Hc; lia |].
  destruct (_ =? 0); [by apply read_copy_counted |].
  destruct (_ || _); [unfold EINVAL; lia |].
  by apply read_copy_counted.
Qed.

Lemma read_loop_answer fuel : forall l r,
  read_counted l ->
  read_loop csum_of fuel s dst pos isize len end_index l = Some r ->
  read_answer r.
Proof.
  induction fuel as [| fuel IH]; intros l r Hc; simpl; [done |].
  pose proof (read_body_counted l Hc) as Hb.
  destruct (read_body _ _ _ _ _ _ _) as [l' | l' error | ret].
  - destruct (_ <? len); [by apply IH |].
    intros [= <-]. destruct Hb as [H1 H2]. apply read_out_answer; lia.
  - intros [= <-]. destruct Hb as (H1 & H2 & H3). by apply read_out_answer.
  - intros [= <-]. unfold read_answer. destruct Hc as [H1 H2]. lia.
Qed.

End ReadBounds.

(** X12. A read never returns more than it was asked for, never returns bytes
    from beyond the end of the file, advances the file position by exactly
    the count it returns (not at all on an error), and has stored at least
    the bytes it reports in the user buffer. *)
Theorem read_returns_at_most_request
    (csum_of : list byte -> Z) (fuel : nat) (s : nova_state) (dst : ubuf) (len pos : Z)
    (ret : Z) (out : list byte) (ppos' : Z) :
  0 <= pos < 2 ^ 63 -> 0 <= i_size s < 2 ^ 63 -> len < 2 ^ 63 ->
  nova_dax_file_read csum_of fuel s dst len pos = Some (ret, out, ppos') ->
  ret <= Z.max 0 len
  /\ ppos' = pos + Z.max 0 ret
  /\ (0 < ret -> pos + ret <= i_size s /\ ret <= Z.of_nat (length out)).
Proof.
  intros Hpos Hsz Hlen. unfold nova_dax_file_read.
  destruct (ub_access_ok dst) eqn:Hacc.
  2:{ unfold do_dax_mapping_read. cbv zeta. rewrite Hacc. cbn [negb].
      unfold read_out. cbn [r_copied r_out]. intros [= <- <- <-].
      unfold EFAULT. simpl. lia. }
  destruct (Z.le_gt_cases (i_size s) pos) as [Heof | Hin].
  - intros Hr. apply read_eof_some in Hr; [| done | lia | lia | lia].
    inversion Hr; subst. simpl. lia.
  - unfold do_dax_mapping_read. cbv zeta. rewrite Hacc. cbn [negb].
    assert ((i_size s =? 0) = false) as -> by lia.
    rewrite ulong_small by lia.
    set (len1 := if len >? i_size s - pos then i_size s - pos else len).
    assert (len1 <= len /\ len1 <= i_size s - pos) as [Hl1 Hl2].
    { subst len1. destruct (Z.gtb_spec len (i_size s - pos)); lia. }
    destruct (Z.leb_spec len1 0).
    { unfold read_out. cbn [r_copied r_out]. intros [= <- <- <-]. simpl. lia. }
    intros Hr. eapply read_loop_answer in Hr.
    + unfold read_answer in Hr. lia.
    + lia.
    + unfold read_counted. simpl. lia.
Qed.

Lemma read_returns_at_most_request_witness :
  exists ret out ppos',
    nova_dax_file_read byte_sum 4 ex_block_A (ex_dest 200) 200 4000 = Some (ret, out, ppos')
    /\ ret <= Z.max 0 200
    /\ ppos' = 4000 + Z.max 0 ret
    /\ (0 < ret -> 4000 + ret <= i_size ex_block_A /\ ret <= Z.of_nat (length out)).
Proof.
  destruct (nova_dax_file_read byte_sum 4 ex_block_A (ex_dest 200) 200 4000)
    as [[[ret out] ppos'] |] eqn:E; [| by vm_compute in E].
  exists ret, out, ppos'. split; [reflexivity |].
  apply (read_returns_at_most_request byte_sum 4 ex_block_A (ex_dest 200) 200 4000
           ret out ppos').
  - lia.
  - simpl. lia.
  - lia.
  - exact E.
Defined.

Section ReadHole.

Variable csum_of : list byte -> Z.
Variables (s : nova_state) (pos len : Z) (dst : ubuf).

Hypothesis Hpos : 0 <= pos.
Hypothesis Hlen : 0 < len.
Hypothesis Hsize : pos + len <= i_size s.
Hypothesis Hmax : i_size s < 2 ^ 62.
Hypothesis Hholes :
  forall pg, pos / 4096 <= pg <= (pos + len - 1) / 4096 -> nova_get_write_entry s pg = 0.
Hypothesis Hacc : ub_access_ok dst = true.
Hypothesis Hvalid : len <= ub_valid dst.

Definition hole_at (l : rd_locals) : Prop :=
  r_index l * 4096 + r_offset l = pos + r_copied l
  /\ 0 <= r_offset l < 4096 /\ 0 <= r_copied l < len
  /\ r_out l = repeat x00 (Z.to_nat (r_copied l)).

Lemma read_body_hole l :
  hole_at l ->
  exists l',
    read_body csum_of s dst (i_size s) len (Z.shiftr (i_size s - 1) PAGE_SHIFT) l = RdNext l'
    /\ r_copied l < r_copied l' <= len
    /\ r_out l' = repeat x00 (Z.to_nat (r_copied l'))
    /\ (r_copied l' < len -> hole_at l' /\ r_index l < r_index l').
Proof.
  intros (Hio & Hoff & Hcop & Hout).
  assert (pos / 4096 <= r_index l <= (pos + len - 1) / 4096) as Hpg by lia.
  unfold read_body. cbv zeta. rewrite shiftr_page, land_not_page_mask.
  assert ((r_index l >=? (i_size s - 1) / 4096)
          && ((r_index l >? (i_size s - 1) / 4096)
              || ((i_size s - 1) mod 4096 + 1 <=? r_offset l)) = false) as ->.
  { apply andb_false_iff.
    destruct (Z.geb_spec (r_index l) ((i_size s - 1) / 4096)); [right | by left].
    apply orb_false_iff. split; lia. }
  rewrite (Hholes _ Hpg). simpl (0 =? 0). cbv iota.
  unfold read_copy. cbv zeta. unfold PAGE_SIZE.
  rewrite (ulong_small (4096 - _)) by lia.
  rewrite (ulong_small (len - _)) by lia.
  set (nr := if 4096 - r_offset l >? len - r_copied l then len - r_copied l
             else 4096 - r_offset l).
  assert (nr = Z.min (4096 - r_offset l) (len - r_copied l)) as Hnr
    by (subst nr; destruct (Z.gtb_spec (4096 - r_offset l) (len - r_copied l)); lia).
  assert (0 < nr) as Hnr0 by lia.
  simpl (negb true && _ && _ && _). cbv iota.
  assert (user_copy_ok dst (r_copied l) nr = nr) as Hok by (unfold user_copy_ok; lia).
  rewrite Hok, Z.sub_diag. simpl negb. cbv iota.
  assert (r_out l ++ repeat x00 (Z.to_nat nr)
          = repeat x00 (Z.to_nat (r_copied l + (nr - 0)))) as Hout'.
  { rewrite Hout, <- repeat_app. f_equal. lia. }
  eexists. split; [reflexivity |]. simpl.
  split; [lia |]. split; [done |].
  intros Hmore. rewrite shiftr_page, land_not_page_mask.
  assert (r_offset l + (nr - 0) = 4096) as -> by lia.
  split; [| simpl; lia]. repeat split; simpl; try lia. done.
Qed.

Lemma read_loop_hole fuel : forall l,
  hole_at l -> (Z.to_nat ((pos + len - 1) / 4096 - r_index l) < fuel)%nat ->
  read_loop csum_of fuel s dst pos (i_size s) len (Z.shiftr (i_size s - 1) PAGE_SHIFT) l
  = Some (len, repeat x00 (Z.to_nat len), pos + len).
Proof.
  induction fuel as [| fuel IH]; intros l Hat Hfuel; [lia |]. simpl.
  destruct (read_body_hole l Hat) as (l' & -> & Hc & Hout & Hnext).
  destruct (Z.ltb_spec (r_copied l') len) as [Hlt | Hge].
  - destruct (Hnext Hlt) as [Hat' Hidx]. apply IH; [done |].
    destruct Hat' as (Hio & Hoff & Hcop & _).
    assert (r_index l' <= (pos + len - 1) / 4096) by lia. lia.
  - assert (r_copied l' = len) as Heq by lia.
    unfold read_out. rewrite Hout, Heq.
    by assert ((len =? 0) = false) as -> by lia.
Qed.

Lemma read_holes fuel :
  (Z.to_nat ((pos + len - 1) / 4096 + 1 - pos / 4096) <= fuel)%nat ->
  do_dax_mapping_read csum_of fuel s dst len pos
  = Some (len, repeat x00 (Z.to_nat len), pos + len).
Proof.
  intros Hfuel. unfold do_dax_mapping_read. cbv zeta.
  rewrite Hacc. simpl negb. cbv iota.
  assert ((i_size s =? 0) = false) as -> by lia.
  rewrite ulong_small by lia.
  assert ((len >? i_size s - pos) = false) as -> by lia.
  assert ((len <=? 0) = false) as -> by lia.
  apply read_loop_hole.
  - repeat split; simpl; rewrite ?shiftr_page, ?land_not_page_mask; lia.
  - simpl. rewrite shiftr_page. lia.
Qed.

End ReadHole.

(** X13. Reading a hole: when no page of the window has an entry in the index,
    the read returns the whole window as zero bytes, whatever the device
    holds, and advances the file position by its length. *)
Theorem read_of_hole_returns_zeros
    (csum_of : list byte -> Z) (fuel : nat) (s : nova_state) (dst : ubuf) (len pos : Z) :
  0 <= pos -> 0 < len -> pos + len <= i_size s -> i_size s < 2 ^ 62 ->
  (forall pg, pos / 4096 <= pg <= (pos + len - 1) / 4096 -> nova_get_write_entry s pg = 0) ->
  ub_access_ok dst = true -> len <= ub_valid dst ->
  (Z.to_nat ((pos + len - 1) / 4096 + 1 - pos / 4096) <= fuel)%nat ->
  nova_dax_file_read csum_of fuel s dst len pos
  = Some (len, repeat x00 (Z.to_nat len), pos + len).
Proof. intros. unfold nova_dax_file_read. by apply read_holes. Qed.

(** A file of two pages without any block: both pages are holes. *)
Definition ex_sparse : nova_state := set_sizes 8192 ex_fresh.

Lemma read_of_hole_returns_zeros_witness :
  nova_dax_file_read byte_sum 2 ex_sparse (ex_dest 5000) 5000 100
  = Some (5000, repeat x00 (Z.to_nat 5000), 100 + 5000).
Proof.
  apply (read_of_hole_returns_zeros byte_sum 2 ex_sparse (ex_dest 5000) 5000 100).
  - lia.
  - lia.
  - simpl. lia.
  - simpl. lia.
  - intros pg _. reflexivity.
  - reflexivity.
  - simpl. lia.
  - vm_compute. lia.
Defined.


(** ** The two log walkers on their own *)

(** The entry that wins a page among the entries at the slots [cs], taken
    in log order: the last one that covers the page, or [old] when none
    does. *)
Definition newest_covering (s : nova_state) (cs : list Z) (pg : Z) (old : option Z)
    : option Z :=
  fold_left (fun acc c => if bool_decide (covers (entry_at s c) pg) then Some c else acc)
            cs old.

Lemma newest_covering_same s s' cs pg old :
  same_data s s' -> newest_covering s' cs pg old = newest_covering s cs pg old.
Proof.
  intros Hd. unfold newest_covering. revert old.
  induction cs as [| c cs IH]; intros old; simpl; [done |].
  rewrite IH. f_equal.
  rewrite (bool_decide_ext _ (covers (entry_at s c) pg)); [done |].
  by apply same_data_covers.
Qed.

Lemma free_mono_invalidate s old : free_blocks s ⊆ free_blocks (nova_invalidate_page s old).
Proof.
  unfold nova_invalidate_page. destruct (log s !! old); [| done].
  destruct (_ =? _); simpl; set_solver.
Qed.

Lemma free_mono_assign_entry s c : free_blocks s ⊆ free_blocks (nova_assign_write_entry s c).
Proof.
  unfold nova_assign_write_entry.
  generalize (seqZ (pgoff (entry_at s c)) (num_pages (entry_at s c))).
  intros pgs. revert s. induction pgs as [| pg pgs IH]; intros s; simpl; [done |].
  etrans; [| apply IH]. unfold nova_assign_page.
  destruct (_ =? 0); simpl; [done | apply free_mono_invalidate].
Qed.

Lemma reassign_loop_newest cs : forall fuel s p,
  log_walk s p cs (sih_log_tail s) ->
  NoDup (p :: map (fun c => c + entry_size) cs) ->
  (cs <> [] -> p <> 0) -> (forall c, c ∈ cs -> 0 < c) ->
  (forall c, c ∈ cs -> entry_type (entry_at s c) = FILE_WRITE) ->
  (length cs < fuel)%nat ->
  exists s', reassign_loop fuel s p = Some (s', 0)
    /\ same_data s s'
    /\ free_blocks s ⊆ free_blocks s'
    /\ forall pg, sih_tree s' !! pg = newest_covering s cs pg (sih_tree s !! pg).
Proof.
  induction cs as [| c cs IH]; intros fuel s p Hw Hnd Hp0 Hpos Hty Hfuel.
  - simpl in Hw. destruct fuel as [| fuel]; [simpl in Hfuel; lia |]. simpl.
    rewrite <- Hw, Z.eqb_refl, andb_false_r. exists s.
    split; [done |]. split; [apply same_data_refl |]. done.
  - destruct fuel as [| fuel]; [simpl in Hfuel; lia |].
    pose proof (log_walk_end _ _ _ _ Hw ltac:(done)) as Hq.
    destruct Hw as (Hc & Hne & Hw).
    apply NoDup_cons in Hnd as [Hp Hnd].
    assert (p <> sih_log_tail s) as Hpq by (by intros ->).
    specialize (Hp0 ltac:(done)).
    simpl. assert ((p =? 0) = false) as -> by lia.
    assert ((p =? sih_log_tail s) = false) as -> by lia. simpl.
    fold (slot_of s p). rewrite <- Hc.
    assert ((c =? 0) = false) as -> by lia.
    unfold nova_get_entry_type. rewrite (Hty c) by apply list_elem_of_here.
    rewrite Z.eqb_refl. simpl.
    destruct (assign_write_entry_same s c) as [Hd Ht].
    pose proof (free_mono_assign_entry s c) as Hfree.
    set (s1 := nova_assign_write_entry s c) in *.
    destruct (IH fuel s1 (c + entry_size)) as (s' & Hs' & Hd' & Hf' & Ht').
    + rewrite (sd_tail _ _ Hd). apply (log_walk_pages s); [| done]. by rewrite (sd_pages _ _ Hd).
    + done.
    + intros _. specialize (Hpos c ltac:(apply list_elem_of_here)). unfold entry_size. lia.
    + intros c' Hc'. apply Hpos. by apply list_elem_of_further.
    + intros c' Hc'. destruct (same_data_entry s s1 c' Hd) as (-> & _).
      apply Hty. by apply list_elem_of_further.
    + simpl in Hfuel. lia.
    + exists s'. split; [done |]. split; [by eapply same_data_trans |].
      split; [by etrans |].
      intros pg. rewrite Ht', Ht. rewrite (newest_covering_same s s1) by done. done.
Qed.

(** X14. The reassign pass over the entries appended since [begin_tail] (the
    slots [cs], up to the committed tail): it returns 0; every page is
    then indexed by the newest of these entries that covers it, and as
    before when none does; the pass writes no file data, moves no tail and
    changes no size, and the only blocks that change hands are blocks it
    gives back to the allocator. *)
Theorem reassign_pass_newest_entry_wins
    (fuel : nat) (s : nova_state) (begin_tail : Z) (cs : list Z) :
  log_walk s begin_tail cs (sih_log_tail s) ->
  NoDup (begin_tail :: map (fun c => c + entry_size) cs) ->
  (cs <> [] -> begin_tail <> 0) -> (forall c, c ∈ cs -> 0 < c) ->
  (forall c, c ∈ cs -> entry_type (entry_at s c) = FILE_WRITE) ->
  (length cs < fuel)%nat ->
  exists s', nova_reassign_file_tree fuel s begin_tail = Some (s', 0)
    /\ (forall pg, sih_tree s' !! pg = newest_covering s cs pg (sih_tree s !! pg))
    /\ pmem s' = pmem s /\ sih_log_tail s' = sih_log_tail s /\ i_size s' = i_size s
    /\ free_blocks s ⊆ free_blocks s'.
Proof.
  intros Hw Hnd Hp0 Hpos Hty Hfuel. unfold nova_reassign_file_tree.
  destruct (reassign_loop_newest cs fuel (emit (EvReassign begin_tail) s) begin_tail)
    as (s' & Hs' & Hd & Hf & Ht); try done.
  { by apply (log_walk_pages s). }
  exists s'. split; [done |]. split.
  { intros pg. rewrite Ht. apply newest_covering_same. by split; try done; apply log_ext_refl. }
  destruct Hd. by repeat split.
Qed.

(** X15. The cleanup of a write that did not commit, over the entries it had
    appended (the slots [cs] from [begin_tail] to [end_tail]): it returns
    0 and gives back to the allocator the run that was allocated last and
    the blocks of every one of these entries, and nothing else; the log,
    the committed tails, the index and the file data stay as they were. *)
Theorem cleanup_releases_appended_runs
    (fuel : nat) (s : nova_state) (blocknr allocated begin_tail end_tail : Z)
    (cs : list Z) :
  begin_tail <> 0 -> end_tail <> 0 ->
  log_walk s begin_tail cs end_tail ->
  NoDup (begin_tail :: map (fun c => c + entry_size) cs) ->
  (forall c, c ∈ cs -> entry_type (entry_at s c) = FILE_WRITE) ->
  (length cs < fuel)%nat ->
  exists s',
    nova_cleanup_incomplete_write fuel s blocknr allocated begin_tail end_tail
    = Some (s', 0)
    /\ free_blocks s'
       = free_blocks s
         ∪ (if (blocknr >? 0) && (allocated >? 0) then blocks blocknr allocated else ∅)
         ∪ entry_blocks s cs
    /\ log s' = log s /\ sih_tree s' = sih_tree s /\ pmem s' = pmem s
    /\ sih_log_tail s' = sih_log_tail s /\ sih_alter_log_tail s' = sih_alter_log_tail s.
Proof.
  intros Hb He Hw Hnd Hty Hfuel. unfold nova_cleanup_incomplete_write. cbv zeta.
  assert ((begin_tail =? 0) || (end_tail =? 0) = false) as ->.
  { apply orb_false_iff. lia. }
  set (s1 := if (blocknr >? 0) && (allocated >? 0)
             then nova_free_data_blocks s blocknr allocated else s).
  assert (log s1 = log s /\ log_pages s1 = log_pages s
          /\ free_blocks s1
             = free_blocks s ∪ (if (blocknr >? 0) && (allocated >? 0)
                                then blocks blocknr allocated else ∅)
          /\ sih_tree s1 = sih_tree s /\ pmem s1 = pmem s
          /\ sih_log_tail s1 = sih_log_tail s
          /\ sih_alter_log_tail s1 = sih_alter_log_tail s) as (H1 & H2 & H3 & H4 & H5 & H6 & H7).
  { subst s1. destruct (_ && _); simpl; repeat split; try done.
    by rewrite union_empty_r_L. }
  assert (forall c, entry_at s1 c = entry_at s c) as Hent.
  { intros c. unfold entry_at. by rewrite H1. }
  destruct (cleanup_loop_walk cs fuel s1 begin_tail end_tail)
    as (s' & Hs' & Hf & Ht & Ha & Htr & Hl & Hp); try done.
  { by apply (log_walk_pages s). }
  { intros c Hc. rewrite Hent. by apply Hty. }
  exists s'. split; [done |]. split.
  { rewrite Hf, H3. f_equal. unfold entry_blocks. f_equal.
    apply map_ext. intros c. by rewrite Hent. }
  repeat split; congruence.
Qed.

Lemma reassign_pass_newest_entry_wins_witness :
  exists s', nova_reassign_file_tree 2 ex_block_A 8192 = Some (s', 0)
    /\ (forall pg, sih_tree s' !! pg
                   = newest_covering ex_block_A [8192] pg (sih_tree ex_block_A !! pg))
    /\ pmem s' = pmem ex_block_A /\ sih_log_tail s' = sih_log_tail ex_block_A
    /\ i_size s' = i_size ex_block_A
    /\ free_blocks ex_block_A ⊆ free_blocks s'.
Proof.
  apply (reassign_pass_newest_entry_wins 2 ex_block_A 8192 [8192]).
  - simpl. split; [reflexivity | split; [lia | reflexivity]].
  - apply (bool_decide_unpack _). vm_compute. exact I.
  - lia.
  - intros c Hc%list_elem_of_singleton. lia.
  - intros c Hc%list_elem_of_singleton. by subst.
  - simpl. lia.
Defined.

(** The file of ['A'] bytes before its entry was committed: the entry is
    in the log, the committed tail is still in front of it. *)
Definition ex_uncommitted : nova_state := set_tails 8192 0 ex_block_A.

Lemma cleanup_releases_appended_runs_witness :
  exists s',
    nova_cleanup_incomplete_write 2 ex_uncommitted 17 2 8192 8256 = Some (s', 0)
    /\ free_blocks s'
       = free_blocks ex_uncommitted
         ∪ (if (17 >? 0) && (2 >? 0) then blocks 17 2 else ∅)
         ∪ entry_blocks ex_uncommitted [8192]
    /\ log s' = log ex_uncommitted /\ sih_tree s' = sih_tree ex_uncommitted
    /\ pmem s' = pmem ex_uncommitted
    /\ sih_log_tail s' = sih_log_tail ex_uncommitted
    /\ sih_alter_log_tail s' = sih_alter_log_tail ex_uncommitted.
Proof.
  apply (cleanup_releases_appended_runs 2 ex_uncommitted 17 2 8192 8256 [8192]).
  - lia.
  - lia.
  - simpl. split; [reflexivity | split; [lia | reflexivity]].
  - apply (bool_decide_unpack _). vm_compute. exact I.
  - intros c Hc%list_elem_of_singleton. by subst.
  - simpl. lia.
Defined.


(** * The registry of writable shared mappings

    [nova_insert_write_vma] and [nova_remove_write_vma] keep the
    writable shared mappings of an inode in a red-black tree keyed by the
    address of the [vm_area_struct], count them in [num_vmas], and keep
    the inode on the super block's [mmap_sih_list] while there is one. *)

(** Kernel constants of [linux/mm.h]. *)
Definition VM_WRITE : Z := 2.
Definition VM_SHARED : Z := 8.
Definition VM_MIXEDMAP : Z := 268435456.
Definition VM_HUGEPAGE : Z := 536870912.

(** A [struct vm_area_struct *]: the address is the identity of the
    mapping, the other fields are the ones this file reads. *)
Record vm_area_struct := {
  vma_addr : Z;
  vma_start : Z;
  vma_end : Z;
  vma_pgoff : Z;
  vma_flags : Z
}.

(** The kernel's [struct rb_root] of [struct vma_item], as the search
    tree it is: [rb_insert_color] and [rb_erase] recolour and rotate,
    which keeps the order of the items. *)
Inductive rb_node :=
  | RbNil
  | RbNode (rb_left : rb_node) (item : vm_area_struct) (rb_right : rb_node).

(** The fields of [struct nova_inode_info_header] for the mappings, and
    the number of times the header is linked on [sbi->mmap_sih_list]. *)
Record vma_state := {
  vma_tree : rb_node;
  num_vmas : Z;
  mmap_sih_list : Z
}.

(** The fields of [struct nova_mmap_entry] that the code fills. *)
Record nova_mmap_entry := {
  me_entry_type : Z;
  me_invalid : Z;
  me_num_pages : Z;
  me_pgoff : Z;
  me_epoch_id : Z
}.

Definition nova_rbtree_compare_vma (curr vma : vm_area_struct) : Z :=
  if vma_addr vma <? vma_addr curr then -1
  else if vma_addr vma >? vma_addr curr then 1
  else 0.

(** The descent of [nova_insert_write_vma] and the linking of the item
    where it ends; [None] when the descent meets the vma itself. *)
Fixpoint rb_link_vma (t : rb_node) (vma : vm_area_struct) : option rb_node :=
  match t with
  | RbNil => Some (RbNode RbNil vma RbNil)
  | RbNode l curr r =>
      let compVal := nova_rbtree_compare_vma curr vma in
      if compVal =? -1
      then match rb_link_vma l vma with
           | Some l' => Some (RbNode l' curr r)
           | None => None
           end
      else if compVal =? 1
      then match rb_link_vma r vma with
           | Some r' => Some (RbNode l curr r')
           | None => None
           end
      else None
  end.

(** The leftmost item of a tree, and the tree without it. *)
Fixpoint rb_first (t : rb_node) : option vm_area_struct :=
  match t with
  | RbNil => None
  | RbNode l x _ => match rb_first l with Some m => Some m | None => Some x end
  end.

Fixpoint rb_erase_first (t : rb_node) : rb_node :=
  match t with
  | RbNil => RbNil
  | RbNode l x r => match l with RbNil => r | _ => RbNode (rb_erase_first l) x r end
  end.

(** [rb_erase] of the node whose subtrees are [l] and [r]: its in-order
    successor takes its place. *)
Definition rb_erase (l r : rb_node) : rb_node :=
  match rb_first r with
  | Some m => RbNode l m (rb_erase_first r)
  | None => l
  end.

(** The descent of [nova_remove_write_vma]: the item found and the tree
    without it, or [None]. *)
Fixpoint rb_unlink_vma (t : rb_node) (vma : vm_area_struct)
    : option (vm_area_struct * rb_node) :=
  match t with
  | RbNil => None
  | RbNode l curr r =>
      let compVal := nova_rbtree_compare_vma curr vma in
      if compVal =? -1
      then match rb_unlink_vma l vma with
           | Some (c, l') => Some (c, RbNode l' curr r)
           | None => None
           end
      else if compVal =? 1
      then match rb_unlink_vma r vma with
           | Some (c, r') => Some (c, RbNode l curr r')
           | None => None
           end
      else Some (curr, rb_erase l r)
  end.

Section VmaRegistry.

(** The module parameter [mmap_cow], the tag of an mmap log entry, and
    the collaborators of other files: the append of an mmap entry to the
    log, the recomputation of the integrity codes of a mapping that goes
    away, and the allocation of a [vma_item] ([item_ok]). *)
Variable mmap_cow : Z.
Variable MMAP_WRITE : Z.
Variable nova_append_mmap_entry :
  nova_state -> nova_mmap_entry -> nova_inode_update -> nova_state * nova_inode_update * Z.
Variable nova_reset_vma_csum_parity : nova_state -> vm_area_struct -> nova_state.

Definition nova_append_write_mmap_to_log (s : nova_state) (vma : vm_area_struct)
    : nova_state * Z :=
  if (data_csum s =? 0) && (data_parity s =? 0) then (s, 0)
  else
    let epoch_id := epoch s in
    let update := {| tail := 0; alter_tail := 0; curr_entry := 0 |} in
    let num_pages := Z.shiftr (ulong (vma_end vma - vma_start vma)) PAGE_SHIFT in
    let data := {| me_entry_type := MMAP_WRITE; me_invalid := 0;
                   me_num_pages := num_pages; me_pgoff := vma_pgoff vma;
                   me_epoch_id := epoch_id |} in
    let '(s, update, ret) := nova_append_mmap_entry s data update in
    if negb (ret =? 0) then (s, ret)
    else (nova_update_inode s update, ret).

Definition nova_insert_write_vma (item_ok : bool) (s : nova_state) (v : vma_state)
    (vma : vm_area_struct) : nova_state * vma_state * Z :=
  let flags := Z.lor VM_SHARED VM_WRITE in
  if (mmap_cow =? 0) && (data_csum s =? 0) && (data_parity s =? 0) then (s, v, 0)
  else if negb (Z.land (vma_flags vma) flags =? flags) then (s, v, 0)
  else if negb item_ok then (s, v, - ENOMEM)
  else
    let s := emit EvLock s in
    let '(s, ret) := nova_append_write_mmap_to_log s vma in
    if negb (ret =? 0) then (emit EvUnlock s, v, ret)
    else
      match rb_link_vma (vma_tree v) vma with
      | None => (emit EvUnlock s, v, ret)
      | Some t =>
          let num := num_vmas v + 1 in
          let insert := num =? 1 in
          (emit EvUnlock s,
           {| vma_tree := t; num_vmas := num;
              mmap_sih_list := if insert then mmap_sih_list v + 1 else mmap_sih_list v |},
           ret)
      end.

Definition nova_remove_write_vma (s : nova_state) (v : vma_state) (vma : vm_area_struct)
    : nova_state * vma_state * Z :=
  if (mmap_cow =? 0) && (data_csum s =? 0) && (data_parity s =? 0) then (s, v, 0)
  else
    let s := emit EvLock s in
    match rb_unlink_vma (vma_tree v) vma with
    | Some (curr, t) =>
        let s := nova_reset_vma_csum_parity s curr in
        let num := num_vmas v - 1 in
        let remove := num =? 0 in
        (emit EvUnlock s,
         {| vma_tree := t; num_vmas := num;
            mmap_sih_list := if remove then mmap_sih_list v - 1 else mmap_sih_list v |},
         0)
    | None => (emit EvUnlock s, v, 0)
    end.

(** [nova_vma_open] and [nova_vma_close] drop the return value. *)
Definition nova_vma_open (item_ok : bool) (s : nova_state) (v : vma_state)
    (vma : vm_area_struct) : nova_state * vma_state :=
  if negb (mmap_cow =? 0) || negb (data_csum s =? 0) || negb (data_parity s =? 0)
  then (nova_insert_write_vma item_ok s v vma).1
  else (s, v).

Definition nova_vma_close (s : nova_state) (v : vma_state) (vma : vm_area_struct)
    : nova_state * vma_state :=
  if negb (mmap_cow =? 0) || negb (data_csum s =? 0) || negb (data_parity s =? 0)
  then (nova_remove_write_vma s v vma).1
  else (s, v).

(** [nova_dax_file_mmap]: the result is the state, the vma with its flags
    set, and the return value. *)
Definition nova_dax_file_mmap (item_ok : bool) (s : nova_state) (v : vma_state)
    (vma : vm_area_struct) : nova_state * vma_state * vm_area_struct * Z :=
  let vma := {| vma_addr := vma_addr vma; vma_start := vma_start vma;
                vma_end := vma_end vma; vma_pgoff := vma_pgoff vma;
                vma_flags := Z.lor (vma_flags vma) (Z.lor VM_MIXEDMAP VM_HUGEPAGE) |} in
  let '(s, v) :=
    if negb (mmap_cow =? 0) || negb (data_csum s =? 0) || negb (data_parity s =? 0)
    then (nova_insert_write_vma item_ok s v vma).1
    else (s, v) in
  (s, v, vma, 0).

End VmaRegistry.

(** ** Properties of the registry *)

(** The addresses in a tree, its size, and the search-tree order. *)
Fixpoint rb_keys (t : rb_node) : gset Z :=
  match t with
  | RbNil => ∅
  | RbNode l x r => rb_keys l ∪ {[ vma_addr x ]} ∪ rb_keys r
  end.

Fixpoint rb_size (t : rb_node) : Z :=
  match t with
  | RbNil => 0
  | RbNode l _ r => rb_size l + 1 + rb_size r
  end.

Fixpoint rb_sorted (t : rb_node) : Prop :=
  match t with
  | RbNil => True
  | RbNode l x r =>
      rb_sorted l /\ rb_sorted r
      /\ (forall k, k ∈ rb_keys l -> k < vma_addr x)
      /\ (forall k, k ∈ rb_keys r -> vma_addr x < k)
  end.

(** The registry of a consistent inode: a search tree, counted by
    [num_vmas], and the header on the list exactly when there is a
    mapping. *)
Definition registry_ok (v : vma_state) : Prop :=
  rb_sorted (vma_tree v)
  /\ num_vmas v = rb_size (vma_tree v)
  /\ mmap_sih_list v = (if num_vmas v =? 0 then 0 else 1).

Definition tracked (v : vma_state) (vma : vm_area_struct) : Prop :=
  vma_addr vma ∈ rb_keys (vma_tree v).

Lemma rb_size_nonneg t : 0 <= rb_size t.
Proof. induction t; simpl; lia. Qed.

Lemma compare_vma_cases curr vma :
  (nova_rbtree_compare_vma curr vma = -1 /\ vma_addr vma < vma_addr curr)
  \/ (nova_rbtree_compare_vma curr vma = 1 /\ vma_addr curr < vma_addr vma)
  \/ (nova_rbtree_compare_vma curr vma = 0 /\ vma_addr vma = vma_addr curr).
Proof.
  unfold nova_rbtree_compare_vma.
  destruct (Z.ltb_spec (vma_addr vma) (vma_addr curr)); [by left |].
  destruct (Z.gtb_spec (vma_addr vma) (vma_addr curr)); [right; left | right; right];
    split; [done | lia | done | lia].
Qed.

Lemma rb_link_vma_spec t vma :
  rb_sorted t ->
  match rb_link_vma t vma with
  | Some t' =>
      (vma_addr vma ∉ rb_keys t) /\ rb_sorted t'
      /\ rb_keys t' = rb_keys t ∪ {[ vma_addr vma ]} /\ rb_size t' = rb_size t + 1
  | None => vma_addr vma ∈ rb_keys t
  end.
Proof.
  induction t as [| l IHl curr r IHr]; simpl.
  - intros _. split; [set_solver |]. split; [| split; [set_solver | done]].
    repeat split; set_solver.
  - intros (Hl & Hr & Hlo & Hhi).
    destruct (compare_vma_cases curr vma) as [[-> Hc] | [[-> Hc] | [-> Hc]]]; simpl.
    + specialize (IHl Hl). destruct (rb_link_vma l vma) as [l' |].
      * destruct IHl as (Hnin & Hs & Hk & Hsz). split.
        { intros [[Hin | Hin%elem_of_singleton]%elem_of_union | Hin]%elem_of_union;
            [done | lia | apply Hhi in Hin; lia]. }
        simpl. rewrite Hk. split; [| split; [set_solver | lia]].
        repeat split; try done.
        intros k. intros [Hin | ->%elem_of_singleton]%elem_of_union;
          [by apply Hlo | done].
      * set_solver.
    + specialize (IHr Hr). destruct (rb_link_vma r vma) as [r' |].
      * destruct IHr as (Hnin & Hs & Hk & Hsz). split.
        { intros [[Hin | Hin%elem_of_singleton]%elem_of_union | Hin]%elem_of_union;
            [apply Hlo in Hin; lia | lia | done]. }
        simpl. rewrite Hk. split; [| split; [set_solver | lia]].
        repeat split; try done.
        intros k. intros [Hin | ->%elem_of_singleton]%elem_of_union;
          [by apply Hhi | done].
      * set_solver.
    + rewrite Hc. set_solver.
Qed.

Lemma rb_first_spec t :
  rb_sorted t ->
  match rb_first t with
  | Some m =>
      rb_sorted (rb_erase_first t)
      /\ rb_keys t = {[ vma_addr m ]} ∪ rb_keys (rb_erase_first t)
      /\ (forall k, k ∈ rb_keys (rb_erase_first t) -> vma_addr m < k)
      /\ rb_size (rb_erase_first t) = rb_size t - 1
  | None => t = RbNil
  end.
Proof.
  induction t as [| l IHl x r IHr]; simpl; [done |].
  intros (Hl & Hr & Hlo & Hhi). specialize (IHl Hl).
  destruct (rb_first l) as [m |].
  - destruct IHl as (Hs & Hk & Hm & Hsz).
    destruct l as [| ll lx lr]; [set_solver |].
    set (l := RbNode ll lx lr) in *.
    assert (vma_addr m < vma_addr x) as Hmx by (apply Hlo; rewrite Hk; set_solver).
    split; [| split; [| split]].
    + change (rb_sorted (RbNode (rb_erase_first l) x r)). simpl.
      repeat split; try done. intros k Hk'. apply Hlo. rewrite Hk. set_solver.
    + change (rb_keys (RbNode (rb_erase_first l) x r)) with
        (rb_keys (rb_erase_first l) ∪ {[ vma_addr x ]} ∪ rb_keys r).
      rewrite Hk. set_solver.
    + change (rb_keys (RbNode (rb_erase_first l) x r)) with
        (rb_keys (rb_erase_first l) ∪ {[ vma_addr x ]} ∪ rb_keys r).
      intros k [[Hin | ->%elem_of_singleton]%elem_of_union | Hin]%elem_of_union;
        [by apply Hm | done | apply Hhi in Hin; lia].
    + change (rb_size (RbNode (rb_erase_first l) x r)) with
        (rb_size (rb_erase_first l) + 1 + rb_size r). lia.
  - subst l. simpl. split; [done |]. split; [set_solver |]. split; [done | lia].
Qed.

Lemma rb_erase_spec l x r :
  rb_sorted (RbNode l x r) ->
  rb_sorted (rb_erase l r)
  /\ rb_keys (rb_erase l r) = rb_keys (RbNode l x r) ∖ {[ vma_addr x ]}
  /\ rb_size (rb_erase l r) = rb_size (RbNode l x r) - 1.
Proof.
  simpl. intros (Hl & Hr & Hlo & Hhi). unfold rb_erase.
  pose proof (rb_first_spec r Hr) as Hf. destruct (rb_first r) as [m |].
  - destruct Hf as (Hs & Hk & Hm & Hsz). simpl.
    assert (vma_addr x < vma_addr m) as Hxm by (apply Hhi; rewrite Hk; set_solver).
    split; [| split; [| lia]].
    + repeat split; try done. intros k Hk'. apply Hlo in Hk'. lia.
    + rewrite Hk. apply set_eq. intros k.
      rewrite !elem_of_union, elem_of_difference, !elem_of_union, !elem_of_singleton.
      split.
      * intros [[Hin | ->] | Hin]; (split; [tauto |]);
          [apply Hlo in Hin; lia | lia | apply Hm in Hin; lia].
      * intros [[[Hin | ->] | [-> | Hin]] Hne]; tauto.
  - subst r. simpl. split; [done |]. split; [| lia].
    apply set_eq. intros k.
    rewrite elem_of_difference, !elem_of_union, !elem_of_singleton.
    split.
    + intros Hin. split; [tauto |]. apply Hlo in Hin. lia.
    + intros [[[Hin | ->] | Hin] Hne]; [done | done | set_solver].
Qed.

Lemma rb_unlink_vma_spec t vma :
  rb_sorted t ->
  match rb_unlink_vma t vma with
  | Some (curr, t') =>
      vma_addr curr = vma_addr vma /\ vma_addr vma ∈ rb_keys t /\ rb_sorted t'
      /\ rb_keys t' = rb_keys t ∖ {[ vma_addr vma ]} /\ rb_size t' = rb_size t - 1
  | None => vma_addr vma ∉ rb_keys t
  end.
Proof.
  induction t as [| l IHl curr r IHr]; simpl; [set_solver |].
  intros (Hl & Hr & Hlo & Hhi).
  destruct (compare_vma_cases curr vma) as [[-> Hc] | [[-> Hc] | [-> Hc]]]; simpl.
  - specialize (IHl Hl). destruct (rb_unlink_vma l vma) as [[c l'] |].
    + destruct IHl as (Hca & Hin & Hs & Hk & Hsz).
      split; [done |]. split; [set_solver |]. split; [| split; [| simpl; lia]].
      * simpl. repeat split; try done. intros k. rewrite Hk. set_solver.
      * simpl. rewrite Hk. apply set_eq. intros k.
        rewrite !elem_of_union, !elem_of_difference, !elem_of_union, !elem_of_singleton.
        split.
        -- intros [[[Hin' Hne] | ->] | Hin']; (split; [tauto |]);
             [done | lia | apply Hhi in Hin'; lia].
        -- intros [[[Hin' | ->] | Hin'] Hne]; tauto.
    + intros [[Hin | Hin%elem_of_singleton]%elem_of_union | Hin]%elem_of_union;
        [done | lia | apply Hhi in Hin; lia].
  - specialize (IHr Hr). destruct (rb_unlink_vma r vma) as [[c r'] |].
    + destruct IHr as (Hca & Hin & Hs & Hk & Hsz).
      split; [done |]. split; [set_solver |]. split; [| split; [| simpl; lia]].
      * simpl. repeat split; try done. intros k. rewrite Hk. set_solver.
      * simpl. rewrite Hk. apply set_eq. intros k.
        rewrite !elem_of_union, !elem_of_difference, !elem_of_union, !elem_of_singleton.
        split.
        -- intros [[Hin' | ->] | [Hin' Hne]]; (split; [tauto |]);
             [apply Hlo in Hin'; lia | lia | done].
        -- intros [[[Hin' | ->] | Hin'] Hne]; tauto.
    + intros [[Hin | Hin%elem_of_singleton]%elem_of_union | Hin]%elem_of_union;
        [apply Hlo in Hin; lia | lia | done].
  - destruct (rb_erase_spec l curr r) as (Hs & Hk & Hsz); [by simpl |].
    split; [done |]. split; [rewrite Hc; set_solver |].
    split; [done |]. split; [by rewrite Hc | done].
Qed.

Lemma registry_link v t :
  registry_ok v -> rb_sorted t -> rb_size t = rb_size (vma_tree v) + 1 ->
  registry_ok {| vma_tree := t; num_vmas := num_vmas v + 1;
                 mmap_sih_list := if num_vmas v + 1 =? 1 then mmap_sih_list v + 1
                                  else mmap_sih_list v |}.
Proof.
  intros (Hs & Hn & Hl) Ht Hsz. pose proof (rb_size_nonneg (vma_tree v)).
  unfold registry_ok. simpl. split; [done |]. split; [lia |].
  rewrite Hl. destruct (Z.eqb_spec (num_vmas v) 0), (Z.eqb_spec (num_vmas v + 1) 1),
    (Z.eqb_spec (num_vmas v + 1) 0); lia.
Qed.

Lemma registry_unlink v t :
  registry_ok v -> rb_sorted t -> rb_size t = rb_size (vma_tree v) - 1 ->
  registry_ok {| vma_tree := t; num_vmas := num_vmas v - 1;
                 mmap_sih_list := if num_vmas v - 1 =? 0 then mmap_sih_list v - 1
                                  else mmap_sih_list v |}.
Proof.
  intros (Hs & Hn & Hl) Ht Hsz. pose proof (rb_size_nonneg t).
  unfold registry_ok. simpl. split; [done |]. split; [lia |].
  rewrite Hl. destruct (Z.eqb_spec (num_vmas v) 0), (Z.eqb_spec (num_vmas v - 1) 0); lia.
Qed.

Lemma insert_vma_cases mmap_cow MMAP_WRITE nova_append_mmap_entry item_ok s v vma :
  registry_ok v ->
  let r := nova_insert_write_vma mmap_cow MMAP_WRITE nova_append_mmap_entry
             item_ok s v vma in
  (r.1.2 = v /\ (r.2 = 0 -> item_ok = true ->
                 negb ((mmap_cow =? 0) && (data_csum s =? 0) && (data_parity s =? 0)) = true ->
                 Z.land (vma_flags vma) (Z.lor VM_SHARED VM_WRITE) = Z.lor VM_SHARED VM_WRITE ->
                 tracked v vma))
  \/ (r.2 = 0 /\ ~ tracked v vma /\ registry_ok r.1.2
      /\ rb_keys (vma_tree r.1.2) = rb_keys (vma_tree v) ∪ {[ vma_addr vma ]}
      /\ num_vmas r.1.2 = num_vmas v + 1).
Proof.
  intros Hok. unfold nova_insert_write_vma. cbv zeta.
  destruct ((mmap_cow =? 0) && (data_csum s =? 0) && (data_parity s =? 0)) eqn:Ecfg;
    [left; split; [done |]; by intros |].
  destruct (Z.eqb_spec (Z.land (vma_flags vma) (Z.lor VM_SHARED VM_WRITE))
              (Z.lor VM_SHARED VM_WRITE)) as [Hfl | Hfl];
    simpl negb; cbv iota; [| left; split; [done |]; by intros].
  destruct item_ok; simpl negb; cbv iota; [| left; split; [done |]; by intros].
  destruct (nova_append_write_mmap_to_log _ _ _ _) as [s1 ret].
  destruct (Z.eqb_spec ret 0) as [-> | Hret]; simpl negb; cbv iota;
    [| left; split; [done |]; simpl; by intros].
  pose proof (rb_link_vma_spec (vma_tree v) vma (proj1 Hok)) as Hlink.
  destruct (rb_link_vma (vma_tree v) vma) as [t |].
  - destruct Hlink as (Hnin & Hs & Hk & Hsz). right. simpl.
    split; [done |]. split; [done |]. split; [by apply registry_link |]. done.
  - left. split; [done |]. by intros.
Qed.

Lemma remove_vma_cases mmap_cow nova_reset_vma_csum_parity s v vma :
  registry_ok v ->
  negb ((mmap_cow =? 0) && (data_csum s =? 0) && (data_parity s =? 0)) = true ->
  let r := nova_remove_write_vma mmap_cow nova_reset_vma_csum_parity s v vma in
  r.2 = 0 /\ registry_ok r.1.2
  /\ rb_keys (vma_tree r.1.2) = rb_keys (vma_tree v) ∖ {[ vma_addr vma ]}
  /\ ((tracked v vma /\ num_vmas r.1.2 = num_vmas v - 1)
      \/ (~ tracked v vma /\ r.1.2 = v)).
Proof.
  intros Hok Hcfg. unfold nova_remove_write_vma. cbv zeta.
  apply negb_true_iff in Hcfg. rewrite Hcfg.
  pose proof (rb_unlink_vma_spec (vma_tree v) vma (proj1 Hok)) as Hun.
  destruct (rb_unlink_vma (vma_tree v) vma) as [[curr t] |]; simpl.
  - destruct Hun as (Hc & Hin & Hs & Hk & Hsz).
    split; [done |]. split; [by apply registry_unlink |]. split; [done |]. by left.
  - split; [done |]. split; [done |]. split; [set_solver |]. by right.
Qed.

(** X16. The registry stays consistent: after [nova_insert_write_vma] and
    after [nova_remove_write_vma], whatever they answer, the tree is a
    search tree, [num_vmas] is the number of its items, and the inode is
    linked on [mmap_sih_list] once when there is a mapping and not at all
    when there is none. *)
Theorem vma_registry_stays_consistent
    (mmap_cow MMAP_WRITE : Z)
    (nova_append_mmap_entry :
       nova_state -> nova_mmap_entry -> nova_inode_update
       -> nova_state * nova_inode_update * Z)
    (nova_reset_vma_csum_parity : nova_state -> vm_area_struct -> nova_state)
    (item_ok : bool) (s : nova_state) (v : vma_state) (vma : vm_area_struct) :
  registry_ok v ->
  registry_ok
    (nova_insert_write_vma mmap_cow MMAP_WRITE nova_append_mmap_entry item_ok s v vma).1.2
  /\ registry_ok (nova_remove_write_vma mmap_cow nova_reset_vma_csum_parity s v vma).1.2.
Proof.
  intros Hok. split.
  - destruct (insert_vma_cases mmap_cow MMAP_WRITE nova_append_mmap_entry item_ok s v vma Hok)
      as [[-> _] | (_ & _ & H & _)]; done.
  - destruct (negb ((mmap_cow =? 0) && (data_csum s =? 0) && (data_parity s =? 0))) eqn:Ecfg.
    + by destruct (remove_vma_cases mmap_cow nova_reset_vma_csum_parity s v vma Hok Ecfg)
        as (_ & H & _).
    + unfold nova_remove_write_vma. apply negb_false_iff in Ecfg. by rewrite Ecfg.
Qed.

(** X17. With the tracking switched on, a writable shared mapping whose item
    could be allocated and logged is tracked after
    [nova_insert_write_vma] returns 0: the tracked addresses are the old
    ones and the new one; a mapping that was tracked already leaves the
    registry as it was, and a new one is counted once. *)
Theorem insert_write_vma_tracks_mapping
    (mmap_cow MMAP_WRITE : Z)
    (nova_append_mmap_entry :
       nova_state -> nova_mmap_entry -> nova_inode_update
       -> nova_state * nova_inode_update * Z)
    (s : nova_state) (v : vma_state) (vma : vm_area_struct) :
  let r := nova_insert_write_vma mmap_cow MMAP_WRITE nova_append_mmap_entry true s v vma in
  registry_ok v ->
  mmap_cow <> 0 \/ data_csum s <> 0 \/ data_parity s <> 0 ->
  Z.land (vma_flags vma) (Z.lor VM_SHARED VM_WRITE) = Z.lor VM_SHARED VM_WRITE ->
  r.2 = 0 ->
  tracked r.1.2 vma
  /\ rb_keys (vma_tree r.1.2) = rb_keys (vma_tree v) ∪ {[ vma_addr vma ]}
  /\ (tracked v vma -> r.1.2 = v)
  /\ (~ tracked v vma -> num_vmas r.1.2 = num_vmas v + 1).
Proof.
  intros r Hok Hcfg Hfl Hret.
  assert (negb ((mmap_cow =? 0) && (data_csum s =? 0) && (data_parity s =? 0)) = true)
    as Hcfg'.
  { apply negb_true_iff, not_true_iff_false. rewrite !andb_true_iff. lia. }
  subst r.
  destruct (insert_vma_cases mmap_cow MMAP_WRITE nova_append_mmap_entry true s v vma Hok)
    as [[Hv Ht] | (_ & Hnt & _ & Hk & Hn)].
  - specialize (Ht Hret eq_refl Hcfg' Hfl). rewrite Hv.
    split; [done |]. split; [unfold tracked in Ht; set_solver |]. done.
  - split; [unfold tracked; rewrite Hk; set_solver |]. split; [done |].
    split; [done | by intros].
Qed.


(** Example registry: one tracked mapping at address 4096; logging of
    mmap entries always succeeds and the reset of integrity codes does
    nothing. *)
Definition ex_vma (a : Z) : vm_area_struct :=
  {| vma_addr := a; vma_start := 0; vma_end := 8192; vma_pgoff := 0; vma_flags := 10 |}.

Definition ex_registry : vma_state :=
  {| vma_tree := RbNode RbNil (ex_vma 4096) RbNil; num_vmas := 1; mmap_sih_list := 1 |}.

Definition ex_append_mmap (s : nova_state) (d : nova_mmap_entry) (u : nova_inode_update)
    : nova_state * nova_inode_update * Z := (s, u, 0).

Definition ex_reset_csum (s : nova_state) (vma : vm_area_struct) : nova_state := s.

Definition ex_inserted : nova_state * vma_state * Z :=
  nova_insert_write_vma 1 5 ex_append_mmap true ex_block_A ex_registry (ex_vma 100).

Lemma ex_registry_ok : registry_ok ex_registry.
Proof.
  unfold registry_ok. simpl. split; [| done].
  split; [done |]. split; [done |]. split; intros k Hk; set_solver.
Qed.

Lemma vma_registry_stays_consistent_witness :
  registry_ok
    (nova_insert_write_vma 1 5 ex_append_mmap true ex_block_A ex_registry (ex_vma 100)).1.2
  /\ registry_ok (nova_remove_write_vma 1 ex_reset_csum ex_block_A ex_registry (ex_vma 100)).1.2.
Proof.
  apply (vma_registry_stays_consistent 1 5 ex_append_mmap ex_reset_csum true ex_block_A
           ex_registry (ex_vma 100)).
  exact ex_registry_ok.
Defined.

Lemma insert_write_vma_tracks_mapping_witness :
  tracked ex_inserted.1.2 (ex_vma 100)
  /\ rb_keys (vma_tree ex_inserted.1.2)
     = rb_keys (vma_tree ex_registry) ∪ {[ vma_addr (ex_vma 100) ]}
  /\ (tracked ex_registry (ex_vma 100) -> ex_inserted.1.2 = ex_registry)
  /\ (~ tracked ex_registry (ex_vma 100) ->
      num_vmas ex_inserted.1.2 = num_vmas ex_registry + 1).
Proof.
  apply (insert_write_vma_tracks_mapping 1 5 ex_append_mmap ex_block_A ex_registry
           (ex_vma 100)).
  - exact ex_registry_ok.
  - left. lia.
  - reflexivity.
  - reflexivity.
Defined.



(** ** The integrity codes that [nova_protect_file_data] stores *)

(** The byte at offset [i] of the block image of page [pg] for a write of
    [count] bytes at [pos] from the user buffer at [boff]: the user's
    byte inside the write window, the old byte of the page (zero for a
    hole) outside it. *)
Definition protect_byte (s : nova_state) (u : ubuf) (boff pos count pg i : Z) : byte :=
  let x := pg * 4096 + i in
  if (pos <=? x) && (x <? pos + count) then ub_byte u (boff + (x - pos))
  else old_byte s pg i.

Definition protect_image (s : nova_state) (u : ubuf) (boff pos count pg : Z) : list byte :=
  map (protect_byte s u boff pos count pg) (seqZ 0 4096).

(** The states that differ from [s] in the checksum store only. *)
Definition csums_only (s s' : nova_state) : Prop := s' = set_csums (csums s') s.

Lemma csums_only_refl s : csums_only s s.
Proof. unfold csums_only. by destruct s. Qed.

Lemma csums_only_update csum_of s s1 buf b :
  csums_only s s1 -> csums_only s (nova_update_block_csum_parity csum_of s1 buf b).
Proof.
  unfold csums_only, nova_update_block_csum_parity. intros ->. simpl.
  by destruct (data_csum s >? 0).
Qed.

Lemma update_csum_lookup csum_of s1 buf b b' :
  data_csum s1 > 0 ->
  csums (nova_update_block_csum_parity csum_of s1 buf b) !! b'
  = if decide (b' = b) then Some (csum_of (mem_load buf 0 PAGE_SIZE)) else csums s1 !! b'.
Proof.
  intros H. unfold nova_update_block_csum_parity.
  assert ((data_csum s1 >? 0) = true) as -> by lia. simpl.
  destruct (decide (b' = b)) as [-> | Hne];
    [by rewrite lookup_insert_eq | by rewrite lookup_insert_ne].
Qed.

Lemma protect_old_bytes_inr csum_of s s1 buf blk from len inplace buf' :
  csums_only s s1 ->
  protect_old_bytes csum_of s1 buf blk from len inplace = inr buf' ->
  forall i, buf' i = if (from <=? i) && (i <? from + len)
                        && negb (nova_get_write_entry s blk =? 0)
                     then old_byte s blk i else buf i.
Proof.
  intros Hs1. unfold protect_old_bytes. cbv zeta.
  assert (nova_get_write_entry s1 blk = nova_get_write_entry s blk) as ->
    by (rewrite Hs1; done).
  assert (entry_at s1 (nova_get_write_entry s blk) = entry_at s (nova_get_write_entry s blk))
    as -> by (rewrite Hs1; done).
  assert (pmem s1 = pmem s) as -> by (rewrite Hs1; done).
  unfold old_byte. cbv zeta.
  destruct (nova_get_write_entry s blk =? 0).
  - intros [= <-] i. by rewrite andb_false_r.
  - destruct (_ && _); [done |]. intros [= <-] i.
    unfold mem_store. rewrite get_block_off_eq, andb_true_r.
    destruct (_ && _); [| done]. f_equal. lia.
Qed.

Section Protect.

Variable csum_of : list byte -> Z.
Variables (s : nova_state) (u : ubuf) (boff pos count blocknr : Z).

Hypothesis Hcsum : data_csum s > 0.
Hypothesis Hpos : 0 <= pos.
Hypothesis Hcount : 0 < count < 2 ^ 62.

Let offset := pos mod 4096.
Let first_pg := pos / 4096.
Let nb := (offset + count - 1) / 4096 + 1.

Local Abbreviation image := (protect_image s u boff pos count).
Local Abbreviation byte_of := (protect_byte s u boff pos count).

(** The loop state before the code of block [j] is stored: the buffer
    holds the image of the block, and the blocks before it have their
    codes. *)
Record protect_inv (s1 : nova_state) (l : pr_locals) (j : Z) : Prop := {
  pi_state : csums_only s s1;
  pi_j : 0 <= j < nb - 1;
  pi_blocknr : p_blocknr l = blocknr + j;
  pi_end : p_pos l + p_bytes l = (first_pg + j + 1) * 4096;
  pi_pos : pos <= p_pos l;
  pi_boff : p_boff l = boff + (p_pos l - pos);
  pi_count : p_count l = pos + count - p_pos l;
  pi_buf : forall i, 0 <= i < 4096 -> p_buf l i = byte_of (first_pg + j) i;
  pi_done : forall k, 0 <= k < j ->
            csums s1 !! (blocknr + k) = Some (csum_of (image (first_pg + k)));
  pi_other : forall b, ~ (blocknr <= b < blocknr + j) -> csums s1 !! b = csums s !! b
}.

Lemma image_of_buf buf pg :
  (forall i, 0 <= i < 4096 -> buf i = byte_of pg i) ->
  mem_load buf 0 PAGE_SIZE = image pg.
Proof.
  intros H. unfold protect_image. apply mem_load_ext. intros k Hk. simpl.
  apply H. unfold PAGE_SIZE in Hk. lia.
Qed.

Lemma protect_loop_spec fuel : forall s1 l j s' l',
  protect_inv s1 l j ->
  protect_loop csum_of fuel s1 u l = Some (s', l', 0) ->
  csums_only s s'
  /\ p_blocknr l' = blocknr + nb - 1
  /\ p_pos l' = (first_pg + nb - 1) * 4096
  /\ p_count l' = pos + count - p_pos l'
  /\ (forall i, 0 <= i < p_count l' -> p_buf l' i = byte_of (first_pg + nb - 1) i)
  /\ (forall k, 0 <= k < nb - 1 ->
        csums s' !! (blocknr + k) = Some (csum_of (image (first_pg + k))))
  /\ (forall b, ~ (blocknr <= b < blocknr + nb - 1) -> csums s' !! b = csums s !! b).
Proof.
  induction fuel as [| fuel IH]; intros s1 l j s' l' Hinv; simpl; [done |].
  destruct Hinv as [Hst Hj Hb He Hp Ho Hc Hbuf Hdone Hother].
  assert (data_csum s1 > 0) as Hcs1 by (rewrite Hst; done).
  set (s2 := nova_update_block_csum_parity csum_of s1 (p_buf l) (p_blocknr l)).
  assert (csums_only s s2) as Hst2 by (by apply csums_only_update).
  assert (forall b, csums s2 !! b
                    = if decide (b = blocknr + j) then Some (csum_of (image (first_pg + j)))
                      else csums s1 !! b) as Hcs2.
  { intros b. subst s2. rewrite update_csum_lookup by done. rewrite Hb.
    destruct (decide _); [| done]. f_equal. f_equal. by apply image_of_buf. }
  assert (offset + count - 1 >= (nb - 1) * 4096 /\ offset + count - 1 < nb * 4096
          /\ pos = first_pg * 4096 + offset /\ 0 <= offset < 4096) as (Hn1 & Hn2 & Hpo & Hoff).
  { unfold nb, offset, first_pg. lia. }
  assert (p_count l - p_bytes l = offset + count - (j + 1) * 4096) as Hrem by lia.
  rewrite (ulong_small (p_count l - p_bytes l)) by lia.
  set (cnt := p_count l - p_bytes l) in *.
  set (bytes := if cnt <? s_blocksize then cnt else s_blocksize).
  assert (0 < bytes <= 4096 /\ bytes <= cnt /\ (cnt >= 4096 -> bytes = 4096)
          /\ (cnt <= 4096 -> bytes = cnt)) as Hbytes.
  { subst bytes. unfold s_blocksize. destruct (Z.ltb_spec cnt 4096); lia. }
  set (ok := user_copy_ok u (p_boff l + p_bytes l) bytes).
  destruct (Z.eqb_spec (bytes - ok) 0) as [Hok | Hok]; simpl negb; cbv iota;
    [| intros [= _ _ Hret]; unfold EFAULT in Hret; lia].
  assert (ok = bytes) as Hok' by lia.
  set (buf' := mem_store (p_buf l) 0 (ub_byte u) (p_boff l + p_bytes l) ok).
  assert (forall i, 0 <= i < bytes -> buf' i = byte_of (first_pg + j + 1) i) as Hbuf'.
  { intros i Hi. subst buf'. unfold mem_store, protect_byte. cbv zeta.
    rewrite Hok'.
    assert ((0 <=? i) && (i <? 0 + bytes) = true) as -> by lia.
    assert ((pos <=? (first_pg + j + 1) * 4096 + i)
            && ((first_pg + j + 1) * 4096 + i <? pos + count) = true) as -> by lia.
    f_equal. lia. }
  unfold s_blocksize. destruct (Z.gtb_spec cnt 4096) as [Hmore | Hlast].
  - intros Hloop. eapply (IH _ _ (j + 1)) in Hloop; [exact Hloop |].
    split; simpl; try done; try lia.
    + intros i Hi. replace (first_pg + (j + 1)) with (first_pg + j + 1) by lia.
      apply Hbuf'. lia.
    + intros k Hk. rewrite Hcs2. destruct (decide _) as [Heq | Hne].
      * by replace k with j by lia.
      * apply Hdone. lia.
    + intros b Hb'. rewrite Hcs2. destruct (decide _); [lia |]. apply Hother. lia.
  - intros [= <- <-]. simpl.
    assert (j = nb - 2) as Hjn by lia.
    split; [done |]. split; [lia |]. split; [lia |]. split; [lia |].
    split; [| split].
    + intros i Hi. replace (first_pg + nb - 1) with (first_pg + j + 1) by lia.
      apply Hbuf'. lia.
    + intros k Hk. rewrite Hcs2. destruct (decide _) as [Heq | Hne].
      * by replace k with j by lia.
      * apply Hdone. lia.
    + intros b Hb'. rewrite Hcs2. destruct (decide _); [lia |]. apply Hother. lia.
Qed.

End Protect.

(** X19. When [nova_protect_file_data] succeeds with data checksums on, the
    code it has stored for every block of the run is the checksum of the
    whole block image: the user's bytes inside the write window, and
    outside it the old bytes of the page, or zeros for a hole; the codes
    of other blocks and all the rest of the state are as before. *)
Theorem protect_stores_codes_of_block_images
    (csum_of : list byte -> Z) (fuel : nat) (s : nova_state) (u : ubuf)
    (boff pos count blocknr : Z) (inplace : bool) (s' : nova_state) :
  let nb := (pos mod 4096 + count - 1) / 4096 + 1 in
  data_csum s > 0 -> 0 <= pos -> 0 < count < 2 ^ 62 ->
  nova_protect_file_data csum_of fuel s u boff pos count blocknr inplace = Some (s', 0) ->
  csums_only s s'
  /\ (forall k, 0 <= k < nb ->
        csums s' !! (blocknr + k)
        = Some (csum_of (protect_image s u boff pos count (pos / 4096 + k))))
  /\ (forall b, ~ (blocknr <= b < blocknr + nb) -> csums s' !! b = csums s !! b).
Proof.
  intros nb Hcsum Hpos Hcount. unfold nova_protect_file_data. cbv zeta.
  rewrite land_blocksize, shiftr_blocksize_bits.
  set (offset := pos mod 4096). set (first_pg := pos / 4096).
  assert (0 <= offset < 4096 /\ pos = first_pg * 4096 + offset) as [Hoff Hpo]
    by (unfold offset, first_pg; lia).
  rewrite (ulong_small (offset + count - 1)) by lia.
  rewrite shiftr_blocksize_bits. fold nb.
  assert (1 <= nb /\ (nb - 1) * 4096 <= offset + count - 1 < nb * 4096) as [Hnb1 Hnb]
    by (unfold nb; fold offset; lia).
  destruct (negb (kzalloc_ok s)); [intros [= _ H]; unfold ENOMEM in H; lia |].
  unfold s_blocksize. rewrite (ulong_small (4096 - offset)) by lia.
  set (bytes0 := if 4096 - offset >? count then count else 4096 - offset).
  assert (bytes0 = Z.min (4096 - offset) count) as Hb0
    by (subst bytes0; destruct (Z.gtb_spec (4096 - offset) count); lia).
  set (ok := user_copy_ok u boff bytes0).
  destruct (Z.eqb_spec (bytes0 - ok) 0) as [Hok | Hok]; simpl negb; cbv iota;
    [| intros [= _ H]; unfold EFAULT in H; lia].
  assert (ok = bytes0) as Hok' by lia.
  set (buf0 := mem_store (fun _ => x00) offset (ub_byte u) boff ok).
  change ((offset + count - 1) / 4096 + 1) with nb.
  assert (forall x, Z.land x (4096 - 1) = x mod 4096) as Hland.
  { intros x. change (4096 - 1) with (Z.ones 12). by rewrite Z.land_ones. }
  (* the first block *)
  destruct (if negb (offset =? 0) then _ else _) as [r | buf1] eqn:Eh.
  { intros [= _ H]. destruct (negb _) in Eh; [| done].
    apply protect_old_bytes_ret in Eh. lia. }
  assert ((forall i, 0 <= i < offset + bytes0 ->
             buf1 i = protect_byte s u boff pos count first_pg i)
          /\ (forall i, offset + bytes0 <= i -> buf1 i = x00)) as [Hhead Hzero].
  { assert (forall i, buf0 i = if (offset <=? i) && (i <? offset + bytes0)
                               then ub_byte u (boff + (i - offset)) else x00) as Hbuf0.
    { intros i. subst buf0. unfold mem_store. by rewrite Hok'. }
    assert (forall i, buf1 i = if (0 <=? i) && (i <? offset)
                                  && negb (nova_get_write_entry s first_pg =? 0)
                               then old_byte s first_pg i else buf0 i) as Hbuf1.
    { destruct (Z.eqb_spec offset 0) as [H0 | H0]; simpl in Eh.
      - inversion Eh; subst buf1. intros i.
        assert ((0 <=? i) && (i <? offset) = false) as -> by lia. done.
      - intros i. rewrite (protect_old_bytes_inr _ s s _ _ _ _ _ _ (csums_only_refl s) Eh).
        by rewrite Z.add_0_l. }
    split.
    - intros i Hi. rewrite Hbuf1, Hbuf0. unfold protect_byte. cbv zeta.
      destruct (Z.ltb_spec i offset) as [Hlt | Hge].
      + assert ((pos <=? first_pg * 4096 + i) && (first_pg * 4096 + i <? pos + count) = false)
          as -> by lia.
        assert ((0 <=? i) = true) as -> by lia. simpl.
        assert ((offset <=? i) && (i <? offset + bytes0) = false) as -> by lia.
        unfold old_byte. cbv zeta. by destruct (nova_get_write_entry s first_pg =? 0).
      + rewrite andb_false_r. simpl.
        assert ((offset <=? i) && (i <? offset + bytes0) = true) as -> by lia.
        assert ((pos <=? first_pg * 4096 + i) && (first_pg * 4096 + i <? pos + count) = true)
          as -> by lia.
        f_equal. lia.
    - intros i Hi. rewrite Hbuf1, Hbuf0.
      assert ((0 <=? i) && (i <? offset) = false) as -> by lia. simpl.
      by assert ((offset <=? i) && (i <? offset + bytes0) = false) as -> by lia. }
  (* the tail of the last block *)
  assert (forall s1 l (tailbuf : Z -> byte) (eblk : Z),
            csums_only s s1 -> eblk = (pos + count) mod 4096 ->
            (forall i, 0 <= i < (if eblk =? 0 then 4096 else eblk) ->
                       p_buf l i = protect_byte s u boff pos count (first_pg + nb - 1) i) ->
            (nb = 1 -> eblk <> 0 -> forall i, eblk <= i -> p_buf l i = x00) ->
            (if negb (eblk =? 0)
             then match protect_old_bytes csum_of s1 (p_buf l) (first_pg + nb - 1) eblk
                          (4096 - eblk) inplace with
                  | inl ret => inl ret
                  | inr buf =>
                      if (nova_get_write_entry s1 (first_pg + nb - 1) =? 0) && (nb >? 1)
                      then inr (mem_zero buf eblk (4096 - eblk))
                      else inr buf
                  end
             else inr (p_buf l)) = inr tailbuf ->
            forall i, 0 <= i < 4096 ->
                      tailbuf i = protect_byte s u boff pos count (first_pg + nb - 1) i)
    as Htail.
  { intros s1 l tailbuf eblk Hs1 He Hwin Hz.
    destruct (Z.eqb_spec eblk 0) as [E0 | E0]; simpl negb; cbv iota.
    { intros [= <-] i Hi. by apply Hwin. }
    destruct (protect_old_bytes csum_of s1 (p_buf l) (first_pg + nb - 1) eblk
                (4096 - eblk) inplace) as [r | buf2] eqn:Et; [by intros [=] |].
    pose proof (protect_old_bytes_inr _ s s1 _ _ _ _ _ _ Hs1 Et) as Hbuf2.
    assert (nova_get_write_entry s1 (first_pg + nb - 1)
            = nova_get_write_entry s (first_pg + nb - 1)) as -> by (rewrite Hs1; done).
    assert (forall i, eblk <= i < 4096 ->
              protect_byte s u boff pos count (first_pg + nb - 1) i
              = old_byte s (first_pg + nb - 1) i) as Hold.
    { intros i Hi. unfold protect_byte. cbv zeta.
      by assert ((pos <=? (first_pg + nb - 1) * 4096 + i)
                 && ((first_pg + nb - 1) * 4096 + i <? pos + count) = false) as -> by lia. }
    intros Hres i Hi.
    destruct (Z.ltb_spec i eblk) as [Hlt | Hge].
    - assert (tailbuf i = buf2 i) as ->.
      { destruct (_ && _) in Hres; inversion Hres; subst tailbuf; [| done].
        unfold mem_zero. by assert ((eblk <=? i) && (i <? eblk + (4096 - eblk)) = false)
          as -> by lia. }
      rewrite Hbuf2. assert ((eblk <=? i) = false) as -> by lia. simpl. apply Hwin. lia.
    - rewrite Hold by lia.
      destruct (Z.eqb_spec (nova_get_write_entry s (first_pg + nb - 1)) 0) as [Hn | Hn].
      + assert (old_byte s (first_pg + nb - 1) i = x00) as ->
          by (unfold old_byte; cbv zeta; by rewrite Hn).
        destruct (Z.gtb_spec nb 1) as [Hnb2 | Hnb2]; simpl in Hres;
          inversion Hres; subst tailbuf.
        * unfold mem_zero. by assert ((eblk <=? i) && (i <? eblk + (4096 - eblk)) = true)
            as -> by lia.
        * rewrite Hbuf2. rewrite andb_false_r. apply Hz; lia.
      + simpl in Hres. inversion Hres; subst tailbuf. rewrite Hbuf2.
        assert ((eblk <=? i) && (i <? eblk + (4096 - eblk)) = true) as -> by lia.
        simpl. by destruct (nova_get_write_entry s (first_pg + nb - 1) =? 0). }
  assert (forall s1 l r,
            (if negb (Z.land (p_pos l + p_count l) (4096 - 1) =? 0)
             then match protect_old_bytes csum_of s1 (p_buf l) (first_pg + nb - 1)
                          (Z.land (p_pos l + p_count l) (4096 - 1))
                          (4096 - Z.land (p_pos l + p_count l) (4096 - 1)) inplace with
                  | inl ret => inl ret
                  | inr buf =>
                      if (nova_get_write_entry s1 (first_pg + nb - 1) =? 0) && (nb >? 1)
                      then inr (mem_zero buf (Z.land (p_pos l + p_count l) (4096 - 1))
                                  (4096 - Z.land (p_pos l + p_count l) (4096 - 1)))
                      else inr buf
                  end
             else inr (p_buf l)) = inl r -> r < 0) as Herr.
  { intros s1 l r.
    destruct (negb (Z.land (p_pos l + p_count l) (4096 - 1) =? 0)); [| by intros [=]].
    destruct (protect_old_bytes csum_of s1 (p_buf l) (first_pg + nb - 1)
                (Z.land (p_pos l + p_count l) (4096 - 1))
                (4096 - Z.land (p_pos l + p_count l) (4096 - 1)) inplace) as [r0 | b0] eqn:E.
    - intros [= <-]. by apply protect_old_bytes_ret in E.
    - by destruct (_ && _). }
  assert (forall s1 l tb,
            csums_only s s1 -> p_blocknr l = blocknr + nb - 1 ->
            (forall i, 0 <= i < 4096 ->
                       tb i = protect_byte s u boff pos count (first_pg + nb - 1) i) ->
            (forall k, 0 <= k < nb - 1 ->
               csums s1 !! (blocknr + k)
               = Some (csum_of (protect_image s u boff pos count (first_pg + k)))) ->
            (forall b, ~ (blocknr <= b < blocknr + nb - 1) -> csums s1 !! b = csums s !! b) ->
            let s2 := nova_update_block_csum_parity csum_of s1 tb (p_blocknr l) in
            csums_only s s2
            /\ (forall k, 0 <= k < nb ->
                  csums s2 !! (blocknr + k)
                  = Some (csum_of (protect_image s u boff pos count (first_pg + k))))
            /\ (forall b, ~ (blocknr <= b < blocknr + nb) -> csums s2 !! b = csums s !! b))
    as Hfinal.
  { intros s1 l tb Hs1 Hbl Htb Hdone Hother s2.
    assert (data_csum s1 > 0) as Hcs1 by (rewrite Hs1; done).
    split; [by apply csums_only_update |].
    assert (mem_load tb 0 PAGE_SIZE
            = protect_image s u boff pos count (first_pg + nb - 1)) as Himg.
    { unfold protect_image. apply mem_load_ext. intros k Hk. simpl.
      apply Htb. unfold PAGE_SIZE in Hk. lia. }
    split.
    - intros k Hk. subst s2. rewrite update_csum_lookup by done.
      destruct (decide _) as [Heq | Hne].
      + rewrite Himg. by replace (first_pg + k) with (first_pg + nb - 1) by lia.
      + apply Hdone. lia.
    - intros b Hb. subst s2. rewrite update_csum_lookup by done.
      destruct (decide _); [lia |]. apply Hother. lia. }
  destruct (Z.eqb_spec nb 1) as [Hone | Hmany].
  - (* one block *)
    cbv iota beta. simpl negb. cbv iota.
    set (l0 := {| p_buf := buf1 |}).
    destruct (if negb (Z.land (p_pos l0 + p_count l0) (4096 - 1) =? 0) then _ else _)
      as [r | tb] eqn:Et.
    { intros [= _ H]. apply Herr in Et. lia. }
    intros [= <-].
    rewrite Hland in Et. simpl p_pos in Et. simpl p_count in Et.
    apply (Hfinal s l0 tb).
    + apply csums_only_refl.
    + simpl. lia.
    + apply (Htail s l0 tb ((pos + count) mod 4096)); try done.
      * apply csums_only_refl.
      * intros i Hi. simpl. rewrite Hone. replace (first_pg + 1 - 1) with first_pg by lia.
        apply Hhead. destruct (Z.eqb_spec ((pos + count) mod 4096) 0); lia.
      * intros _ Hne i Hi. simpl. apply Hzero. lia.
    + intros k Hk. lia.
    + intros b Hb. done.
  - (* several blocks *)
    destruct (protect_loop csum_of fuel s u _) as [[[s1 l1] ret] |] eqn:El; [| done].
    destruct (Z.eqb_spec ret 0) as [-> | Hret]; simpl negb; cbv iota;
      [| by intros [= _ H]].
    eapply (protect_loop_spec csum_of s u boff pos count blocknr Hcsum Hcount
              fuel s _ 0) in El.
    2:{ split; simpl.
        - apply csums_only_refl.
        - fold offset. fold nb. lia.
        - lia.
        - fold first_pg. lia.
        - lia.
        - lia.
        - lia.
        - intros i Hi. fold first_pg. rewrite Z.add_0_r. apply Hhead. lia.
        - intros k Hk. lia.
        - done. }
    fold offset first_pg in El. fold nb in El.
    destruct El as (Hs1 & Hbl & Hp1 & Hc1 & Hbuf & Hdone & Hother).
    destruct (if negb (Z.land (p_pos l1 + p_count l1) (4096 - 1) =? 0) then _ else _)
      as [r | tb] eqn:Et.
    { intros [= _ H]. apply Herr in Et. lia. }
    intros [= <-].
    rewrite Hland in Et.
    apply (Hfinal s1 l1 tb); try done.
    apply (Htail s1 l1 tb ((p_pos l1 + p_count l1) mod 4096)); try done.
    + rewrite Hc1. f_equal. lia.
    + intros i Hi. apply Hbuf.
      destruct (Z.eqb_spec ((p_pos l1 + p_count l1) mod 4096) 0); lia.
Qed.
Lemma protect_ret_some (r : option (nova_state * Z)) ret :
  snd <$> r = Some ret -> exists s', r = Some (s', ret).
Proof.
  destruct r as [[s' ret'] |]; simpl; [| done].
  intros [= ->]. by exists s'.
Qed.

Lemma protect_stores_codes_of_block_images_witness :
  exists s',
    nova_protect_file_data byte_sum 8 ex_corrupt (ex_user x42 20) 0 10 20 20 false
    = Some (s', 0)
    /\ csums_only ex_corrupt s'
    /\ (forall k, 0 <= k < 1 ->
          csums s' !! (20 + k)
          = Some (byte_sum (protect_image ex_corrupt (ex_user x42 20) 0 10 20 (0 + k))))
    /\ (forall b, ~ (20 <= b < 20 + 1) -> csums s' !! b = csums ex_corrupt !! b).
Proof.
  destruct (protect_ret_some
              (nova_protect_file_data byte_sum 8 ex_corrupt (ex_user x42 20) 0 10 20 20 false)
              0) as [s' E]; [by vm_compute |].
  exists s'. split; [exact E |].
  apply (protect_stores_codes_of_block_images byte_sum 8 ex_corrupt (ex_user x42 20)
           0 10 20 20 false s'); [simpl; lia | lia | lia | exact E].
Defined.
